(** * articy-node: embedded-script parser and localization tables

    A shallow embedding of two source files of the repository:

    - [src/localization.ts]: the [Localization] class (language tables,
      active language, [load] and [get]);
    - the peggy-generated parser for text with embedded directives
      ([peg$parse] and its [peg$parse*] rule functions), together with the
      grammar actions [peg$c0] ... [peg$c48].

    The parser calls [processEmbed] from [./inline_util], which is not part
    of the sources at hand.  The parser is therefore parameterised over it;
    a model of the selection engine written from the specification is given
    separately (module [Engine]) and serves as the concrete collaborator in
    the examples. *)

From Stdlib Require Import NArith Ascii String.
From stdpp Require Import base option list gmap strings sorting.

Local Open Scope N_scope.
Local Open Scope nat_scope.

(** ** JavaScript strings

    A JavaScript string is a sequence of UTF-16 code units.  The parser
    inspects its input one code unit at a time ([charAt], [charCodeAt],
    regular expressions without the [u] flag), so the input is modelled as
    a list of code units. *)

Abbreviation jsstring := (list N).

(** ASCII literals, for readable examples. *)
Definition js (s : string) : jsstring :=
  N_of_ascii <$> list_ascii_of_string s.

(** [input.substring(a, b)]: both indices are clamped to the length and
    swapped when [a > b]. *)
Definition substring (s : jsstring) (a b : nat) : jsstring :=
  let a' := a `min` length s in
  let b' := b `min` length s in
  take (a' `max` b' - a' `min` b') (drop (a' `min` b') s).

(** [input.substr(pos, n)] for non-negative [pos] and [n]. *)
Definition substr (s : jsstring) (pos n : nat) : jsstring :=
  take n (drop pos s).

(** [String.prototype.trim]: removes leading and trailing WhiteSpace and
    LineTerminator code units (ECMAScript: TAB, LF, VT, FF, CR, SP, NBSP,
    the Unicode space separators, LS, PS and ZWNBSP). *)
Definition isTrimmable (c : N) : bool :=
  ((9 <=? c) && (c <=? 13) || (c =? 32) || (c =? 160) || (c =? 5760)
   || (8192 <=? c) && (c <=? 8202) || (c =? 8232) || (c =? 8233)
   || (c =? 8239) || (c =? 8287) || (c =? 12288) || (c =? 65279))%N.

Fixpoint trimStart (s : jsstring) : jsstring :=
  match s with
  | c :: s' => if isTrimmable c then trimStart s' else s
  | [] => []
  end.

Definition trimEnd (s : jsstring) : jsstring := rev (trimStart (rev s)).

Definition trim (s : jsstring) : jsstring := trimEnd (trimStart s).

(** ** Localization ([src/localization.ts]) *)

Module Localization.

(** [type Language = Map<string, string>]; the class keeps
  [languages : Map<string, Language>] and
  [activeLanguage : string | undefined]. *)
Record t := mk {
languages : gmap string (gmap string string);
activeLanguage : option string
}.

(** A freshly constructed [Localization]. *)
Definition new : t := {| languages := ∅; activeLanguage := None |}.

(** [get active()] *)
Definition active (l : t) : option string := activeLanguage l.

(** JavaScript truthiness of a [string | undefined] value: [undefined] and
  the empty string are falsy. *)
Definition truthy (lang : option string) : bool :=
match lang with
| None => false
| Some s => negb (String.eqb s "")
end.

(** [set active(lang)]: throws unless [lang] is truthy and loaded.  [None]
  stands for the thrown [Error]. *)
Definition set_active (lang : option string) (l : t) : option t :=
match lang with
| Some s =>
    if truthy lang && bool_decide (is_Some (languages l !! s))
    then Some {| languages := languages l; activeLanguage := Some s |}
    else None
| None => None
end.

(** [load(language, data)].  The [for (const key in data)] loop copies
  every entry of [data] into a fresh [Map]; then the map is stored under
  [language], and the active language is set if there was none. *)
Definition load (language : string) (data : gmap string string) (l : t) : t :=
let map := map_fold (λ key v (m : gmap string string), <[key := v]> m) ∅ data in
{| languages := <[language := map]> (languages l);
   activeLanguage :=
     match activeLanguage l with
     | None => Some language
     | Some a => Some a
     end |}.

(** [get(id, language?)]: [language ?? this.activeLanguage], then the
  falsy check [!lang], then the two chained lookups. *)
Definition get (id : string) (language : option string) (l : t) : option string :=
let lang := match language with Some x => Some x | None => activeLanguage l end in
if negb (truthy lang) then None
else
  match lang with
  | Some lg =>
      match languages l !! lg with
      | Some table => table !! id
      | None => None
      end
  | None => None
  end.

End Localization.

(** ** Parser data model *)

(** [IFilePosition] and [IFileRange]. *)
Record IFilePosition := mkPos { offset : nat; line : nat; column : nat }.
Record IFileRange := mkRange { start : IFilePosition; end_ : IFilePosition }.

(** The [{ line, column }] objects of [peg$posDetailsCache]. *)
Record PosDetails := mkDetails { details_line : nat; details_column : nat }.

(** [Expectation] (the variants the parser builds). *)
Inductive Expectation :=
| LiteralExpectation (text : jsstring) (ignoreCase : bool)
| ClassExpectation (parts : list jsstring) (inverted ignoreCase : bool)
| AnyExpectation
| EndExpectation
| OtherExpectation (description : jsstring).

(** [SyntaxError]: the [message] is computed from [expected] and [found] by
    [buildMessage] and is not modelled. *)
Record SyntaxError := mkSyntaxError {
  err_expected : list Expectation;
  err_found : option jsstring;
  err_location : IFileRange
}.

(** [SequenceType] and the two embed-type objects built by the actions
    [peg$c16] ... [peg$c31] and [peg$c34]. *)
Inductive SequenceType := Stopping | Shuffle | Cycle | OnlyOnce.

Record ExprEmbed := mkExprEmbed { expr : jsstring; text_ : jsstring }.

Inductive EmbedType :=
| SequenceEmbedType (type : SequenceType)
| ExprEmbedType (e : ExprEmbed).

(** [Argument]: [peg$c38] builds [{ full, location }], [peg$c42] builds
    [{ expr, value, full, location }] when a condition is present. *)
Record Argument := mkArgument {
  arg_expr : option jsstring;
  arg_value : option jsstring;
  arg_full : jsstring;
  arg_location : IFileRange
}.

(** What a call of [processEmbed] does, as far as the parser can tell: it
    returns a string, or it calls the [expected] callback it was handed
    (which throws a [SyntaxError]), or it throws something of its own. *)
Inductive PEResult :=
| PE_return (s : jsstring)
| PE_expected (description : jsstring) (location1 : option IFileRange)
| PE_throw (x : jsstring).

(** What leaves [peg$parse] as an exception: the [SyntaxError] thrown at its
    end when the grammar does not match the whole input, the [SyntaxError]
    thrown by the [expected] callback, or whatever [processEmbed] throws. *)
Inductive Exn :=
| ParseFailure (e : SyntaxError)
| ExpectedError (e : SyntaxError)
| Foreign (x : jsstring).

(** One invocation of [processEmbed], with the span [peg$savedPos,
    peg$currPos) of the directive at the time of the call. *)
Record EmbedCall := mkEmbedCall {
  call_type : option EmbedType;
  call_args : list Argument;
  call_multiline : bool;
  call_from : nat;
  call_to : nat
}.

(** The mutable variables of one [peg$parse] invocation.  [peg_world] is
    whatever [processEmbed] reads and updates through [options].  The last
    two fields are history variables: [peg_failLog] lists every call of
    [peg$fail] with the position it was made at, [peg_embedLog] every call of
    [processEmbed]; no rule reads them.  ([peg$silentFails] stays 0: the
    grammar has no predicates or named rules.) *)
Record PegState (W : Type) := mkPegState {
  peg_currPos : nat;
  peg_savedPos : nat;
  peg_posDetailsCache : gmap nat PosDetails;
  peg_maxFailPos : nat;
  peg_maxFailExpected : list Expectation;
  peg_world : W;
  peg_failLog : list (nat * Expectation);
  peg_embedLog : list EmbedCall
}.
Arguments mkPegState {W}.
Arguments peg_currPos {W}.
Arguments peg_savedPos {W}.
Arguments peg_posDetailsCache {W}.
Arguments peg_maxFailPos {W}.
Arguments peg_maxFailExpected {W}.
Arguments peg_world {W}.
Arguments peg_failLog {W}.
Arguments peg_embedLog {W}.

(** Result of running a piece of the parser: a value and the new state, an
    exception in flight, or no result (the recursion budget ran out, or a
    loop of the source would not terminate). *)
Inductive Outcome (W A : Type) :=
| Ok (a : A) (st : PegState W)
| Throw (e : Exn) (st : PegState W)
| OutOfFuel.
Arguments Ok {W A}.
Arguments Throw {W A}.
Arguments OutOfFuel {W A}.

Definition M (W A : Type) : Type := PegState W → Outcome W A.

#[global] Instance M_ret {W} : MRet (M W) := λ A a st, Ok a st.
#[global] Instance M_bind {W} : MBind (M W) := λ A B f m st,
  match m st with
  | Ok a st' => f a st'
  | Throw e st' => Throw e st'
  | OutOfFuel => OutOfFuel
  end.

Definition outOfFuel {W A} : M W A := λ _, OutOfFuel.
Definition throw {W A} (e : Exn) : M W A := λ st, Throw e st.

(** Reads and writes of the parser variables. *)
Definition getCurrPos {W} : M W nat := λ st, Ok (peg_currPos st) st.
Definition getSavedPos {W} : M W nat := λ st, Ok (peg_savedPos st) st.

Definition setCurrPos {W} (p : nat) : M W unit := λ st,
  Ok () (mkPegState p (peg_savedPos st) (peg_posDetailsCache st)
           (peg_maxFailPos st) (peg_maxFailExpected st) (peg_world st)
           (peg_failLog st) (peg_embedLog st)).

Definition setSavedPos {W} (p : nat) : M W unit := λ st,
  Ok () (mkPegState (peg_currPos st) p (peg_posDetailsCache st)
           (peg_maxFailPos st) (peg_maxFailExpected st) (peg_world st)
           (peg_failLog st) (peg_embedLog st)).

Definition setPosDetails {W} (pos : nat) (d : PosDetails) : M W unit := λ st,
  Ok () (mkPegState (peg_currPos st) (peg_savedPos st)
           (<[pos := d]> (peg_posDetailsCache st))
           (peg_maxFailPos st) (peg_maxFailExpected st) (peg_world st)
           (peg_failLog st) (peg_embedLog st)).

Definition getMaxFailPos {W} : M W nat := λ st, Ok (peg_maxFailPos st) st.
Definition getMaxFailExpected {W} : M W (list Expectation) := λ st,
  Ok (peg_maxFailExpected st) st.

(** [peg$fail(expected1)]. *)
Definition peg_fail {W} (expected1 : Expectation) : M W unit := λ st,
  let log := peg_failLog st ++ [(peg_currPos st, expected1)] in
  if decide (peg_currPos st < peg_maxFailPos st) then
    Ok () (mkPegState (peg_currPos st) (peg_savedPos st) (peg_posDetailsCache st)
             (peg_maxFailPos st) (peg_maxFailExpected st) (peg_world st)
             log (peg_embedLog st))
  else if decide (peg_maxFailPos st < peg_currPos st) then
    Ok () (mkPegState (peg_currPos st) (peg_savedPos st) (peg_posDetailsCache st)
             (peg_currPos st) [expected1] (peg_world st)
             log (peg_embedLog st))
  else
    Ok () (mkPegState (peg_currPos st) (peg_savedPos st) (peg_posDetailsCache st)
             (peg_maxFailPos st) (peg_maxFailExpected st ++ [expected1]) (peg_world st)
             log (peg_embedLog st)).

(** ** Grammar constants

    The regular expressions [peg$c6], [peg$c35], [peg$c46], [peg$c49] and
    [peg$c51] are character classes over single code units; [inClass parts
    inverted] is the test of the class [[parts]] or [[^parts]].  At the end of
    the input [charAt] yields the empty string, which no class matches. *)

Definition inClass (parts : list N) (inverted : bool) (c : N) : bool :=
  xorb inverted (existsb (N.eqb c) parts).

Definition peg_c2 := LiteralExpectation (js "{") false.
Definition peg_c4 := LiteralExpectation (js "}") false.
(** [/^[ \t\n\r]/] *)
Definition peg_c6 : N → bool := inClass [32; 9; 10; 13]%N false.
Definition peg_c7 := ClassExpectation [[32]; [9]; [10]; [13]]%N false false.
Definition peg_c10 := LiteralExpectation [13%N] false.
Definition peg_c12 := LiteralExpectation [10%N] false.
Definition peg_c14 := js "stopping:".
Definition peg_c15 := LiteralExpectation (js "stopping:") false.
Definition peg_c18 := LiteralExpectation (js "~") false.
Definition peg_c19 := js "shuffle:".
Definition peg_c20 := LiteralExpectation (js "shuffle:") false.
Definition peg_c23 := LiteralExpectation (js "&") false.
Definition peg_c24 := js "cycle:".
Definition peg_c25 := LiteralExpectation (js "cycle:") false.
Definition peg_c28 := LiteralExpectation (js "!") false.
Definition peg_c29 := js "once:".
Definition peg_c30 := LiteralExpectation (js "once:") false.
Definition peg_c33 := LiteralExpectation (js ":") false.
(** [/^[^\n|:{}]/] *)
Definition peg_c35 : N → bool := inClass [10; 124; 58; 123; 125]%N true.
Definition peg_c36 := ClassExpectation [[10]; [124]; [58]; [123]; [125]]%N true false.
Definition peg_c40 := LiteralExpectation (js "|") false.
Definition peg_c44 := LiteralExpectation (js "-") false.
(** [/^[^{}\-]/] *)
Definition peg_c46 : N → bool := inClass [123; 125; 45]%N true.
Definition peg_c47 := ClassExpectation [[123]; [125]; [45]]%N true false.
(** [/^[^{}|\r\n]/] *)
Definition peg_c49 : N → bool := inClass [123; 125; 124; 13; 10]%N true.
Definition peg_c50 := ClassExpectation [[123]; [125]; [124]; [13]; [10]]%N true false.
(** [/^[^{}]/] *)
Definition peg_c51 : N → bool := inClass [123; 125]%N true.
Definition peg_c52 := ClassExpectation [[123]; [125]]%N true false.

(** [peg$c0]: [contents.join('')]. *)
Definition peg_c0 (contents : list jsstring) : jsstring := concat contents.

(** [peg$c41]: [first] is an object, hence truthy, and is always pushed;
    [rest[i][1]] is the argument of the i-th [('|' Argument)] pair. *)
Definition peg_c41 (first : Argument) (rest : list (jsstring * Argument)) : list Argument :=
  first :: (snd <$> rest).

(** ** The parser proper *)

Section Parser.
Context {W : Type}.
Variable input : jsstring.
Variable processEmbed : option EmbedType → list Argument → bool → W → PEResult * W.

(** *** Positions *)

(** The inner loop of [peg$computePosDetails]: walk from [p] over [n] code
  units, counting lines at each LF. *)
Fixpoint advanceDetails (n p : nat) (d : PosDetails) : PosDetails :=
match n with
| 0 => d
| S n' =>
    advanceDetails n' (S p)
      (if decide (input !! p = Some 10%N)
       then mkDetails (details_line d + 1) 1
       else mkDetails (details_line d) (details_column d + 1))
end.

(** [p = pos - 1; while (!peg$posDetailsCache[p]) p--].  With nothing
  cached at or below [p] the source loop does not end. *)
Fixpoint nearestCached (cache : gmap nat PosDetails) (p : nat) : option (nat * PosDetails) :=
match cache !! p with
| Some d => Some (p, d)
| None => match p with 0 => None | S p' => nearestCached cache p' end
end.

Definition peg_computePosDetails (pos : nat) : M W PosDetails := λ st,
match peg_posDetailsCache st !! pos with
| Some details => Ok details st
| None =>
    match nearestCached (peg_posDetailsCache st) (pos - 1) with
    | Some (p, details) =>
        let details := advanceDetails (pos - p) p details in
        (setPosDetails pos details ;; mret details) st
    | None => OutOfFuel
    end
end.

Definition peg_computeLocation (startPos endPos : nat) : M W IFileRange :=
startPosDetails ← peg_computePosDetails startPos;
endPosDetails ← peg_computePosDetails endPos;
mret (mkRange
        (mkPos startPos (details_line startPosDetails) (details_column startPosDetails))
        (mkPos endPos (details_line endPosDetails) (details_column endPosDetails))).

(** [text()] and [location()]. *)
Definition text : M W jsstring := λ st,
Ok (substring input (peg_savedPos st) (peg_currPos st)) st.

Definition location : M W IFileRange :=
s ← getSavedPos; c ← getCurrPos; peg_computeLocation s c.

(** [peg$buildStructuredError]. *)
Definition peg_buildStructuredError (expected1 : list Expectation)
  (found : option jsstring) (location1 : IFileRange) : SyntaxError :=
mkSyntaxError expected1 found location1.

(** [expected(description, location1?)], the callback given to
  [processEmbed]. *)
Definition expected {A} (description : jsstring) (location1 : option IFileRange) : M W A :=
location1 ← match location1 with
             | Some l => mret l
             | None => location
             end;
t ← text;
throw (ExpectedError (peg_buildStructuredError [OtherExpectation description] (Some t) location1)).

(** *** Matching primitives *)

(** [if (input.charCodeAt(peg$currPos) === code) { s = lit; peg$currPos++; }
   else { s = peg$FAILED; peg$fail(exp); }] *)
Definition matchCharCode (code : N) (exp : Expectation) : M W (option jsstring) :=
p ← getCurrPos;
if decide (input !! p = Some code)
then setCurrPos (p + 1) ;; mret (Some [code])
else peg_fail exp ;; mret None.

(** [if (input.substr(peg$currPos, n) === lit) { s = lit; peg$currPos += n; }
   else { s = peg$FAILED; peg$fail(exp); }] with [n] the length of [lit]. *)
Definition matchLiteral (lit : jsstring) (exp : Expectation) : M W (option jsstring) :=
p ← getCurrPos;
if decide (substr input p (length lit) = lit)
then setCurrPos (p + length lit) ;; mret (Some lit)
else peg_fail exp ;; mret None.

(** The character-class loops.  [rest] is the input from [peg$currPos] on,
  so its head is [input.charAt(peg$currPos)]; each round tests it, pushes
  it on [s1] and advances.  The loop is left at the first code unit that
  fails the test, or at the end of the input, and that failure is
  reported to [peg$fail]. *)
Fixpoint matchClassLoop (cls : N → bool) (exp : Expectation)
  (rest : jsstring) (s1 : jsstring) : M W jsstring :=
match rest with
| c :: rest' =>
    if cls c
    then p ← getCurrPos; setCurrPos (p + 1) ;; matchClassLoop cls exp rest' (s1 ++ [c])
    else peg_fail exp ;; mret s1
| [] => peg_fail exp ;; mret s1
end.

(** [[class]*]: never fails. *)
Definition matchClassStar (cls : N → bool) (exp : Expectation) : M W jsstring :=
p ← getCurrPos; matchClassLoop cls exp (drop p input) [].

(** [[class]+]: [peg$FAILED] when the first test fails. *)
Definition matchClassPlus (cls : N → bool) (exp : Expectation) : M W (option jsstring) :=
s1 ← matchClassStar cls exp;
mret (match s1 with [] => None | _ => Some s1 end).

(** *** Rules without recursion *)

(** [Text = [^{}]+ { return text(); }] *)
Definition peg_parseText : M W (option jsstring) :=
s0 ← getCurrPos;
s1 ← matchClassPlus peg_c51 peg_c52;
match s1 with
| Some _ => setSavedPos s0 ;; s1 ← text; mret (Some s1)
| None => mret None
end.

(** [InlineText = [^{}|\r\n]+ { return text(); }] *)
Definition peg_parseInlineText : M W (option jsstring) :=
s0 ← getCurrPos;
s1 ← matchClassPlus peg_c49 peg_c50;
match s1 with
| Some _ => setSavedPos s0 ;; s1 ← text; mret (Some s1)
| None => mret None
end.

(** [InlineMultilineText = [^{}-]+ { return text().trim(); }] *)
Definition peg_parseInlineMultilineText : M W (option jsstring) :=
s0 ← getCurrPos;
s1 ← matchClassPlus peg_c46 peg_c47;
match s1 with
| Some _ => setSavedPos s0 ;; s1 ← text; mret (Some (trim s1))
| None => mret None
end.

(** [Whitespace = [ \t\n\r]* { return undefined; }] *)
Definition peg_parseWhitespace : M W (option unit) :=
s0 ← getCurrPos;
matchClassStar peg_c6 peg_c7 ;;
setSavedPos s0 ;;
mret (Some ()).

(** [Newline = '\r'? '\n' { return undefined; }] *)
Definition peg_parseNewline : M W (option unit) :=
s0 ← getCurrPos;
matchCharCode 13 peg_c10 ;;
s2 ← matchCharCode 10 peg_c12;
match s2 with
| Some _ => setSavedPos s0 ;; mret (Some ())
| None => setCurrPos s0 ;; mret None
end.

(** [Stopping_Id = 'stopping:'] *)
Definition peg_parseStopping_Id : M W (option EmbedType) :=
s0 ← getCurrPos;
s1 ← matchLiteral peg_c14 peg_c15;
match s1 with
| Some _ => setSavedPos s0 ;; mret (Some (SequenceEmbedType Stopping))
| None => mret None
end.

(** [Shuffle_Id = ('~' / 'shuffle:')] *)
Definition peg_parseShuffle_Id : M W (option EmbedType) :=
s0 ← getCurrPos;
s1 ← matchCharCode 126 peg_c18;
s1 ← match s1 with None => matchLiteral peg_c19 peg_c20 | Some _ => mret s1 end;
match s1 with
| Some _ => setSavedPos s0 ;; mret (Some (SequenceEmbedType Shuffle))
| None => mret None
end.

(** [Cycle_Id = ('&' / 'cycle:')] *)
Definition peg_parseCycle_Id : M W (option EmbedType) :=
s0 ← getCurrPos;
s1 ← matchCharCode 38 peg_c23;
s1 ← match s1 with None => matchLiteral peg_c24 peg_c25 | Some _ => mret s1 end;
match s1 with
| Some _ => setSavedPos s0 ;; mret (Some (SequenceEmbedType Cycle))
| None => mret None
end.

(** [Once_Only_Id = ('!' / 'once:')] *)
Definition peg_parseOnce_Only_Id : M W (option EmbedType) :=
s0 ← getCurrPos;
s1 ← matchCharCode 33 peg_c28;
s1 ← match s1 with None => matchLiteral peg_c29 peg_c30 | Some _ => mret s1 end;
match s1 with
| Some _ => setSavedPos s0 ;; mret (Some (SequenceEmbedType OnlyOnce))
| None => mret None
end.

(** [Type = Stopping_Id / Shuffle_Id / Cycle_Id / Once_Only_Id] *)
Definition peg_parseType : M W (option EmbedType) :=
s0 ← peg_parseStopping_Id;
match s0 with
| Some _ => mret s0
| None =>
    s0 ← peg_parseShuffle_Id;
    match s0 with
    | Some _ => mret s0
    | None =>
        s0 ← peg_parseCycle_Id;
        match s0 with
        | Some _ => mret s0
        | None => peg_parseOnce_Only_Id
        end
    end
end.

(** [Expression = [^\n|:{}]+ { return text(); }] *)
Definition peg_parseExpression : M W (option jsstring) :=
s0 ← getCurrPos;
s1 ← matchClassPlus peg_c35 peg_c36;
match s1 with
| Some _ => setSavedPos s0 ;; s1 ← text; mret (Some s1)
| None => mret None
end.

(** [Condition = expr:Expression ':' Whitespace
    { return {"expr": expr, "text": text()}; }] *)
Definition peg_parseCondition : M W (option ExprEmbed) :=
s0 ← getCurrPos;
s1 ← peg_parseExpression;
match s1 with
| Some expr =>
    s2 ← matchCharCode 58 peg_c33;
    match s2 with
    | Some _ =>
        s3 ← peg_parseWhitespace;
        match s3 with
        | Some _ => setSavedPos s0 ;; t ← text; mret (Some (mkExprEmbed expr t))
        | None => setCurrPos s0 ;; mret None
        end
    | None => setCurrPos s0 ;; mret None
    end
| None => setCurrPos s0 ;; mret None
end.

(** *** Rules that reach [Embed]

  [peg$parseEmbed] and the rules below call each other.  They are
  written here over [peg_parseEmbed_rec], the [Embed] rule one nesting
  level further down; the knot is tied by [peg_parseEmbed] below. *)

Variable peg_parseEmbed_rec : M W (option jsstring).

(** [while (s !== peg$FAILED) { s1.push(s); s = item(); }].  Every round
  that stays in the loop has consumed input, so [length input + 1]
  rounds are never used up ([loop_budget_suffices]). *)
Fixpoint repeatLoop {A} (item : M W (option A)) (n : nat)
  (s1 : list A) (s : option A) : M W (list A) :=
match s with
| None => mret s1
| Some v =>
    match n with
    | 0 => outOfFuel
    | S n' => s' ← item; repeatLoop item n' (s1 ++ [v]) s'
    end
end.

Definition loopFuel : nat := S (length input).

(** [s2 = item(); if (s2 === peg$FAILED) { s2 = peg$parseEmbed(); }] *)
Definition orEmbed (item : M W (option jsstring)) : M W (option jsstring) :=
s2 ← item;
match s2 with
| None => peg_parseEmbed_rec
| Some _ => mret s2
end.

(** [Source = contents:(Text / Embed)* { return contents.join(''); }] *)
Definition peg_parseSource : M W (option jsstring) :=
s0 ← getCurrPos;
s2 ← orEmbed peg_parseText;
s1 ← repeatLoop (orEmbed peg_parseText) loopFuel [] s2;
setSavedPos s0 ;;
mret (Some (peg_c0 s1)).

(** [InlineSource = contents:(InlineText / Embed)+ { return contents.join(''); }] *)
Definition peg_parseInlineSource : M W (option jsstring) :=
s0 ← getCurrPos;
s2 ← orEmbed peg_parseInlineText;
match s2 with
| Some _ =>
    s1 ← repeatLoop (orEmbed peg_parseInlineText) loopFuel [] s2;
    setSavedPos s0 ;;
    mret (Some (peg_c0 s1))
| None => mret None
end.

(** [InlineMultilineSource = contents:(InlineMultilineText / Embed)+
    { return contents.join(''); }] *)
Definition peg_parseInlineMultilineSource : M W (option jsstring) :=
s0 ← getCurrPos;
s2 ← orEmbed peg_parseInlineMultilineText;
match s2 with
| Some _ =>
    s1 ← repeatLoop (orEmbed peg_parseInlineMultilineText) loopFuel [] s2;
    setSavedPos s0 ;;
    mret (Some (peg_c0 s1))
| None => mret None
end.

(** [peg$c38]: [{ full: arg ?? '', location: location() }]. *)
Definition peg_c38 (arg : option jsstring) : M W Argument :=
l ← location;
mret (mkArgument None None (default [] arg) l).

(** [Argument = arg:InlineSource? { ... }]: the optional part turns
  [peg$FAILED] into [null], so the rule itself never fails. *)
Definition peg_parseArgument : M W (option Argument) :=
s0 ← getCurrPos;
s1 ← peg_parseInlineSource;
setSavedPos s0 ;;
s1 ← peg_c38 s1;
mret (Some s1).

(** One [('|' Argument)] pair of [Arguments]. *)
Definition pipeArgument : M W (option (jsstring * Argument)) :=
s3 ← getCurrPos;
s4 ← matchCharCode 124 peg_c40;
match s4 with
| Some bar =>
    s5 ← peg_parseArgument;
    match s5 with
    | Some a => mret (Some (bar, a))
    | None => setCurrPos s3 ;; mret None
    end
| None => setCurrPos s3 ;; mret None
end.

(** [Arguments = first:Argument rest:('|' Argument)* { ... }] *)
Definition peg_parseArguments : M W (option (list Argument)) :=
s0 ← getCurrPos;
s1 ← peg_parseArgument;
match s1 with
| Some first =>
    s3 ← pipeArgument;
    s2 ← repeatLoop pipeArgument loopFuel [] s3;
    setSavedPos s0 ;;
    mret (Some (peg_c41 first s2))
| None => setCurrPos s0 ;; mret None
end.

(** [peg$c42]. *)
Definition peg_c42 (cond : option ExprEmbed) (value : option jsstring) : M W Argument :=
l ← location;
match cond with
| Some c =>
    mret (mkArgument (Some (expr c)) (Some (default [] value))
            (text_ c ++ default [] value) l)
| None => mret (mkArgument None None (default [] value) l)
end.

(** [MultilineArgument = cond:Condition? value:InlineMultilineSource? { ... }] *)
Definition peg_parseMultilineArgument : M W (option Argument) :=
s0 ← getCurrPos;
s1 ← peg_parseCondition;
s2 ← peg_parseInlineMultilineSource;
setSavedPos s0 ;;
s1 ← peg_c42 s1 s2;
mret (Some s1).

(** One [('-' Whitespace MultilineArgument Whitespace)] group; [peg$c45]
  keeps its third component. *)
Definition dashArgument : M W (option Argument) :=
s3 ← getCurrPos;
s4 ← matchCharCode 45 peg_c44;
match s4 with
| Some _ =>
    s5 ← peg_parseWhitespace;
    match s5 with
    | Some _ =>
        s6 ← peg_parseMultilineArgument;
        match s6 with
        | Some a =>
            s7 ← peg_parseWhitespace;
            match s7 with
            | Some _ => mret (Some a)
            | None => setCurrPos s3 ;; mret None
            end
        | None => setCurrPos s3 ;; mret None
        end
    | None => setCurrPos s3 ;; mret None
    end
| None => setCurrPos s3 ;; mret None
end.

(** [MultiLineArguments = Whitespace args:('-' Whitespace MultilineArgument Whitespace)+ { ... }] *)
Definition peg_parseMultiLineArguments : M W (option (list Argument)) :=
s0 ← getCurrPos;
s1 ← peg_parseWhitespace;
match s1 with
| Some _ =>
    s3 ← dashArgument;
    match s3 with
    | Some _ =>
        s2 ← repeatLoop dashArgument loopFuel [] s3;
        setSavedPos s0 ;;
        mret (Some s2)
    | None => setCurrPos s0 ;; mret None
    end
| None => setCurrPos s0 ;; mret None
end.

(** The actions [peg$c5] and [peg$c13]:
  [processEmbed(type, args, multiline, options, expected)]. *)
Definition call_processEmbed (type : option EmbedType) (args : list Argument)
  (multiline : bool) : M W jsstring := λ st,
let '(r, w) := processEmbed type args multiline (peg_world st) in
let st' := mkPegState (peg_currPos st) (peg_savedPos st) (peg_posDetailsCache st)
             (peg_maxFailPos st) (peg_maxFailExpected st) w (peg_failLog st)
             (peg_embedLog st ++
                [mkEmbedCall type args multiline (peg_savedPos st) (peg_currPos st)]) in
match r with
| PE_return s => Ok s st'
| PE_expected description location1 => expected description location1 st'
| PE_throw x => Throw (Foreign x) st'
end.

(** The [type:(Condition / Type)?] part of [InlineEmbed]: the condition
  is tried first, then the type markers; [None] is the [null] of an
  absent type. *)
Definition conditionOrType : M W (option EmbedType) :=
s2 ← peg_parseCondition;
match s2 with
| Some c => mret (Some (ExprEmbedType c))
| None => peg_parseType
end.

(** [InlineEmbed = '{' type:(Condition / Type)? args:Arguments '}' { ... }] *)
Definition peg_parseInlineEmbed : M W (option jsstring) :=
s0 ← getCurrPos;
s1 ← matchCharCode 123 peg_c2;
match s1 with
| Some _ =>
    s2 ← conditionOrType;
    s3 ← peg_parseArguments;
    match s3 with
    | Some args =>
        s4 ← matchCharCode 125 peg_c4;
        match s4 with
        | Some _ =>
            setSavedPos s0 ;;
            s1 ← call_processEmbed s2 args false;
            mret (Some s1)
        | None => setCurrPos s0 ;; mret None
        end
    | None => setCurrPos s0 ;; mret None
    end
| None => setCurrPos s0 ;; mret None
end.

(** [MutliLineEmbed = '{' type:Type? Newline args:MultiLineArguments '}' { ... }] *)
Definition peg_parseMutliLineEmbed : M W (option jsstring) :=
s0 ← getCurrPos;
s1 ← matchCharCode 123 peg_c2;
match s1 with
| Some _ =>
    s2 ← peg_parseType;
    s3 ← peg_parseNewline;
    match s3 with
    | Some _ =>
        s4 ← peg_parseMultiLineArguments;
        match s4 with
        | Some args =>
            s5 ← matchCharCode 125 peg_c4;
            match s5 with
            | Some _ =>
                setSavedPos s0 ;;
                s1 ← call_processEmbed s2 args true;
                mret (Some s1)
            | None => setCurrPos s0 ;; mret None
            end
        | None => setCurrPos s0 ;; mret None
        end
    | None => setCurrPos s0 ;; mret None
    end
| None => setCurrPos s0 ;; mret None
end.

(** [Embed = InlineEmbed / MutliLineEmbed] *)
Definition peg_parseEmbed_body : M W (option jsstring) :=
s0 ← peg_parseInlineEmbed;
match s0 with
| Some _ => mret s0
| None => peg_parseMutliLineEmbed
end.

End Parser.

Section Parse.
Context {W : Type}.
Variable input : jsstring.
Variable processEmbed : option EmbedType → list Argument → bool → W → PEResult * W.

(** [peg$parseEmbed], with [depth] bounding how many directives may be
  open at once.  Every open directive has consumed its ['{'], so
  [length input + 1] levels are never used up
  ([peg_parse_total]).  The source recurses on the call stack of the
  engine, which is finite: a smaller [depth] is the room of that stack
  ([peg_parseOnStack]). *)
Fixpoint peg_parseEmbed (depth : nat) : M W (option jsstring) :=
match depth with
| 0 => outOfFuel
| S depth' => peg_parseEmbed_body input processEmbed (peg_parseEmbed depth')
end.

(** [peg$maxFailPos < input.length ? input.charAt(peg$maxFailPos) : null] *)
Definition charAtOrNull (m : nat) : option jsstring :=
match input !! m with
| Some c => Some [c]
| None => None
end.

(** The state at the start of [peg$parse]. *)
Definition peg_init (options : W) : PegState W :=
mkPegState 0 0 {[ 0 := mkDetails 1 1 ]} 0 [] options [] [].

(** The [throw peg$buildStructuredError(...)] statement of [peg$parse]. *)
Definition peg_throwFurthest {A} : M W A :=
m ← getMaxFailPos;
e ← getMaxFailExpected;
l ← (if decide (m < length input)
     then peg_computeLocation input m (m + 1)
     else peg_computeLocation input m m);
throw (ParseFailure (peg_buildStructuredError e (charAtOrNull m) l)).

(** The tail of [peg$parse], after the start rule has run. *)
Definition peg_finish (peg_result : option jsstring) : M W jsstring :=
p ← getCurrPos;
match peg_result with
| Some r =>
    if decide (p = length input) then mret r
    else
      (if decide (p < length input) then peg_fail EndExpectation else mret ()) ;;
      peg_throwFurthest
| None => peg_throwFurthest
end.

(** [peg$parse(input, options)] with the default start rule [Source], on
  a call stack that is never used up. *)
Definition peg_parse (options : W) : Outcome W jsstring :=
(peg_result ← peg_parseSource input (peg_parseEmbed (S (length input)));
 peg_finish peg_result) (peg_init options).

End Parse.

(** ** The selection engine

    [processEmbed] lives in [./inline_util], which is not among the sources.
    The definitions of this module are written from the specification
    (sections 3, 4.2 and 4.3) and are used as the collaborator of the parser
    in the examples below. *)

Module Engine.

(** Modelled from the spec: the per-identity [SequenceState] record of
  section 3 ([inline_util] is missing): a counter, and for Shuffle an
  order of branch indices and a cursor. *)
Record SequenceState := mkSequenceState {
counter : nat;
order : list nat;
cursor : nat
}.

(** Modelled from the spec: the session of section 6 ([inline_util] is
  missing): the Sequence State Store, keyed by identity, and the state of
  the injected random source. *)
Record Session := mkSession {
store : gmap nat SequenceState;
random : nat
}.

Section WithCollaborators.
(** The external collaborators of section 6: the expression evaluator
([None] when it fails), the identity-naming function and the random
source that produces permutations. *)
Variable evaluate : jsstring → option bool.
Variable identity : list Argument → nat.
Variable permute : nat → list nat → list nat * nat.

(** Modelled from the spec: the text of a branch (section 3,
[Branch.content]); for a guarded branch it is the part after the
guard. *)
Definition content (a : Argument) : jsstring :=
default (arg_full a) (arg_value a).

(** Modelled from the spec: the eligible set of section 4.3 (the
function that computes it is missing): the branches whose guard, if
any, evaluates to true this round, each with its index in the branch
list.  [None] when the evaluator fails. *)
Fixpoint eligibleFrom (i : nat) (branches : list Argument) : option (list (nat * jsstring)) :=
match branches with
| [] => Some []
| a :: rest =>
  keep ← match arg_expr a with
          | Some guard => evaluate guard
          | None => Some true
          end;
  tail ← eligibleFrom (S i) rest;
  Some (if keep : bool then (i, content a) :: tail else tail)
end.

(** Modelled from the spec: the eligible set of a whole branch list
(section 4.3; the code is missing). *)
Definition eligible (branches : list Argument) : option (list (nat * jsstring)) :=
eligibleFrom 0 branches.

(** Modelled from the spec: the state a directive starts from when its
entry is created on first evaluation (section 3, Lifecycle; the code
is missing). *)
Definition unvisited : SequenceState := mkSequenceState 0 [] 0.

(** Modelled from the spec: "if more than one branch is eligible, avoid
placing the just-emitted entry first in the new permutation"
(section 4.3); here the entry is moved to the end. *)
Definition avoidFirst (emitted : nat) (perm : list nat) : list nat :=
match perm with
| x :: (_ :: _) as rest => if decide (x = emitted) then rest ++ [x] else perm
| _ => perm
end.

(** Modelled from the spec: one evaluation round of a List directive,
section 4.3 (the selection code is missing).  [el] is the eligible
set, [branches] the full branch list, [st] the persisted state of the
directive and [r] the state of the random source. *)
Definition select (t : SequenceType) (branches : list Argument)
(el : list (nat * jsstring)) (st : SequenceState) (r : nat)
: jsstring * SequenceState * nat :=
let n := length el in
match el with
| [] => ([], st, r)
| _ :: _ =>
  match t with
  | Stopping =>
      (default [] (snd <$> el !! (counter st `min` (n - 1))),
       mkSequenceState (counter st + 1) (order st) (cursor st), r)
  | Cycle =>
      (default [] (snd <$> el !! (counter st `mod` n)),
       mkSequenceState (counter st + 1) (order st) (cursor st), r)
  | OnlyOnce =>
      if decide (counter st < n)
      then (default [] (snd <$> el !! counter st),
            mkSequenceState (counter st + 1) (order st) (cursor st), r)
      else ([], st, r)
  | Shuffle =>
      let '(ord, r1) :=
        match order st with
        | [] => permute r (fst <$> el)
        | _ => (order st, r)
        end in
      let emitted := default 0 (ord !! cursor st) in
      let out := default [] (content <$> branches !! emitted) in
      if decide (cursor st + 1 < length ord)
      then (out, mkSequenceState (counter st) ord (cursor st + 1), r1)
      else
        let '(fresh, r2) := permute r1 (fst <$> el) in
        (out, mkSequenceState (counter st) (avoidFirst emitted fresh) 0, r2)
  end
end.

(** Modelled from the spec: resolution of a List directive (sections 4.2
and 4.3; the code is missing).  Zero branches is a DefinitionError, a
failing guard an EvaluationError; with an empty eligible set the
output is empty and the session is left as it was. *)
Definition resolveList (t : SequenceType) (branches : list Argument)
(s : Session) : PEResult * Session :=
match branches with
| [] => (PE_throw (js "DefinitionError"), s)
| _ :: _ =>
  match eligible branches with
  | None => (PE_throw (js "EvaluationError"), s)
  | Some [] => (PE_return [], s)
  | Some el =>
      let id := identity branches in
      let st := default unvisited (store s !! id) in
      let '(out, st', r') := select t branches el st (random s) in
      (PE_return out, mkSession (<[id := st']> (store s)) r')
  end
end.

(** Modelled from the spec: a Conditional directive (sections 4.2 and
4.3; the code is missing) has one or two branches and no persisted
state. *)
Definition resolveConditional (guard : jsstring) (branches : list Argument)
(s : Session) : PEResult * Session :=
match branches with
| [a] =>
  match evaluate guard with
  | Some true => (PE_return (content a), s)
  | Some false => (PE_return [], s)
  | None => (PE_throw (js "EvaluationError"), s)
  end
| [a; b] =>
  match evaluate guard with
  | Some true => (PE_return (content a), s)
  | Some false => (PE_return (content b), s)
  | None => (PE_throw (js "EvaluationError"), s)
  end
| _ => (PE_throw (js "DefinitionError"), s)
end.

(** Modelled from the spec: the classifier of section 4.2 ([processEmbed]
itself is missing): a condition makes the directive Conditional, a
sequence-type marker a List of that type, neither a Stopping List. *)
Definition processEmbed (type : option EmbedType) (args : list Argument)
(multiline : bool) (s : Session) : PEResult * Session :=
match type with
| Some (ExprEmbedType e) => resolveConditional (expr e) args s
| Some (SequenceEmbedType t) => resolveList t args s
| None => resolveList Stopping args s
end.

End WithCollaborators.

(** Collaborators for the examples: a guard is true exactly when its text
  is [yes]; a directive is named by the offset of its first branch; the
  random source rotates the index list. *)
Definition exampleEvaluate (guard : jsstring) : option bool :=
Some (bool_decide (guard = js "yes")).

Definition exampleIdentity (args : list Argument) : nat :=
default 0 ((λ a, offset (start (arg_location a))) <$> head args).

Definition examplePermute (r : nat) (l : list nat) : list nat * nat :=
(rotate r l, S r).

Definition exampleProcessEmbed :=
processEmbed exampleEvaluate exampleIdentity examplePermute.

Definition emptySession : Session := mkSession ∅ 0.

End Engine.

(** The value a run returned, if it returned. *)
Definition resolved {W A} (o : Outcome W A) : option A :=
  match o with
  | Ok a _ => Some a
  | _ => None
  end.

(** The exception a run ended with, if any. *)
Definition raised {W A} (o : Outcome W A) : option Exn :=
  match o with
  | Throw e _ => Some e
  | _ => None
  end.

(** The final parser state of a run that produced one. *)
Definition finalState {W A} (o : Outcome W A) : option (PegState W) :=
  match o with
  | Ok _ st => Some st
  | Throw _ st => Some st
  | OutOfFuel => None
  end.

(** ** Vocabulary of the statements *)

(** The longest prefix of [rest] whose code units all pass [cls]: what a
    character-class loop consumes. *)
Fixpoint classRun (cls : N → bool) (rest : jsstring) : jsstring :=
  match rest with
  | c :: rest' => if cls c then c :: classRun cls rest' else []
  | [] => []
  end.

(** [peg$FAILED] for an empty match of a [+] loop. *)
Definition nonEmpty (l : jsstring) : option jsstring :=
  match l with
  | [] => None
  | _ :: _ => Some l
  end.

(** The furthest position any expectation failed at, and the expectations
    that failed at a given position, in the order they were reported. *)
Definition furthest (log : list (nat * Expectation)) : nat :=
  max_list (fst <$> log).

Definition expectedAt (p : nat) (log : list (nat * Expectation)) : list Expectation :=
  snd <$> filter (λ x, fst x = p) log.

(** Line and column of a position, counted from the start of the input. *)
Definition lineColumn (input : jsstring) (pos : nat) : PosDetails :=
  advanceDetails input pos 0 (mkDetails 1 1).

Definition positionAt (input : jsstring) (pos : nat) : IFilePosition :=
  mkPos pos (details_line (lineColumn input pos)) (details_column (lineColumn input pos)).

(** Weakest precondition of a parser computation: it ends, and either
    returns with [Q] or throws with [E]. *)
Definition wp {W A} (E : Exn → PegState W → Prop) (m : M W A)
    (Q : A → PegState W → Prop) (st : PegState W) : Prop :=
  match m st with
  | Ok a st' => Q a st'
  | Throw e st' => E e st'
  | OutOfFuel => False
  end.

(** Exception conditions: none at all, or anything except the parse failure
    raised at the end of [peg$parse]. *)
Definition noThrow {W} : Exn → PegState W → Prop := λ _ _, False.

Definition actionThrow {W} : Exn → PegState W → Prop := λ e _,
  match e with
  | ParseFailure _ => False
  | _ => True
  end.

(** The failure bookkeeping agrees with the history of [peg$fail] calls. *)
Definition FailInv {W} (st : PegState W) : Prop :=
  peg_maxFailPos st = furthest (peg_failLog st)
  ∧ peg_maxFailExpected st = expectedAt (peg_maxFailPos st) (peg_failLog st).

(** Every cached entry is the line and column of its position, and
    position 0 is cached. *)
Definition CacheInv {W} (input : jsstring) (st : PegState W) : Prop :=
  is_Some (peg_posDetailsCache st !! 0)
  ∧ ∀ q d, peg_posDetailsCache st !! q = Some d → d = lineColumn input q.

Definition Inv {W} (input : jsstring) (st : PegState W) : Prop :=
  FailInv st ∧ CacheInv input st ∧ peg_currPos st ≤ length input.

(** What a rule that never reaches [Embed] may change: positions and the
    failure bookkeeping, the latter consistently. *)
Definition leafStep {W} (st st' : PegState W) : Prop :=
  peg_world st' = peg_world st
  ∧ peg_embedLog st' = peg_embedLog st
  ∧ peg_posDetailsCache st' = peg_posDetailsCache st
  ∧ (FailInv st → FailInv st').

(** A rule without recursion computes the function [f] of the remaining
    input: [f rest] is the value and the number of code units consumed, or
    [None] when the rule fails (and then the position is restored). *)
Definition leafSpec {W A} (input : jsstring) (m : M W (option A))
    (f : jsstring → option (A * nat)) : Prop :=
  ∀ st : PegState W,
    wp noThrow m
      (λ v st',
         leafStep st st'
         ∧ v = fst <$> f (drop (peg_currPos st) input)
         ∧ peg_currPos st' =
             peg_currPos st + default 0 (snd <$> f (drop (peg_currPos st) input)))
      st.

(** The rules without recursion, as functions of the remaining input. *)

Definition charOf (code : N) (rest : jsstring) : option (jsstring * nat) :=
  if decide (head rest = Some code) then Some ([code], 1) else None.

Definition literalOf (lit : jsstring) (rest : jsstring) : option (jsstring * nat) :=
  if decide (take (length lit) rest = lit) then Some (lit, length lit) else None.

Definition plusOf (cls : N → bool) (rest : jsstring) : option (jsstring * nat) :=
  (λ l, (l, length l)) <$> nonEmpty (classRun cls rest).

Definition textOf : jsstring → option (jsstring * nat) := plusOf peg_c51.
Definition inlineTextOf : jsstring → option (jsstring * nat) := plusOf peg_c49.
Definition expressionOf : jsstring → option (jsstring * nat) := plusOf peg_c35.

Definition multilineTextOf (rest : jsstring) : option (jsstring * nat) :=
  (λ l, (trim l, length l)) <$> nonEmpty (classRun peg_c46 rest).

Definition whitespaceOf (rest : jsstring) : option (unit * nat) :=
  Some ((), length (classRun peg_c6 rest)).

Definition newlineOf (rest : jsstring) : option (unit * nat) :=
  let k := if decide (head rest = Some 13%N) then 1 else 0 in
  if decide (rest !! k = Some 10%N) then Some ((), k + 1) else None.

Definition stoppingOf (rest : jsstring) : option (EmbedType * nat) :=
  (λ r, (SequenceEmbedType Stopping, snd r)) <$> literalOf peg_c14 rest.

(** A marker that is either the one-character symbol [sym] or the word
    [lit]. *)
Definition markerOf (sym : N) (lit : jsstring) (t : SequenceType) (rest : jsstring)
    : option (EmbedType * nat) :=
  (λ r, (SequenceEmbedType t, snd r))
    <$> match charOf sym rest with
        | Some r => Some r
        | None => literalOf lit rest
        end.

Definition typeOf (rest : jsstring) : option (EmbedType * nat) :=
  match stoppingOf rest with
  | Some r => Some r
  | None =>
      match markerOf 126 peg_c19 Shuffle rest with
      | Some r => Some r
      | None =>
          match markerOf 38 peg_c24 Cycle rest with
          | Some r => Some r
          | None => markerOf 33 peg_c29 OnlyOnce rest
          end
      end
  end.

Definition conditionOf (rest : jsstring) : option (ExprEmbed * nat) :=
  let e := classRun peg_c35 rest in
  match e with
  | [] => None
  | _ :: _ =>
      if decide (rest !! length e = Some 58%N) then
        let ws := classRun peg_c6 (drop (length e + 1) rest) in
        Some (mkExprEmbed e (e ++ [58%N] ++ ws), length e + 1 + length ws)
      else None
  end.

Definition conditionOrTypeOf (rest : jsstring) : option (EmbedType * nat) :=
  match conditionOf rest with
  | Some (c, n) => Some (ExprEmbedType c, n)
  | None => typeOf rest
  end.

(** Only the position cache may differ. *)
Definition cacheStep {W} (st st' : PegState W) : Prop :=
  peg_currPos st' = peg_currPos st
  ∧ peg_savedPos st' = peg_savedPos st
  ∧ peg_maxFailPos st' = peg_maxFailPos st
  ∧ peg_maxFailExpected st' = peg_maxFailExpected st
  ∧ peg_world st' = peg_world st
  ∧ peg_failLog st' = peg_failLog st
  ∧ peg_embedLog st' = peg_embedLog st.

(** A rule keeps the invariant, never moves backwards, restores the position
    when it fails and, if [consuming], advances when it succeeds.  [k] is a
    lower bound on the positions the rule is run at. *)
Definition ruleSpec {W A} (E : Exn → PegState W → Prop) (input : jsstring)
    (consuming : bool) (k : nat) (m : M W (option A)) : Prop :=
  ∀ st, Inv input st → k ≤ peg_currPos st →
    wp E m
      (λ v st',
         Inv input st'
         ∧ peg_currPos st ≤ peg_currPos st'
         ∧ (v = None → peg_currPos st' = peg_currPos st)
         ∧ (consuming = true → is_Some v → peg_currPos st < peg_currPos st'))
      st.

(** [processEmbed] throws only what [E] allows. *)
Definition PEok {W} (E : Exn → PegState W → Prop)
    (processEmbed : option EmbedType → list Argument → bool → W → PEResult * W) : Prop :=
  ∀ t a m w,
    match (processEmbed t a m w).1 with
    | PE_return _ => True
    | PE_expected _ _ => ∀ err st, E (ExpectedError err) st
    | PE_throw x => ∀ st, E (Foreign x) st
    end.

(** The functions of the remaining input never claim more than is there. *)
Definition bounded {A} (consuming : bool) (f : jsstring → option (A * nat)) : Prop :=
  ∀ rest a n, f rest = Some (a, n) →
    n ≤ length rest ∧ (consuming = true → 0 < n).

(** What the [SyntaxError] of a failed parse reports, given the history
    [log] of [peg$fail] calls: the expectations that failed at the furthest
    position, the code unit found there, and the one-unit range there (empty
    at the end of the input). *)
Definition furthestFailure (input : jsstring) (log : list (nat * Expectation))
    (e : SyntaxError) : Prop :=
  let m := furthest log in
  err_expected e = expectedAt m log
  ∧ err_found e = charAtOrNull input m
  ∧ err_location e =
      mkRange (positionAt input m)
        (positionAt input (if decide (m < length input) then m + 1 else m)).

(** The exceptions of a whole [peg$parse] run: a parse failure reports the
    furthest failure of the history. *)
Definition parseThrow {W} (input : jsstring) : Exn → PegState W → Prop := λ e st,
  match e with
  | ParseFailure err => furthestFailure input (peg_failLog st) err
  | _ => True
  end.

(** No code unit of [s] is a brace. *)
Definition braceFree (s : jsstring) : Prop :=
  Forall (λ c, c ≠ 123%N ∧ c ≠ 125%N) s.

(** The longest prefix of [rest] that avoids the code units [excluded]. *)
Definition runExcluding (excluded : list N) (rest : jsstring) : jsstring :=
  classRun (λ c, bool_decide (c ∉ excluded)) rest.

(** The [type] argument of the first [processEmbed] call of a run. *)
Definition firstCallType {W A} (o : Outcome W A) : option (option EmbedType) :=
  finalState o ≫= λ st, call_type <$> head (peg_embedLog st).

(** [peg$parse] with the example collaborators and a fresh session. *)
Definition parseExample (s : jsstring) : Outcome Engine.Session jsstring :=
  peg_parse s Engine.exampleProcessEmbed Engine.emptySession.

(** A directive is a List directive unless its type is a condition. *)
Definition isList (type : option EmbedType) : Prop :=
  match type with
  | Some (ExprEmbedType _) => False
  | _ => True
  end.

(** The branch [a] carries a guard, and the guard evaluates to false. *)
Definition guardFalse (evaluate : jsstring → option bool) (a : Argument) : Prop :=
  ∃ guard, arg_expr a = Some guard ∧ evaluate guard = Some false.

(** Example data: a guarded branch as [peg$c42] builds it, two branches
    whose guards are false for the example evaluator, and a session in which
    the directive named 0 has been visited before. *)
Definition guarded (guard full : string) (value : string) : Argument :=
  mkArgument (Some (js guard)) (Some (js value)) (js full)
    (mkRange (mkPos 0 1 1) (mkPos 0 1 1)).

Definition falseBranches : list Argument :=
  [guarded "no" "no: first" "first"; guarded "never" "never: second" "second"].

Definition visitedSession : Engine.Session :=
  Engine.mkSession {[ 0 := Engine.mkSequenceState 3 [1; 0] 1 ]} 7.

(** [n] inline directives nested in each other around the text [a]. *)
Definition nest (n : nat) : jsstring :=
  replicate n 123%N ++ 97%N :: replicate n 125%N.

(** [processEmbed] returns, whatever it is given. *)
Definition alwaysReturns {W}
    (processEmbed : option EmbedType → list Argument → bool → W → PEResult * W) : Prop :=
  ∀ t a m w, ∃ s w', processEmbed t a m w = (PE_return s, w').

(** An example collaborator without state: a directive resolves to the text
    of its first branch. *)
Definition firstBranch (type : option EmbedType) (args : list Argument)
    (multiline : bool) (w : unit) : PEResult * unit :=
  (PE_return (default [] (head args ≫= arg_value)), w).

(** The part of the parser state the nesting argument follows: a sound
    position cache, the position, and the number of [processEmbed] calls. *)
Definition atPos {W} (input : jsstring) (q c : nat) (st : PegState W) : Prop :=
  CacheInv input st ∧ peg_currPos st = q ∧ length (peg_embedLog st) = c.

(** What of an argument and of a [processEmbed] call comes from the source
    text alone: the guard and the span of an argument; the type, the
    argument shapes, the form and the span of a directive. *)
Definition argShape (a : Argument) : option jsstring * IFileRange :=
  (arg_expr a, arg_location a).

Definition callShape (c : EmbedCall)
    : option EmbedType * list (option jsstring * IFileRange) * bool * nat * nat :=
  (call_type c, argShape <$> call_args c, call_multiline c, call_from c, call_to c).

(** Two parser states, possibly of parses with different collaborators,
    agree on everything but the options and the texts the directives
    resolved to. *)
Definition simSt {W1 W2} (st1 : PegState W1) (st2 : PegState W2) : Prop :=
  peg_currPos st1 = peg_currPos st2
  ∧ peg_savedPos st1 = peg_savedPos st2
  ∧ peg_posDetailsCache st1 = peg_posDetailsCache st2
  ∧ peg_maxFailPos st1 = peg_maxFailPos st2
  ∧ peg_maxFailExpected st1 = peg_maxFailExpected st2
  ∧ peg_failLog st1 = peg_failLog st2
  ∧ callShape <$> peg_embedLog st1 = callShape <$> peg_embedLog st2
  ∧ is_Some (peg_posDetailsCache st1 !! 0).

(** The run was cut short by an exception from [processEmbed] (thrown by
    itself or through the [expected] callback). *)
Definition aborted {W A} (o : Outcome W A) : Prop :=
  match o with
  | Throw (ParseFailure _) _ => False
  | Throw _ _ => True
  | _ => False
  end.

(** Two outcomes agree unless one of the runs was cut short by
    [processEmbed]. *)
Definition relOut {W1 W2 A B} (R : A → B → Prop)
    (o1 : Outcome W1 A) (o2 : Outcome W2 B) : Prop :=
  aborted o1 ∨ aborted o2 ∨
  match o1, o2 with
  | Ok a st1, Ok b st2 => R a b ∧ simSt st1 st2
  | OutOfFuel, OutOfFuel => True
  | _, _ => False
  end.

Definition rel {W1 W2 A B} (R : A → B → Prop) (m1 : M W1 A) (m2 : M W2 B) : Prop :=
  ∀ st1 st2, simSt st1 st2 → relOut R (m1 st1) (m2 st2).

(** Arguments agree up to the resolved texts; resolved texts are not
    compared. *)
Definition sameArg (a b : Argument) : Prop := argShape a = argShape b.

Definition anyText (a b : jsstring) : Prop := True.

Definition samePiped (x y : jsstring * Argument) : Prop := sameArg x.2 y.2.

(** What a finished parse shows of its directives, and the error of a failed
    parse. *)
Definition directives {W A} (o : Outcome W A)
    : option (list (option EmbedType * list (option jsstring * IFileRange) * bool * nat * nat)) :=
  (λ st, callShape <$> peg_embedLog st) <$> finalState o.

Definition failure {W A} (o : Outcome W A) : option SyntaxError :=
  match o with
  | Throw (ParseFailure e) _ => Some e
  | _ => None
  end.

Definition agree {W1 W2 A B} (o1 : Outcome W1 A) (o2 : Outcome W2 B) : Prop :=
  directives o1 = directives o2 ∧ failure o1 = failure o2
  ∧ (is_Some (resolved o1) ↔ is_Some (resolved o2)).

(** The identities an identity-naming function derives from the directives
    of a parse. *)
Definition identities {W A I}
    (naming : option EmbedType * list (option jsstring * IFileRange) * bool * nat * nat → I)
    (o : Outcome W A) : option (list I) :=
  match directives o with
  | Some ds => Some (map naming ds)
  | None => None
  end.

(** ** Sequences of calls on a [Localization] object *)

(** One call of a mutating member of [Localization]. *)
Inductive LocalizationCall :=
| CallLoad (language : string) (data : gmap string string)
| CallSetActive (lang : option string).

(** The object after the call.  A setter that throws has assigned
    nothing. *)
Definition afterCall (l : Localization.t) (c : LocalizationCall) : Localization.t :=
  match c with
  | CallLoad language data => Localization.load language data l
  | CallSetActive lang => default l (Localization.set_active lang l)
  end.

Definition afterCalls (calls : list LocalizationCall) : Localization.t :=
  foldl afterCall Localization.new calls.

(** ** Lines and columns *)

(** The number of line feeds in [s], and the length of what follows the last
    line feed of [s] (all of [s] when it has none). *)
Definition lineFeeds (s : jsstring) : nat :=
  length (filter (λ c, c = 10%N) s).

Definition sinceLineFeed (s : jsstring) : nat :=
  length (classRun (λ c, negb (c =? 10)%N) (reverse s)).

(** Line and column of the position [pos] of [input], both counted from 1:
    a line ends with its line feed, and a position beyond the end of the
    input counts as further columns of the last line. *)
Definition lineColumnAt (input : jsstring) (pos : nat) : PosDetails :=
  mkDetails (1 + lineFeeds (take pos input))
    (1 + sinceLineFeed (take pos input) + (pos - length input)).

(** ** The message of a [SyntaxError] ([SyntaxError.buildMessage]) *)

(** [s.replace(/[class]/g, replacement)] for a class of single code units:
    every code unit that matches is replaced, the others are kept. *)
Definition replaceEach (pattern : N → bool) (replacement : N → jsstring)
    (s : jsstring) : jsstring :=
  concat ((λ ch, if pattern ch then replacement ch else [ch]) <$> s).

(** [hex(ch)]: [ch.charCodeAt(0).toString(16).toUpperCase()].  A code unit
    has at most four hexadecimal digits. *)
Definition hexDigit (d : N) : N := (if d <? 10 then 48 + d else 55 + d)%N.

Fixpoint hexDigits (digits : nat) (n : N) : jsstring :=
  match digits with
  | 0 => []
  | S digits' =>
      if (n <? 16)%N then [hexDigit n]
      else hexDigits digits' (n / 16)%N ++ [hexDigit (n mod 16)%N]
  end.

Definition hex (ch : N) : jsstring := hexDigits 4 ch.

(** The last two replacements of both escape functions:
    [/[\x00-\x0F]/g] and [/[\x10-\x1F\x7F-\x9F]/g]. *)
Definition escapeControls (s : jsstring) : jsstring :=
  replaceEach (λ ch, (16 <=? ch) && (ch <=? 31) || (127 <=? ch) && (ch <=? 159))%N
    (λ ch, [92; 120]%N ++ hex ch)
    (replaceEach (λ ch, ch <=? 15)%N (λ ch, [92; 120; 48]%N ++ hex ch) s).

(** The replacements of NUL, TAB, LF and CR, common to both functions. *)
Definition escapeWhite (s : jsstring) : jsstring :=
  replaceEach (N.eqb 13) (λ _, [92; 114]%N)
    (replaceEach (N.eqb 10) (λ _, [92; 110]%N)
       (replaceEach (N.eqb 9) (λ _, [92; 116]%N)
          (replaceEach (N.eqb 0) (λ _, [92; 48]%N) s))).

(** [literalEscape(s)]: backslash, double quote, then the common
    replacements, in this order. *)
Definition literalEscape (s : jsstring) : jsstring :=
  escapeControls
    (escapeWhite
       (replaceEach (N.eqb 34) (λ _, [92; 34]%N)
          (replaceEach (N.eqb 92) (λ _, [92; 92]%N) s))).

(** [classEscape(s)]: backslash, closing bracket, caret, dash, then the
    common replacements. *)
Definition classEscape (s : jsstring) : jsstring :=
  escapeControls
    (escapeWhite
       (replaceEach (N.eqb 45) (λ _, [92; 45]%N)
          (replaceEach (N.eqb 94) (λ _, [92; 94]%N)
             (replaceEach (N.eqb 93) (λ _, [92; 93]%N)
                (replaceEach (N.eqb 92) (λ _, [92; 92]%N) s))))).

(** [array.join(separator)]. *)
Fixpoint join (separator : jsstring) (l : list jsstring) : jsstring :=
  match l with
  | [] => []
  | [x] => x
  | x :: l' => x ++ separator ++ join separator l'
  end.

(** [describeExpectation(expectation)].  The parts of a class are single
    characters here (the grammar has no ranges); the array [escapedParts] is
    turned into a string by [+], that is, joined with commas. *)
Definition describeExpectation (expectation : Expectation) : jsstring :=
  match expectation with
  | LiteralExpectation text _ => [34%N] ++ literalEscape text ++ [34%N]
  | ClassExpectation parts inverted _ =>
      js "[" ++ (if inverted then js "^" else []) ++ join (js ",") (classEscape <$> parts)
      ++ js "]"
  | AnyExpectation => js "any character"
  | EndExpectation => js "end of input"
  | OtherExpectation description => description
  end.

(** The order of [Array.prototype.sort] without a comparison function:
    strings are compared code unit by code unit. *)
Fixpoint jsLt (a b : jsstring) : bool :=
  match a, b with
  | _, [] => false
  | [], _ :: _ => true
  | x :: a', y :: b' => (x <? y)%N || (x =? y)%N && jsLt a' b'
  end.

(** [descriptions.sort()].  The order is total on strings, so the sorted
    array does not depend on the sorting algorithm; insertion is used
    here. *)
Fixpoint insertSorted (x : jsstring) (l : list jsstring) : list jsstring :=
  match l with
  | [] => [x]
  | y :: l' => if jsLt y x then y :: insertSorted x l' else x :: l
  end.

Definition sort (l : list jsstring) : list jsstring := foldr insertSorted [] l.

(** The loop of [describeExpected] that removes repeated neighbours in
    place: [rounds] iterations are left, [i] is the read index, [j] the
    write index; at the end [descriptions.length = j]. *)
Fixpoint dedupeLoop (rounds i j : nat) (descriptions : list jsstring) : list jsstring :=
  match rounds with
  | 0 => take j descriptions
  | S rounds' =>
      if decide (descriptions !! (i - 1) = descriptions !! i)
      then dedupeLoop rounds' (S i) j descriptions
      else dedupeLoop rounds' (S i) (S j)
             (match descriptions !! i with
              | Some d => <[j := d]> descriptions
              | None => descriptions
              end)
  end.

Definition dedupe (descriptions : list jsstring) : list jsstring :=
  match descriptions with
  | [] => []
  | _ :: _ => dedupeLoop (length descriptions - 1) 1 1 descriptions
  end.

(** The sorted descriptions without repetitions. *)
Definition descriptionsOf (expected1 : list Expectation) : list jsstring :=
  dedupe (sort (describeExpectation <$> expected1)).

(** [describeExpected(expected1)].  With no description at all the
    [default] branch reads [descriptions[-1]], which is [undefined]. *)
Definition describeExpected (expected1 : list Expectation) : jsstring :=
  let descriptions := descriptionsOf expected1 in
  match descriptions with
  | [d0] => d0
  | [d0; d1] => d0 ++ js " or " ++ d1
  | _ =>
      join (js ", ") (take (length descriptions - 1) descriptions)
      ++ js ", or " ++ default (js "undefined") (last descriptions)
  end.

(** [describeFound(found1)]: [null] and the empty string are falsy. *)
Definition describeFound (found1 : option jsstring) : jsstring :=
  match found1 with
  | Some (c :: s) => [34%N] ++ literalEscape (c :: s) ++ [34%N]
  | _ => js "end of input"
  end.

Definition buildMessage (expected1 : list Expectation) (found : option jsstring) : jsstring :=
  js "Expected " ++ describeExpected expected1 ++ js " but " ++ describeFound found
  ++ js " found.".

(** The [message] that [peg$buildStructuredError] gives the error it
    builds. *)
Definition message (e : SyntaxError) : jsstring :=
  buildMessage (err_expected e) (err_found e).

(** What [literalEscape] writes for one code unit. *)
Definition literalCode (ch : N) : jsstring :=
  if (ch =? 92)%N then [92; 92]%N
  else if (ch =? 34)%N then [92; 34]%N
  else if (ch =? 0)%N then [92; 48]%N
  else if (ch =? 9)%N then [92; 116]%N
  else if (ch =? 10)%N then [92; 110]%N
  else if (ch =? 13)%N then [92; 114]%N
  else if (ch <=? 15)%N then [92; 120; 48]%N ++ hex ch
  else if ((ch <=? 31) || (127 <=? ch) && (ch <=? 159))%N then [92; 120]%N ++ hex ch
  else [ch].

(** Code units that are control characters: C0, DEL and C1. *)
Definition isControl (ch : N) : bool :=
  ((ch <=? 31) || (127 <=? ch) && (ch <=? 159))%N.


(** What the loop computes: every description that differs from its left
    neighbour. *)
Fixpoint keepChangesFrom (prev : jsstring) (l : list jsstring) : list jsstring :=
  match l with
  | [] => []
  | x :: l' =>
      if decide (prev = x) then keepChangesFrom x l' else x :: keepChangesFrom x l'
  end.

Definition keepChanges (l : list jsstring) : list jsstring :=
  match l with
  | [] => []
  | x :: l' => x :: keepChangesFrom x l'
  end.

(** ** Localizing proxies ([LocalizationProxy], [LocalizeProperties],
       [LocalizeDefinition] of [src/localization.ts])

    A proxy is an object of its own: it has a target and a handler, and the
    handler has state (the cache [subProxies]).  Proxies and [Localization]
    objects live in a store and are referred to by their index; each handler
    holds the reference of the [Localization] it was created with.

    The data objects that are wrapped are only read, and their properties
    are ordinary data properties, for which a [get] trap may report any
    value.  What reading them yields is a parameter: [reflectGet] is
    [Reflect.get(target, prop, receiver)] and [hasProperty] is the [in]
    operator. *)

Module Proxy.

(** [string | symbol] *)
Inductive PropertyKey :=
| StringKey (s : string)
| SymbolKey (n : nat).

#[global] Instance PropertyKey_eq_dec : EqDecision PropertyKey.
Proof. solve_decision. Defined.

#[global] Instance PropertyKey_countable : Countable PropertyKey.
Proof.
  apply (inj_countable'
           (λ k, match k with StringKey s => inl s | SymbolKey n => inr n end)
           (λ x, match x with inl s => StringKey s | inr n => SymbolKey n end)).
  by intros [].
Defined.

(** The values a property can hold, as far as the handler tells them apart:
    [typeof] is ["string"] for [VString], ["object"] for [VNull] and
    [VObject] (arrays included), ["function"] for [VFunction]; [VPrimitive]
    stands for booleans, numbers, bigints and symbols.  Only [VObject] and
    [VFunction] can be the target of [new Proxy]. *)
Inductive Value (Obj Prim : Type) :=
| VUndefined
| VNull
| VString (s : string)
| VPrimitive (p : Prim)
| VObject (o : Obj)
| VFunction (o : Obj).
Arguments VUndefined {Obj Prim}.
Arguments VNull {Obj Prim}.
Arguments VString {Obj Prim}.
Arguments VPrimitive {Obj Prim}.
Arguments VObject {Obj Prim}.
Arguments VFunction {Obj Prim}.

(** What a read through a proxy yields: a plain value or another proxy. *)
Inductive Result (Obj Prim : Type) :=
| Plain (v : Value Obj Prim)
| Proxied (proxy : nat).
Arguments Plain {Obj Prim}.
Arguments Proxied {Obj Prim}.

(** [enum LocalizableObjectType] *)
Inductive LocalizableObjectType :=
| EnumDefinition
| EnumValues
| Definition_
| ArticyObject
| ArticyObjectProperties
| ArticyObjectTemplate
| ArticyObjectFeature.

(** The definitions, as far as the constructor of [LocalizationProxy] looks
    at them: an object definition may have a [Template] with [Features] and
    may have [Properties]; a feature definition has a [TechnicalName] and
    [Properties]; a property definition names a [Property] and may be
    [Localizable]. *)
Record PropertyDefinition := mkPropertyDefinition {
  Property : string;
  Localizable : bool
}.

Record FeatureDefinition := mkFeatureDefinition {
  TechnicalName : string;
  feature_Properties : list PropertyDefinition
}.

Record ObjectDefinition := mkObjectDefinition {
  Template : option (list FeatureDefinition);
  Properties : option (list PropertyDefinition)
}.

(** [ObjectDefinition | FeatureDefinition] *)
Inductive AnyDefinition :=
| OfObject (d : ObjectDefinition)
| OfFeature (d : FeatureDefinition).

(** The fields of a [LocalizationProxy]. *)
Record Handler := mkHandler {
  localizedProperties : gmap string (option FeatureDefinition);
  subProxies : gmap PropertyKey nat;
  localization : nat;
  type : LocalizableObjectType;
  definition : option AnyDefinition
}.

(** [for (const prop of properties.filter(p => p.Localizable))
      this.localizedProperties.set(prop.Property, undefined)] *)
Definition localizableProperties (properties : list PropertyDefinition)
    : gmap string (option FeatureDefinition) :=
  foldl (λ m prop, <[Property prop := None]> m) ∅ (filter (λ p, Localizable p = true) properties).

(** The constructor. *)
Definition newHandler (localization : nat) (type : LocalizableObjectType)
    (definition : option AnyDefinition) : Handler :=
  {| localizedProperties :=
       match definition with
       | Some (OfObject d) =>
           match Template d with
           | Some features =>
               foldl (λ m feature, <[TechnicalName feature := Some feature]> m) ∅ features
           | None =>
               match Properties d with
               | Some properties => localizableProperties properties
               | None => ∅
               end
           end
       | Some (OfFeature d) => localizableProperties (feature_Properties d)
       | None => ∅
       end;
     subProxies := ∅;
     localization := localization;
     type := type;
     definition := definition |}.

(** [const AutoLocalizedProperties = new Set(...)] *)
Definition AutoLocalizedProperties : list string :=
  ["Text"; "DisplayName"; "StageDirections"]%string.

Section WithData.
Context {Obj Prim : Type}.
Variable reflectGet : Obj → PropertyKey → Value Obj Prim.
Variable hasProperty : Obj → PropertyKey → bool.

(** A proxy object: [new Proxy(target, handler)]. *)
Record ProxyObject := mkProxyObject {
  target : Obj;
  handler : Handler
}.

Record Store := mkStore {
  localizations : list Localization.t;
  proxies : list ProxyObject
}.

(** What a call ends with: a result and the store it leaves, or the
    [TypeError] of [new Proxy] for a target that is not an object.
    [Dangling] is for a reference that the store does not hold. *)
Inductive Outcome :=
| Returned (r : Result Obj Prim) (store : Store)
| TypeError
| Dangling.

(** [this.localization.get(value)].  The tables are keyed by strings, so a
    value that is not a string finds nothing. *)
Definition localize (l : Localization.t) (value : Value Obj Prim) : Value Obj Prim :=
  match value with
  | VString id =>
      match Localization.get id None l with
      | Some s => VString s
      | None => VUndefined
      end
  | _ => VUndefined
  end.

(** [this.subProxies.set(prop, newProxy)] on the handler of proxy [self]. *)
Definition cacheSubProxy (prop : PropertyKey) (newProxy : nat) (p : ProxyObject) : ProxyObject :=
  let h := handler p in
  mkProxyObject (target p)
    (mkHandler (localizedProperties h) (<[prop := newProxy]> (subProxies h))
       (localization h) (type h) (definition h)).

(** [makeProxy(prop, value, type, definition)], called on the handler of
    the proxy [self]. *)
Definition makeProxy (self : nat) (prop : PropertyKey) (value : Value Obj Prim)
    (type : LocalizableObjectType) (definition : option AnyDefinition)
    (store : Store) : Outcome :=
  match proxies store !! self with
  | None => Dangling
  | Some p =>
      let create o :=
        let newProxy := length (proxies store) in
        Returned (Proxied newProxy)
          (mkStore (localizations store)
             (alter (cacheSubProxy prop newProxy) self
                (proxies store
                 ++ [mkProxyObject o (newHandler (localization (handler p)) type definition)]))) in
      match value with
      | VObject o => create o
      | VFunction o => create o
      | _ => TypeError
      end
  end.

(** [get(target, prop, receiver)], the trap of the proxy [self]. *)
Definition get (self : nat) (prop : PropertyKey) (store : Store) : Outcome :=
  match proxies store !! self with
  | None => Dangling
  | Some p =>
      let h := handler p in
      match subProxies h !! prop with
      | Some cached => Returned (Proxied cached) store
      | None =>
          let value := reflectGet (target p) prop in
          let unchanged := Returned (Plain value) store in
          let localized :=
            match localizations store !! localization h with
            | Some l => Returned (Plain (localize l value)) store
            | None => Dangling
            end in
          match type h with
          | EnumDefinition =>
              if decide (prop = StringKey "DisplayNames")
              then makeProxy self prop value EnumValues None store
              else unchanged
          | EnumValues => localized
          | ArticyObject =>
              if decide (prop = StringKey "Properties")
              then makeProxy self prop value ArticyObjectProperties (definition h) store
              else if decide (prop = StringKey "Template")
              then makeProxy self prop value ArticyObjectTemplate (definition h) store
              else unchanged
          | ArticyObjectProperties =>
              match prop with
              | StringKey s =>
                  if decide (s ∈ AutoLocalizedProperties) then localized else unchanged
              | SymbolKey _ => unchanged
              end
          | ArticyObjectTemplate =>
              match prop with
              | StringKey s =>
                  match localizedProperties h !! s with
                  | Some (Some featureDef) =>
                      makeProxy self prop value ArticyObjectFeature
                        (Some (OfFeature featureDef)) store
                  | _ => unchanged
                  end
              | SymbolKey _ => unchanged
              end
          | ArticyObjectFeature =>
              match prop with
              | StringKey s =>
                  if decide (is_Some (localizedProperties h !! s))
                  then localized else unchanged
              | SymbolKey _ => unchanged
              end
          | Definition_ =>
              match value with
              | VString s =>
                  if String.prefix "$" s then localized else unchanged
              | VObject _ | VNull =>
                  makeProxy self prop value Definition_ None store
              | _ => unchanged
              end
          end
      end
  end.

(** [new Proxy(object, new LocalizationProxy(localization, type,
    definition))]: the new proxy and the store with it. *)
Definition newProxy (object : Obj) (localization : nat) (type : LocalizableObjectType)
    (definition : option AnyDefinition) (store : Store) : nat * Store :=
  (length (proxies store),
   mkStore (localizations store)
     (proxies store ++ [mkProxyObject object (newHandler localization type definition)])).

(** [LocalizeProperties(object, localization, definition)] *)
Definition LocalizeProperties (object : Obj) (localization : nat)
    (definition : option ObjectDefinition) (store : Store) : nat * Store :=
  if hasProperty object (StringKey "Type")
  then newProxy object localization ArticyObject (OfObject <$> definition) store
  else if hasProperty object (StringKey "Id")
  then newProxy object localization ArticyObjectProperties (OfObject <$> definition) store
  else newProxy object localization ArticyObjectTemplate (OfObject <$> definition) store.

(** [LocalizeDefinition(definition, localization)] *)
Definition LocalizeDefinition (definition : Obj) (localization : nat) (store : Store)
    : nat * Store :=
  if hasProperty definition (StringKey "DisplayNames")
  then newProxy definition localization EnumDefinition None store
  else newProxy definition localization Definition_ None store.

End WithData.

Arguments ProxyObject : clear implicits.
Arguments Store : clear implicits.
Arguments Outcome : clear implicits.
Arguments Returned {Obj Prim}.
Arguments TypeError {Obj Prim}.
Arguments Dangling {Obj Prim}.
Arguments mkStore {Obj}.
Arguments localizations {Obj}.
Arguments proxies {Obj}.
Arguments mkProxyObject {Obj}.
Arguments target {Obj}.
Arguments handler {Obj}.

End Proxy.

(** ** Vocabulary for the proxies *)

Section ProxyVocabulary.
Import Proxy.
Context {Obj Prim : Type}.
Variable reflectGet : Obj → PropertyKey → Value Obj Prim.

(** The object that [new Proxy(value, ...)] wraps, if [value] is one. *)
Definition proxyTarget (value : Value Obj Prim) : option Obj :=
  match value with
  | VObject o => Some o
  | VFunction o => Some o
  | _ => None
  end.

(** The properties that a handler answers with a sub-proxy, with the type
    and the definition the sub-proxy is given. *)
Definition subProxyKind (h : Handler) (prop : PropertyKey) (value : Value Obj Prim)
    : option (LocalizableObjectType * option AnyDefinition) :=
  match type h with
  | EnumDefinition =>
      if decide (prop = StringKey "DisplayNames") then Some (EnumValues, None) else None
  | ArticyObject =>
      if decide (prop = StringKey "Properties")
      then Some (ArticyObjectProperties, definition h)
      else if decide (prop = StringKey "Template")
      then Some (ArticyObjectTemplate, definition h)
      else None
  | ArticyObjectTemplate =>
      match prop with
      | StringKey s =>
          match localizedProperties h !! s with
          | Some (Some featureDef) => Some (ArticyObjectFeature, Some (OfFeature featureDef))
          | _ => None
          end
      | SymbolKey _ => None
      end
  | Definition_ =>
      match value with
      | VObject _ => Some (Definition_, None)
      | VNull => Some (Definition_, None)
      | _ => None
      end
  | _ => None
  end.

(** The properties that a handler answers with
    [this.localization.get(value)]. *)
Definition localizes (h : Handler) (prop : PropertyKey) (value : Value Obj Prim) : bool :=
  match type h with
  | EnumValues => true
  | ArticyObjectProperties =>
      match prop with
      | StringKey s => bool_decide (s ∈ AutoLocalizedProperties)
      | SymbolKey _ => false
      end
  | ArticyObjectFeature =>
      match prop with
      | StringKey s => bool_decide (is_Some (localizedProperties h !! s))
      | SymbolKey _ => false
      end
  | Definition_ =>
      match value with
      | VString s => String.prefix "$" s
      | _ => false
      end
  | _ => false
  end.

(** Two states of one proxy: everything but the cache is the same, and the
    cache has only grown. *)
Definition laterProxy (p p' : ProxyObject Obj) : Prop :=
  target p' = target p
  ∧ type (handler p') = type (handler p)
  ∧ definition (handler p') = definition (handler p)
  ∧ localization (handler p') = localization (handler p)
  ∧ localizedProperties (handler p') = localizedProperties (handler p)
  ∧ subProxies (handler p) ⊆ subProxies (handler p').

(** [s'] is a later state of the store [s]: the proxies of [s] are still
    there.  (The [Localization] objects may have changed in any way.) *)
Definition laterStore (s s' : Store Obj) : Prop :=
  ∀ i p, proxies s !! i = Some p → ∃ p', proxies s' !! i = Some p' ∧ laterProxy p p'.

(** The store is well formed: every handler refers to a [Localization] of
    the store and has the table its constructor computed, and every cached
    sub-proxy is a proxy of the store that wraps the value of the property
    it is cached for, with the type and definition that property calls
    for. *)
Definition wellFormed (s : Store Obj) : Prop :=
  ∀ i p, proxies s !! i = Some p →
    is_Some (localizations s !! localization (handler p))
    ∧ localizedProperties (handler p)
      = localizedProperties
          (newHandler (localization (handler p)) (type (handler p)) (definition (handler p)))
    ∧ ∀ prop sub, subProxies (handler p) !! prop = Some sub →
        ∃ q t d,
          proxies s !! sub = Some q
          ∧ proxyTarget (reflectGet (target p) prop) = Some (target q)
          ∧ subProxyKind (handler p) prop (reflectGet (target p) prop) = Some (t, d)
          ∧ type (handler q) = t ∧ definition (handler q) = d
          ∧ localization (handler q) = localization (handler p).

(** Following object-valued properties of the data itself. *)
Fixpoint descend (o : Obj) (path : list PropertyKey) : option Obj :=
  match path with
  | [] => Some o
  | prop :: path' =>
      match reflectGet o prop with
      | VObject o' => descend o' path'
      | _ => None
      end
  end.

(** The successive reads [self.p1.p2...pn] were each answered with a proxy,
    the last of them being [last], and left the store [s']. *)
Inductive readsTo : nat → list PropertyKey → Store Obj → nat → Store Obj → Prop :=
| readsTo_here self s : readsTo self [] s self s
| readsTo_step self prop path s sub s1 last s' :
    Proxy.get reflectGet self prop s = Returned (Proxied sub) s1 →
    readsTo sub path s1 last s' →
    readsTo self (prop :: path) s last s'.

(** The answer of a call that returned, and the store after a call (a call
    that throws leaves the store as it was). *)
Definition answer (o : Outcome Obj Prim) : option (Result Obj Prim) :=
  match o with
  | Returned r _ => Some r
  | _ => None
  end.

Definition storeAfter (s : Store Obj) (o : Outcome Obj Prim) : Store Obj :=
  match o with
  | Returned _ s' => s'
  | _ => s
  end.

End ProxyVocabulary.

(** ** Example data for the proxies

    Plain records as [JSON.parse] builds them, read without their inherited
    properties, and one [Localization] with an English table. *)

#[warnings="-register-all"] Inductive Json :=
| JNull
| JBoolean (b : bool)
| JString (s : string)
| JObject (fields : list (string * Json)).

Fixpoint jsonField (name : string) (fields : list (string * Json)) : option Json :=
  match fields with
  | [] => None
  | (k, v) :: fields' => if decide (k = name) then Some v else jsonField name fields'
  end.

Definition jsonGet (o : Json) (prop : Proxy.PropertyKey) : Proxy.Value Json Json :=
  match o, prop with
  | JObject fields, Proxy.StringKey name =>
      match jsonField name fields with
      | Some JNull => Proxy.VNull
      | Some (JString s) => Proxy.VString s
      | Some (JObject f) => Proxy.VObject (JObject f)
      | Some v => Proxy.VPrimitive v
      | None => Proxy.VUndefined
      end
  | _, _ => Proxy.VUndefined
  end.

Definition jsonHas (o : Json) (prop : Proxy.PropertyKey) : bool :=
  match o, prop with
  | JObject fields, Proxy.StringKey name => bool_decide (is_Some (jsonField name fields))
  | _, _ => false
  end.

Definition exampleObject : Json :=
  JObject
    [("Type", JString "DialogueFragment");
     ("Properties",
      JObject [("Text", JString "Dlg_1.Text"); ("Speaker", JString "Ntt_7")]);
     ("Template",
      JObject [("Mood", JObject [("Label", JString "Dlg_1.Mood"); ("Level", JString "3")])])
    ]%string.

Definition exampleObjectDefinition : Proxy.ObjectDefinition :=
  Proxy.mkObjectDefinition
    (Some [Proxy.mkFeatureDefinition "Mood"
             [Proxy.mkPropertyDefinition "Label" true;
              Proxy.mkPropertyDefinition "Level" false]])
    None.

Definition exampleEnum : Json :=
  JObject [("Type", JString "Sex");
           ("DisplayNames", JObject [("Male", JString "Sex.Male")])]%string.

Definition exampleTypeDefinition : Json :=
  JObject [("Class", JString "DialogueFragment");
           ("Gap", JNull);
           ("Template", JObject [("DisplayName", JString "$Mood.Name")])
          ]%string.

Definition exampleLocalization : Localization.t :=
  Localization.load "en"
    {[ "Dlg_1.Text" := "Good morning"; "Dlg_1.Mood" := "cheerful";
       "Sex.Male" := "male"; "$Mood.Name" := "Mood" ]}%string
    Localization.new.

Definition exampleStore : Proxy.Store Json := Proxy.mkStore [exampleLocalization] [].

Definition exampleObjectStore : nat * Proxy.Store Json :=
  Proxy.LocalizeProperties jsonHas exampleObject 0 (Some exampleObjectDefinition) exampleStore.

Definition exampleEnumStore : nat * Proxy.Store Json :=
  Proxy.LocalizeDefinition jsonHas exampleEnum 0 exampleStore.

Definition exampleDefinitionStore : nat * Proxy.Store Json :=
  Proxy.LocalizeDefinition jsonHas exampleTypeDefinition 0 exampleStore.

(** The proxies that [LocalizeProperties] and [LocalizeDefinition] put in
    the example stores, and the objects below them. *)
Definition exampleObjectProxy : Proxy.ProxyObject Json :=
  Proxy.mkProxyObject exampleObject
    (Proxy.newHandler 0 Proxy.ArticyObject (Some (Proxy.OfObject exampleObjectDefinition))).

Definition exampleEnumProxy : Proxy.ProxyObject Json :=
  Proxy.mkProxyObject exampleEnum (Proxy.newHandler 0 Proxy.EnumDefinition None).

Definition exampleDefinitionProxy : Proxy.ProxyObject Json :=
  Proxy.mkProxyObject exampleTypeDefinition (Proxy.newHandler 0 Proxy.Definition_ None).

Definition exampleProperties : Json :=
  JObject [("Text", JString "Dlg_1.Text"); ("Speaker", JString "Ntt_7")]%string.

Definition exampleTemplate : Json :=
  JObject [("Mood", JObject [("Label", JString "Dlg_1.Mood"); ("Level", JString "3")])]%string.

Definition exampleDisplayNames : Json :=
  JObject [("Male", JString "Sex.Male")]%string.

Definition exampleDefinitionTemplate : Json :=
  JObject [("DisplayName", JString "$Mood.Name")]%string.

(** ** Braces and the spans of directives *)

(** Strings whose braces match: text without braces, concatenations, and a
    matched string in braces. *)
Inductive balanced : jsstring → Prop :=
| balanced_text s : braceFree s → balanced s
| balanced_app s1 s2 : balanced s1 → balanced s2 → balanced (s1 ++ s2)
| balanced_wrap s : balanced s → balanced (123%N :: s ++ [125%N]).

(** The same, by counting: the number of braces open after [s], starting
    with [depth] open ones; [None] when a closing brace has no partner. *)
Fixpoint braceDepth (depth : nat) (s : jsstring) : option nat :=
  match s with
  | [] => Some depth
  | c :: s' =>
      if (c =? 123)%N then braceDepth (S depth) s'
      else if (c =? 125)%N then
        match depth with
        | 0 => None
        | S depth' => braceDepth depth' s'
        end
      else braceDepth depth s'
  end.

Definition bracesMatch (s : jsstring) : bool :=
  bool_decide (braceDepth 0 s = Some 0).

(** The argument [a] was read from the span [p, q) of the input: its
    location is that span, with the lines and columns of its two ends, and
    the braces in the span match. *)
Definition argumentAt (input : jsstring) (a : Argument) (p q : nat) : Prop :=
  arg_location a = mkRange (positionAt input p) (positionAt input q)
  ∧ p ≤ q
  ∧ balanced (substring input p q).

(** The arguments of a directive: there is at least one, each was read from
    a span between [lo] and [hi], and each ends before the next begins. *)
Definition argumentsWithin (input : jsstring) (args : list Argument) (lo hi : nat) : Prop :=
  args ≠ []
  ∧ Forall (λ a, ∃ p q, lo ≤ p ∧ q ≤ hi ∧ argumentAt input a p q) args
  ∧ StronglySorted
      (λ a b, offset (end_ (arg_location a)) < offset (start (arg_location b))) args.

(** A call of [processEmbed] made for a directive: its span lies in the
    input, starts with the opening and ends with the closing brace, the
    braces in between match, and the arguments were read from in
    between. *)
Definition directiveCall (input : jsstring) (c : EmbedCall) : Prop :=
  call_from c + 2 ≤ call_to c
  ∧ call_to c ≤ length input
  ∧ input !! call_from c = Some 123%N
  ∧ input !! (call_to c - 1) = Some 125%N
  ∧ balanced (substring input (call_from c + 1) (call_to c - 1))
  ∧ argumentsWithin input (call_args c) (call_from c + 1) (call_to c - 1).

(** The invariant of the rules, with the calls made so far. *)
Definition CallInv {W} (input : jsstring) (st : PegState W) : Prop :=
  Inv input st ∧ Forall (directiveCall input) (peg_embedLog st).

(** An exception that leaves a rule comes from [processEmbed], in the
    last call made: with the arguments of that call, in some state [w] of
    the options, it threw [x] itself, or it called the [expected] callback.
    The [SyntaxError] of the callback has the description given as its one
    expectation, the text of the directive as what was found, and the
    location given or else the span of the directive.  The options are left
    as that call left them. *)
Definition callThrow {W} (input : jsstring)
    (processEmbed : option EmbedType → list Argument → bool → W → PEResult * W)
    : Exn → PegState W → Prop := λ e st,
  Forall (directiveCall input) (peg_embedLog st)
  ∧ ∃ c w,
      last (peg_embedLog st) = Some c
      ∧ peg_world st = (processEmbed (call_type c) (call_args c) (call_multiline c) w).2
      ∧ match e with
        | ParseFailure _ => False
        | ExpectedError err =>
            ∃ description location1,
              (processEmbed (call_type c) (call_args c) (call_multiline c) w).1
                = PE_expected description location1
              ∧ err = mkSyntaxError [OtherExpectation description]
                        (Some (substring input (call_from c) (call_to c)))
                        (default
                           (mkRange (positionAt input (call_from c))
                              (positionAt input (call_to c)))
                           location1)
        | Foreign x =>
            (processEmbed (call_type c) (call_args c) (call_multiline c) w).1 = PE_throw x
        end.

(** What may leave [peg$parse] as an exception: the above, or the
    [SyntaxError] of a failed parse. *)
Definition runThrow {W} (input : jsstring)
    (processEmbed : option EmbedType → list Argument → bool → W → PEResult * W)
    : Exn → PegState W → Prop := λ e st,
  match e with
  | ParseFailure _ => Forall (directiveCall input) (peg_embedLog st)
  | _ => callThrow input processEmbed e st
  end.

(** A rule keeps the invariant, never moves backwards, restores the
    position when it fails and, if [consuming], advances when it succeeds;
    and what it returns for the span [p, q) it has read satisfies
    [Good]. *)
Definition spanSpec {W A} (input : jsstring)
    (processEmbed : option EmbedType → list Argument → bool → W → PEResult * W)
    (consuming : bool) (k : nat)
    (Good : A → nat → nat → Prop) (m : M W (option A)) : Prop :=
  ∀ st, CallInv input st → k ≤ peg_currPos st →
    wp (callThrow input processEmbed) m
      (λ v st',
         CallInv input st'
         ∧ peg_currPos st ≤ peg_currPos st'
         ∧ (v = None → peg_currPos st' = peg_currPos st)
         ∧ (consuming = true → is_Some v → peg_currPos st < peg_currPos st')
         ∧ ∀ a, v = Some a → Good a (peg_currPos st) (peg_currPos st'))
      st.

(** An example collaborator without state: a directive with one branch
    resolves to the text of the branch, one with two branches is rejected
    through the [expected] callback, and any other makes it throw. *)
Definition upToTwo (type : option EmbedType) (args : list Argument)
    (multiline : bool) (w : unit) : PEResult * unit :=
  match args with
  | [a] => (PE_return (arg_full a), w)
  | [_; _] => (PE_expected (js "one branch") None, w)
  | _ => (PE_throw (js "RangeError"), w)
  end.

(** ** A plain inline directive *)

(** The source of an inline directive without type: the first branch, and
    each further branch after a pipe, between braces. *)
Definition inlineDirective (first : jsstring) (others : list jsstring) : jsstring :=
  123%N :: first ++ concat ((λ b, 124%N :: b) <$> others) ++ [125%N].

(** The arguments [peg$c38] builds for branches of which the first starts
    at [p]: the text of the branch, and the span it was read from. *)
Fixpoint branchArguments (input : jsstring) (p : nat) (branches : list jsstring)
    : list Argument :=
  match branches with
  | [] => []
  | b :: branches' =>
      mkArgument None None b
        (mkRange (positionAt input p) (positionAt input (p + length b)))
      :: branchArguments input (p + length b + 1) branches'
  end.

(** Branch text without braces, pipes and line breaks. *)
Definition plainBranch (b : jsstring) : Prop :=
  Forall (λ c, c ∉ [123; 125; 124; 13; 10]%N) b.

(** A first branch that is read neither as a condition nor as a type
    marker: it has no colon and does not start with [~], [&] or [!]. *)
Definition unmarked (b : jsstring) : Prop :=
  (58%N ∉ b) ∧ (head b ∉ [Some 126%N; Some 38%N; Some 33%N]).

(** The parser is at position [q], the options are [w] and the calls of
    [processEmbed] so far are [log]. *)
Definition reached {W} (input : jsstring) (q : nat) (w : W) (log : list EmbedCall)
    (st : PegState W) : Prop :=
  CacheInv input st ∧ peg_currPos st = q ∧ peg_world st = w ∧ peg_embedLog st = log.

(** An example collaborator without state: a directive resolves to the
    text of its last branch. *)
Definition lastBranch (type : option EmbedType) (args : list Argument)
    (multiline : bool) (w : unit) : PEResult * unit :=
  (PE_return (default [] (arg_full <$> last args)), w).

(** The source of a multi-line directive without type: a line feed, the
    white space [indent], and each branch after a dash, between braces. *)
Definition multilineDirective (indent : jsstring) (branches : list jsstring) : jsstring :=
  123%N :: 10%N :: indent ++ concat ((λ b, 45%N :: b) <$> branches) ++ [125%N].

(** The arguments [peg$c42] builds for branches without condition, of
    which the first has its dash at [p]: the trimmed text of the branch, and
    the span from the end of its leading white space to the next dash or the
    closing brace. *)
Fixpoint lineArguments (input : jsstring) (p : nat) (branches : list jsstring)
    : list Argument :=
  match branches with
  | [] => []
  | b :: branches' =>
      mkArgument None None (trim b)
        (mkRange (positionAt input (p + 1 + length (classRun peg_c6 b)))
           (positionAt input (p + 1 + length b)))
      :: lineArguments input (p + 1 + length b) branches'
  end.

(** Branch text without braces, dashes and colons. *)
Definition plainLines (b : jsstring) : Prop :=
  Forall (λ c, c ∉ [123; 125; 45; 58]%N) b.

(** White space of the grammar: spaces, tabs and line breaks. *)
Definition blank (s : jsstring) : Prop :=
  Forall (λ c, c ∈ [32; 9; 10; 13]%N) s.

(** ** The call stack *)

(** [peg$parse] on an engine whose call stack has room for [stack]
    activations of [peg$parseEmbed] inside each other.  The rules recurse on
    the call stack of the engine: each directive that is open costs the
    frames of [peg$parseEmbed], of [peg$parseInlineEmbed] or
    [peg$parseMutliLineEmbed], and of the argument and source rules down to
    the next [peg$parseEmbed].  When the room is used up the run ends with
    [OutOfFuel]: the [RangeError] of the engine, thrown where the next frame
    no longer fits.  It is no [SyntaxError], and no rule catches it.
    [peg_parse] is the same run on a call stack that is never used up. *)
Definition peg_parseOnStack {W} (input : jsstring)
    (processEmbed : option EmbedType → list Argument → bool → W → PEResult * W)
    (stack : nat) (options : W) : Outcome W jsstring :=
  (peg_result ← peg_parseSource input (peg_parseEmbed input processEmbed stack);
   peg_finish input peg_result) (peg_init options).

(** The computation uses up the call stack, unless it returns with [Q]. *)
Definition exhausts {W A} (m : M W A) (Q : A → PegState W → Prop) (st : PegState W)
    : Prop :=
  match m st with
  | Ok a st' => Q a st'
  | Throw _ _ => False
  | OutOfFuel => True
  end.

(** ** Text fragments and trimming *)

(** What a text rule does at the position of [st]: it reads the longest run
    of code units that are not in [excluded] and moves behind it; it fails
    when the run is empty, and otherwise returns [post] of the run. *)
Definition readsRun {W} (post : jsstring → jsstring) (excluded : list N)
    (input : jsstring) (st : PegState W) (o : Outcome W (option jsstring)) : Prop :=
  let run := runExcluding excluded (drop (peg_currPos st) input) in
  ∃ st', o = Ok (post <$> nonEmpty run) st'
         ∧ peg_currPos st' = peg_currPos st + length run.

(** [t] is [s] without its leading and trailing white space: only white
    space is missing at the two ends, and [t] neither starts nor ends with
    it. *)
Definition trimmedFrom (s t : jsstring) : Prop :=
  (∃ lead trail,
     s = lead ++ t ++ trail
     ∧ Forall (λ c, isTrimmable c = true) lead
     ∧ Forall (λ c, isTrimmable c = true) trail)
  ∧ (∀ c, head t = Some c → isTrimmable c = false)
  ∧ (∀ c, last t = Some c → isTrimmable c = false).

(** * Properties *)

(** ** Localization *)

Section LocalizationFacts.
Import Localization.

(** The [for ... in] loop of [load] rebuilds exactly the table it is
  given. *)
Lemma copy_table (data : gmap string string) :
map_fold (λ key v (m : gmap string string), <[key := v]> m) ∅ data = data.
Proof.
induction data as [|k v m Hk Hfold IH] using map_first_key_ind.
- apply map_fold_empty.
- rewrite map_fold_insert_first_key by done. by rewrite IH.
Qed.

Lemma load_languages language data l :
languages (load language data l) = <[language := data]> (languages l).
Proof. unfold load. simpl. by rewrite copy_table. Qed.

(** C9. [load(language, data)] makes [language] the active language when
  none is set, keeps the active language otherwise, and in both cases
  stores [data] as the table of [language] (replacing an older table) and
  leaves the tables of all other languages alone. *)
Theorem load_sets_active_only_if_unset language data l :
active (load language data l) = Some (default language (active l))
∧ languages (load language data l) !! language = Some data
∧ ∀ other, other ≠ language →
    languages (load language data l) !! other = languages l !! other.
Proof.
split_and!.
- unfold active, load. simpl. by destruct (activeLanguage l).
- rewrite load_languages. apply lookup_insert_eq.
- intros other Hne. rewrite load_languages. by apply lookup_insert_ne.
Qed.

(** C10, as the claim states it, fails for the empty language name: with
  the language [""] loaded and the id present, [get(id, "")] still
  yields [undefined], because [!lang] is true for the empty string. *)
Lemma get_empty_language_undefined :
let l := load "" {[ "greeting" := "hello" ]} new in
languages l !! "" = Some {[ "greeting" := "hello" ]}
∧ ({[ "greeting" := "hello" ]} : gmap string string) !! "greeting" = Some "hello"
∧ get "greeting" (Some "") l = None
∧ get "greeting" None l = None.
Proof.
cbv zeta. rewrite load_languages. split_and!.
- apply lookup_insert_eq.
- apply lookup_singleton_eq.
- reflexivity.
- reflexivity.
Qed.

(** C10 (amended). [get] is a total function.  With [lang] the language
  argument, or the active language when the argument is absent, it
  yields [undefined] when [lang] is undefined or the empty string, when
  [lang] has no table, or when the id is not in the table; otherwise it
  yields the string stored for the id. *)
Theorem get_total_characterised id language l :
let lang := match language with Some x => Some x | None => active l end in
get id language l =
  match lang with
  | None => None
  | Some lg => if decide (lg = "") then None else languages l !! lg ≫= (.!! id)
  end.
Proof.
cbv zeta. unfold get, active, truthy.
destruct language as [lg|]; [|destruct (activeLanguage l) as [lg|]]; simpl; try done.
all: case_decide as Hlg;
  [ subst lg; reflexivity
  | apply String.eqb_neq in Hlg; rewrite Hlg; simpl;
    by destruct (languages l !! lg) ].
Qed.

End LocalizationFacts.

(** ** The parser: basic reasoning *)

Section WpCalculus.
Context {W : Type}.
Implicit Types st : PegState W.

Lemma wp_ret {A} E (a : A) (Q : A → PegState W → Prop) st :
Q a st → wp E (mret a) Q st.
Proof. done. Qed.

Lemma wp_bind {A B} E (m : M W A) (k : A → M W B) Q st :
wp E m (λ a st', wp E (k a) Q st') st → wp E (m ≫= k) Q st.
Proof.
unfold wp, mbind, M_bind. by destruct (m st).
Qed.

Lemma wp_mono {A} (E E' : Exn → PegState W → Prop) (m : M W A)
  (Q Q' : A → PegState W → Prop) st :
wp E m Q st → (∀ e st', E e st' → E' e st') →
(∀ a st', Q a st' → Q' a st') → wp E' m Q' st.
Proof.
unfold wp. destruct (m st); auto.
Qed.

Lemma wp_strict_run {A} (m : M W A) Q st :
wp noThrow m Q st → ∃ a st', m st = Ok a st' ∧ Q a st'.
Proof.
unfold wp. destruct (m st) as [a st'|e st'|]; [eauto|done..].
Qed.

End WpCalculus.

(** ** Lists and logs *)

Lemma head_drop {A} (l : list A) p : head (drop p l) = l !! p.
Proof. rewrite head_lookup, lookup_drop. f_equal. lia. Qed.

Lemma classRun_length cls rest : length (classRun cls rest) ≤ length rest.
Proof. induction rest as [|c rest IH]; simpl; [lia|]. destruct (cls c); simpl; lia. Qed.

Lemma classRun_prefix cls rest : take (length (classRun cls rest)) rest = classRun cls rest.
Proof. induction rest as [|c rest IH]; simpl; [done|]. destruct (cls c); simpl; by f_equal. Qed.

Lemma classRun_all cls rest :
  Forall (λ c, cls c = true) rest → classRun cls rest = rest.
Proof. induction 1 as [|c rest Hc _ IH]; simpl; [done|]. by rewrite Hc, IH. Qed.

Lemma classRun_Forall cls rest : Forall (λ c, cls c = true) (classRun cls rest).
Proof.
  induction rest as [|c rest IH]; simpl; [constructor|].
  destruct (cls c) eqn:Hc; by constructor.
Qed.

Lemma classRun_stop cls rest :
  match rest !! length (classRun cls rest) with
  | Some c => cls c = false
  | None => True
  end.
Proof.
  induction rest as [|c rest IH]; simpl; [done|].
  destruct (cls c) eqn:Hc; simpl; [done|]. by rewrite Hc.
Qed.

Lemma substring_take_drop (s : jsstring) p n :
  p + n ≤ length s → substring s p (p + n) = take n (drop p s).
Proof.
  intros H. unfold substring. cbv zeta.
  replace (p `min` length s) with p by lia.
  replace ((p + n) `min` length s) with (p + n) by lia.
  replace (p `max` (p + n) - p `min` (p + n)) with n by lia.
  by replace (p `min` (p + n)) with p by lia.
Qed.

Lemma furthest_snoc log p e : furthest (log ++ [(p, e)]) = furthest log `max` p.
Proof.
  unfold furthest. rewrite fmap_app. simpl.
  induction (fst <$> log) as [|q l IH]; simpl; [lia|]. rewrite IH. lia.
Qed.

Lemma furthest_ge log q x : (q, x) ∈ log → q ≤ furthest log.
Proof.
  intros H. unfold furthest. apply max_list_elem_of_le.
  apply list_elem_of_fmap. by exists (q, x).
Qed.

Lemma expectedAt_snoc p log q e :
  expectedAt p (log ++ [(q, e)]) = expectedAt p log ++ (if decide (q = p) then [e] else []).
Proof.
  unfold expectedAt. rewrite filter_app, fmap_app. f_equal.
  rewrite filter_cons. simpl. by case_decide.
Qed.

Lemma expectedAt_beyond p log : furthest log < p → expectedAt p log = [].
Proof.
  intros H. unfold expectedAt.
  induction log as [|[q x] log IH]; [done|].
  rewrite filter_cons. simpl.
  assert (q ≤ furthest ((q, x) :: log)) by (eapply furthest_ge; apply list_elem_of_here).
  case_decide; [lia|]. apply IH.
  unfold furthest in *. rewrite fmap_cons in H. simpl in H.
  change (q `max` max_list (log.*1) < p) in H. lia.
Qed.

Section Basics.
Context {W : Type}.
Implicit Types st : PegState W.

Lemma leafStep_refl st : leafStep st st.
Proof. unfold leafStep. auto. Qed.

Lemma leafStep_trans st1 st2 st3 : leafStep st1 st2 → leafStep st2 st3 → leafStep st1 st3.
Proof.
unfold leafStep. intros (?&?&?&?) (?&?&?&?). split_and!; try congruence. auto.
Qed.

Lemma wp_getCurrPos E (Q : nat → PegState W → Prop) st :
Q (peg_currPos st) st → wp E getCurrPos Q st.
Proof. done. Qed.

Lemma wp_setCurrPos E p (Q : unit → PegState W → Prop) st :
(∀ st', peg_currPos st' = p → peg_savedPos st' = peg_savedPos st →
        leafStep st st' → Q () st') →
wp E (setCurrPos p) Q st.
Proof. intros H. apply H; unfold leafStep; auto. Qed.

Lemma wp_setSavedPos E p (Q : unit → PegState W → Prop) st :
(∀ st', peg_currPos st' = peg_currPos st → peg_savedPos st' = p →
        leafStep st st' → Q () st') →
wp E (setSavedPos p) Q st.
Proof. intros H. apply H; unfold leafStep; auto. Qed.

Lemma wp_text E input (Q : jsstring → PegState W → Prop) st :
Q (substring input (peg_savedPos st) (peg_currPos st)) st → wp E (text input) Q st.
Proof. done. Qed.

Lemma peg_fail_FailInv e st st' :
peg_fail e st = Ok () st' → FailInv st → FailInv st'.
Proof.
unfold peg_fail, FailInv. intros Hrun [Hpos Hexp].
repeat case_decide; simplify_eq; simpl;
  rewrite furthest_snoc, expectedAt_snoc.
- split; [lia|]. rewrite decide_False by lia. by rewrite app_nil_r.
- split; [lia|]. rewrite decide_True by done.
  rewrite expectedAt_beyond by lia. done.
- split; [lia|]. rewrite decide_True by lia. by rewrite <- Hexp.
Qed.

Lemma wp_fail E e (Q : unit → PegState W → Prop) st :
(∀ st', peg_currPos st' = peg_currPos st → peg_savedPos st' = peg_savedPos st →
        leafStep st st' → Q () st') →
wp E (peg_fail e) Q st.
Proof.
intros H. unfold wp.
destruct (peg_fail e st) as [[] st'| |] eqn:Hrun.
- apply H.
  + unfold peg_fail in Hrun. by repeat case_decide; simplify_eq.
  + unfold peg_fail in Hrun. by repeat case_decide; simplify_eq.
  + unfold leafStep. split_and!;
      try (unfold peg_fail in Hrun; by repeat case_decide; simplify_eq).
    by apply peg_fail_FailInv with e.
- unfold peg_fail in Hrun. by repeat case_decide.
- unfold peg_fail in Hrun. by repeat case_decide.
Qed.
End Basics.

(** ** Rules without recursion *)

Ltac wp_get := apply wp_bind, wp_getCurrPos; cbv beta.
Ltac wp_setc := apply wp_bind, wp_setCurrPos; intros ? ? ? ?; cbv beta.
Ltac wp_sets := apply wp_bind, wp_setSavedPos; intros ? ? ? ?; cbv beta.
Ltac wp_failed := apply wp_bind, wp_fail; intros ? ? ? ?; cbv beta.
Tactic Notation "wp_leaf" constr(lem) "as" ident(v) ident(st) ident(Hs) ident(Hv) ident(Hp) :=
  apply wp_bind; eapply wp_mono; [apply lem | by intros ? ? [] | intros v st (Hs & Hv & Hp); cbv beta].
Ltac leaf_done :=
  apply wp_ret; split_and!;
  [ eauto 8 using leafStep_trans, leafStep_refl | try done | simpl; try lia ].

Section Leaves.
Context {W : Type}.
Variable input : jsstring.
Implicit Types st : PegState W.

Lemma matchCharCode_spec code exp :
leafSpec (W:=W) input (matchCharCode input code exp) (charOf code).
Proof.
intros st. unfold matchCharCode, charOf. wp_get. rewrite head_drop.
case_decide.
- wp_setc. leaf_done.
- wp_failed. leaf_done.
Qed.

Lemma matchLiteral_spec lit exp :
leafSpec (W:=W) input (matchLiteral input lit exp) (literalOf lit).
Proof.
intros st. unfold matchLiteral, literalOf, substr. wp_get.
case_decide.
- wp_setc. leaf_done.
- wp_failed. leaf_done.
Qed.

Lemma matchClassLoop_spec cls exp rest s1 st :
wp noThrow (matchClassLoop cls exp rest s1)
  (λ v st', leafStep st st' ∧ v = s1 ++ classRun cls rest
            ∧ peg_currPos st' = peg_currPos st + length (classRun cls rest))
  st.
Proof.
revert s1 st. induction rest as [|c rest IH]; intros s1 st; simpl.
- wp_failed. apply wp_ret. rewrite app_nil_r. split_and!; [done|done|simpl; lia].
- destruct (cls c).
  + wp_get. wp_setc. eapply wp_mono; [apply IH|by intros ? ? []|].
    intros v st2 (Hstep & -> & Hpos). split_and!.
    * eauto using leafStep_trans.
    * by rewrite <- app_assoc.
    * simpl. lia.
  + wp_failed. apply wp_ret. rewrite app_nil_r. split_and!; [done|done|simpl; lia].
Qed.

Lemma matchClassStar_run cls exp st :
wp noThrow (matchClassStar input cls exp)
  (λ v st', leafStep st st' ∧ v = classRun cls (drop (peg_currPos st) input)
            ∧ peg_currPos st' =
                peg_currPos st + length (classRun cls (drop (peg_currPos st) input)))
  st.
Proof.
unfold matchClassStar. wp_get.
eapply wp_mono; [apply matchClassLoop_spec|by intros ? ? []|]. by intros v st2 (?&?&?).
Qed.

Lemma matchClassPlus_spec cls exp :
leafSpec (W:=W) input (matchClassPlus input cls exp) (plusOf cls).
Proof.
intros st. unfold matchClassPlus, plusOf.
apply wp_bind. eapply wp_mono; [apply matchClassStar_run|by intros ? ? []|].
intros v st2 (Hstep & -> & Hpos). apply wp_ret.
destruct (classRun _ _); simpl in *; split_and!; try done; lia.
Qed.

Lemma run_in_bounds cls p :
classRun cls (drop p input) ≠ [] →
p + length (classRun cls (drop p input)) ≤ length input.
Proof.
intros Hne. pose proof (classRun_length cls (drop p input)) as Hlen.
rewrite length_drop in Hlen.
destruct (classRun cls (drop p input)); [done|]. simpl in *. lia.
Qed.

Lemma run_text cls p :
classRun cls (drop p input) ≠ [] →
substring input p (p + length (classRun cls (drop p input)))
= classRun cls (drop p input).
Proof.
intros Hne. rewrite substring_take_drop by by apply run_in_bounds.
apply classRun_prefix.
Qed.

Ltac text_like cls :=
let st := fresh "st" in
intros st; unfold plusOf;
wp_get;
(let v := fresh "v" in let st1 := fresh "st" in
 let Hs := fresh "Hs" in let Hv := fresh "Hv" in let Hp := fresh "Hp" in
 wp_leaf (matchClassPlus_spec cls) as v st1 Hs Hv Hp);
unfold plusOf in *;
pose proof (run_text cls (peg_currPos st)) as Htext;
destruct (classRun cls (drop (peg_currPos st) input)) as [|c l] eqn:Hrun;
simpl in *; simplify_eq;
[ leaf_done
| wp_sets; apply wp_bind, wp_text; cbv beta; apply wp_ret;
  repeat match goal with H : peg_currPos _ = _ |- _ => rewrite H end;
  repeat match goal with H : peg_savedPos _ = _ |- _ => rewrite H end;
  simpl; rewrite Htext by done;
  split_and!; [eauto using leafStep_trans | done | lia ] ].

Lemma peg_parseText_spec : leafSpec (W:=W) input (peg_parseText input) textOf.
Proof. unfold peg_parseText, textOf. text_like peg_c51. Qed.

Lemma peg_parseInlineText_spec :
leafSpec (W:=W) input (peg_parseInlineText input) inlineTextOf.
Proof. unfold peg_parseInlineText, inlineTextOf. text_like peg_c49. Qed.

Lemma peg_parseExpression_spec :
leafSpec (W:=W) input (peg_parseExpression input) expressionOf.
Proof. unfold peg_parseExpression, expressionOf. text_like peg_c35. Qed.

Lemma peg_parseInlineMultilineText_spec :
leafSpec (W:=W) input (peg_parseInlineMultilineText input) multilineTextOf.
Proof. unfold peg_parseInlineMultilineText, multilineTextOf. text_like peg_c46. Qed.

End Leaves.

Lemma take_add {A} (l : list A) a b : take (a + b) l = take a l ++ take b (drop a l).
Proof.
  revert l. induction a as [|a IH]; intros [|x l]; simpl; try done.
  - by rewrite take_nil.
  - by rewrite IH.
Qed.

Section Leaves2.
Context {W : Type}.
Variable input : jsstring.
Implicit Types st : PegState W.

Lemma leafSpec_orelse {A} (m1 m2 : M W (option A)) f1 f2 :
leafSpec input m1 f1 → leafSpec input m2 f2 →
leafSpec input
  (s0 ← m1; match s0 with Some _ => mret s0 | None => m2 end)
  (λ rest, match f1 rest with Some r => Some r | None => f2 rest end).
Proof.
intros H1 H2 st. wp_leaf H1 as v1 st1 Hs1 Hv1 Hp1.
destruct (f1 (drop (peg_currPos st) input)) as [[v n]|] eqn:Hf1; simpl in *; subst.
- apply wp_ret. done.
- eapply wp_mono; [apply H2|by intros ? ? []|]. intros v st2 (Hstep & -> & Hpos).
  replace (peg_currPos st1) with (peg_currPos st) in * by lia.
  split_and!; eauto using leafStep_trans.
Qed.

Lemma peg_parseWhitespace_spec :
leafSpec (W:=W) input (peg_parseWhitespace input) whitespaceOf.
Proof.
intros st. unfold peg_parseWhitespace, whitespaceOf. wp_get.
apply wp_bind. eapply wp_mono; [apply matchClassStar_run|by intros ? ? []|].
intros v st2 (Hstep & -> & Hpos). wp_sets. leaf_done.
Qed.

Lemma head_drop_add p k : head (drop (p + k) input) = drop p input !! k.
Proof. by rewrite head_drop, lookup_drop. Qed.

Lemma peg_parseNewline_spec :
leafSpec (W:=W) input (peg_parseNewline input) newlineOf.
Proof.
intros st. unfold peg_parseNewline, newlineOf. wp_get.
wp_leaf (matchCharCode_spec (W:=W) input 13%N peg_c10) as v1 st1 Hs1 Hv1 Hp1.
wp_leaf (matchCharCode_spec (W:=W) input 10%N peg_c12) as v2 st2 Hs2 Hv2 Hp2.
unfold charOf in *. rewrite Hp1 in *. clear Hv1 Hp1.
destruct (decide (head (drop (peg_currPos st) input) = Some 13%N)); simpl in *;
  rewrite head_drop_add in *; simpl in *;
  case_decide; simpl in *; subst.
- wp_sets. leaf_done.
- wp_setc. leaf_done.
- wp_sets. leaf_done.
- wp_setc. leaf_done.
Qed.

Lemma peg_parseStopping_Id_spec :
leafSpec (W:=W) input (peg_parseStopping_Id input) stoppingOf.
Proof.
intros st. unfold peg_parseStopping_Id, stoppingOf. wp_get.
wp_leaf (matchLiteral_spec (W:=W) input peg_c14 peg_c15) as v1 st1 Hs1 Hv1 Hp1.
destruct (literalOf _ _) as [[l n]|]; simpl in *; subst.
- wp_sets. leaf_done.
- leaf_done.
Qed.

Lemma marker_spec sym e1 lit e2 t :
leafSpec (W:=W) input
  (s0 ← getCurrPos;
   s1 ← matchCharCode input sym e1;
   s1 ← match s1 with None => matchLiteral input lit e2 | Some _ => mret s1 end;
   match s1 with
   | Some _ => setSavedPos s0 ;; mret (Some (SequenceEmbedType t))
   | None => mret None
   end)
  (markerOf sym lit t).
Proof.
intros st. unfold markerOf. wp_get.
wp_leaf (matchCharCode_spec (W:=W) input sym e1) as v1 st1 Hs1 Hv1 Hp1.
destruct (charOf _ _) as [[l n]|]; simpl in *; subst.
- apply wp_bind, wp_ret. wp_sets. leaf_done.
- wp_leaf (matchLiteral_spec (W:=W) input lit e2) as v2 st2 Hs2 Hv2 Hp2.
  rewrite Hp1, Nat.add_0_r in *.
  destruct (literalOf _ _) as [[l n]|]; simpl in *; subst.
  + wp_sets. leaf_done.
  + leaf_done.
Qed.

Lemma peg_parseType_spec : leafSpec (W:=W) input (peg_parseType input) typeOf.
Proof.
unfold peg_parseType, typeOf.
apply leafSpec_orelse; [apply peg_parseStopping_Id_spec|].
apply leafSpec_orelse; [apply marker_spec|].
apply leafSpec_orelse; apply marker_spec.
Qed.

Lemma peg_parseCondition_spec :
leafSpec (W:=W) input (peg_parseCondition input) conditionOf.
Proof.
intros st. unfold peg_parseCondition, conditionOf. wp_get.
wp_leaf (peg_parseExpression_spec (W:=W) input) as v1 st1 Hs1 Hv1 Hp1.
unfold expressionOf, plusOf in *.
set (rest := drop (peg_currPos st) input) in *.
pose proof (classRun_prefix peg_c35 rest) as Hpre.
destruct (classRun peg_c35 rest) as [|c e] eqn:Hrun; simpl in Hv1, Hp1; subst v1.
{ wp_setc. leaf_done. }
simpl in Hpre. remember (S (length e)) as n eqn:Hn0.
wp_leaf (matchCharCode_spec (W:=W) input 58%N peg_c33) as v2 st2 Hs2 Hv2 Hp2.
unfold charOf in *. rewrite Hp1 in *. rewrite head_drop_add in *. fold rest in Hv2, Hp2.
case_decide as Hcolon; simpl in Hv2, Hp2; subst v2;
  [|wp_setc; apply wp_ret; simpl; rewrite <- Hn0, decide_False by done;
    simpl; split_and!; [eauto 8 using leafStep_trans|done|lia]].
wp_leaf (peg_parseWhitespace_spec) as v3 st3 Hs3 Hv3 Hp3.
unfold whitespaceOf in *. simpl in Hv3, Hp3. subst v3.
rewrite Hp2 in Hp3.
replace (drop (peg_currPos st + n + 1) input) with (drop (n + 1) rest) in Hp3
  by (unfold rest; rewrite drop_drop; f_equal; lia).
set (ws := classRun peg_c6 (drop (n + 1) rest)) in *.
wp_sets. apply wp_bind, wp_text. cbv beta. apply wp_ret.
assert (substring input (peg_currPos st) (peg_currPos st + (n + 1 + length ws))
        = (c :: e) ++ [58%N] ++ ws) as Htext.
{ pose proof (classRun_length peg_c6 (drop (n + 1) rest)) as Hws. fold ws in Hws.
  apply lookup_lt_Some in Hcolon as Hn.
  rewrite length_drop in Hws. unfold rest in Hn, Hws. rewrite length_drop in Hn, Hws.
  rewrite substring_take_drop by lia. fold rest.
  rewrite !take_add, Hpre, <- app_assoc. f_equal. f_equal.
  - by rewrite (drop_S _ _ _ Hcolon).
  - apply classRun_prefix. }
repeat match goal with H : peg_currPos _ = _ |- _ => rewrite H end.
repeat match goal with H : peg_savedPos _ = _ |- _ => rewrite H end.
replace (peg_currPos st + n + 1 + length ws)
  with (peg_currPos st + (n + 1 + length ws)) by lia.
rewrite Htext. simpl. rewrite <- Hn0.
rewrite decide_True by done. subst n ws. simpl.
split_and!; [eauto 8 using leafStep_trans| done |lia].
Qed.

Lemma conditionOrType_spec :
leafSpec (W:=W) input (conditionOrType input) conditionOrTypeOf.
Proof.
intros st. unfold conditionOrType, conditionOrTypeOf.
wp_leaf peg_parseCondition_spec as v1 st1 Hs1 Hv1 Hp1.
destruct (conditionOf _) as [[c n]|]; simpl in *; subst.
- leaf_done.
- eapply wp_mono; [apply peg_parseType_spec|by intros ? ? []|].
  intros v st2 (Hs2 & -> & Hp2). rewrite Hp1, Nat.add_0_r in *.
  split_and!; eauto using leafStep_trans.
Qed.
End Leaves2.

Section Positions.
Context {W : Type}.
Variable input : jsstring.
Implicit Types st : PegState W.

Lemma advanceDetails_add a b p d :
advanceDetails input (a + b) p d
= advanceDetails input b (p + a) (advanceDetails input a p d).
Proof.
revert p d. induction a as [|a IH]; intros p d; simpl.
- by rewrite Nat.add_0_r.
- rewrite IH. by replace (S p + a) with (p + S a) by lia.
Qed.

Lemma lineColumn_from p pos :
p ≤ pos →
advanceDetails input (pos - p) p (lineColumn input p) = lineColumn input pos.
Proof.
intros H. unfold lineColumn.
replace pos with (p + (pos - p)) at 2 by lia.
by rewrite advanceDetails_add.
Qed.

Lemma nearestCached_spec cache p :
is_Some (cache !! 0) →
∃ q d, nearestCached cache p = Some (q, d) ∧ q ≤ p ∧ cache !! q = Some d.
Proof.
intros [d0 H0]. induction p as [|p IH]; simpl.
- rewrite H0. eauto.
- destruct (cache !! S p) as [d|] eqn:Hp; [by eauto|].
  destruct IH as (q & d & -> & ? & ?). eauto 6.
Qed.

Lemma cacheStep_refl st : cacheStep st st.
Proof. unfold cacheStep. by split_and!. Qed.

Lemma cacheStep_trans st1 st2 st3 : cacheStep st1 st2 → cacheStep st2 st3 → cacheStep st1 st3.
Proof. unfold cacheStep. intros (?&?&?&?&?&?&?) (?&?&?&?&?&?&?). split_and!; congruence. Qed.

Lemma cacheStep_FailInv st st' : cacheStep st st' → FailInv st → FailInv st'.
Proof.
unfold cacheStep, FailInv. intros (?&?&Hm&He&?&Hl&?). by rewrite Hm, He, Hl.
Qed.

Lemma wp_computePosDetails E pos st (Q : PosDetails → PegState W → Prop) :
CacheInv input st →
(∀ st', cacheStep st st' → CacheInv input st' → Q (lineColumn input pos) st') →
wp E (peg_computePosDetails input pos) Q st.
Proof.
intros [H0 Hc] HQ. unfold wp, peg_computePosDetails.
destruct (peg_posDetailsCache st !! pos) as [d|] eqn:Hpos.
- rewrite (Hc _ _ Hpos). apply HQ; [apply cacheStep_refl|done].
- destruct (nearestCached_spec _ (pos - 1) H0) as (q & d & -> & Hq & Hd).
  assert (q ≤ pos) by lia.
  rewrite (Hc _ _ Hd), lineColumn_from by done. cbn.
  apply HQ; [unfold cacheStep; by simpl|].
  split; simpl.
  + destruct (decide (pos = 0)) as [->|]; [by rewrite lookup_insert_eq|].
    by rewrite lookup_insert_ne.
  + intros q' d'. destruct (decide (pos = q')) as [->|].
    * rewrite lookup_insert_eq. congruence.
    * rewrite lookup_insert_ne by done. apply Hc.
Qed.

Lemma wp_computeLocation E a b st (Q : IFileRange → PegState W → Prop) :
CacheInv input st →
(∀ st', cacheStep st st' → CacheInv input st' →
        Q (mkRange (positionAt input a) (positionAt input b)) st') →
wp E (peg_computeLocation input a b) Q st.
Proof.
intros Hc HQ. unfold peg_computeLocation.
apply wp_bind, wp_computePosDetails; [done|]. intros st1 Hs1 Hc1.
apply wp_bind, wp_computePosDetails; [done|]. intros st2 Hs2 Hc2.
apply wp_ret. apply HQ; eauto using cacheStep_trans.
Qed.

Lemma wp_location E st (Q : IFileRange → PegState W → Prop) :
CacheInv input st →
(∀ st', cacheStep st st' → CacheInv input st' →
        Q (mkRange (positionAt input (peg_savedPos st))
             (positionAt input (peg_currPos st))) st') →
wp E (location input) Q st.
Proof.
intros Hc HQ. unfold location.
apply wp_bind. unfold getSavedPos at 1. unfold wp at 1.
wp_get. by apply wp_computeLocation.
Qed.

End Positions.

Lemma charOf_bounded code : bounded true (charOf code).
Proof.
  intros rest a n. unfold charOf. case_decide as H; intros; simplify_eq.
  destruct rest; simplify_eq. simpl. lia.
Qed.

Lemma literalOf_bounded lit b : (b = true → lit ≠ []) → bounded b (literalOf lit).
Proof.
  intros Hlit rest a n. unfold literalOf. case_decide as H; intros; simplify_eq.
  split.
  - rewrite <- H at 1. rewrite length_take. lia.
  - intros Hb. specialize (Hlit Hb). destruct a; [done|simpl; lia].
Qed.

Lemma plusOf_bounded cls : bounded true (plusOf cls).
Proof.
  intros rest a n. unfold plusOf. pose proof (classRun_length cls rest).
  destruct (classRun cls rest); simpl; intros; simplify_eq. simpl in *. lia.
Qed.

Lemma multilineTextOf_bounded : bounded true multilineTextOf.
Proof.
  intros rest a n. unfold multilineTextOf. pose proof (classRun_length peg_c46 rest).
  destruct (classRun peg_c46 rest); simpl; intros; simplify_eq. simpl in *. lia.
Qed.

Lemma whitespaceOf_bounded : bounded false whitespaceOf.
Proof.
  intros rest a n. unfold whitespaceOf. pose proof (classRun_length peg_c6 rest).
  intros; simplify_eq. split; [done|done].
Qed.

Lemma newlineOf_bounded : bounded true newlineOf.
Proof.
  intros rest a n. unfold newlineOf.
  destruct (decide (head rest = Some 13%N)); cbv zeta;
    case_decide as Hnl; intros; simplify_eq;
    apply lookup_lt_Some in Hnl; lia.
Qed.

Lemma bounded_weaken {A} (f : jsstring → option (A * nat)) : bounded true f → bounded false f.
Proof. intros H rest a n Hf. split; [by eapply H|done]. Qed.

Lemma conditionOf_bounded : bounded true conditionOf.
Proof.
  intros rest a n. unfold conditionOf.
  destruct (classRun peg_c35 rest) as [|c e] eqn:Hrun; [done|].
  case_decide as Hc; [|done]. intros; simplify_eq.
  pose proof (classRun_length peg_c6 (drop (length (c :: e) + 1) rest)) as Hws.
  apply lookup_lt_Some in Hc. rewrite length_drop in Hws. lia.
Qed.

Lemma markerOf_bounded sym lit t : lit ≠ [] → bounded true (markerOf sym lit t).
Proof.
  intros Hlit rest a n. unfold markerOf.
  destruct (charOf sym rest) as [[l m]|] eqn:H1; simpl.
  - intros; simplify_eq. by eapply charOf_bounded.
  - destruct (literalOf lit rest) as [[l m]|] eqn:H2; simpl; intros; simplify_eq.
    by eapply (literalOf_bounded lit true).
Qed.

Lemma marker_words_nonempty :
  peg_c14 ≠ [] ∧ peg_c19 ≠ [] ∧ peg_c24 ≠ [] ∧ peg_c29 ≠ [].
Proof. by vm_compute. Qed.

Lemma typeOf_bounded : bounded true typeOf.
Proof.
  destruct marker_words_nonempty as (N1 & N2 & N3 & N4).
  intros rest a n. unfold typeOf, stoppingOf.
  destruct (literalOf peg_c14 rest) as [[l m]|] eqn:H1; simpl.
  { intros; simplify_eq. by apply (literalOf_bounded peg_c14 true (λ _, N1) _ _ _ H1). }
  destruct (markerOf 126 _ _ _) as [[]|] eqn:H2.
  { intros; simplify_eq. by apply (markerOf_bounded _ _ _ N2 _ _ _ H2). }
  destruct (markerOf 38 _ _ _) as [[]|] eqn:H3.
  { intros; simplify_eq. by apply (markerOf_bounded _ _ _ N3 _ _ _ H3). }
  intros H4. by apply (markerOf_bounded _ _ _ N4 _ _ _ H4).
Qed.

Lemma conditionOrTypeOf_bounded : bounded true conditionOrTypeOf.
Proof.
  intros rest a n. unfold conditionOrTypeOf.
  destruct (conditionOf rest) as [[c m]|] eqn:H1.
  - intros; simplify_eq. by eapply conditionOf_bounded.
  - apply typeOf_bounded.
Qed.

Section Rules.
Context {W : Type}.
Variable input : jsstring.
Implicit Types st : PegState W.

Lemma Inv_leafStep st st' :
Inv input st → leafStep st st' → peg_currPos st' ≤ length input → Inv input st'.
Proof.
intros (Hf & [H0 Hc] & _) (_ & _ & Hcache & Hfail) Hpos.
split_and!; [auto| |done]. unfold CacheInv. by rewrite Hcache.
Qed.

Lemma Inv_cacheStep st st' :
Inv input st → cacheStep st st' → CacheInv input st' → Inv input st'.
Proof.
intros (Hf & _ & Hpos) Hstep Hc. split_and!; [by eapply cacheStep_FailInv|done|].
destruct Hstep as (-> & _). done.
Qed.

Lemma leaf_rule {A} E consuming k (m : M W (option A)) f :
leafSpec input m f → bounded consuming f → ruleSpec E input consuming k m.
Proof.
intros Hm Hf st HI Hk. eapply wp_mono; [apply Hm|by intros ? ? []|].
intros v st' (Hstep & -> & Hpos). cbv beta.
destruct (f (drop (peg_currPos st) input)) as [[a n]|] eqn:Hfr; simpl in *.
- destruct (Hf _ _ _ Hfr) as [Hn Hc]. rewrite length_drop in Hn.
  destruct HI as (? & ? & ?).
  split_and!; [apply (Inv_leafStep st); [done|done|lia] |lia|done|].
  intros Hcons _. specialize (Hc Hcons). lia.
- rewrite Nat.add_0_r in Hpos. destruct HI as (? & ? & ?).
  split_and!; [apply (Inv_leafStep st); [done|done|lia]|lia|done|].
  intros _ []. done.
Qed.
End Rules.

Tactic Notation "wp_rule" constr(H) "as" ident(v) ident(st') ident(HI) ident(Hle) ident(Hn) ident(Hc) :=
  apply wp_bind; eapply wp_mono;
  [ apply H; [try done | try lia]
  | by intros
  | intros v st' (HI & Hle & Hn & Hc); cbv beta ].

Section RecursiveRules.
Context {W : Type}.
Variable input : jsstring.
Variable processEmbed : option EmbedType → list Argument → bool → W → PEResult * W.
Variable E : Exn → PegState W → Prop.
Hypothesis HPE : PEok E processEmbed.
Implicit Types st : PegState W.

Lemma wp_setCurrPos_inv p (Q : unit → PegState W → Prop) st :
Inv input st → p ≤ length input →
(∀ st', Inv input st' → peg_currPos st' = p → Q () st') →
wp E (setCurrPos p) Q st.
Proof.
intros HI Hp HQ. apply wp_setCurrPos. intros st' Hc Hs Hstep.
apply HQ; [|done]. apply (Inv_leafStep input st); [done|done|lia].
Qed.

Lemma wp_setSavedPos_inv p (Q : unit → PegState W → Prop) st :
Inv input st →
(∀ st', Inv input st' → peg_currPos st' = peg_currPos st →
        peg_savedPos st' = p → Q () st') →
wp E (setSavedPos p) Q st.
Proof.
intros HI HQ. apply wp_setSavedPos. intros st' Hc Hs Hstep.
apply HQ; [|done|done]. apply (Inv_leafStep input st); [done|done|].
rewrite Hc. apply HI.
Qed.

Lemma wp_location_inv (Q : IFileRange → PegState W → Prop) st :
Inv input st →
(∀ l st', Inv input st' → peg_currPos st' = peg_currPos st → Q l st') →
wp E (location input) Q st.
Proof.
intros HI HQ. apply wp_location; [apply HI|]. intros st' Hstep Hc.
apply HQ; [by apply (Inv_cacheStep input st)|apply Hstep].
Qed.

Lemma wp_call_inv type args multiline (Q : jsstring → PegState W → Prop) st :
Inv input st →
(∀ s st', Inv input st' → peg_currPos st' = peg_currPos st → Q s st') →
wp E (call_processEmbed input processEmbed type args multiline) Q st.
Proof using HPE.
intros HI HQ. unfold wp, call_processEmbed.
pose proof (HPE type args multiline (peg_world st)) as Hpe.
destruct (processEmbed type args multiline (peg_world st)) as [r w].
simpl in Hpe. cbv iota zeta beta.
set (st1 := mkPegState _ _ _ _ _ _ _ _).
assert (Inv input st1) as HI1.
{ destruct HI as ([? ?] & [? ?] & ?). by split_and!. }
destruct r as [s|description location1|x].
- by apply HQ.
- change (wp E (expected input description location1) Q st1).
  unfold expected. apply wp_bind.
  assert (∀ l st2, wp E (t ← text input;
     throw (ExpectedError
              (peg_buildStructuredError [OtherExpectation description] (Some t) l)))
          Q st2) as Hthrow.
  { intros l st2. apply wp_bind, wp_text. cbv beta. apply Hpe. }
  destruct location1 as [l|].
  + apply wp_ret, Hthrow.
  + apply wp_location_inv; [done|]. intros l st2 _ _. apply Hthrow.
- apply Hpe.
Qed.

(** *** Loops and the rules built on [Embed] *)

Lemma repeatLoop_spec {A} k (item : M W (option A)) :
ruleSpec E input true k item →
∀ n s1 s st,
  Inv input st → k ≤ peg_currPos st →
  (is_Some s → length input < peg_currPos st + n) →
  wp E (repeatLoop item n s1 s)
    (λ _ st', Inv input st' ∧ peg_currPos st ≤ peg_currPos st') st.
Proof.
intros Hitem n. induction n as [|n IH]; intros s1 s st HI Hk Hn.
- destruct s as [v|]; simpl.
  + destruct HI as (_ & _ & ?). specialize (Hn ltac:(eauto)). lia.
  + by apply wp_ret.
- destruct s as [v|]; simpl; [|by apply wp_ret].
  specialize (Hn ltac:(eauto)).
  wp_rule Hitem as s' st1 HI1 Hle1 Hn1 Hc1.
  eapply wp_mono; [apply IH; [done|lia|]|by intros|].
  + intros Hs. specialize (Hc1 eq_refl Hs). lia.
  + intros l st2 (? & ?). split; [done|lia].
Qed.

Variable k : nat.
Variable peg_parseEmbed_rec : M W (option jsstring).
Hypothesis Hrec : ruleSpec E input true k peg_parseEmbed_rec.

Lemma orEmbed_spec item :
ruleSpec E input true k item →
ruleSpec E input true k (orEmbed peg_parseEmbed_rec item).
Proof using Hrec.
intros Hitem st HI Hk. unfold orEmbed.
wp_rule Hitem as s2 st1 HI1 Hle1 Hn1 Hc1.
destruct s2 as [v|].
- apply wp_ret. split_and!; [done|lia|done|]. intros. apply Hc1; eauto.
- specialize (Hn1 eq_refl).
  eapply wp_mono; [apply Hrec; [done|lia]|by intros|].
  intros v st2 (? & ? & Hn2 & Hc2). cbv beta. rewrite Hn1 in *.
  split_and!; try done.
Qed.

Lemma loopFuel_enough st :
Inv input st → length input < peg_currPos st + loopFuel input.
Proof. unfold loopFuel. lia. Qed.

Lemma peg_parseSource_spec :
ruleSpec E input false k (peg_parseSource input peg_parseEmbed_rec).
Proof using Hrec.
intros st HI Hk. unfold peg_parseSource. wp_get.
pose proof (orEmbed_spec _ (leaf_rule input E true k _ _
              (peg_parseText_spec input) (plusOf_bounded _))) as Hitem.
wp_rule Hitem as s2 st1 HI1 Hle1 Hn1 Hc1.
apply wp_bind.
eapply wp_mono;
  [apply (repeatLoop_spec k _ Hitem); [done|lia|intros; by apply loopFuel_enough]
  |by intros|].
intros s1 st2 (HI2 & Hle2). cbv beta.
apply wp_bind, wp_setSavedPos_inv; [done|]. intros st3 HI3 Hc3 _.
apply wp_ret. split_and!; [done|lia|done|done].
Qed.

Lemma plusSource_spec item :
ruleSpec E input true k item →
ruleSpec E input false k
  (s0 ← getCurrPos;
   s2 ← orEmbed peg_parseEmbed_rec item;
   match s2 with
   | Some _ =>
       s1 ← repeatLoop (orEmbed peg_parseEmbed_rec item) (loopFuel input) [] s2;
       setSavedPos s0 ;;
       mret (Some (peg_c0 s1))
   | None => mret None
   end).
Proof using Hrec.
intros Hi st HI Hk. wp_get.
pose proof (orEmbed_spec _ Hi) as Hitem.
wp_rule Hitem as s2 st1 HI1 Hle1 Hn1 Hc1.
destruct s2 as [v|].
- apply wp_bind.
  eapply wp_mono;
    [apply (repeatLoop_spec k _ Hitem); [done|lia|intros; by apply loopFuel_enough]
    |by intros|].
  intros s1 st2 (HI2 & Hle2). cbv beta.
  apply wp_bind, wp_setSavedPos_inv; [done|]. intros st3 HI3 Hc3 _.
  apply wp_ret. split_and!; [done|lia|done|done].
- apply wp_ret. split_and!; [done|lia|auto|done].
Qed.

Lemma peg_parseInlineSource_spec :
ruleSpec E input false k (peg_parseInlineSource input peg_parseEmbed_rec).
Proof using Hrec.
apply plusSource_spec.
apply (leaf_rule input E true k _ _ (peg_parseInlineText_spec input) (plusOf_bounded _)).
Qed.

Lemma peg_parseInlineMultilineSource_spec :
ruleSpec E input false k (peg_parseInlineMultilineSource input peg_parseEmbed_rec).
Proof using Hrec.
apply plusSource_spec.
apply (leaf_rule input E true k _ _ (peg_parseInlineMultilineText_spec input)
         multilineTextOf_bounded).
Qed.

Lemma peg_parseArgument_spec :
ruleSpec E input false k (peg_parseArgument input peg_parseEmbed_rec).
Proof using Hrec.
intros st HI Hk. unfold peg_parseArgument. wp_get.
wp_rule peg_parseInlineSource_spec as s1 st1 HI1 Hle1 Hn1 Hc1.
apply wp_bind, wp_setSavedPos_inv; [done|]. intros st2 HI2 Hc2 _.
apply wp_bind. unfold peg_c38. apply wp_bind, wp_location_inv; [done|].
intros l st3 HI3 Hc3. apply wp_ret. apply wp_ret.
split_and!; [done|lia|done|done].
Qed.

Lemma pipeArgument_spec :
ruleSpec E input true k (pipeArgument input peg_parseEmbed_rec).
Proof using Hrec.
intros st HI Hk. unfold pipeArgument. wp_get.
wp_rule (leaf_rule input E true k _ _
           (matchCharCode_spec (W:=W) input 124%N peg_c40) (charOf_bounded _))
  as s4 st1 HI1 Hle1 Hn1 Hc1.
destruct s4 as [bar|].
- specialize (Hc1 eq_refl ltac:(eauto)).
  wp_rule peg_parseArgument_spec as s5 st2 HI2 Hle2 Hn2 Hc2.
  destruct s5 as [a|].
  + apply wp_ret. split_and!; [done|lia|done|]. intros. lia.
  + apply wp_bind, wp_setCurrPos_inv; [done|apply HI|]. intros st3 HI3 Hc3.
    apply wp_ret. split_and!; [done|lia|done|]. by intros _ [].
- apply wp_bind, wp_setCurrPos_inv; [done|apply HI|]. intros st3 HI3 Hc3.
  apply wp_ret. split_and!; [done|lia|done|]. by intros _ [].
Qed.

Lemma peg_parseArguments_spec :
ruleSpec E input false k (peg_parseArguments input peg_parseEmbed_rec).
Proof using Hrec.
intros st HI Hk. unfold peg_parseArguments. wp_get.
wp_rule peg_parseArgument_spec as s1 st1 HI1 Hle1 Hn1 Hc1.
destruct s1 as [first|].
- wp_rule pipeArgument_spec as s3 st2 HI2 Hle2 Hn2 Hc2.
  apply wp_bind.
  eapply wp_mono;
    [apply (repeatLoop_spec k _ pipeArgument_spec);
       [done|lia|intros; by apply loopFuel_enough]
    |by intros|].
  intros s2 st3 (HI3 & Hle3). cbv beta.
  apply wp_bind, wp_setSavedPos_inv; [done|]. intros st4 HI4 Hc4 _.
  apply wp_ret. split_and!; [done|lia|done|done].
- apply wp_bind, wp_setCurrPos_inv; [done|apply HI|]. intros st3 HI3 Hc3.
  apply wp_ret. split_and!; [done|lia|done|done].
Qed.

Lemma peg_parseMultilineArgument_spec :
ruleSpec E input false k (peg_parseMultilineArgument input peg_parseEmbed_rec).
Proof using Hrec.
intros st HI Hk. unfold peg_parseMultilineArgument. wp_get.
wp_rule (leaf_rule input E true k _ _
           (peg_parseCondition_spec (W:=W) input) conditionOf_bounded)
  as s1 st1 HI1 Hle1 Hn1 Hc1.
wp_rule peg_parseInlineMultilineSource_spec as s2 st2 HI2 Hle2 Hn2 Hc2.
apply wp_bind, wp_setSavedPos_inv; [done|]. intros st3 HI3 Hc3 _.
apply wp_bind. unfold peg_c42. apply wp_bind, wp_location_inv; [done|].
intros l st4 HI4 Hc4.
assert (∀ a : Argument, wp E (mret a)
          (λ a st5, wp E (mret (Some a))
             (λ v st6, Inv input st6 ∧ peg_currPos st ≤ peg_currPos st6
                ∧ (v = None → peg_currPos st6 = peg_currPos st)
                ∧ (false = true → is_Some v → peg_currPos st < peg_currPos st6))
             st5) st4) as Hret.
{ intros a. apply wp_ret. apply wp_ret. split_and!; [done|lia|done|done]. }
destruct s1; apply Hret.
Qed.

Lemma rule_back {A} (b : bool) st st1 :
Inv input st → Inv input st1 →
wp E (setCurrPos (peg_currPos st) ;; mret None)
  (λ (v : option A) st2,
     Inv input st2 ∧ peg_currPos st ≤ peg_currPos st2
     ∧ (v = None → peg_currPos st2 = peg_currPos st)
     ∧ (b = true → is_Some v → peg_currPos st < peg_currPos st2))
  st1.
Proof.
intros HI HI1. apply wp_bind, wp_setCurrPos_inv; [done|apply HI|].
intros st3 HI3 Hc3. apply wp_ret. split_and!; [done|lia|done|]. by intros _ [].
Qed.

Lemma dashArgument_spec :
ruleSpec E input true k (dashArgument input peg_parseEmbed_rec).
Proof using Hrec.
intros st HI Hk. unfold dashArgument. wp_get.
wp_rule (leaf_rule input E true k _ _
           (matchCharCode_spec (W:=W) input 45%N peg_c44) (charOf_bounded _))
  as s4 st1 HI1 Hle1 Hn1 Hc1.
destruct s4 as [dash|]; [|by apply rule_back].
specialize (Hc1 eq_refl ltac:(eauto)).
wp_rule (leaf_rule input E false k _ _
           (peg_parseWhitespace_spec (W:=W) input) whitespaceOf_bounded)
  as s5 st2 HI2 Hle2 Hn2 Hc2.
destruct s5 as [[]|]; [|by apply rule_back].
wp_rule peg_parseMultilineArgument_spec as s6 st3 HI3 Hle3 Hn3 Hc3.
destruct s6 as [a|]; [|by apply rule_back].
wp_rule (leaf_rule input E false k _ _
           (peg_parseWhitespace_spec (W:=W) input) whitespaceOf_bounded)
  as s7 st4 HI4 Hle4 Hn4 Hc4.
destruct s7 as [[]|]; [|by apply rule_back].
apply wp_ret. split_and!; [done|lia|done|]. intros. lia.
Qed.

Lemma peg_parseMultiLineArguments_spec :
ruleSpec E input false k (peg_parseMultiLineArguments input peg_parseEmbed_rec).
Proof using Hrec.
intros st HI Hk. unfold peg_parseMultiLineArguments. wp_get.
wp_rule (leaf_rule input E false k _ _
           (peg_parseWhitespace_spec (W:=W) input) whitespaceOf_bounded)
  as s1 st1 HI1 Hle1 Hn1 Hc1.
destruct s1 as [[]|]; [|by apply rule_back].
wp_rule dashArgument_spec as s3 st2 HI2 Hle2 Hn2 Hc2.
destruct s3 as [a|]; [|by apply rule_back].
apply wp_bind.
eapply wp_mono;
  [apply (repeatLoop_spec k _ dashArgument_spec);
     [done|lia|intros; by apply loopFuel_enough]
  |by intros|].
intros s2 st3 (HI3 & Hle3). cbv beta.
apply wp_bind, wp_setSavedPos_inv; [done|]. intros st4 HI4 Hc4 _.
apply wp_ret. split_and!; [done|lia|done|done].
Qed.
End RecursiveRules.

Section Embeds.
Context {W : Type}.
Variable input : jsstring.
Variable processEmbed : option EmbedType → list Argument → bool → W → PEResult * W.
Variable E : Exn → PegState W → Prop.
Hypothesis HPE : PEok E processEmbed.
Implicit Types st : PegState W.

Variable k : nat.
Variable peg_parseEmbed_rec : M W (option jsstring).
Hypothesis Hrec : ruleSpec E input true (S k) peg_parseEmbed_rec.

Lemma peg_parseInlineEmbed_spec :
ruleSpec E input true k (peg_parseInlineEmbed input processEmbed peg_parseEmbed_rec).
Proof using HPE Hrec.
intros st HI Hk. unfold peg_parseInlineEmbed. wp_get.
wp_rule (leaf_rule input E true k _ _
           (matchCharCode_spec (W:=W) input 123%N peg_c2) (charOf_bounded _))
  as s1 st1 HI1 Hle1 Hn1 Hc1.
destruct s1 as [brace|]; [|by apply (rule_back input E)].
specialize (Hc1 eq_refl ltac:(eauto)).
wp_rule (leaf_rule input E true (S k) _ _
           (conditionOrType_spec (W:=W) input) conditionOrTypeOf_bounded)
  as s2 st2 HI2 Hle2 Hn2 Hc2.
wp_rule (peg_parseArguments_spec input E (S k) _ Hrec) as s3 st3 HI3 Hle3 Hn3 Hc3.
destruct s3 as [args|]; [|by apply (rule_back input E)].
wp_rule (leaf_rule input E true (S k) _ _
           (matchCharCode_spec (W:=W) input 125%N peg_c4) (charOf_bounded _))
  as s4 st4 HI4 Hle4 Hn4 Hc4.
destruct s4 as [close|]; [|by apply (rule_back input E)].
apply wp_bind, (wp_setSavedPos_inv input); [done|]. intros st5 HI5 Hc5 _.
apply wp_bind, (wp_call_inv input processEmbed E HPE); [done|]. intros s st6 HI6 Hc6.
apply wp_ret. split_and!; [done|lia|done|]. intros. lia.
Qed.

Lemma peg_parseMutliLineEmbed_spec :
ruleSpec E input true k (peg_parseMutliLineEmbed input processEmbed peg_parseEmbed_rec).
Proof using HPE Hrec.
intros st HI Hk. unfold peg_parseMutliLineEmbed. wp_get.
wp_rule (leaf_rule input E true k _ _
           (matchCharCode_spec (W:=W) input 123%N peg_c2) (charOf_bounded _))
  as s1 st1 HI1 Hle1 Hn1 Hc1.
destruct s1 as [brace|]; [|by apply (rule_back input E)].
specialize (Hc1 eq_refl ltac:(eauto)).
wp_rule (leaf_rule input E true (S k) _ _
           (peg_parseType_spec (W:=W) input) typeOf_bounded)
  as s2 st2 HI2 Hle2 Hn2 Hc2.
wp_rule (leaf_rule input E true (S k) _ _
           (peg_parseNewline_spec (W:=W) input) newlineOf_bounded)
  as s3 st3 HI3 Hle3 Hn3 Hc3.
destruct s3 as [[]|]; [|by apply (rule_back input E)].
wp_rule (peg_parseMultiLineArguments_spec input E (S k) _ Hrec)
  as s4 st4 HI4 Hle4 Hn4 Hc4.
destruct s4 as [args|]; [|by apply (rule_back input E)].
wp_rule (leaf_rule input E true (S k) _ _
           (matchCharCode_spec (W:=W) input 125%N peg_c4) (charOf_bounded _))
  as s5 st5 HI5 Hle5 Hn5 Hc5.
destruct s5 as [close|]; [|by apply (rule_back input E)].
apply wp_bind, (wp_setSavedPos_inv input); [done|]. intros st6 HI6 Hc6 _.
apply wp_bind, (wp_call_inv input processEmbed E HPE); [done|]. intros s st7 HI7 Hc7.
apply wp_ret. split_and!; [done|lia|done|]. intros. lia.
Qed.

Lemma peg_parseEmbed_body_spec :
ruleSpec E input true k (peg_parseEmbed_body input processEmbed peg_parseEmbed_rec).
Proof using HPE Hrec.
intros st HI Hk. unfold peg_parseEmbed_body.
wp_rule peg_parseInlineEmbed_spec as s0 st1 HI1 Hle1 Hn1 Hc1.
destruct s0 as [v|].
- apply wp_ret. split_and!; [done|lia|done|]. intros. apply Hc1; eauto.
- specialize (Hn1 eq_refl).
  eapply wp_mono; [apply peg_parseMutliLineEmbed_spec; [done|lia]|by intros|].
  intros v st2 (? & ? & Hn2 & Hc2). cbv beta. rewrite Hn1 in *. done.
Qed.
End Embeds.

Section Totality.
Context {W : Type}.
Variable input : jsstring.
Variable processEmbed : option EmbedType → list Argument → bool → W → PEResult * W.
Variable E : Exn → PegState W → Prop.
Hypothesis HPE : PEok E processEmbed.
Implicit Types st : PegState W.

Lemma peg_parseEmbed_spec depth k :
length input < k + depth →
ruleSpec E input true k (peg_parseEmbed input processEmbed depth).
Proof using HPE.
revert k. induction depth as [|depth IH]; intros k Hd; simpl.
- intros st (_ & _ & ?) ?. lia.
- apply peg_parseEmbed_body_spec; [done|]. apply IH. lia.
Qed.

Lemma peg_init_Inv (options : W) : Inv input (peg_init options).
Proof.
split_and!.
- done.
- split; simpl.
  + by rewrite lookup_singleton_eq.
  + intros q d [<- <-]%lookup_singleton_Some. reflexivity.
- simpl. lia.
Qed.
End Totality.

Section ParseRun.
Context {W : Type}.
Variable input : jsstring.
Variable processEmbed : option EmbedType → list Argument → bool → W → PEResult * W.
Implicit Types st : PegState W.

Lemma PEok_parseThrow : PEok (parseThrow input) processEmbed.
Proof. intros t a m w. by destruct (processEmbed t a m w).1. Qed.

Lemma peg_throwFurthest_spec {A} st (Q : A → PegState W → Prop) :
Inv input st → wp (parseThrow input) (peg_throwFurthest input) Q st.
Proof.
intros (Hf & Hc & Hp). unfold peg_throwFurthest.
apply wp_bind. unfold getMaxFailPos at 1, wp at 1.
apply wp_bind. unfold getMaxFailExpected at 1, wp at 1.
destruct Hf as [Hm He].
assert (∀ l st', cacheStep st st' →
          l = mkRange (positionAt input (peg_maxFailPos st))
                (positionAt input
                   (if decide (peg_maxFailPos st < length input)
                    then peg_maxFailPos st + 1 else peg_maxFailPos st)) →
          wp (parseThrow input)
            (throw (ParseFailure
                      (peg_buildStructuredError (peg_maxFailExpected st)
                         (charAtOrNull input (peg_maxFailPos st)) l)))
            Q st') as Hthrow.
{ intros l st' Hstep ->. unfold wp, throw, parseThrow, furthestFailure. cbv zeta.
  destruct Hstep as (_ & _ & _ & _ & _ & -> & _). rewrite <- Hm. simpl.
  by rewrite He. }
apply wp_bind. case_decide.
- apply wp_computeLocation; [done|]. intros st' Hstep _. by apply Hthrow.
- apply wp_computeLocation; [done|]. intros st' Hstep _. by apply Hthrow.
Qed.

Lemma peg_finish_spec r st :
Inv input st →
wp (parseThrow input) (peg_finish input r)
  (λ s st', r = Some s ∧ peg_currPos st' = length input ∧ st' = st) st.
Proof.
intros HI. unfold peg_finish. wp_get.
destruct r as [s|]; [|by apply peg_throwFurthest_spec].
case_decide as Hend; [by apply wp_ret|].
apply wp_bind. case_decide.
- apply wp_fail. intros st' Hc Hs Hstep.
  apply peg_throwFurthest_spec. apply (Inv_leafStep input st); [done|done|].
  rewrite Hc. apply HI.
- apply wp_ret. by apply peg_throwFurthest_spec.
Qed.

Lemma peg_parse_spec options :
wp (parseThrow input)
  (λ _ : PegState W, peg_parse input processEmbed options)
  (λ s st', Inv input st' ∧ peg_currPos st' = length input)
  (peg_init options).
Proof.
unfold peg_parse.
change (wp (parseThrow input)
          (peg_parseSource input (peg_parseEmbed input processEmbed (S (length input)))
           ≫= peg_finish input)
          (λ s st', Inv input st' ∧ peg_currPos st' = length input)
          (peg_init options)).
apply wp_bind.
eapply wp_mono;
  [apply (peg_parseSource_spec input (parseThrow input) 0);
     [apply peg_parseEmbed_spec; [apply PEok_parseThrow|lia]
     |apply peg_init_Inv|simpl; lia]
  |by intros|].
intros r st1 (HI1 & _). cbv beta.
eapply wp_mono; [by apply peg_finish_spec|by intros|].
intros s st2 (_ & ? & ->). done.
Qed.

(** [peg$parse] always ends: it returns or throws. *)
Lemma peg_parse_total options : peg_parse input processEmbed options ≠ OutOfFuel.
Proof.
pose proof (peg_parse_spec options) as H. unfold wp in H.
by destruct (peg_parse input processEmbed options).
Qed.

Lemma peg_parse_failure options :
match peg_parse input processEmbed options with
| Throw (ParseFailure e) st =>
    furthestFailure input (peg_failLog st) e
    ∧ ∀ q x, (q, x) ∈ peg_failLog st → q ≤ furthest (peg_failLog st)
| OutOfFuel => False
| _ => True
end.
Proof.
pose proof (peg_parse_spec options) as H. unfold wp in H.
destruct (peg_parse input processEmbed options) as [s st|e st|]; [done| |done].
destruct e as [err| |]; [|done..]. split; [done|]. apply furthest_ge.
Qed.
End ParseRun.

Section NoDirectives.
Context {W : Type}.
Variable input : jsstring.
Variable processEmbed : option EmbedType → list Argument → bool → W → PEResult * W.
Implicit Types st : PegState W.

(** Away from an opening brace [Embed] fails at once, whatever lies one
  nesting level further down. *)
Lemma peg_parseEmbed_body_no_brace rec st :
head (drop (peg_currPos st) input) ≠ Some 123%N →
wp noThrow (peg_parseEmbed_body input processEmbed rec)
  (λ v st', v = None ∧ leafStep st st' ∧ peg_currPos st' = peg_currPos st) st.
Proof.
intros Hb. unfold peg_parseEmbed_body, peg_parseInlineEmbed, peg_parseMutliLineEmbed.
apply wp_bind. wp_get.
wp_leaf (matchCharCode_spec (W:=W) input 123%N peg_c2) as s1 st1 Hs1 Hv1 Hp1.
unfold charOf in Hv1, Hp1. rewrite decide_False in Hv1, Hp1 by done.
simpl in Hv1, Hp1. subst s1. wp_setc. apply wp_ret.
wp_get.
wp_leaf (matchCharCode_spec (W:=W) input 123%N peg_c2) as s2 st2 Hs2 Hv2 Hp2.
unfold charOf in Hv2, Hp2.
replace (peg_currPos st') with (peg_currPos st) in * by lia.
rewrite decide_False in Hv2, Hp2 by done.
simpl in Hv2, Hp2. subst s2. wp_setc. apply wp_ret.
split_and!; [done|eauto 8 using leafStep_trans|lia].
Qed.

Lemma peg_parseEmbed_no_brace depth st :
head (drop (peg_currPos st) input) ≠ Some 123%N →
wp noThrow (peg_parseEmbed input processEmbed (S depth))
  (λ v st', v = None ∧ leafStep st st' ∧ peg_currPos st' = peg_currPos st) st.
Proof. apply peg_parseEmbed_body_no_brace. Qed.

Lemma braceFree_run s : braceFree s → classRun peg_c51 s = s.
Proof.
intros H. apply classRun_all. eapply Forall_impl; [exact H|].
intros c [H1 H2]. unfold peg_c51, inClass. simpl.
destruct (N.eqb_spec c 123), (N.eqb_spec c 125); done.
Qed.

End NoDirectives.

Section RoundTrip.
Context {W : Type}.
Variable processEmbed : option EmbedType → list Argument → bool → W → PEResult * W.
Implicit Types st : PegState W.

Lemma orEmbed_text_at_end input st :
peg_currPos st = length input →
wp noThrow
  (orEmbed (peg_parseEmbed input processEmbed (S (length input)))
     (peg_parseText input))
  (λ v st', v = None ∧ leafStep st st' ∧ peg_currPos st' = length input) st.
Proof.
intros Hp. unfold orEmbed.
wp_leaf (peg_parseText_spec (W:=W) input) as s2 st1 Hs1 Hv1 Hp1.
rewrite Hp, drop_all in Hv1, Hp1. simpl in Hv1, Hp1. subst s2.
eapply wp_mono; [apply peg_parseEmbed_no_brace|by intros ? ? []|].
- replace (peg_currPos st1) with (length input) by lia. by rewrite drop_all.
- intros v st2 (-> & ? & ?). split_and!; [done|eauto using leafStep_trans|lia].
Qed.

Lemma parse_brace_free input options :
braceFree input →
wp noThrow (λ _ : PegState W, peg_parse input processEmbed options)
  (λ s st', s = input ∧ leafStep (peg_init options) st') (peg_init options).
Proof.
intros Hfree. unfold peg_parse.
change (wp noThrow
          (peg_parseSource input (peg_parseEmbed input processEmbed (S (length input)))
           ≫= peg_finish input)
          (λ s st', s = input ∧ leafStep (peg_init options) st')
          (peg_init options)).
set (st0 := peg_init options).
apply wp_bind. unfold peg_parseSource. wp_get.
destruct (decide (input = [])) as [->|Hne].
- (* the empty input *)
  apply wp_bind.
  eapply wp_mono; [by apply (orEmbed_text_at_end [] st0)|by intros ? ? []|].
  intros v st1 (-> & Hs1 & Hp1). cbv beta. simpl.
  apply wp_bind, wp_ret. wp_sets. apply wp_ret.
  unfold peg_finish. wp_get. rewrite decide_True by (simpl in *; lia).
  apply wp_ret. split; [done|eauto using leafStep_trans].
- assert (textOf input = Some (input, length input)) as Htext.
  { unfold textOf, plusOf. rewrite braceFree_run by done. by destruct input. }
  apply wp_bind. unfold orEmbed at 1.
  wp_leaf (peg_parseText_spec (W:=W) input) as s2 st1 Hs1 Hv1 Hp1.
  change (drop (peg_currPos st0) input) with input in Hv1, Hp1.
  rewrite Htext in Hv1, Hp1. simpl in Hv1, Hp1. subst s2. apply wp_ret.
  unfold loopFuel. simpl repeatLoop.
  apply wp_bind. apply wp_bind.
  eapply wp_mono; [by apply (orEmbed_text_at_end input st1)|by intros ? ? []|].
  intros v st2 (-> & Hs2 & Hp2). cbv beta.
  assert (∀ n, wp noThrow (repeatLoop (W:=W)
            (orEmbed (peg_parseEmbed input processEmbed (S (length input)))
               (peg_parseText input)) n ([] ++ [input]) None)
            (λ s1 st3, s1 = [input] ∧ st3 = st2) st2) as Hloop.
  { intros [|n]; by apply wp_ret. }
  eapply wp_mono; [apply Hloop|by intros ? ? []|].
  intros s1 st3 (-> & ->). cbv beta.
  wp_sets. apply wp_ret.
  unfold peg_finish. wp_get. rewrite decide_True by lia.
  apply wp_ret. split; [unfold peg_c0; simpl; by rewrite app_nil_r|eauto 8 using leafStep_trans].
Qed.
End RoundTrip.

Lemma classRun_ext cls1 cls2 rest :
  (∀ c, cls1 c = cls2 c) → classRun cls1 rest = classRun cls2 rest.
Proof.
  intros H. induction rest as [|c rest IH]; simpl; [done|]. by rewrite H, IH.
Qed.

Lemma existsb_elem_of c parts : existsb (N.eqb c) parts = bool_decide (c ∈ parts).
Proof.
  induction parts as [|x parts IH]; cbn [existsb].
  - symmetry. apply bool_decide_eq_false. apply not_elem_of_nil.
  - rewrite IH. destruct (N.eqb_spec c x) as [->|Hne]; cbn [orb].
    + symmetry. apply bool_decide_eq_true. left.
    + apply bool_decide_ext. rewrite elem_of_cons. split; [by right|by intros [?|?]].
Qed.

Lemma inClass_inverted parts c : inClass parts true c = bool_decide (c ∉ parts).
Proof.
  unfold inClass. rewrite existsb_elem_of. cbn [xorb]. rewrite bool_decide_not.
  by destruct (bool_decide _).
Qed.

Lemma leaf_resolved {W A} input (m : M W (option A)) f st :
  leafSpec input m f → resolved (m st) = Some (fst <$> f (drop (peg_currPos st) input)).
Proof.
  intros H. destruct (wp_strict_run _ _ _ (H st)) as (v & st' & -> & _ & -> & _). done.
Qed.

(** C1. For every input without ['{'] and ['}'], [peg$parse] with the start
    rule [Source] returns the input itself, code unit for code unit; it
    never calls [processEmbed] and leaves the options untouched. *)
Theorem source_without_braces_round_trips {W} (input : jsstring)
    (processEmbed : option EmbedType → list Argument → bool → W → PEResult * W)
    (options : W) :
  braceFree input →
  ∃ st, peg_parse input processEmbed options = Ok input st
        ∧ peg_world st = options ∧ peg_embedLog st = [].
Proof.
  intros Hfree.
  destruct (wp_strict_run _ _ _ (parse_brace_free processEmbed input options Hfree))
    as (s & st & Hrun & -> & Hw & Hl & _).
  exists st. by split_and!.
Qed.

Lemma source_without_braces_round_trips_witness :
  braceFree (js "Dear reader: a|b - c") ∧
  ∃ st, peg_parse (js "Dear reader: a|b - c") Engine.exampleProcessEmbed Engine.emptySession
        = Ok (js "Dear reader: a|b - c") st
        ∧ peg_world st = Engine.emptySession ∧ peg_embedLog st = [].
Proof.
  assert (braceFree (js "Dear reader: a|b - c")) as H.
  { unfold braceFree. apply (bool_decide_unpack _). vm_compute. reflexivity. }
  split; [exact H|].
  exact (source_without_braces_round_trips _ Engine.exampleProcessEmbed Engine.emptySession H).
Defined.

(** C4, as the claim states it, fails for multi-line text: the class
    [peg$c46] admits the pipe, CR and LF, and a multi-line text fragment runs
    through them up to the next dash or brace. *)
Lemma multiline_text_runs_through_pipe_and_line_breaks :
  peg_c46 124%N = true ∧ peg_c46 13%N = true ∧ peg_c46 10%N = true
  ∧ resolved (peg_parseInlineMultilineText (js "a|b" ++ [13; 10]%N ++ js "c-d")
                (peg_init (W:=unit) ()))
    = Some (Some (js "a|b" ++ [13; 10]%N ++ js "c")).
Proof. vm_compute. done. Qed.

(** C4 (amended). From any position, a top-level [Text] fragment is the
    longest non-empty run of code units other than the braces; an inline
    argument's text fragment the longest non-empty run other than the braces,
    the pipe, CR and LF; a multi-line argument's text fragment the longest
    non-empty run other than the braces and the dash (pipes and line breaks
    belong to it), trimmed. *)
Theorem text_classes_by_context {W} (input : jsstring) (st : PegState W) :
  let rest := drop (peg_currPos st) input in
  resolved (peg_parseText input st) = Some (nonEmpty (runExcluding [123; 125]%N rest))
  ∧ resolved (peg_parseInlineText input st)
    = Some (nonEmpty (runExcluding [123; 125; 124; 13; 10]%N rest))
  ∧ resolved (peg_parseInlineMultilineText input st)
    = Some (trim <$> nonEmpty (runExcluding [123; 125; 45]%N rest)).
Proof.
  cbv zeta. unfold runExcluding.
  rewrite (leaf_resolved input _ _ st (peg_parseText_spec input)).
  rewrite (leaf_resolved input _ _ st (peg_parseInlineText_spec input)).
  rewrite (leaf_resolved input _ _ st (peg_parseInlineMultilineText_spec input)).
  unfold textOf, inlineTextOf, multilineTextOf, plusOf.
  rewrite <- !option_fmap_compose.
  rewrite <- (classRun_ext _ _ _ (inClass_inverted [123; 125]%N)).
  rewrite <- (classRun_ext _ _ _ (inClass_inverted [123; 125; 124; 13; 10]%N)).
  rewrite <- (classRun_ext _ _ _ (inClass_inverted [123; 125; 45]%N)).
  fold peg_c51 peg_c49 peg_c46.
  split_and!; f_equal.
  - by destruct (nonEmpty _).
  - by destruct (nonEmpty _).
Qed.

(** C5, as the claim states it, fails: in inline directives that start with
    a marker word the parser hands [processEmbed] a condition whose guard is
    the word, not a sequence type; the same happens to a symbol marker when a
    colon follows. *)
Lemma inline_marker_words_are_read_as_conditions :
  firstCallType (parseExample (js "{stopping: A|B}"))
    = Some (Some (ExprEmbedType (mkExprEmbed (js "stopping") (js "stopping: "))))
  ∧ firstCallType (parseExample (js "{shuffle: A|B}"))
    = Some (Some (ExprEmbedType (mkExprEmbed (js "shuffle") (js "shuffle: "))))
  ∧ firstCallType (parseExample (js "{cycle: A|B}"))
    = Some (Some (ExprEmbedType (mkExprEmbed (js "cycle") (js "cycle: "))))
  ∧ firstCallType (parseExample (js "{once: A|B}"))
    = Some (Some (ExprEmbedType (mkExprEmbed (js "once") (js "once: "))))
  ∧ firstCallType (parseExample (js "{~A: x|B}"))
    = Some (Some (ExprEmbedType (mkExprEmbed (js "~A") (js "~A: ")))).
Proof. vm_compute. done. Qed.

(** C5 (amended). The type of an inline directive is decided condition
    first: when its body starts with a condition (a non-empty run of code
    units other than LF, pipe, colon and braces, followed by a colon), the
    directive is conditional on that run; only otherwise is a type marker
    looked for.  So a body that starts with [stopping:], [shuffle:],
    [cycle:] or [once:] is always captured as a condition whose guard is the
    marker word, while [~], [&] and [!] are the markers of Shuffle, Cycle
    and OnlyOnce for bodies that are not conditions. *)
Theorem inline_type_condition_before_marker {W} (input : jsstring) (st : PegState W) :
  let rest := drop (peg_currPos st) input in
  resolved (conditionOrType input st)
    = Some (match conditionOf rest with
            | Some (c, _) => Some (ExprEmbedType c)
            | None => fst <$> typeOf rest
            end)
  ∧ (∀ tail,
       fst <$> conditionOf (peg_c14 ++ tail)
         = Some (mkExprEmbed (js "stopping") (peg_c14 ++ classRun peg_c6 tail))
       ∧ fst <$> conditionOf (peg_c19 ++ tail)
         = Some (mkExprEmbed (js "shuffle") (peg_c19 ++ classRun peg_c6 tail))
       ∧ fst <$> conditionOf (peg_c24 ++ tail)
         = Some (mkExprEmbed (js "cycle") (peg_c24 ++ classRun peg_c6 tail))
       ∧ fst <$> conditionOf (peg_c29 ++ tail)
         = Some (mkExprEmbed (js "once") (peg_c29 ++ classRun peg_c6 tail)))
  ∧ (∀ tail,
       fst <$> typeOf (126%N :: tail) = Some (SequenceEmbedType Shuffle)
       ∧ fst <$> typeOf (38%N :: tail) = Some (SequenceEmbedType Cycle)
       ∧ fst <$> typeOf (33%N :: tail) = Some (SequenceEmbedType OnlyOnce)).
Proof.
  cbv zeta. split_and!.
  - rewrite (leaf_resolved input _ _ st (conditionOrType_spec input)).
    unfold conditionOrTypeOf. by destruct (conditionOf _) as [[c n]|].
  - intros tail. split_and!; reflexivity.
  - intros tail. split_and!.
    + unfold typeOf, stoppingOf, literalOf.
      rewrite decide_False; [reflexivity|]. by vm_compute.
    + unfold typeOf, stoppingOf, literalOf.
      rewrite decide_False; [|by vm_compute]. cbn [fmap option_fmap option_map].
      unfold markerOf at 1. unfold charOf at 1. rewrite decide_False by (by vm_compute).
      unfold literalOf. rewrite decide_False by (by vm_compute). reflexivity.
    + unfold typeOf, stoppingOf, literalOf.
      rewrite decide_False; [|by vm_compute]. cbn [fmap option_fmap option_map].
      unfold markerOf at 1. unfold charOf at 1. rewrite decide_False by (by vm_compute).
      unfold literalOf. rewrite decide_False by (by vm_compute).
      cbn [fmap option_fmap option_map].
      unfold markerOf at 1. unfold charOf at 1. rewrite decide_False by (by vm_compute).
      unfold literalOf. rewrite decide_False by (by vm_compute). reflexivity.
Qed.

(** C3. When [peg$parse] fails, the [SyntaxError] it throws is located at
    the furthest position at which any expectation failed during the whole
    parse, lists exactly the expectations that failed at that position, and
    reports the code unit found there; the run always ends.  For the input
    ["{stopping: A|B"] of 14 code units the error is located at offset 14,
    the end of the input, with nothing found. *)
Theorem parse_failure_reports_furthest_position :
  (∀ W (input : jsstring)
     (processEmbed : option EmbedType → list Argument → bool → W → PEResult * W)
     (options : W),
     match peg_parse input processEmbed options with
     | Throw (ParseFailure e) st =>
         furthestFailure input (peg_failLog st) e
         ∧ ∀ q x, (q, x) ∈ peg_failLog st → q ≤ furthest (peg_failLog st)
     | OutOfFuel => False
     | _ => True
     end)
  ∧ length (js "{stopping: A|B") = 14
  ∧ raised (parseExample (js "{stopping: A|B"))
    = Some (ParseFailure
              (mkSyntaxError [peg_c50; peg_c50; peg_c2; peg_c2; peg_c40; peg_c4] None
                 (mkRange (mkPos 14 1 15) (mkPos 14 1 15)))).
Proof.
  split_and!.
  - intros. apply peg_parse_failure.
  - reflexivity.
  - vm_compute. reflexivity.
Qed.

Section EngineFacts.
Import Engine.
Variable evaluate : jsstring → option bool.
Variable identity : list Argument → nat.
Variable permute : nat → list nat → list nat * nat.

Lemma eligibleFrom_all_false i branches :
Forall (guardFalse evaluate) branches → eligibleFrom evaluate i branches = Some [].
Proof.
intros H. revert i. induction H as [|a branches (g & Hg & Hev) _ IH]; intros i; simpl.
- done.
- rewrite Hg, Hev. simpl. by rewrite IH.
Qed.

(** C2. In a round of a List directive in which every branch carries a
  guard and every guard evaluates to false, the output is the empty
  string and the session (the store with every counter, order and
  cursor, and the random source) is exactly what it was; a second such
  round behaves the same. *)
Theorem empty_round_changes_nothing type branches multiline (s : Session) :
isList type → branches ≠ [] → Forall (guardFalse evaluate) branches →
processEmbed evaluate identity permute type branches multiline s = (PE_return [], s)
∧ processEmbed evaluate identity permute type branches multiline
    (processEmbed evaluate identity permute type branches multiline s).2
  = (PE_return [], s).
Proof.
intros Hlist Hne Hfalse.
assert (∀ t, resolveList evaluate identity permute t branches s = (PE_return [], s))
  as Hres.
{ intros t. unfold resolveList, eligible.
  rewrite eligibleFrom_all_false by done. by destruct branches. }
assert (processEmbed evaluate identity permute type branches multiline s
        = (PE_return [], s)) as Hround.
{ destruct type as [[t|e]|]; [apply Hres|done|apply Hres]. }
by rewrite !Hround.
Qed.
End EngineFacts.

Lemma falseBranches_nonempty : falseBranches ≠ [].
Proof. intros Hx. discriminate Hx. Defined.

Lemma empty_round_changes_nothing_witness :
  isList (Some (SequenceEmbedType Shuffle)) ∧ falseBranches ≠ []
  ∧ Forall (guardFalse Engine.exampleEvaluate) falseBranches
  ∧ Engine.exampleProcessEmbed (Some (SequenceEmbedType Shuffle)) falseBranches true
      visitedSession
    = (PE_return [], visitedSession)
  ∧ Engine.exampleProcessEmbed (Some (SequenceEmbedType Shuffle)) falseBranches true
      (Engine.exampleProcessEmbed (Some (SequenceEmbedType Shuffle)) falseBranches true
         visitedSession).2
    = (PE_return [], visitedSession).
Proof.
  assert (Forall (guardFalse Engine.exampleEvaluate) falseBranches) as H.
  { repeat constructor; eexists; (split; [reflexivity|vm_compute; reflexivity]). }
  split; [exact I|]. split; [exact falseBranches_nonempty|]. split; [exact H|].
  exact (empty_round_changes_nothing Engine.exampleEvaluate Engine.exampleIdentity
           Engine.examplePermute (Some (SequenceEmbedType Shuffle)) falseBranches true
           visitedSession I falseBranches_nonempty H).
Defined.

(** ** Nesting *)

Lemma nest_length n : length (nest n) = 2 * n + 1.
Proof. unfold nest. rewrite length_app, !length_replicate. simpl. rewrite length_replicate. lia. Qed.

Lemma nest_open n i : i < n → nest n !! i = Some 123%N.
Proof.
  intros H. unfold nest. rewrite lookup_app_l by (rewrite length_replicate; lia).
  by apply lookup_replicate_2.
Qed.

Lemma nest_text n : nest n !! n = Some 97%N.
Proof.
  unfold nest. rewrite lookup_app_r by (rewrite length_replicate; lia).
  rewrite length_replicate. by replace (n - n) with 0 by lia.
Qed.

Lemma nest_close n i : n < i → i ≤ 2 * n → nest n !! i = Some 125%N.
Proof.
  intros H1 H2. unfold nest. rewrite lookup_app_r by (rewrite length_replicate; lia).
  rewrite length_replicate. destruct (i - n) as [|j] eqn:Hj; [lia|]. simpl.
  apply lookup_replicate_2. lia.
Qed.

Section Nesting.
Context {W : Type}.
Variable input : jsstring.
Variable processEmbed : option EmbedType → list Argument → bool → W → PEResult * W.
Hypothesis Hreturns : alwaysReturns processEmbed.
Implicit Types st : PegState W.

Lemma CacheInv_same st st' :
peg_posDetailsCache st' = peg_posDetailsCache st →
CacheInv input st → CacheInv input st'.
Proof. unfold CacheInv. by intros ->. Qed.

Lemma leaf_atPos {A} (m : M W (option A)) f q c st :
leafSpec input m f → atPos input q c st →
wp noThrow m
  (λ v st', v = fst <$> f (drop q input)
            ∧ atPos input (q + default 0 (snd <$> f (drop q input))) c st') st.
Proof.
intros Hm (Hc & Hq & Hlog). eapply wp_mono; [apply Hm|by intros ? ? []|].
intros v st' ((_ & Hl & Hcache & _) & -> & Hp). cbv beta. rewrite Hq in *.
split; [done|]. unfold atPos. split_and!; [by eapply CacheInv_same|done|congruence].
Qed.

Lemma setSavedPos_atPos p q c st (Q : unit → PegState W → Prop) :
atPos input q c st → (∀ st', atPos input q c st' → Q () st') →
wp noThrow (setSavedPos p) Q st.
Proof. intros (?&?&?) HQ. apply HQ. unfold atPos. by split_and!. Qed.

Lemma setCurrPos_atPos p q c st (Q : unit → PegState W → Prop) :
atPos input q c st → (∀ st', atPos input p c st' → Q () st') →
wp noThrow (setCurrPos p) Q st.
Proof. intros (?&?&?) HQ. apply HQ. unfold atPos. by split_and!. Qed.

Lemma location_atPos q c st (Q : IFileRange → PegState W → Prop) :
atPos input q c st → (∀ l st', atPos input q c st' → Q l st') →
wp noThrow (location input) Q st.
Proof.
intros (Hc & Hq & Hl) HQ. apply wp_location; [done|].
intros st' (Hp & _ & _ & _ & _ & _ & Hlog) Hc'. apply HQ.
unfold atPos. split_and!; [done|congruence|congruence].
Qed.

Lemma call_atPos type args multiline q c st (Q : jsstring → PegState W → Prop) :
atPos input q c st → (∀ s st', atPos input q (S c) st' → Q s st') →
wp noThrow (call_processEmbed input processEmbed type args multiline) Q st.
Proof using Hreturns.
intros (Hc & Hq & Hl) HQ. unfold wp, call_processEmbed.
destruct (Hreturns type args multiline (peg_world st)) as (s & w & ->).
cbv iota zeta beta. apply HQ. unfold atPos. simpl.
rewrite length_app. simpl. split_and!; [done|done|lia].
Qed.

(** Away from ['{'] the [Embed] rule fails and changes nothing that
  matters. *)
Lemma embed_atPos_no_brace depth q c st :
input !! q ≠ Some 123%N → atPos input q c st →
wp noThrow (peg_parseEmbed input processEmbed (S depth))
  (λ v st', v = None ∧ atPos input q c st') st.
Proof.
intros Hb (Hc & Hq & Hl).
eapply wp_mono; [apply peg_parseEmbed_no_brace|by intros ? ? []|].
- by rewrite head_drop, Hq.
- intros v st' (-> & (_ & Hl' & Hc' & _) & Hp). split; [done|].
  unfold atPos. split_and!; [by eapply CacheInv_same|congruence|congruence].
Qed.

Lemma classRun_head_fail cls rest c :
head rest = Some c → cls c = false → classRun cls rest = [].
Proof. destruct rest as [|x rest]; intros [=->] H; simpl. by rewrite H. Qed.

Lemma loop_ends {A} (item : M W (option A)) n s1 st (Q : list A → PegState W → Prop) :
Q s1 st → wp noThrow (repeatLoop item n s1 None) Q st.
Proof. intros HQ. by destruct n. Qed.

Lemma leaf_at_some {A} (m : M W (option A)) f q c st a n
  (Q : option A → PegState W → Prop) :
leafSpec input m f → f (drop q input) = Some (a, n) → atPos input q c st →
(∀ st', atPos input (q + n) c st' → Q (Some a) st') →
wp noThrow m Q st.
Proof.
intros Hm Hf Hst HQ.
eapply wp_mono; [by apply (leaf_atPos m f q c st)|by intros ? ? []|].
intros v st' (-> & H). rewrite Hf in *. by apply HQ.
Qed.

Lemma leaf_at_none {A} (m : M W (option A)) f q c st
  (Q : option A → PegState W → Prop) :
leafSpec input m f → f (drop q input) = None → atPos input q c st →
(∀ st', atPos input q c st' → Q None st') →
wp noThrow m Q st.
Proof.
intros Hm Hf Hst HQ.
eapply wp_mono; [by apply (leaf_atPos m f q c st)|by intros ? ? []|].
intros v st' (-> & H). rewrite Hf in *. simpl in H. rewrite Nat.add_0_r in H.
by apply HQ.
Qed.

Lemma charOf_hit code rest : head rest = Some code → charOf code rest = Some ([code], 1).
Proof. intros H. unfold charOf. by rewrite decide_True. Qed.

Lemma charOf_miss code rest c :
head rest = Some c → c ≠ code → charOf code rest = None.
Proof. intros H Hne. unfold charOf. rewrite decide_False; [done|]. congruence. Qed.

(** One nesting level: an inline directive that opens at [k], has no type,
  whose single argument starts with an item that ends at [q], and that
  closes at [q]. *)
Lemma inline_level depth k q c c' st :
input !! k = Some 123%N →
conditionOrTypeOf (drop (k + 1) input) = None →
input !! q = Some 125%N →
(∀ st1, atPos input (k + 1) c st1 →
   wp noThrow (orEmbed (peg_parseEmbed input processEmbed (S depth))
                 (peg_parseInlineText input))
     (λ v st2, is_Some v ∧ atPos input q c' st2) st1) →
atPos input k c st →
wp noThrow (peg_parseEmbed input processEmbed (S (S depth)))
  (λ v st', is_Some v ∧ atPos input (q + 1) (S c') st') st.
Proof using Hreturns.
intros Hopen Htype Hclose Hitem Hst.
assert (head (drop q input) = Some 125%N) as Hq by by rewrite head_drop.
assert (head (drop k input) = Some 123%N) as Hk by by rewrite head_drop.
change (peg_parseEmbed input processEmbed (S (S depth)))
  with (peg_parseEmbed_body input processEmbed
          (peg_parseEmbed input processEmbed (S depth))).
assert (∀ st4, atPos input q c' st4 →
          wp noThrow (peg_parseEmbed input processEmbed (S depth))
            (λ v st5, v = None ∧ atPos input q c' st5) st4) as Hno.
{ intros st4 H4. apply embed_atPos_no_brace; [by rewrite Hclose|done]. }
remember (peg_parseEmbed input processEmbed (S depth)) as rec eqn:Hrec.
clear Hrec.
unfold peg_parseEmbed_body. apply wp_bind.
unfold peg_parseInlineEmbed at 1. wp_get.
(* the opening brace *)
apply wp_bind.
apply (leaf_at_some _ _ k c st _ _ _ (matchCharCode_spec (W:=W) input 123%N peg_c2)
         (charOf_hit _ _ Hk) Hst).
intros st1 H1. cbv beta iota.
(* no condition, no type *)
apply wp_bind.
apply (leaf_at_none _ _ (k + 1) c st1 _ (conditionOrType_spec (W:=W) input) Htype H1).
intros st2 H2. cbv beta iota.
(* the single argument *)
apply wp_bind. unfold peg_parseArguments at 1. wp_get.
apply wp_bind. unfold peg_parseArgument at 1. wp_get.
apply wp_bind. unfold peg_parseInlineSource at 1. wp_get.
apply wp_bind. eapply wp_mono; [by apply Hitem|by intros ? ? []|].
intros s3 st3 ([v ->] & H3). cbv beta iota.
apply wp_bind. unfold loopFuel. cbn [repeatLoop].
apply wp_bind. unfold orEmbed at 1.
apply wp_bind.
assert (inlineTextOf (drop q input) = None) as Hnotext.
{ unfold inlineTextOf, plusOf. by rewrite (classRun_head_fail _ _ _ Hq). }
apply (leaf_at_none _ _ q c' st3 _ (peg_parseInlineText_spec (W:=W) input) Hnotext H3).
intros st4 H4. cbv beta iota.
eapply wp_mono; [by apply Hno|by intros ? ? []|].
intros s5 st5 (-> & H5). cbv beta.
apply loop_ends.
apply wp_bind.
eapply setSavedPos_atPos; [done|]. intros st6 H6. apply wp_ret; cbv beta iota.
apply wp_bind.
eapply setSavedPos_atPos; [done|]. intros st7 H7.
apply wp_bind. unfold peg_c38. apply wp_bind.
eapply location_atPos; [done|]. intros l st8 H8. apply wp_ret; cbv beta iota. apply wp_ret; cbv beta iota.
(* no further argument *)
apply wp_bind. unfold pipeArgument at 1. wp_get.
destruct H8 as (H8c & H8p & H8l). rewrite H8p.
assert (atPos input q c' st8) as H8 by done.
apply wp_bind.
apply (leaf_at_none _ _ q c' st8 _ (matchCharCode_spec (W:=W) input 124%N peg_c40)
         (charOf_miss 124%N _ 125%N Hq ltac:(done)) H8).
intros st9 H9. cbv beta iota.
apply wp_bind. eapply setCurrPos_atPos; [done|]. intros st10 H10. apply wp_ret; cbv beta iota.
apply wp_bind, wp_ret; cbv beta iota.
apply wp_bind.
eapply setSavedPos_atPos; [done|]. intros st11 H11. apply wp_ret; cbv beta iota.
(* the closing brace *)
apply wp_bind.
apply (leaf_at_some _ _ q c' st11 _ _ _ (matchCharCode_spec (W:=W) input 125%N peg_c4)
         (charOf_hit _ _ Hq) H11).
intros st12 H12. cbv beta iota.
apply wp_bind.
eapply setSavedPos_atPos; [done|]. intros st13 H13.
apply wp_bind. eapply call_atPos; [done|]. intros s st14 H14.
apply wp_ret. apply wp_ret. split; [by eexists|done].
Qed.
End Nesting.

Section NestedInput.
Context {W : Type}.
Variable processEmbed : option EmbedType → list Argument → bool → W → PEResult * W.
Hypothesis Hreturns : alwaysReturns processEmbed.
Variable n : nat.
Implicit Types st : PegState W.

Lemma nest_drop_open k : k < n → drop k (nest n) = 123%N :: drop (S k) (nest n).
Proof. intros H. by apply drop_S, nest_open. Qed.

Lemma nest_drop_text : 1 ≤ n → ∃ T, drop n (nest n) = 97%N :: 125%N :: T.
Proof.
intros H. exists (drop (S (S n)) (nest n)).
rewrite (drop_S _ _ _ (nest_text n)). f_equal.
apply drop_S, nest_close; lia.
Qed.

Lemma nest_levels j : ∀ k d c st,
k + j = n → 1 ≤ j → j ≤ d → atPos (nest n) k c st →
wp noThrow (peg_parseEmbed (nest n) processEmbed (S d))
  (λ v st', is_Some v ∧ atPos (nest n) (2 * n + 1 - k) (c + j) st') st.
Proof using Hreturns.
induction j as [|j IH]; intros k d c st Hk Hj Hd Hst; [lia|].
destruct d as [|d]; [lia|].
eapply wp_mono;
  [apply (inline_level (nest n) processEmbed Hreturns d k (2 * n - k) c (c + j) st)
  |by intros ? ? []|].
- apply nest_open. lia.
- destruct (decide (j = 0)) as [->|Hj0].
  + replace (k + 1) with n by lia.
    destruct nest_drop_text as [T ->]; [lia|]. reflexivity.
  + rewrite nest_drop_open by lia. reflexivity.
- apply nest_close; lia.
- intros st1 H1. unfold orEmbed. apply wp_bind.
  destruct (decide (j = 0)) as [->|Hj0].
  + assert (inlineTextOf (drop (k + 1) (nest n)) = Some ([97%N], 1)) as Htext.
    { replace (k + 1) with n by lia.
      destruct nest_drop_text as [T ->]; [lia|]. reflexivity. }
    apply (leaf_at_some (nest n) _ _ (k + 1) c st1 _ _ _
             (peg_parseInlineText_spec (W:=W) (nest n)) Htext H1).
    intros st2 H2. cbv beta iota. apply wp_ret. split; [by eexists|].
    replace (2 * n - k) with (k + 1 + 1) by lia.
    by replace (c + 0) with c by lia.
  + assert (inlineTextOf (drop (k + 1) (nest n)) = None) as Htext.
    { rewrite nest_drop_open by lia. reflexivity. }
    apply (leaf_at_none (nest n) _ _ (k + 1) c st1 _
             (peg_parseInlineText_spec (W:=W) (nest n)) Htext H1).
    intros st2 H2. cbv beta iota.
    eapply wp_mono; [apply (IH (k + 1) d c st2); [lia|lia|lia|done]|by intros ? ? []|].
    intros v st3 (Hv & H3). split; [done|].
    by replace (2 * n - k) with (2 * n + 1 - (k + 1)) by lia.
- done.
- intros v st' (Hv & H'). split; [done|].
  replace (2 * n + 1 - k) with (2 * n - k + 1) by lia.
  by replace (c + S j) with (S (c + j)) by lia.
Qed.

End NestedInput.

Lemma firstBranch_returns : alwaysReturns firstBranch.
Proof. intros t a m w. eexists _, _. reflexivity. Defined.

(** ** Two parses of one source *)

Section Relational.
Context {W1 W2 : Type}.


Lemma rel_ret {A B} (R : A → B → Prop) a b :
R a b → rel (W1:=W1) (W2:=W2) R (mret a) (mret b).
Proof. intros H st1 st2 Hs. right; right. done. Qed.

Lemma rel_bind {A B A' B'} (R : A → B → Prop) (R' : A' → B' → Prop)
  (m1 : M W1 A) (m2 : M W2 B) k1 k2 :
rel R m1 m2 → (∀ a b, R a b → rel R' (k1 a) (k2 b)) →
rel R' (m1 ≫= k1) (m2 ≫= k2).
Proof.
intros Hm Hk st1 st2 Hs. specialize (Hm st1 st2 Hs).
unfold mbind, M_bind.
destruct Hm as [Hm|[Hm|Hm]].
- left. by destruct (m1 st1).
- right; left. by destruct (m2 st2).
- destruct (m1 st1) as [a s1|e1 s1|], (m2 st2) as [b s2|e2 s2|]; try done.
  + destruct Hm as [Hab Hs']. by apply Hk.
  + by right; right.
Qed.

Lemma rel_mono {A B} (R R' : A → B → Prop) (m1 : M W1 A) (m2 : M W2 B) :
rel R m1 m2 → (∀ a b, R a b → R' a b) → rel R' m1 m2.
Proof.
intros Hm HR st1 st2 Hs. specialize (Hm st1 st2 Hs).
destruct Hm as [Hm|[Hm|Hm]]; [by left|by right; left|].
right; right. destruct (m1 st1), (m2 st2); try done.
destruct Hm as [Hab Hs']. auto.
Qed.

Lemma rel_getCurrPos : rel (W1:=W1) (W2:=W2) eq getCurrPos getCurrPos.
Proof. intros st1 st2 Hs. right; right. split; [apply Hs|done]. Qed.

Lemma rel_getSavedPos : rel (W1:=W1) (W2:=W2) eq getSavedPos getSavedPos.
Proof. intros st1 st2 Hs. right; right. split; [apply Hs|done]. Qed.

Lemma rel_setCurrPos p : rel (W1:=W1) (W2:=W2) eq (setCurrPos p) (setCurrPos p).
Proof.
intros st1 st2 (?&?&?&?&?&?&?&?). right; right. split; [done|].
unfold simSt. simpl. by split_and!.
Qed.

Lemma rel_setSavedPos p : rel (W1:=W1) (W2:=W2) eq (setSavedPos p) (setSavedPos p).
Proof.
intros st1 st2 (?&?&?&?&?&?&?&?). right; right. split; [done|].
unfold simSt. simpl. by split_and!.
Qed.

Lemma rel_setPosDetails p d :
rel (W1:=W1) (W2:=W2) eq (setPosDetails p d) (setPosDetails p d).
Proof.
intros st1 st2 (?&?&?&?&?&?&?&?). right; right. split; [done|].
unfold simSt. simpl. split_and!; try done; [congruence|].
destruct (decide (p = 0)) as [->|]; [by rewrite lookup_insert_eq|].
by rewrite lookup_insert_ne.
Qed.

Lemma rel_fail e : rel (W1:=W1) (W2:=W2) eq (peg_fail e) (peg_fail e).
Proof.
intros st1 st2 (Hc&?&?&Hm&?&?&?&?). right; right. unfold peg_fail.
rewrite Hc, Hm. repeat case_decide; (split; [done|]);
  unfold simSt; simpl; split_and!; congruence.
Qed.

Lemma rel_text input : rel (W1:=W1) (W2:=W2) eq (text input) (text input).
Proof.
intros st1 st2 Hs. right; right. split; [|done].
destruct Hs as (-> & -> & _). done.
Qed.

Lemma rel_outOfFuel {A B} (R : A → B → Prop) :
rel (W1:=W1) (W2:=W2) R outOfFuel outOfFuel.
Proof. intros st1 st2 Hs. right; right. done. Qed.

End Relational.

Create HintDb peg_rel discriminated.

#[export] Hint Resolve rel_getCurrPos rel_getSavedPos rel_setCurrPos rel_setSavedPos
  rel_setPosDetails rel_fail rel_text : peg_rel.

Ltac rel_step :=
  lazymatch goal with
  | |- rel _ (mret _) (mret _) => apply rel_ret; try done
  | |- rel _ ((match ?x with _ => _ end) ≫= _) ((match ?x with _ => _ end) ≫= _) =>
      destruct x
  | |- rel _ (mret ?x ≫= _) (mret ?x ≫= _) =>
      eapply rel_bind;
      [ apply (rel_ret eq); reflexivity
      | let a := fresh "a" in let b := fresh "b" in let H := fresh "H" in
        intros a b H; subst b; cbv beta ]
  | |- rel _ (_ ≫= _) (_ ≫= _) =>
      eapply rel_bind;
      [ solve [eauto with peg_rel]
      | let a := fresh "a" in let b := fresh "b" in let H := fresh "H" in
        intros a b H; try (subst b); cbv beta ]
  | |- rel _ (match ?x with _ => _ end) (match ?x with _ => _ end) => destruct x
  end.

Tactic Notation "rel_eq" "as" ident(x) :=
  eapply rel_bind;
  [ solve [eauto with peg_rel]
  | let b := fresh in let H := fresh in intros x b H; subst b; cbv beta ].

Ltac rel_fail_back := rel_step; apply rel_ret; constructor.

Section RelLeaves.
Context {W1 W2 : Type}.
Variable input : jsstring.

Lemma rel_matchCharCode code exp :
rel (W1:=W1) (W2:=W2) eq (matchCharCode input code exp) (matchCharCode input code exp).
Proof. unfold matchCharCode. repeat rel_step. Qed.

Lemma rel_matchLiteral lit exp :
rel (W1:=W1) (W2:=W2) eq (matchLiteral input lit exp) (matchLiteral input lit exp).
Proof. unfold matchLiteral. repeat rel_step. Qed.

Lemma rel_matchClassLoop cls exp rest s1 :
rel (W1:=W1) (W2:=W2) eq (matchClassLoop cls exp rest s1) (matchClassLoop cls exp rest s1).
Proof.
revert s1. induction rest as [|c rest IH]; intros s1; simpl.
- repeat rel_step.
- destruct (cls c); [|repeat rel_step].
  rel_step. rel_step. apply IH.
Qed.

Lemma rel_matchClassStar cls exp :
rel (W1:=W1) (W2:=W2) eq (matchClassStar input cls exp) (matchClassStar input cls exp).
Proof. unfold matchClassStar. rel_step. apply rel_matchClassLoop. Qed.

Hint Resolve rel_matchCharCode rel_matchLiteral rel_matchClassStar : peg_rel.

Lemma rel_matchClassPlus cls exp :
rel (W1:=W1) (W2:=W2) eq (matchClassPlus input cls exp) (matchClassPlus input cls exp).
Proof. unfold matchClassPlus. repeat rel_step. Qed.

Hint Resolve rel_matchClassPlus : peg_rel.

Lemma rel_parseText :
rel (W1:=W1) (W2:=W2) eq (peg_parseText input) (peg_parseText input).
Proof. unfold peg_parseText. repeat rel_step. Qed.

Lemma rel_parseInlineText :
rel (W1:=W1) (W2:=W2) eq (peg_parseInlineText input) (peg_parseInlineText input).
Proof. unfold peg_parseInlineText. repeat rel_step. Qed.

Lemma rel_parseInlineMultilineText :
rel (W1:=W1) (W2:=W2) eq (peg_parseInlineMultilineText input)
  (peg_parseInlineMultilineText input).
Proof. unfold peg_parseInlineMultilineText. repeat rel_step. Qed.

Lemma rel_parseExpression :
rel (W1:=W1) (W2:=W2) eq (peg_parseExpression input) (peg_parseExpression input).
Proof. unfold peg_parseExpression. repeat rel_step. Qed.

Lemma rel_parseWhitespace :
rel (W1:=W1) (W2:=W2) eq (peg_parseWhitespace input) (peg_parseWhitespace input).
Proof. unfold peg_parseWhitespace. repeat rel_step. Qed.

Lemma rel_parseNewline :
rel (W1:=W1) (W2:=W2) eq (peg_parseNewline input) (peg_parseNewline input).
Proof. unfold peg_parseNewline. repeat rel_step. Qed.

Hint Resolve rel_parseText rel_parseInlineText rel_parseInlineMultilineText
rel_parseExpression rel_parseWhitespace rel_parseNewline : peg_rel.

Lemma rel_parseStopping_Id :
rel (W1:=W1) (W2:=W2) eq (peg_parseStopping_Id input) (peg_parseStopping_Id input).
Proof. unfold peg_parseStopping_Id. repeat rel_step. Qed.

Lemma rel_parseShuffle_Id :
rel (W1:=W1) (W2:=W2) eq (peg_parseShuffle_Id input) (peg_parseShuffle_Id input).
Proof. unfold peg_parseShuffle_Id. repeat rel_step. Qed.

Lemma rel_parseCycle_Id :
rel (W1:=W1) (W2:=W2) eq (peg_parseCycle_Id input) (peg_parseCycle_Id input).
Proof. unfold peg_parseCycle_Id. repeat rel_step. Qed.

Lemma rel_parseOnce_Only_Id :
rel (W1:=W1) (W2:=W2) eq (peg_parseOnce_Only_Id input) (peg_parseOnce_Only_Id input).
Proof. unfold peg_parseOnce_Only_Id. repeat rel_step. Qed.

Hint Resolve rel_parseStopping_Id rel_parseShuffle_Id rel_parseCycle_Id
rel_parseOnce_Only_Id : peg_rel.

Lemma rel_parseType :
rel (W1:=W1) (W2:=W2) eq (peg_parseType input) (peg_parseType input).
Proof. unfold peg_parseType. repeat rel_step; auto with peg_rel. Qed.

Lemma rel_parseCondition :
rel (W1:=W1) (W2:=W2) eq (peg_parseCondition input) (peg_parseCondition input).
Proof. unfold peg_parseCondition. repeat rel_step. Qed.

Hint Resolve rel_parseType rel_parseCondition : peg_rel.

Lemma rel_conditionOrType :
rel (W1:=W1) (W2:=W2) eq (conditionOrType input) (conditionOrType input).
Proof. unfold conditionOrType. repeat rel_step; auto with peg_rel. Qed.
End RelLeaves.

#[export] Hint Resolve rel_matchCharCode rel_matchLiteral rel_matchClassStar
  rel_matchClassPlus rel_parseText rel_parseInlineText rel_parseInlineMultilineText
  rel_parseExpression rel_parseWhitespace rel_parseNewline rel_parseType
  rel_parseCondition rel_conditionOrType : peg_rel.

Section RelRules.
Context {W1 W2 : Type}.
Variable input : jsstring.
Variable processEmbed1 : option EmbedType → list Argument → bool → W1 → PEResult * W1.
Variable processEmbed2 : option EmbedType → list Argument → bool → W2 → PEResult * W2.

Lemma rel_computePosDetails pos :
rel (W1:=W1) (W2:=W2) eq (peg_computePosDetails input pos)
  (peg_computePosDetails input pos).
Proof.
intros st1 st2 Hs. unfold peg_computePosDetails.
assert (peg_posDetailsCache st1 = peg_posDetailsCache st2) as Hc by apply Hs.
rewrite Hc. destruct (peg_posDetailsCache st2 !! pos) as [d|].
{ right; right. done. }
destruct (nearestCached _ _) as [[p d]|]; [|by right; right].
apply (rel_bind eq eq (setPosDetails pos (advanceDetails input (pos - p) p d))
         (setPosDetails pos (advanceDetails input (pos - p) p d))
         (λ _, mret (advanceDetails input (pos - p) p d))
         (λ _, mret (advanceDetails input (pos - p) p d)));
  [apply rel_setPosDetails| |done].
intros. by apply rel_ret.
Qed.

Hint Resolve rel_computePosDetails : peg_rel.

Lemma rel_computeLocation a b :
rel (W1:=W1) (W2:=W2) eq (peg_computeLocation input a b) (peg_computeLocation input a b).
Proof. unfold peg_computeLocation. repeat rel_step. Qed.

Hint Resolve rel_computeLocation : peg_rel.

Lemma rel_location :
rel (W1:=W1) (W2:=W2) eq (location input) (location input).
Proof. unfold location. repeat rel_step. auto with peg_rel. Qed.

Hint Resolve rel_location : peg_rel.

Lemma rel_c38 a b : rel (W1:=W1) (W2:=W2) sameArg (peg_c38 input a) (peg_c38 input b).
Proof.
unfold peg_c38. eapply rel_bind; [apply rel_location|]. intros l ? <-.
by apply rel_ret.
Qed.

Lemma rel_c42 cond a b :
rel (W1:=W1) (W2:=W2) sameArg (peg_c42 input cond a) (peg_c42 input cond b).
Proof.
unfold peg_c42. eapply rel_bind; [apply rel_location|]. intros l ? <-.
destruct cond; by apply rel_ret.
Qed.

Lemma expected_aborts {W} d l (st : PegState W) :
is_Some (peg_posDetailsCache st !! 0) →
aborted (expected (A:=jsstring) input d l st).
Proof.
intros H0. unfold expected, mbind, M_bind.
destruct l as [l|]; [done|].
unfold location, mbind, M_bind, getSavedPos, getCurrPos, peg_computeLocation.
unfold mbind, M_bind, peg_computePosDetails.
destruct (peg_posDetailsCache st !! peg_savedPos st) as [d1|] eqn:H1.
- destruct (peg_posDetailsCache st !! peg_currPos st) as [d2|] eqn:H2; [done|].
  destruct (nearestCached_spec _ (peg_currPos st - 1) H0) as (q & d2 & -> & _).
  done.
- destruct (nearestCached_spec _ (peg_savedPos st - 1) H0) as (q & d1 & -> & _).
  simpl.
  destruct (decide (peg_savedPos st = peg_currPos st)) as [Heq|Hne].
  + rewrite <- Heq, lookup_insert_eq. done.
  + rewrite lookup_insert_ne by done.
    destruct (peg_posDetailsCache st !! peg_currPos st) as [d2|] eqn:H2; [done|].
    assert (is_Some (<[peg_savedPos st := advanceDetails input (peg_savedPos st - q) q d1]>
                       (peg_posDetailsCache st) !! 0)) as H0'.
    { destruct (decide (peg_savedPos st = 0)) as [->|];
        [by rewrite lookup_insert_eq|by rewrite lookup_insert_ne]. }
    destruct (nearestCached_spec _ (peg_currPos st - 1) H0') as (q2 & d2 & -> & _).
    done.
Qed.

Lemma rel_call type args1 args2 multiline :
Forall2 sameArg args1 args2 →
rel anyText (call_processEmbed input processEmbed1 type args1 multiline)
  (call_processEmbed input processEmbed2 type args2 multiline).
Proof.
intros Hargs st1 st2 Hs. unfold call_processEmbed.
destruct Hs as (Hc & Hsv & Hca & Hm & He & Hl & Hsh & H0).
destruct (processEmbed1 _ _ _ _) as [r1 w1], (processEmbed2 _ _ _ _) as [r2 w2].
destruct r1 as [s1|d1 l1|x1]; [|left; by apply expected_aborts|by left].
destruct r2 as [s2|d2 l2|x2];
  [|right; left; apply expected_aborts; simpl; congruence|by right; left].
right; right. split; [done|]. unfold simSt. simpl.
split_and!; try done.
assert (argShape <$> args1 = argShape <$> args2) as Hshapes.
{ induction Hargs as [|a b l1 l2 Hab _ IH]; [done|].
  rewrite !fmap_cons. by f_equal. }
rewrite !fmap_app, Hsh. f_equal. simpl. unfold callShape. simpl.
by rewrite Hc, Hsv, Hshapes.
Qed.

Lemma rel_repeatLoop {A B} (R : A → B → Prop) (item1 : M W1 (option A))
  (item2 : M W2 (option B)) :
rel (option_Forall2 R) item1 item2 →
∀ n l1 l2 s1 s2, Forall2 R l1 l2 → option_Forall2 R s1 s2 →
  rel (Forall2 R) (repeatLoop item1 n l1 s1) (repeatLoop item2 n l2 s2).
Proof.
intros Hitem n. induction n as [|n IH]; intros l1 l2 s1 s2 Hl Hs.
- destruct Hs as [a b Hab|]; simpl; [apply rel_outOfFuel|by apply rel_ret].
- destruct Hs as [a b Hab|]; simpl; [|by apply rel_ret].
  eapply rel_bind; [apply Hitem|]. intros s1' s2' Hs'.
  apply IH; [|done]. apply Forall2_app; [done|]. by constructor.
Qed.

Variable rec1 : M W1 (option jsstring).
Variable rec2 : M W2 (option jsstring).
Hypothesis Hrec : rel (option_Forall2 anyText) rec1 rec2.

Lemma rel_orEmbed (item1 : M W1 (option jsstring)) (item2 : M W2 (option jsstring)) :
rel eq item1 item2 →
rel (option_Forall2 anyText) (orEmbed rec1 item1) (orEmbed rec2 item2).
Proof using Hrec.
intros Hitem. unfold orEmbed. eapply rel_bind; [apply Hitem|].
intros a ? <-. destruct a; [|apply Hrec]. apply rel_ret. by constructor.
Qed.

Lemma rel_parseSource :
rel (option_Forall2 anyText) (peg_parseSource input rec1) (peg_parseSource input rec2).
Proof using Hrec.
unfold peg_parseSource. rel_step.
eapply rel_bind; [apply rel_orEmbed, rel_parseText|]. intros s2 s2' H2.
eapply rel_bind;
  [apply rel_repeatLoop; [apply rel_orEmbed, rel_parseText|constructor|done]|].
intros l l' Hl. rel_step. apply rel_ret. by constructor.
Qed.

Lemma rel_plusSource (item1 : M W1 (option jsstring)) (item2 : M W2 (option jsstring)) :
rel eq item1 item2 →
rel (option_Forall2 anyText)
  (s0 ← getCurrPos;
   s2 ← orEmbed rec1 item1;
   match s2 with
   | Some _ =>
       s1 ← repeatLoop (orEmbed rec1 item1) (loopFuel input) [] s2;
       setSavedPos s0 ;; mret (Some (peg_c0 s1))
   | None => mret None
   end)
  (s0 ← getCurrPos;
   s2 ← orEmbed rec2 item2;
   match s2 with
   | Some _ =>
       s1 ← repeatLoop (orEmbed rec2 item2) (loopFuel input) [] s2;
       setSavedPos s0 ;; mret (Some (peg_c0 s1))
   | None => mret None
   end).
Proof using Hrec.
intros Hitem. rel_step.
eapply rel_bind; [by apply rel_orEmbed|]. intros s2 s2' H2.
destruct H2 as [v v' Hv|]; [|apply rel_ret; constructor].
eapply rel_bind;
  [apply rel_repeatLoop; [by apply rel_orEmbed|constructor|by constructor]|].
intros l l' Hl. rel_step. apply rel_ret. by constructor.
Qed.

Lemma rel_parseInlineSource :
rel (option_Forall2 anyText) (peg_parseInlineSource input rec1)
  (peg_parseInlineSource input rec2).
Proof using Hrec. apply rel_plusSource, rel_parseInlineText. Qed.

Lemma rel_parseInlineMultilineSource :
rel (option_Forall2 anyText) (peg_parseInlineMultilineSource input rec1)
  (peg_parseInlineMultilineSource input rec2).
Proof using Hrec. apply rel_plusSource, rel_parseInlineMultilineText. Qed.

Lemma rel_parseArgument :
rel (option_Forall2 sameArg) (peg_parseArgument input rec1) (peg_parseArgument input rec2).
Proof using Hrec.
unfold peg_parseArgument. rel_step.
eapply rel_bind; [apply rel_parseInlineSource|]. intros s1 s1' H1.
rel_step. eapply rel_bind; [apply rel_c38|]. intros x y Hxy.
apply rel_ret. by constructor.
Qed.

Lemma rel_pipeArgument :
rel (option_Forall2 samePiped) (pipeArgument input rec1) (pipeArgument input rec2).
Proof using Hrec.
unfold pipeArgument. rel_eq as s3. rel_eq as s4. destruct s4 as [bar|].
- eapply rel_bind; [apply rel_parseArgument|]. intros s5 s5' H5.
  destruct H5 as [x y Hxy|].
  + apply rel_ret. by constructor.
  + rel_fail_back.
- rel_fail_back.
Qed.

Lemma rel_parseArguments :
rel (option_Forall2 (Forall2 sameArg)) (peg_parseArguments input rec1)
  (peg_parseArguments input rec2).
Proof using Hrec.
unfold peg_parseArguments. rel_eq as s0.
eapply rel_bind; [apply rel_parseArgument|]. intros s1 s1' H1.
destruct H1 as [first first' Hf|]; [|rel_fail_back].
eapply rel_bind; [apply rel_pipeArgument|]. intros s3 s3' H3.
eapply rel_bind; [apply rel_repeatLoop; [apply rel_pipeArgument|constructor|done]|].
intros l l' Hl. rel_step. apply rel_ret. constructor.
unfold peg_c41. constructor; [done|].
induction Hl as [|x y l l' Hxy _ IH]; [constructor|].
rewrite !fmap_cons. by constructor.
Qed.

Lemma rel_parseMultilineArgument :
rel (option_Forall2 sameArg) (peg_parseMultilineArgument input rec1)
  (peg_parseMultilineArgument input rec2).
Proof using Hrec.
unfold peg_parseMultilineArgument. rel_eq as s0. rel_eq as s1.
eapply rel_bind; [apply rel_parseInlineMultilineSource|]. intros s2 s2' H2.
rel_step. eapply rel_bind; [apply rel_c42|]. intros x y Hxy.
apply rel_ret. by constructor.
Qed.

Lemma rel_dashArgument :
rel (option_Forall2 sameArg) (dashArgument input rec1) (dashArgument input rec2).
Proof using Hrec.
unfold dashArgument. rel_eq as s3. rel_eq as s4.
destruct s4 as [dash|]; [|rel_fail_back].
rel_eq as s5. destruct s5 as [[]|]; [|rel_fail_back].
eapply rel_bind; [apply rel_parseMultilineArgument|]. intros s6 s6' H6.
destruct H6 as [x y Hxy|]; [|rel_fail_back].
rel_eq as s7. destruct s7 as [[]|]; [|rel_fail_back].
apply rel_ret. by constructor.
Qed.

Lemma rel_parseMultiLineArguments :
rel (option_Forall2 (Forall2 sameArg)) (peg_parseMultiLineArguments input rec1)
  (peg_parseMultiLineArguments input rec2).
Proof using Hrec.
unfold peg_parseMultiLineArguments. rel_eq as s0. rel_eq as s1.
destruct s1 as [[]|]; [|rel_fail_back].
eapply rel_bind; [apply rel_dashArgument|]. intros s3 s3' H3.
destruct H3 as [x y Hxy|]; [|rel_fail_back].
eapply rel_bind;
  [apply rel_repeatLoop; [apply rel_dashArgument|constructor|by constructor]|].
intros l l' Hl. rel_step. apply rel_ret. by constructor.
Qed.

Lemma rel_parseInlineEmbed :
rel (option_Forall2 anyText) (peg_parseInlineEmbed input processEmbed1 rec1)
  (peg_parseInlineEmbed input processEmbed2 rec2).
Proof using Hrec.
unfold peg_parseInlineEmbed. rel_eq as s0. rel_eq as s1.
destruct s1 as [brace|]; [|rel_fail_back].
rel_eq as s2.
eapply rel_bind; [apply rel_parseArguments|]. intros s3 s3' H3.
destruct H3 as [args args' Hargs|]; [|rel_fail_back].
rel_eq as s4. destruct s4 as [close|]; [|rel_fail_back].
rel_step. eapply rel_bind; [by apply rel_call|]. intros s s' Hs.
apply rel_ret. by constructor.
Qed.

Lemma rel_parseMutliLineEmbed :
rel (option_Forall2 anyText) (peg_parseMutliLineEmbed input processEmbed1 rec1)
  (peg_parseMutliLineEmbed input processEmbed2 rec2).
Proof using Hrec.
unfold peg_parseMutliLineEmbed. rel_eq as s0. rel_eq as s1.
destruct s1 as [brace|]; [|rel_fail_back].
rel_eq as s2. rel_eq as s3.
destruct s3 as [[]|]; [|rel_fail_back].
eapply rel_bind; [apply rel_parseMultiLineArguments|]. intros s4 s4' H4.
destruct H4 as [args args' Hargs|]; [|rel_fail_back].
rel_eq as s5. destruct s5 as [close|]; [|rel_fail_back].
rel_step. eapply rel_bind; [by apply rel_call|]. intros s s' Hs.
apply rel_ret. by constructor.
Qed.

Lemma rel_parseEmbed_body :
rel (option_Forall2 anyText) (peg_parseEmbed_body input processEmbed1 rec1)
  (peg_parseEmbed_body input processEmbed2 rec2).
Proof using Hrec.
unfold peg_parseEmbed_body.
eapply rel_bind; [apply rel_parseInlineEmbed|]. intros s0 s0' H0.
destruct H0 as [v v' Hv|]; [|apply rel_parseMutliLineEmbed].
apply rel_ret. by constructor.
Qed.
End RelRules.

Section TwoParses.
Context {W1 W2 : Type}.
Variable input : jsstring.
Variable processEmbed1 : option EmbedType → list Argument → bool → W1 → PEResult * W1.
Variable processEmbed2 : option EmbedType → list Argument → bool → W2 → PEResult * W2.

Lemma rel_parseEmbed depth :
rel (option_Forall2 anyText) (peg_parseEmbed input processEmbed1 depth)
  (peg_parseEmbed input processEmbed2 depth).
Proof.
induction depth as [|depth IH]; simpl; [apply rel_outOfFuel|].
by apply rel_parseEmbed_body.
Qed.

Lemma computeLocation_never_throws {W} a b (st : PegState W) :
match peg_computeLocation input a b st with
| Throw _ _ => False
| _ => True
end.
Proof.
unfold peg_computeLocation, mbind, M_bind, peg_computePosDetails.
destruct (peg_posDetailsCache st !! a) as [d1|].
- destruct (peg_posDetailsCache st !! b) as [d2|]; [done|].
  by destruct (nearestCached _ _) as [[q d2]|].
- destruct (nearestCached _ _) as [[q d1]|]; [|done]. simpl.
  destruct (_ !! b) as [d2|]; [done|].
  by destruct (nearestCached _ _) as [[q2 d2]|].
Qed.

Lemma throwFurthest_agree (st1 : PegState W1) (st2 : PegState W2) :
simSt st1 st2 →
agree (peg_throwFurthest (A:=jsstring) input st1)
  (peg_throwFurthest (A:=jsstring) input st2).
Proof.
intros Hs. unfold peg_throwFurthest, mbind, M_bind, getMaxFailPos, getMaxFailExpected.
assert (peg_maxFailPos st1 = peg_maxFailPos st2) as Hm by apply Hs.
assert (peg_maxFailExpected st1 = peg_maxFailExpected st2) as He by apply Hs.
rewrite Hm, He.
set (m := peg_maxFailPos st2).
assert (∀ a b, agree
          match peg_computeLocation input a b st1 with
          | Ok l st' =>
              throw (A:=jsstring) (ParseFailure
                (peg_buildStructuredError (peg_maxFailExpected st2)
                   (charAtOrNull input m) l)) st'
          | Throw e st' => Throw e st'
          | OutOfFuel => OutOfFuel
          end
          match peg_computeLocation input a b st2 with
          | Ok l st' =>
              throw (A:=jsstring) (ParseFailure
                (peg_buildStructuredError (peg_maxFailExpected st2)
                   (charAtOrNull input m) l)) st'
          | Throw e st' => Throw e st'
          | OutOfFuel => OutOfFuel
          end) as Hloc.
{ intros a b.
  pose proof (rel_computeLocation (W1:=W1) (W2:=W2) input a b st1 st2 Hs) as Hrel.
  pose proof (computeLocation_never_throws a b st1) as H1.
  pose proof (computeLocation_never_throws a b st2) as H2.
  destruct (peg_computeLocation input a b st1) as [l1 s1| |],
           (peg_computeLocation input a b st2) as [l2 s2| |];
    try done; destruct Hrel as [[]|[[]|Hrel]]; try done.
  destruct Hrel as [-> Hs']. unfold agree, throw, directives. simpl.
  split_and!; [|done|done]. f_equal. apply Hs'. }
case_decide; apply Hloc.
Qed.

Lemma peg_fail_returns {W} e (st : PegState W) : ∃ st', peg_fail e st = Ok () st'.
Proof. unfold peg_fail. repeat case_decide; eauto. Qed.

Lemma finish_agree r1 r2 (st1 : PegState W1) (st2 : PegState W2) :
option_Forall2 anyText r1 r2 → simSt st1 st2 →
agree (peg_finish input r1 st1) (peg_finish input r2 st2).
Proof.
intros Hr Hs. unfold peg_finish, mbind, M_bind, getCurrPos.
assert (peg_currPos st1 = peg_currPos st2) as Hc by apply Hs.
rewrite Hc.
destruct Hr as [v1 v2 _|]; [|by apply throwFurthest_agree].
case_decide.
{ unfold agree, directives. simpl. split_and!; [|done|done]. f_equal. apply Hs. }
case_decide.
- pose proof (rel_fail (W1:=W1) (W2:=W2) EndExpectation st1 st2 Hs) as Hrel.
  destruct (peg_fail_returns EndExpectation st1) as [s1 H1].
  destruct (peg_fail_returns EndExpectation st2) as [s2 H2].
  rewrite H1, H2 in *. destruct Hrel as [[]|[[]|[_ Hs']]].
  by apply throwFurthest_agree.
- by apply throwFurthest_agree.
Qed.

Lemma init_simSt (o1 : W1) (o2 : W2) : simSt (peg_init o1) (peg_init o2).
Proof. unfold simSt. simpl. by split_and!. Qed.

Lemma parses_agree (o1 : W1) (o2 : W2) :
aborted (peg_parse input processEmbed1 o1) ∨ aborted (peg_parse input processEmbed2 o2)
∨ agree (peg_parse input processEmbed1 o1) (peg_parse input processEmbed2 o2).
Proof.
unfold peg_parse.
pose proof (rel_parseSource input _ _ (rel_parseEmbed (S (length input)))
              (peg_init o1) (peg_init o2) (init_simSt o1 o2)) as Hrel.
unfold mbind, M_bind.
destruct Hrel as [Hrel|[Hrel|Hrel]].
- left. by destruct (peg_parseSource _ _ _).
- right; left. by destruct (peg_parseSource _ _ _).
- destruct (peg_parseSource _ _ (peg_init o1)) as [r1 s1|e1 s1|],
           (peg_parseSource _ _ (peg_init o2)) as [r2 s2|e2 s2|]; try done.
  + right; right. destruct Hrel. by apply finish_agree.
  + right; right. done.
Qed.
End TwoParses.

(** C7. Two parses of the same input, with whatever collaborator and options
    (so also before and after the session state has moved on), give every
    directive and every branch the same source span: unless [processEmbed]
    itself cuts one of the parses short by throwing, both parses see the same
    directives in the same order, with the same type, form and offsets, the
    same guards and the same branch locations (offset, line, column); they
    fail with the same SyntaxError or both succeed; and any identity-naming
    function yields the same identities for both. *)
Theorem reparse_gives_the_same_spans {W1 W2} (input : jsstring)
    (processEmbed1 : option EmbedType → list Argument → bool → W1 → PEResult * W1)
    (processEmbed2 : option EmbedType → list Argument → bool → W2 → PEResult * W2)
    (options1 : W1) (options2 : W2) :
  let parse1 := peg_parse input processEmbed1 options1 in
  let parse2 := peg_parse input processEmbed2 options2 in
  aborted parse1 ∨ aborted parse2
  ∨ (directives parse1 = directives parse2
     ∧ failure parse1 = failure parse2
     ∧ (is_Some (resolved parse1) ↔ is_Some (resolved parse2))
     ∧ ∀ I (naming : _ → I), identities naming parse1 = identities naming parse2).
Proof.
  cbv zeta.
  destruct (parses_agree input processEmbed1 processEmbed2 options1 options2)
    as [H|[H|(Hd & Hf & Hr)]]; [by left|by right; left|].
  right; right. split_and!; try done. intros I naming. unfold identities. by rewrite Hd.
Qed.

(** The same source parsed a second time, with the session the first parse
    left behind, resolves to the next branch; the directive and its branches
    are found at the same spans. *)
Example reparse_with_moved_session :
  let parse1 := parseExample (js "{A|B}") in
  let session := default Engine.emptySession (peg_world <$> finalState parse1) in
  let parse2 := peg_parse (js "{A|B}") Engine.exampleProcessEmbed session in
  resolved parse1 = Some (js "A") ∧ resolved parse2 = Some (js "B")
  ∧ directives parse1 = directives parse2
  ∧ directives parse1
    = Some [(None,
             [(None, mkRange (mkPos 1 1 2) (mkPos 2 1 3));
              (None, mkRange (mkPos 3 1 4) (mkPos 4 1 5))],
             false, 0, 5)].
Proof. vm_compute. done. Qed.

Section LocalizationUse.
Import Localization.

Lemma truthy_Some s : truthy (Some s) = bool_decide (s ≠ "").
Proof.
  unfold truthy. destruct (String.eqb_spec s ""); simpl.
  - by rewrite bool_decide_false by auto.
  - by rewrite bool_decide_true.
Qed.

Lemma get_in_language id lg l :
  get id (Some lg) l = if decide (lg = "") then None else languages l !! lg ≫= (.!! id).
Proof.
  unfold get. rewrite truthy_Some.
  destruct (decide (lg = "")) as [->|Hne]; [done|].
  rewrite bool_decide_true by done. simpl. by destruct (languages l !! lg).
Qed.

Lemma get_in_active id l : get id None l = active l ≫= λ lg, get id (Some lg) l.
Proof. unfold get, active. by destruct (activeLanguage l). Qed.

(** X1. [get] after [load]: the table just loaded is what [get] reads for that
    language, whatever was loaded for it before; the other languages read as
    before; the language named by the empty string is never read. *)
Theorem get_after_load id queried language data l :
  get id (Some queried) (load language data l)
  = if decide (queried = language)
    then (if decide (language = "") then None else data !! id)
    else get id (Some queried) l.
Proof.
  rewrite !get_in_language, load_languages.
  destruct (decide (queried = language)) as [->|Hne].
  - destruct (decide (language = "")); [done|]. by rewrite lookup_insert_eq.
  - by rewrite lookup_insert_ne.
Qed.

Lemma set_active_Some lang l l' :
  set_active lang l = Some l'
  ↔ ∃ s, lang = Some s ∧ s ≠ "" ∧ is_Some (languages l !! s)
         ∧ l' = {| languages := languages l; activeLanguage := Some s |}.
Proof.
  unfold set_active. destruct lang as [s|]; [|split; [done|by intros (?&?&?)]].
  rewrite truthy_Some.
  destruct (decide (s = "")) as [->|Hne].
  { split; [done|]. by intros (? & [= <-] & ? & _). }
  rewrite bool_decide_true by done. cbn [andb].
  case_bool_decide as Hl.
  - split; [intros [= <-]; eauto|]. by intros (? & [= <-] & _ & _ & ->).
  - split; [done|]. by intros (? & [= <-] & _ & ? & _).
Qed.

(** X2. The setter of [active] throws exactly when the language is undefined,
    the empty string, or not loaded; otherwise the language is active, the
    tables are untouched, and [get] without a language reads that
    language. *)
Theorem set_active_throws_unless_loaded lang l :
  match set_active lang l with
  | None => lang = None ∨ lang = Some "" ∨ ∃ s, lang = Some s ∧ languages l !! s = None
  | Some l' =>
      ∃ s, lang = Some s ∧ s ≠ "" ∧ is_Some (languages l !! s)
           ∧ active l' = Some s ∧ languages l' = languages l
           ∧ ∀ id, get id None l' = get id (Some s) l
  end.
Proof.
  destruct (set_active lang l) as [l'|] eqn:Hs.
  - apply set_active_Some in Hs as (s & -> & Hne & Hl & ->).
    exists s. split_and!; try done.
  - destruct lang as [s|]; [|by left]. right.
    destruct (decide (s = "")) as [->|Hne]; [by left|]. right.
    exists s. split; [done|]. apply eq_None_not_Some. intros Hl.
    assert (set_active (Some s) l = Some {| languages := languages l; activeLanguage := Some s |})
      as Hx by (apply set_active_Some; eauto).
    congruence.
Qed.

(** X3. Loading a language and making it active makes every string of its table
    readable without naming the language. *)
Theorem load_activate_get language data l :
  language ≠ "" →
  ∃ l', set_active (Some language) (load language data l) = Some l'
        ∧ active l' = Some language
        ∧ ∀ id, get id None l' = data !! id.
Proof.
  intros Hne. eexists. split.
  { apply set_active_Some. exists language. split_and!; [done|done| |done].
    rewrite load_languages, lookup_insert_eq. eauto. }
  split; [done|]. intros id.
  rewrite get_in_active. simpl. rewrite get_in_language. simpl.
  rewrite decide_False by done. by rewrite copy_table, lookup_insert_eq.
Qed.

Lemma load_activate_get_witness :
  "en" ≠ "" ∧
  ∃ l', set_active (Some "en") (load "en" {[ "greeting" := "hello" ]} new) = Some l'
        ∧ active l' = Some "en"
        ∧ ∀ id, get id None l' = ({[ "greeting" := "hello" ]} : gmap string string) !! id.
Proof.
  split; [discriminate|].
  exact (load_activate_get "en" {[ "greeting" := "hello" ]} new ltac:(discriminate)).
Defined.

Lemma afterCall_languages l c lg :
  is_Some (languages l !! lg) → is_Some (languages (afterCall l c) !! lg).
Proof.
  destruct c as [language data|lang]; simpl.
  - intros H. rewrite copy_table.
    destruct (decide (lg = language)) as [->|Hne].
    + rewrite lookup_insert_eq. eauto.
    + by rewrite lookup_insert_ne.
  - destruct (set_active lang l) as [l'|] eqn:Hs; [|done]. simpl.
    by apply set_active_Some in Hs as (s & _ & _ & _ & ->).
Qed.

(** X4. Whatever is called on a new [Localization], in whatever order: the
    active language is undefined exactly as long as nothing has been loaded,
    and once defined it names a loaded table. *)
Theorem active_language_is_loaded calls :
  let l := afterCalls calls in
  (active l = None ↔ languages l = ∅)
  ∧ ∀ lang, active l = Some lang → is_Some (languages l !! lang).
Proof.
  cbv zeta. unfold afterCalls.
  induction calls as [|c calls IH] using rev_ind; simpl.
  - split; [done|]. intros lang. discriminate.
  - rewrite foldl_app. simpl. set (l := foldl afterCall new calls) in *.
    destruct IH as [IH1 IH2].
    destruct c as [language data|lang]; simpl.
    + split.
      * split.
        -- unfold active. simpl. by destruct (activeLanguage l).
        -- intros H. apply (f_equal (λ m, m !! language)) in H.
           by rewrite lookup_insert_eq, lookup_empty in H.
      * intros lang. unfold active. simpl. rewrite copy_table.
        destruct (activeLanguage l) as [a|] eqn:Ha.
        -- intros [= <-]. destruct (decide (a = language)) as [->|Hne].
           ++ rewrite lookup_insert_eq. eauto.
           ++ rewrite lookup_insert_ne by done. by apply IH2.
        -- intros [= <-]. rewrite lookup_insert_eq. eauto.
    + destruct (set_active lang l) as [l'|] eqn:Hs; simpl; [|done].
      apply set_active_Some in Hs as (s & -> & Hne & Hl & ->).
      unfold active. simpl. split.
      * split; [done|]. intros H. rewrite H, lookup_empty in Hl. by destruct Hl.
      * by intros lang [= <-].
Qed.
End LocalizationUse.

Section LineColumn.
Context {W : Type}.
Variable input : jsstring.
Implicit Types st : PegState W.

Lemma lineFeeds_snoc s c :
  lineFeeds (s ++ [c]) = lineFeeds s + (if decide (c = 10%N) then 1 else 0).
Proof.
  unfold lineFeeds. rewrite filter_app, length_app. f_equal.
  rewrite filter_cons. by destruct (decide (c = 10%N)).
Qed.

Lemma sinceLineFeed_snoc s c :
  sinceLineFeed (s ++ [c]) = if decide (c = 10%N) then 0 else S (sinceLineFeed s).
Proof.
  unfold sinceLineFeed. rewrite reverse_snoc. simpl.
  destruct (decide (c = 10%N)) as [->|Hne]; [done|].
  apply N.eqb_neq in Hne. by rewrite Hne.
Qed.

Lemma lineColumn_S pos :
  lineColumn input (S pos)
  = let d := lineColumn input pos in
    if decide (input !! pos = Some 10%N)
    then mkDetails (details_line d + 1) 1
    else mkDetails (details_line d) (details_column d + 1).
Proof.
  unfold lineColumn. replace (S pos) with (pos + 1) by lia.
  rewrite advanceDetails_add. simpl. done.
Qed.

Lemma lineColumn_closed pos : lineColumn input pos = lineColumnAt input pos.
Proof.
  induction pos as [|pos IH].
  - unfold lineColumnAt. by rewrite take_0.
  - rewrite lineColumn_S, IH. cbv zeta. unfold lineColumnAt.
    destruct (input !! pos) as [c|] eqn:Hc.
    + rewrite (take_S_r _ _ c) by done.
      rewrite lineFeeds_snoc, sinceLineFeed_snoc.
      apply lookup_lt_Some in Hc.
      replace (pos - length input) with 0 by lia.
      replace (S pos - length input) with 0 by lia.
      destruct (decide (c = 10%N)) as [->|Hne].
      * rewrite decide_True by done. simpl. f_equal; lia.
      * rewrite decide_False by congruence. simpl. f_equal; lia.
    + apply lookup_ge_None in Hc.
      rewrite decide_False by done.
      rewrite !take_ge by lia. simpl. f_equal. lia.
Qed.
End LineColumn.

(** X5. [peg$computePosDetails], run with a position cache whose entries are
    right, returns the line and column of the position counted from 1 — one
    more than the line feeds before it, one more than the code units since
    the last of them — whatever is cached, and leaves a cache whose entries
    are right, everything else unchanged.  Only line feeds end a line: a
    carriage return is an ordinary column. *)
Theorem computePosDetails_counts_line_feeds {W} (input : jsstring) (pos : nat)
    (st : PegState W) :
  CacheInv input st →
  ∃ st', peg_computePosDetails input pos st = Ok (lineColumnAt input pos) st'
         ∧ CacheInv input st' ∧ cacheStep st st'.
Proof.
  intros Hc.
  pose proof (wp_computePosDetails input noThrow pos st
                (λ d st', d = lineColumnAt input pos ∧ CacheInv input st' ∧ cacheStep st st')
                Hc) as Hwp.
  apply wp_strict_run in Hwp as (d & st' & Hrun & -> & ? & ?); [eauto|].
  intros st' Hstep Hc'. split; [apply lineColumn_closed|done].
Qed.

Lemma computePosDetails_counts_line_feeds_witness :
  CacheInv (js "ab" ++ [13; 10]%N ++ js "cd") (peg_init ())
  ∧ ∃ st', peg_computePosDetails (js "ab" ++ [13; 10]%N ++ js "cd") 5 (peg_init ())
           = Ok (mkDetails 2 2) st'
           ∧ CacheInv (js "ab" ++ [13; 10]%N ++ js "cd") st' ∧ cacheStep (peg_init ()) st'.
Proof.
  assert (CacheInv (js "ab" ++ [13; 10]%N ++ js "cd") (peg_init ())) as H
    by apply (peg_init_Inv (js "ab" ++ [13; 10]%N ++ js "cd") ()).
  split; [exact H|].
  exact (computePosDetails_counts_line_feeds (js "ab" ++ [13; 10]%N ++ js "cd") 5 (peg_init ()) H).
Defined.

Lemma replaceEach_app pattern replacement a b :
  replaceEach pattern replacement (a ++ b)
  = replaceEach pattern replacement a ++ replaceEach pattern replacement b.
Proof. unfold replaceEach. by rewrite fmap_app, concat_app. Qed.

Lemma escapeControls_app a b : escapeControls (a ++ b) = escapeControls a ++ escapeControls b.
Proof. unfold escapeControls. by rewrite !replaceEach_app. Qed.

Lemma escapeWhite_app a b : escapeWhite (a ++ b) = escapeWhite a ++ escapeWhite b.
Proof. unfold escapeWhite. by rewrite !replaceEach_app. Qed.

Lemma literalEscape_app a b : literalEscape (a ++ b) = literalEscape a ++ literalEscape b.
Proof.
  unfold literalEscape. by rewrite !replaceEach_app, escapeWhite_app, escapeControls_app.
Qed.

(** Settles one comparison of a code unit with a constant. *)
Ltac settle_test :=
  match goal with
  | |- context [N.eqb ?a ?b] =>
      let H := fresh in
      assert (N.eqb a b = false) as H by (apply N.eqb_neq; lia); rewrite H; clear H
  | |- context [N.leb ?a ?b] =>
      let H := fresh in
      first [ assert (N.leb a b = false) as H by (apply N.leb_gt; lia)
            | assert (N.leb a b = true) as H by (apply N.leb_le; lia) ];
      rewrite H; clear H
  | |- context [andb _ false] => rewrite andb_false_r
  | |- context [orb false _] => rewrite orb_false_l
  | |- context [andb true _] => rewrite andb_true_l
  end.

(** A property of all code units below [n], checked one by one. *)
Lemma below_cases (P : N → Prop) (n : nat) :
  Forall P (N.of_nat <$> seq 0 n) → ∀ c, (c < N.of_nat n)%N → P c.
Proof.
  intros H c Hc. rewrite Forall_forall in H. apply H.
  apply list_elem_of_fmap. exists (N.to_nat c). split; [by rewrite N2Nat.id|].
  apply elem_of_seq. lia.
Qed.

Lemma literalEscape_unit ch : literalEscape [ch] = literalCode ch.
Proof.
  destruct (decide (ch < 160)%N) as [Hlt|Hge].
  - revert ch Hlt. apply (below_cases _ 160).
    apply Forall_forall. intros c Hc.
    apply list_elem_of_fmap in Hc as (n & -> & Hn). apply elem_of_seq in Hn.
    assert (bool_decide (literalEscape [N.of_nat n] = literalCode (N.of_nat n)) = true) as Hb;
      [|by apply bool_decide_eq_true in Hb].
    assert (forallb (λ n, bool_decide (literalEscape [N.of_nat n] = literalCode (N.of_nat n)))
              (seq 0 160) = true) as Hall by (vm_compute; reflexivity).
    rewrite forallb_forall in Hall. apply Hall. apply list_elem_of_In, elem_of_seq. lia.
  - unfold literalEscape, escapeWhite, escapeControls, literalCode, replaceEach.
    repeat (cbn [fmap list_fmap concat app]; settle_test). done.
Qed.

Lemma literalEscape_concat s : literalEscape s = concat (literalCode <$> s).
Proof.
  induction s as [|ch s IH]; [done|].
  change (ch :: s) with ([ch] ++ s).
  by rewrite literalEscape_app, literalEscape_unit, IH.
Qed.

Lemma literalCode_printable ch : Forall (λ c, isControl c = false) (literalCode ch).
Proof.
  destruct (decide (ch < 160)%N) as [Hlt|Hge].
  - revert ch Hlt. apply (below_cases _ 160).
    apply Forall_forall. intros c Hc.
    apply list_elem_of_fmap in Hc as (n & -> & Hn). apply elem_of_seq in Hn.
    assert (forallb (λ n, forallb (λ c, negb (isControl c)) (literalCode (N.of_nat n)))
              (seq 0 160) = true) as Hall by (vm_compute; reflexivity).
    rewrite forallb_forall in Hall.
    specialize (Hall n ltac:(apply list_elem_of_In, elem_of_seq; lia)).
    rewrite forallb_forall in Hall. apply Forall_forall. intros c Hc.
    apply list_elem_of_In, Hall in Hc. by destruct (isControl c).
  - unfold literalCode. repeat settle_test.
    constructor; [|done]. unfold isControl. by repeat settle_test.
Qed.

(** X6. The chain of replacements of [literalEscape] acts on each code unit
    separately, as one table; what it returns contains no control character
    (C0, DEL, C1), and escaping distributes over concatenation. *)
Theorem literalEscape_is_unit_wise s :
  literalEscape s = concat (literalCode <$> s)
  ∧ Forall (λ c, isControl c = false) (literalEscape s)
  ∧ ∀ s', literalEscape (s ++ s') = literalEscape s ++ literalEscape s'.
Proof.
  split_and!.
  - apply literalEscape_concat.
  - rewrite literalEscape_concat. apply Forall_concat, Forall_fmap, Forall_forall.
    intros ch _. apply literalCode_printable.
  - intros s'. apply literalEscape_app.
Qed.


(** *** The order of the descriptions *)

Lemma jsLt_irrefl a : jsLt a a = false.
Proof.
  induction a as [|x a IH]; [done|]. simpl.
  by rewrite N.ltb_irrefl, N.eqb_refl, IH.
Qed.

Lemma jsLt_cons x a y b :
  jsLt (x :: a) (y :: b) = true ↔ (x < y)%N ∨ x = y ∧ jsLt a b = true.
Proof.
  simpl. rewrite orb_true_iff, andb_true_iff, N.ltb_lt, N.eqb_eq. done.
Qed.

Lemma jsLt_trans a b c : jsLt a b = true → jsLt b c = true → jsLt a c = true.
Proof.
  revert b c. induction a as [|x a IH]; intros [|y b] [|z c]; try done.
  rewrite !jsLt_cons. intros [H1|[-> H1]] [H2|[-> H2]].
  - left. lia.
  - by left.
  - by left.
  - right. split; [done|]. by apply (IH b).
Qed.

Lemma jsLt_total a b : jsLt a b = false → jsLt b a = false → a = b.
Proof.
  revert b. induction a as [|x a IH]; intros [|y b]; try done.
  intros H1 H2.
  destruct (N.lt_total x y) as [Hlt|[->|Hgt]].
  - assert (jsLt (x :: a) (y :: b) = true) by (apply jsLt_cons; by left). congruence.
  - f_equal. apply IH.
    + destruct (jsLt a b) eqn:E; [|done].
      assert (jsLt (y :: a) (y :: b) = true) by (apply jsLt_cons; by right). congruence.
    + destruct (jsLt b a) eqn:E; [|done].
      assert (jsLt (y :: b) (y :: a) = true) by (apply jsLt_cons; by right). congruence.
  - assert (jsLt (y :: b) (x :: a) = true) by (apply jsLt_cons; by left). congruence.
Qed.

Lemma jsLt_asym a b : jsLt a b = true → jsLt b a = false.
Proof.
  intros H. destruct (jsLt b a) eqn:E; [|done].
  pose proof (jsLt_trans _ _ _ H E) as Hx. by rewrite jsLt_irrefl in Hx.
Qed.

(** [a] is not after [b]. *)
Lemma notAfter_trans a b c :
  jsLt b a = false → jsLt c b = false → jsLt c a = false.
Proof.
  intros H1 H2. destruct (jsLt c a) eqn:E; [|done].
  destruct (jsLt a b) eqn:Eab.
  - pose proof (jsLt_trans _ _ _ E Eab). congruence.
  - assert (a = b) as -> by by apply jsLt_total. congruence.
Qed.

Lemma insertSorted_Permutation x l : insertSorted x l ≡ₚ x :: l.
Proof.
  induction l as [|y l IH]; [done|]. simpl.
  destruct (jsLt y x); [|done]. rewrite IH. apply Permutation_swap.
Qed.

Lemma sort_Permutation l : sort l ≡ₚ l.
Proof.
  induction l as [|x l IH]; [done|]. simpl.
  by rewrite insertSorted_Permutation, IH.
Qed.

Lemma insertSorted_sorted x l :
  StronglySorted (λ a b, jsLt b a = false) l →
  StronglySorted (λ a b, jsLt b a = false) (insertSorted x l).
Proof.
  induction 1 as [|y l Hl IH Hy]; simpl; [by repeat constructor|].
  destruct (jsLt y x) eqn:E.
  - constructor; [done|].
    rewrite insertSorted_Permutation. constructor; [by apply jsLt_asym|done].
  - constructor; [by constructor|].
    constructor; [done|].
    eapply Forall_impl; [exact Hy|]. intros z Hz. simpl in *.
    by apply (notAfter_trans x y z).
Qed.

Lemma sort_sorted l : StronglySorted (λ a b, jsLt b a = false) (sort l).
Proof.
  induction l as [|x l IH]; simpl; [constructor|]. by apply insertSorted_sorted.
Qed.

(** *** The loop that removes repetitions *)

Lemma keepChangesFrom_snoc prev l x :
  keepChangesFrom prev (l ++ [x])
  = if decide (last (prev :: l) = Some x) then keepChangesFrom prev l
    else keepChangesFrom prev l ++ [x].
Proof.
  revert prev. induction l as [|y l IH]; intros prev; simpl.
  - destruct (decide (prev = x)) as [->|Hne].
    + by rewrite decide_True.
    + rewrite decide_False; [done|]. congruence.
  - rewrite IH. change (last (prev :: y :: l)) with (last (y :: l)).
    destruct (decide (prev = y)); by destruct (decide (last (y :: l) = Some x)).
Qed.

Lemma keepChanges_snoc l x :
  l ≠ [] →
  keepChanges (l ++ [x])
  = if decide (last l = Some x) then keepChanges l else keepChanges l ++ [x].
Proof.
  destruct l as [|y l]; [done|]. intros _. simpl.
  rewrite keepChangesFrom_snoc. by destruct (decide (last (y :: l) = Some x)).
Qed.

Lemma drop_eq_S {A} (a b : list A) n : drop n a = drop n b → drop (S n) a = drop (S n) b.
Proof. intros H. replace (S n) with (n + 1) by lia. by rewrite <- !drop_drop, H. Qed.

Lemma dedupeLoop_spec orig : ∀ rounds i j cur,
  1 ≤ i → i + rounds = length orig → j ≤ i → length cur = length orig →
  take j cur = keepChanges (take i orig) → length (keepChanges (take i orig)) = j →
  drop (i - 1) cur = drop (i - 1) orig →
  dedupeLoop rounds i j cur = keepChanges orig.
Proof.
  induction rounds as [|rounds IH]; intros i j cur Hi Hlen Hj Hcur Htake Hj' Hdrop; simpl.
  - rewrite Htake. f_equal. apply take_ge. lia.
  - assert (cur !! (i - 1) = orig !! (i - 1)) as Hprev.
    { pose proof (f_equal (.!! 0) Hdrop) as H0. rewrite !lookup_drop in H0.
      by rewrite Nat.add_0_r in H0. }
    assert (cur !! i = orig !! i) as Hat.
    { pose proof (f_equal (.!! 1) Hdrop) as H1. rewrite !lookup_drop in H1.
      by replace (i - 1 + 1) with i in H1 by lia. }
    destruct (lookup_lt_is_Some_2 orig i ltac:(lia)) as [x Hx].
    destruct (lookup_lt_is_Some_2 orig (i - 1) ltac:(lia)) as [y Hy].
    assert (take (S i) orig = take i orig ++ [x]) as Hsnoc by by apply take_S_r.
    assert (take i orig ≠ []) as Hne.
    { intros H. apply (f_equal length) in H. rewrite length_take in H. simpl in H. lia. }
    assert (last (take i orig) = Some y) as Hlast.
    { rewrite last_lookup, length_take, lookup_take_lt by lia.
      replace (Init.Nat.pred (i `min` length orig)) with (i - 1) by lia. done. }
    rewrite Hprev, Hat, Hx, Hy.
    destruct (decide (Some y = Some x)) as [[= ->]|Hyx].
    + apply IH; try lia.
      * rewrite Hsnoc, keepChanges_snoc, Hlast by done. by rewrite decide_True.
      * rewrite Hsnoc, keepChanges_snoc, Hlast by done. by rewrite decide_True.
      * replace (S i - 1) with (S (i - 1)) by lia. by apply drop_eq_S.
    + assert (j < length cur) as Hjc by lia.
      apply IH; try lia.
      * by rewrite length_insert.
      * rewrite Hsnoc, keepChanges_snoc, Hlast by done.
        rewrite decide_False by done.
        rewrite (take_S_r _ _ x) by (by rewrite list_lookup_insert_eq).
        rewrite take_insert_ge by lia. by rewrite Htake.
      * rewrite Hsnoc, keepChanges_snoc, Hlast by done.
        rewrite decide_False by done. rewrite length_app. simpl. lia.
      * destruct (decide (j = i)) as [->|Hji].
        all: replace (S i - 1) with (S (i - 1)) by lia.
        -- rewrite list_insert_id by congruence. by apply drop_eq_S.
        -- rewrite drop_insert_lt by lia. by apply drop_eq_S.
Qed.

Lemma dedupe_keepChanges l : dedupe l = keepChanges l.
Proof.
  destruct l as [|x l]; [done|]. unfold dedupe.
  apply dedupeLoop_spec; simpl; try lia; by rewrite ?take_0.
Qed.

Lemma keepChangesFrom_sorted prev l :
  StronglySorted (λ a b, jsLt b a = false) (prev :: l) →
  StronglySorted (λ a b, jsLt a b = true) (prev :: keepChangesFrom prev l)
  ∧ ∀ d, d ∈ prev :: keepChangesFrom prev l ↔ d ∈ prev :: l.
Proof.
  revert prev. induction l as [|x l IH]; intros prev Hs; simpl.
  - split; [by repeat constructor|done].
  - apply StronglySorted_inv in Hs as [Hs Hall].
    destruct (IH x Hs) as [IH1 IH2].
    destruct (decide (prev = x)) as [->|Hne].
    + split; [done|]. intros d. rewrite IH2, !elem_of_cons. tauto.
    + assert (jsLt prev x = true) as Hlt.
      { apply Forall_cons in Hall as [Hx _].
        destruct (jsLt prev x) eqn:E; [done|]. destruct Hne. by apply jsLt_total. }
      split.
      * constructor; [done|]. apply Forall_forall. intros d Hd.
        apply IH2 in Hd. apply elem_of_cons in Hd as [->|Hd]; [done|].
        apply StronglySorted_inv in Hs as [_ Hxl]. rewrite Forall_forall in Hxl.
        specialize (Hxl d Hd). simpl in Hxl.
        destruct (decide (x = d)) as [->|Hxd]; [done|].
        apply (jsLt_trans _ x); [done|].
        destruct (jsLt x d) eqn:E; [done|]. destruct Hxd. by apply jsLt_total.
      * intros d. rewrite (elem_of_cons _ d prev), (elem_of_cons (x :: l) d prev), IH2. done.
Qed.

Lemma descriptionsOf_elem expected1 d :
  d ∈ descriptionsOf expected1 ↔ ∃ e, e ∈ expected1 ∧ d = describeExpectation e.
Proof.
  unfold descriptionsOf. rewrite dedupe_keepChanges.
  pose proof (sort_sorted (describeExpectation <$> expected1)) as Hs.
  pose proof (sort_Permutation (describeExpectation <$> expected1)) as Hp.
  assert (d ∈ describeExpectation <$> expected1
          ↔ ∃ e, e ∈ expected1 ∧ d = describeExpectation e) as <-.
  { rewrite list_elem_of_fmap. split; intros (e & ? & ?); by exists e. }
  transitivity (d ∈ sort (describeExpectation <$> expected1)); [|by rewrite Hp].
  destruct (sort _) as [|x l]; [done|]. by apply keepChangesFrom_sorted.
Qed.

Lemma descriptionsOf_sorted expected1 :
  StronglySorted (λ a b, jsLt a b = true) (descriptionsOf expected1).
Proof.
  unfold descriptionsOf. rewrite dedupe_keepChanges.
  pose proof (sort_sorted (describeExpectation <$> expected1)) as Hs.
  destruct (sort _) as [|x l]; [constructor|]. by apply keepChangesFrom_sorted.
Qed.

(** X7. The descriptions listed in a message are in increasing order of their
    code units, none is repeated, and they are exactly the descriptions of
    the expectations. *)
Theorem descriptions_sorted_without_repetition expected1 :
  StronglySorted (λ a b, jsLt a b = true) (descriptionsOf expected1)
  ∧ NoDup (descriptionsOf expected1)
  ∧ ∀ d, d ∈ descriptionsOf expected1 ↔ ∃ e, e ∈ expected1 ∧ d = describeExpectation e.
Proof.
  split_and!; [apply descriptionsOf_sorted| |intros d; apply descriptionsOf_elem].
  pose proof (descriptionsOf_sorted expected1) as Hsorted.
  induction Hsorted as [|x l Hl IH Hx]; [constructor|].
  constructor; [|done]. intros Hin.
  rewrite Forall_forall in Hx. specialize (Hx x Hin). simpl in Hx.
  by rewrite jsLt_irrefl in Hx.
Qed.

(** *** The message of a failed parse *)

Section FailureMessage.
Context {W : Type}.
Variable input : jsstring.
Variable processEmbed : option EmbedType → list Argument → bool → W → PEResult * W.
Implicit Types st : PegState W.

Lemma bind_returns_Some {A B} (m : M W A) (k : A → M W (option B)) st :
  (∀ a st', match k a st' with Ok v _ => is_Some v | _ => True end) →
  match (m ≫= k) st with Ok v _ => is_Some v | _ => True end.
Proof. intros Hk. unfold mbind, M_bind. destruct (m st); [apply Hk|done..]. Qed.

(** [Source] is a repetition: it never fails. *)
Lemma peg_parseSource_Some rec st :
  match peg_parseSource input rec st with Ok v _ => is_Some v | _ => True end.
Proof.
  unfold peg_parseSource.
  apply bind_returns_Some. intros s0 st0.
  apply bind_returns_Some. intros s2 st2.
  apply bind_returns_Some. intros s1 st1.
  apply bind_returns_Some. intros [] st3. simpl. eauto.
Qed.

Lemma PEok_actionThrow : PEok actionThrow processEmbed.
Proof. intros t a m w. by destruct (processEmbed t a m w).1. Qed.

Lemma peg_fail_log e st :
  ∃ st', peg_fail e st = Ok () st'
         ∧ peg_failLog st' = peg_failLog st ++ [(peg_currPos st, e)]
         ∧ peg_posDetailsCache st' = peg_posDetailsCache st.
Proof. unfold peg_fail. repeat case_decide; eauto. Qed.

Lemma peg_throwFurthest_log {A} st :
  CacheInv input st → peg_failLog st ≠ [] →
  wp (λ _ st', peg_failLog st' ≠ []) (peg_throwFurthest (A:=A) input) (λ _ _, True) st.
Proof.
  intros Hc Hlog. unfold peg_throwFurthest.
  apply wp_bind. unfold getMaxFailPos at 1, wp at 1.
  apply wp_bind. unfold getMaxFailExpected at 1, wp at 1.
  apply wp_bind. destruct (decide (peg_maxFailPos st < length input)).
  all: apply (wp_computeLocation input); [done|]; intros st' Hstep _.
  all: unfold wp, throw; destruct Hstep as (_ & _ & _ & _ & _ & -> & _); done.
Qed.

Lemma parse_failure_log_nonempty options e st :
  peg_parse input processEmbed options = Throw (ParseFailure e) st →
  peg_failLog st ≠ [].
Proof.
  unfold peg_parse.
  pose proof (peg_parseSource_spec input actionThrow 0 _
                (peg_parseEmbed_spec input processEmbed actionThrow PEok_actionThrow
                   (S (length input)) 0 ltac:(lia))
                (peg_init options) (peg_init_Inv input options) ltac:(simpl; lia)) as Hsrc.
  pose proof (peg_parseSource_Some (peg_parseEmbed input processEmbed (S (length input)))
                (peg_init options)) as HSome.
  unfold mbind, M_bind, wp in *.
  destruct (peg_parseSource _ _ _) as [r st1|e1 st1|]; [|intros [= -> ->]; done|done].
  destruct HSome as [s ->]. destruct Hsrc as ((Hf & Hc & Hp) & _).
  unfold peg_finish. unfold mbind at 1, M_bind at 1, getCurrPos. cbv beta iota.
  destruct (decide (peg_currPos st1 = length input)); [done|].
  destruct (peg_fail_log EndExpectation st1) as (st2 & Hrun & Hlog & Hcache).
  rewrite decide_True by lia. unfold mbind, M_bind. rewrite Hrun.
  pose proof (peg_throwFurthest_log (A:=jsstring) st2) as Hthrow.
  unfold wp in Hthrow. intros Heq. rewrite Heq in Hthrow. apply Hthrow.
  - unfold CacheInv. by rewrite Hcache.
  - rewrite Hlog. by destruct (peg_failLog st1).
Qed.

Lemma expectedAt_furthest_nonempty (log : list (nat * Expectation)) :
  log ≠ [] → expectedAt (furthest log) log ≠ [].
Proof.
  intros Hne.
  assert (∃ x, x ∈ log ∧ x.1 = furthest log) as (x & Hin & Hx).
  { unfold furthest. clear -Hne. induction log as [|[q e] log IH]; [done|].
    destruct log as [|y log].
    - exists (q, e). split; [by left|]. change (q = q `max` 0). lia.
    - destruct IH as (x & Hin & Hx); [done|].
      rewrite fmap_cons. change (max_list (?a :: ?l)) with (a `max` max_list l).
      change ((q, e).1) with q.
      destruct (decide (max_list ((y :: log).*1) ≤ q)).
      + exists (q, e). split; [by left|]. change ((q, e).1) with q. lia.
      + exists x. split; [by right|]. lia. }
  unfold expectedAt. intros Hnil.
  apply fmap_nil_inv in Hnil.
  assert (x ∈ filter (λ x, x.1 = furthest log) log) as Hf by by apply list_elem_of_filter.
  rewrite Hnil in Hf. by apply elem_of_nil in Hf.
Qed.

End FailureMessage.

(** X8. The message of the [SyntaxError] of a failed parse names at least one
    expectation, and ends with the code unit found at the reported offset,
    escaped and in quotes, or with [end of input] when the offset is the
    end. *)
Theorem parse_failure_message {W} (input : jsstring)
    (processEmbed : option EmbedType → list Argument → bool → W → PEResult * W)
    (options : W) :
  match peg_parse input processEmbed options with
  | Throw (ParseFailure e) _ =>
      descriptionsOf (err_expected e) ≠ []
      ∧ message e
        = js "Expected " ++ describeExpected (err_expected e) ++ js " but "
          ++ match input !! offset (start (err_location e)) with
             | Some ch => [34%N] ++ literalCode ch ++ [34%N]
             | None => js "end of input"
             end
          ++ js " found."
  | _ => True
  end.
Proof.
  pose proof (peg_parse_failure input processEmbed options) as Hfail.
  destruct (peg_parse input processEmbed options) as [s st|[e| |] st|] eqn:Hrun; try done.
  destruct Hfail as ((Hexp & Hfound & Hloc) & _).
  pose proof (parse_failure_log_nonempty input processEmbed options e st Hrun) as Hlog.
  split.
  - intros Hnil.
    apply expectedAt_furthest_nonempty in Hlog. rewrite <- Hexp in Hlog.
    destruct (err_expected e) as [|x l]; [done|].
    assert (describeExpectation x ∈ descriptionsOf (x :: l)) as Hin.
    { apply descriptionsOf_elem. exists x. split; [by left|done]. }
    rewrite Hnil in Hin. by apply elem_of_nil in Hin.
  - unfold message, buildMessage. do 3 f_equal.
    rewrite Hfound, Hloc. simpl. unfold charAtOrNull, describeFound.
    destruct (input !! furthest (peg_failLog st)) as [ch|]; [|done].
    by rewrite literalEscape_unit.
Qed.

Section ProxyFacts.
Import Proxy.
Context {Obj Prim : Type}.
Variable reflectGet : Obj → PropertyKey → Value Obj Prim.
Variable hasProperty : Obj → PropertyKey → bool.
Implicit Types s : Store Obj.
Implicit Types p c : ProxyObject Obj.

Local Abbreviation get := (Proxy.get reflectGet).
Local Abbreviation wf := (wellFormed reflectGet).

Lemma laterProxy_refl p : laterProxy p p.
Proof. unfold laterProxy. by split_and!. Qed.

Lemma laterProxy_trans p1 p2 p3 : laterProxy p1 p2 → laterProxy p2 p3 → laterProxy p1 p3.
Proof.
  unfold laterProxy. intros (?&?&?&?&?&?) (?&?&?&?&?&?).
  split_and!; try congruence. by etrans.
Qed.

Lemma laterStore_refl s : laterStore s s.
Proof. intros i p H. exists p. split; [done|apply laterProxy_refl]. Qed.

Lemma laterStore_trans s1 s2 s3 : laterStore s1 s2 → laterStore s2 s3 → laterStore s1 s3.
Proof.
  intros H12 H23 i p H.
  destruct (H12 i p H) as (p2 & H2 & Hl2).
  destruct (H23 i p2 H2) as (p3 & H3 & Hl3).
  exists p3. split; [done|]. by eapply laterProxy_trans.
Qed.

(** The store after [makeProxy] has created a proxy for [o]. *)
Lemma makeProxy_Some self prop (value : Value Obj Prim) t d s p o :
  proxies s !! self = Some p → proxyTarget value = Some o →
  makeProxy self prop value t d s
  = Returned (Proxied (length (proxies s)))
      (mkStore (localizations s)
         (alter (cacheSubProxy prop (length (proxies s))) self
            (proxies s ++ [mkProxyObject o (newHandler (localization (handler p)) t d)]))).
Proof.
  intros Hp Ho. unfold makeProxy. rewrite Hp.
  destruct value; simplify_eq/=; done.
Qed.

Lemma makeProxy_None self prop (value : Value Obj Prim) t d s p :
  proxies s !! self = Some p → proxyTarget value = None →
  makeProxy self prop value t d s = TypeError.
Proof.
  intros Hp Ho. unfold makeProxy. rewrite Hp. by destruct value.
Qed.

(** The trap, case by case, when nothing is cached for the property. *)
Lemma get_uncached self prop s p :
  proxies s !! self = Some p → subProxies (handler p) !! prop = None →
  let value := reflectGet (target p) prop in
  get self prop s
  = match subProxyKind (handler p) prop value with
    | Some (t, d) => makeProxy self prop value t d s
    | None =>
        if localizes (handler p) prop value
        then match localizations s !! localization (handler p) with
             | Some l => Returned (Plain (localize l value)) s
             | None => Dangling
             end
        else Returned (Plain value) s
    end.
Proof.
  intros Hp Hc. cbv zeta. unfold Proxy.get, subProxyKind, localizes. rewrite Hp, Hc.
  destruct (type (handler p)).
  - by case_decide.
  - done.
  - destruct (reflectGet (target p) prop); try done.
  - by repeat case_decide.
  - destruct prop as [name|]; [|done]. by case_bool_decide; case_decide.
  - destruct prop as [name|]; [|done].
    by destruct (localizedProperties (handler p) !! name) as [[f|]|].
  - destruct prop as [name|]; [|done]. by case_bool_decide; case_decide.
Qed.

Lemma subProxyKind_later (p p' : ProxyObject Obj) prop (value : Value Obj Prim) :
  laterProxy p p' →
  subProxyKind (handler p') prop value = subProxyKind (handler p) prop value.
Proof. intros (_ & Ht & Hd & _ & Hl & _). unfold subProxyKind. by rewrite Ht, Hd, Hl. Qed.

Lemma localizes_later (p p' : ProxyObject Obj) prop (value : Value Obj Prim) :
  laterProxy p p' →
  localizes (handler p') prop value = localizes (handler p) prop value.
Proof. intros (_ & Ht & Hd & _ & Hl & _). unfold localizes. by rewrite Ht, Hl. Qed.

Lemma newHandler_table l l' t d :
  localizedProperties (newHandler l t d) = localizedProperties (newHandler l' t d).
Proof. done. Qed.

Section MakeProxy.
Variables (self : nat) (prop : PropertyKey) (s : Store Obj) (p : ProxyObject Obj).
Variables (o : Obj) (t : LocalizableObjectType) (d : option AnyDefinition).
Hypothesis Hwf : wf s.
Hypothesis Hp : proxies s !! self = Some p.
Hypothesis Ho : proxyTarget (reflectGet (target p) prop) = Some o.
Hypothesis Hk : subProxyKind (handler p) prop (reflectGet (target p) prop) = Some (t, d).
Hypothesis Hc : subProxies (handler p) !! prop = None.

Local Abbreviation n := (length (proxies s)).
Local Abbreviation cell := (mkProxyObject o (newHandler (localization (handler p)) t d)).
Local Abbreviation s' :=
  (mkStore (localizations s) (alter (cacheSubProxy prop n) self (proxies s ++ [cell]))).

Lemma made_lookup i :
  proxies s' !! i
  = if decide (i = self) then Some (cacheSubProxy prop n p)
    else if decide (i = n) then Some cell else proxies s !! i.
Proof using Hp.
  pose proof (lookup_lt_Some _ _ _ Hp) as Hlt.
  simpl. rewrite list_lookup_alter.
  destruct (decide (self = i)) as [<-|Hne].
  - rewrite decide_True by done. by rewrite lookup_app_l, Hp by done.
  - rewrite decide_False by done.
    destruct (decide (i = n)) as [->|Hn].
    + by rewrite list_lookup_middle.
    + destruct (decide (i < n)).
      * by rewrite lookup_app_l.
      * rewrite !lookup_ge_None_2; [done|lia|].
        rewrite length_app. simpl. lia.
Qed.

Lemma made_later : laterStore s s'.
Proof using Hp Hc.
  intros i q Hq. pose proof (lookup_lt_Some _ _ _ Hq) as Hlt.
  rewrite made_lookup. destruct (decide (i = self)) as [->|Hne].
  - assert (q = p) as -> by congruence. eexists. split; [done|].
    unfold laterProxy. simpl. split_and!; try done.
    by apply insert_subseteq.
  - rewrite decide_False by lia.
    exists q. split; [done|apply laterProxy_refl].
Qed.

Lemma made_new : proxies s' !! n = Some cell.
Proof using Hp.
  pose proof (lookup_lt_Some _ _ _ Hp) as Hlt.
  rewrite made_lookup, decide_False by lia. by rewrite decide_True.
Qed.

Lemma made_wf : wf s'.
Proof using Hwf Hp Ho Hk Hc.
  pose proof (lookup_lt_Some _ _ _ Hp) as Hlt.
  assert (∀ i q, proxies s !! i = Some q →
            ∃ q', proxies s' !! i = Some q' ∧ laterProxy q q') as Hold by apply made_later.
  assert (∀ i q pr, proxies s !! i = Some q →
            (∀ sub, subProxies (handler q) !! pr = Some sub →
               ∃ c t' d', proxies s' !! sub = Some c
                 ∧ proxyTarget (reflectGet (target q) pr) = Some (target c)
                 ∧ subProxyKind (handler q) pr (reflectGet (target q) pr) = Some (t', d')
                 ∧ type (handler c) = t' ∧ definition (handler c) = d'
                 ∧ localization (handler c) = localization (handler q))) as Hentries.
  { intros i q pr Hq sub Hsub.
    destruct (Hwf i q Hq) as (_ & _ & Hcache).
    destruct (Hcache pr sub Hsub) as (c & t' & d' & Hc' & Ht & Hkind & <- & <- & Hloc).
    destruct (Hold sub c Hc') as (c' & Hc'' & Htgt & Hty & Hdef & Hl & _).
    exists c', (type (handler c)), (definition (handler c)).
    split_and!; try done; congruence. }
  intros i q. rewrite made_lookup.
  destruct (decide (i = self)) as [->|Hne]; [|destruct (decide (i = n)) as [->|Hn]].
  - intros [= <-]. destruct (Hwf self p Hp) as (Hl & Htab & _).
    split_and!; [done|done|]. simpl. intros pr sub.
    destruct (decide (prop = pr)) as [<-|Hpr].
    + rewrite lookup_insert_eq. intros [= <-].
      exists cell, t, d. split_and!; try done. apply made_new.
    + rewrite lookup_insert_ne by done. by apply (Hentries self p).
  - intros [= <-]. destruct (Hwf self p Hp) as (Hl & _ & _).
    split_and!; [done|done|]. simpl. intros pr sub. by rewrite lookup_empty.
  - intros Hq. destruct (Hwf i q Hq) as (Hl & Htab & _).
    split_and!; [done|done|]. intros pr sub. by apply (Hentries i q).
Qed.
End MakeProxy.

(** What a read does, depending only on the kind of the handler and on the
    value of the property, cached or not. *)
Lemma get_spec self prop s p :
  wf s → proxies s !! self = Some p →
  let value := reflectGet (target p) prop in
  match subProxyKind (handler p) prop value with
  | Some (t, d) =>
      match proxyTarget value with
      | Some o =>
          ∃ (sub : nat) s' p' c,
            get self prop s = Returned (Proxied sub) s'
            ∧ wf s' ∧ laterStore s s' ∧ localizations s' = localizations s
            ∧ proxies s' !! self = Some p' ∧ subProxies (handler p') !! prop = Some sub
            ∧ proxies s' !! sub = Some c
            ∧ target c = o ∧ type (handler c) = t ∧ definition (handler c) = d
            ∧ localization (handler c) = localization (handler p)
      | None => get self prop s = TypeError
      end
  | None =>
      ∃ l, localizations s !! localization (handler p) = Some l
           ∧ get self prop s
             = Returned (Plain (if localizes (handler p) prop value
                                then localize l value else value)) s
  end.
Proof.
  intros Hwf Hp. cbv zeta.
  destruct (Hwf self p Hp) as ([l Hl] & Htab & Hcache).
  destruct (subProxies (handler p) !! prop) as [sub|] eqn:Hsub.
  - destruct (Hcache prop sub Hsub) as (c & t & d & Hc & Ho & Hk & Ht & Hd & Hloc).
    rewrite Hk, Ho. exists sub, s, p, c.
    split_and!; try done; [|apply laterStore_refl].
    unfold Proxy.get. by rewrite Hp, Hsub.
  - rewrite (get_uncached self prop s p Hp Hsub). cbv zeta.
    destruct (subProxyKind (handler p) prop (reflectGet (target p) prop)) as [[t d]|] eqn:Hk.
    + destruct (proxyTarget (reflectGet (target p) prop)) as [o|] eqn:Ho.
      * rewrite (makeProxy_Some _ _ _ _ _ _ p o Hp Ho).
        eexists _, _, _, _. split; [done|].
        split_and!.
        -- by apply made_wf.
        -- by apply made_later.
        -- done.
        -- rewrite made_lookup by done. by rewrite decide_True.
        -- simpl. by rewrite lookup_insert_eq.
        -- by apply made_new.
        -- done.
        -- done.
        -- done.
        -- done.
      * by apply makeProxy_None with p.
    + exists l. split; [done|]. rewrite Hl. by destruct (localizes _ _ _).
Qed.

Lemma newProxy_spec object loc t d s :
  wf s → is_Some (localizations s !! loc) →
  wf (newProxy object loc t d s).2
  ∧ laterStore s (newProxy object loc t d s).2
  ∧ localizations (newProxy object loc t d s).2 = localizations s
  ∧ proxies (newProxy object loc t d s).2 !! (newProxy object loc t d s).1
    = Some (mkProxyObject object (newHandler loc t d)).
Proof.
  intros Hwf Hloc. unfold newProxy. simpl.
  assert (laterStore s
            (mkStore (localizations s)
               (proxies s ++ [mkProxyObject object (newHandler loc t d)]))) as Hlater.
  { intros i p Hp. exists p. split; [|apply laterProxy_refl]. simpl.
    by apply lookup_app_l_Some. }
  split_and!; [|done|done|by rewrite list_lookup_middle].
  intros i p [[Hi Hp]|[-> <-]]%lookup_snoc_Some.
  - destruct (Hwf i p Hp) as (Hl & Htab & Hcache). split_and!; [done|done|].
    intros prop sub Hsub.
    destruct (Hcache prop sub Hsub) as (c & t' & d' & Hc & ?).
    exists c, t', d'. split; [|done]. simpl. by apply lookup_app_l_Some.
  - split_and!; [done|done|]. simpl. intros prop sub. by rewrite lookup_empty.
Qed.

Lemma wf_localizations s ls' :
  wf s → length (localizations s) ≤ length ls' →
  wf (mkStore ls' (proxies s)) ∧ laterStore s (mkStore ls' (proxies s)).
Proof.
  intros Hwf Hlen. split.
  - intros i p Hp. destruct (Hwf i p Hp) as (Hl & Htab & Hcache).
    split_and!; [|done|done]. simpl.
    apply lookup_lt_is_Some in Hl. apply lookup_lt_is_Some. lia.
  - intros i p Hp. exists p. split; [done|apply laterProxy_refl].
Qed.

Lemma LocalizeProperties_spec object loc def s :
  wf s → is_Some (localizations s !! loc) →
  let made := LocalizeProperties hasProperty object loc def s in
  wf made.2 ∧ laterStore s made.2 ∧ localizations made.2 = localizations s
  ∧ ∃ p, proxies made.2 !! made.1 = Some p ∧ target p = object
         ∧ localization (handler p) = loc
         ∧ definition (handler p) = OfObject <$> def
         ∧ type (handler p)
           = if hasProperty object (StringKey "Type") then ArticyObject
             else if hasProperty object (StringKey "Id") then ArticyObjectProperties
             else ArticyObjectTemplate.
Proof.
  intros Hwf Hloc. cbv zeta. unfold LocalizeProperties.
  destruct (hasProperty object (StringKey "Type"));
    [|destruct (hasProperty object (StringKey "Id"))].
  all: match goal with
       | |- context [newProxy ?o ?l ?t ?d ?s0] =>
           destruct (newProxy_spec o l t d s0 Hwf Hloc) as (? & ? & ? & Hnew)
       end.
  all: split_and!; try done; eexists; split; [exact Hnew|done].
Qed.

Lemma LocalizeDefinition_spec object loc s :
  wf s → is_Some (localizations s !! loc) →
  let made := LocalizeDefinition hasProperty object loc s in
  wf made.2 ∧ laterStore s made.2 ∧ localizations made.2 = localizations s
  ∧ ∃ p, proxies made.2 !! made.1 = Some p ∧ target p = object
         ∧ localization (handler p) = loc
         ∧ type (handler p)
           = if hasProperty object (StringKey "DisplayNames") then EnumDefinition
             else Definition_.
Proof.
  intros Hwf Hloc. cbv zeta. unfold LocalizeDefinition.
  destruct (hasProperty object (StringKey "DisplayNames")).
  all: match goal with
       | |- context [newProxy ?o ?l ?t ?d ?s0] =>
           destruct (newProxy_spec o l t d s0 Hwf Hloc) as (? & ? & ? & Hnew)
       end.
  all: split_and!; try done; eexists; split; [exact Hnew|done].
Qed.

Lemma get_keeps_wf self prop s :
  wf s →
  match get self prop s with
  | Returned r s' =>
      wf s' ∧ laterStore s s' ∧ localizations s' = localizations s
      ∧ match r with
        | Proxied sub => is_Some (proxies s' !! sub)
        | Plain _ => s' = s
        end
  | TypeError => is_Some (proxies s !! self)
  | Dangling => proxies s !! self = None
  end.
Proof.
  intros Hwf. destruct (proxies s !! self) as [p|] eqn:Hp.
  - pose proof (get_spec self prop s p Hwf Hp) as H. cbv zeta in H.
    destruct (subProxyKind _ _ _) as [[t d]|].
    + destruct (proxyTarget _) as [o|].
      * destruct H as (sub & s' & p' & c & -> & ? & ? & ? & ? & ? & ? & _).
        split_and!; eauto.
      * rewrite H. eauto.
    + destruct H as (l & _ & ->). split_and!; [done|apply laterStore_refl|done|done].
  - unfold Proxy.get. by rewrite Hp.
Qed.

(** X9. The store stays well formed under every operation: a read through a
    proxy (which never finds a reference dangling, and changes the store
    only by adding a sub-proxy and caching it), the creation of a proxy by
    [LocalizeProperties] or [LocalizeDefinition], and any change to the
    [Localization] objects.  Proxies are never removed or retargeted. *)
Theorem store_stays_well_formed s :
  wf s →
  (∀ self prop,
     match get self prop s with
     | Returned r s' =>
         wf s' ∧ laterStore s s' ∧ localizations s' = localizations s
         ∧ match r with
           | Proxied sub => is_Some (proxies s' !! sub)
           | Plain _ => s' = s
           end
     | TypeError => is_Some (proxies s !! self)
     | Dangling => proxies s !! self = None
     end)
  ∧ (∀ object loc definition, is_Some (localizations s !! loc) →
       let made := LocalizeProperties hasProperty object loc definition s in
       wf made.2 ∧ laterStore s made.2
       ∧ ∃ p, proxies made.2 !! made.1 = Some p ∧ target p = object
              ∧ localization (handler p) = loc)
  ∧ (∀ object loc, is_Some (localizations s !! loc) →
       let made := LocalizeDefinition hasProperty object loc s in
       wf made.2 ∧ laterStore s made.2
       ∧ ∃ p, proxies made.2 !! made.1 = Some p ∧ target p = object
              ∧ localization (handler p) = loc)
  ∧ (∀ ls', length (localizations s) ≤ length ls' →
       wf (mkStore ls' (proxies s)) ∧ laterStore s (mkStore ls' (proxies s))).
Proof.
  intros Hwf. split_and!.
  - intros self prop. by apply get_keeps_wf.
  - intros object loc definition Hloc.
    destruct (LocalizeProperties_spec object loc definition s Hwf Hloc)
      as (? & ? & _ & p & ? & ? & ? & _).
    split_and!; eauto.
  - intros object loc Hloc.
    destruct (LocalizeDefinition_spec object loc s Hwf Hloc)
      as (? & ? & _ & p & ? & ? & ? & _).
    split_and!; eauto.
  - intros ls'. by apply wf_localizations.
Qed.

Lemma get_Proxied_cached self prop s sub s1 :
  get self prop s = Returned (Proxied sub) s1 →
  ∃ p1, proxies s1 !! self = Some p1 ∧ subProxies (handler p1) !! prop = Some sub.
Proof.
  destruct (proxies s !! self) as [p|] eqn:Hp; [|unfold Proxy.get; by rewrite Hp].
  destruct (subProxies (handler p) !! prop) as [c|] eqn:Hc.
  - unfold Proxy.get. rewrite Hp, Hc. intros [= <- <-]. eauto.
  - rewrite (get_uncached self prop s p Hp Hc). cbv zeta.
    destruct (subProxyKind _ _ _) as [[t d]|].
    + destruct (proxyTarget (reflectGet (target p) prop)) as [o|] eqn:Ho.
      * rewrite (makeProxy_Some _ _ _ _ _ _ p o Hp Ho). intros [= <- <-]. simpl.
        pose proof (lookup_lt_Some _ _ _ Hp).
        eexists. rewrite list_lookup_alter_eq, lookup_app_l, Hp by done.
        split; [done|]. simpl. by rewrite lookup_insert_eq.
      * by rewrite (makeProxy_None _ _ _ _ _ _ p Hp Ho).
    + destruct (localizes _ _ _); [|done].
      by destruct (localizations s !! localization (handler p)).
Qed.

(** X10. Once a read has answered with a sub-proxy, every later read of the same
    property through the same proxy answers with that very sub-proxy, and
    changes nothing. *)
Theorem sub_proxy_is_stable self prop s sub s1 s2 :
  get self prop s = Returned (Proxied sub) s1 →
  laterStore s1 s2 →
  get self prop s2 = Returned (Proxied sub) s2.
Proof.
  intros Hget Hlater.
  destruct (get_Proxied_cached _ _ _ _ _ Hget) as (p1 & Hp1 & Hc1).
  destruct (Hlater self p1 Hp1) as (p2 & Hp2 & _ & _ & _ & _ & _ & Hsub).
  unfold Proxy.get. rewrite Hp2.
  by rewrite (lookup_weaken _ _ _ _ Hc1 Hsub).
Qed.


(** *** The tables the constructor computes *)

Lemma features_table (features : list FeatureDefinition) name :
  foldl (λ m feature, <[TechnicalName feature := Some feature]> m)
    (∅ : gmap string (option FeatureDefinition)) features !! name
  = Some <$> last (filter (λ feature, TechnicalName feature = name) features).
Proof.
  induction features as [|f features IH] using rev_ind; [done|].
  rewrite foldl_snoc, filter_app, filter_cons, filter_nil.
  destruct (decide (TechnicalName f = name)) as [<-|Hne].
  - by rewrite lookup_insert_eq, last_snoc.
  - rewrite lookup_insert_ne by done. by rewrite app_nil_r.
Qed.

Lemma localizableProperties_lookup properties name :
  localizableProperties properties !! name
  = if decide (name ∈ Property <$> filter (λ pd, Localizable pd = true) properties)
    then Some None else None.
Proof.
  unfold localizableProperties.
  induction (filter _ properties) as [|pd l IH] using rev_ind; [done|].
  rewrite foldl_snoc, fmap_app. simpl.
  destruct (decide (Property pd = name)) as [<-|Hne].
  - rewrite lookup_insert_eq, decide_True; [done|]. apply elem_of_app. right. by left.
  - rewrite lookup_insert_ne, IH by done.
    destruct (decide (name ∈ Property <$> l)) as [Hin|Hnin].
    + rewrite decide_True; [done|]. apply elem_of_app. by left.
    + rewrite decide_False; [done|].
      intros [?|Hx%list_elem_of_singleton]%elem_of_app; [done|congruence].
Qed.

(** *** What the proxies answer *)

Lemma later_proxy_at s1 s2 q c :
  laterStore s1 s2 → proxies s1 !! q = Some c →
  ∃ c', proxies s2 !! q = Some c' ∧ laterProxy c c'.
Proof. intros H. apply H. Qed.

(** A proxy that answers no property with a sub-proxy answers every read
    with a plain value. *)
Lemma get_plain s q c prop l :
  wf s → proxies s !! q = Some c →
  subProxyKind (handler c) prop (reflectGet (target c) prop) = None →
  localizations s !! localization (handler c) = Some l →
  get q prop s
  = Returned (Plain (if localizes (handler c) prop (reflectGet (target c) prop)
                     then localize l (reflectGet (target c) prop)
                     else reflectGet (target c) prop)) s.
Proof.
  intros Hwf Hc Hk Hl.
  pose proof (get_spec q prop s c Hwf Hc) as H. cbv zeta in H. rewrite Hk in H.
  destruct H as (l' & Hl' & ->). by simplify_eq.
Qed.

Lemma get_sub s root p prop o t d :
  wf s → proxies s !! root = Some p →
  subProxyKind (handler p) prop (reflectGet (target p) prop) = Some (t, d) →
  proxyTarget (reflectGet (target p) prop) = Some o →
  ∃ sub s1 c,
    get root prop s = Returned (Proxied sub) s1
    ∧ wf s1 ∧ laterStore s s1 ∧ localizations s1 = localizations s
    ∧ proxies s1 !! sub = Some c
    ∧ target c = o ∧ type (handler c) = t ∧ definition (handler c) = d
    ∧ localization (handler c) = localization (handler p).
Proof.
  intros Hwf Hp Hk Ho.
  pose proof (get_spec root prop s p Hwf Hp) as H. cbv zeta in H. rewrite Hk, Ho in H.
  destruct H as (sub & s1 & p' & c & ? & ? & ? & ? & ? & ? & ? & ? & ? & ? & ?).
  exists sub, s1, c. by split_and!.
Qed.

(** X11. [object.Properties.name], read through the proxy of an object, is the
    localization of the stored value for the names [Text], [DisplayName] and
    [StageDirections], in the language that is active when it is read, and
    the stored value for every other name, whatever the definition of the
    object marks as localizable. *)
Theorem object_properties_are_localized s root p props :
  wf s → proxies s !! root = Some p → type (handler p) = ArticyObject →
  proxyTarget (reflectGet (target p) (StringKey "Properties")) = Some props →
  ∃ q s1,
    get root (StringKey "Properties") s = Returned (Proxied q) s1
    ∧ ∀ s2 l, wf s2 → laterStore s1 s2 →
        localizations s2 !! localization (handler p) = Some l →
        ∀ name,
          get q name s2
          = Returned
              (Plain (match name with
                      | StringKey n =>
                          if decide (n ∈ AutoLocalizedProperties)
                          then localize l (reflectGet props name)
                          else reflectGet props name
                      | SymbolKey _ => reflectGet props name
                      end)) s2.
Proof.
  intros Hwf Hp Ht Ho.
  destruct (get_sub s root p (StringKey "Properties") props ArticyObjectProperties
              (definition (handler p)) Hwf Hp) as (q & s1 & c & Hget & Hwf1 & Hl1 & _ & Hc & Htc & Hty & _ & Hloc);
    [by unfold subProxyKind; rewrite Ht|done|].
  exists q, s1. split; [done|]. intros s2 l Hwf2 Hl2 Hloc2 name.
  destruct (later_proxy_at _ _ _ _ Hl2 Hc) as (c2 & Hc2 & Htgt & Hty2 & _ & Hloc' & _).
  rewrite (get_plain s2 q c2 name l Hwf2 Hc2).
  - unfold localizes. rewrite Hty2, Hty, Htgt, Htc.
    destruct name as [n|]; [|done]. by case_bool_decide; case_decide.
  - unfold subProxyKind. by rewrite Hty2, Hty.
  - congruence.
Qed.

(** X12. [enumDefinition.DisplayNames.key], read through the proxy of an enum
    definition, is the localization of the stored value for every key, in
    the language that is active when it is read; the other properties of the
    definition are read as stored. *)
Theorem enum_display_names_are_localized s root p names :
  wf s → proxies s !! root = Some p → type (handler p) = EnumDefinition →
  proxyTarget (reflectGet (target p) (StringKey "DisplayNames")) = Some names →
  ∃ q s1,
    get root (StringKey "DisplayNames") s = Returned (Proxied q) s1
    ∧ (∀ s2 l, wf s2 → laterStore s1 s2 →
         localizations s2 !! localization (handler p) = Some l →
         ∀ key, get q key s2 = Returned (Plain (localize l (reflectGet names key))) s2)
    ∧ ∀ s2 prop, wf s2 → laterStore s s2 → prop ≠ StringKey "DisplayNames" →
        get root prop s2 = Returned (Plain (reflectGet (target p) prop)) s2.
Proof.
  intros Hwf Hp Ht Ho.
  destruct (get_sub s root p (StringKey "DisplayNames") names EnumValues None Hwf Hp)
    as (q & s1 & c & Hget & Hwf1 & Hl1 & _ & Hc & Htc & Hty & _ & Hloc);
    [by unfold subProxyKind; rewrite Ht|done|].
  exists q, s1. split_and!; [done| |].
  - intros s2 l Hwf2 Hl2 Hloc2 key.
    destruct (later_proxy_at _ _ _ _ Hl2 Hc) as (c2 & Hc2 & Htgt & Hty2 & _ & Hloc' & _).
    rewrite (get_plain s2 q c2 key l Hwf2 Hc2).
    + unfold localizes. by rewrite Hty2, Hty, Htgt, Htc.
    + unfold subProxyKind. by rewrite Hty2, Hty.
    + congruence.
  - intros s2 prop Hwf2 Hl2 Hne.
    destruct (later_proxy_at _ _ _ _ Hl2 Hp) as (p2 & Hp2 & Htgt & Hty2 & _ & Hloc' & _).
    destruct (Hwf2 root p2 Hp2) as ([l Hl] & _ & _).
    rewrite (get_plain s2 root p2 prop l Hwf2 Hp2 ltac:(by unfold subProxyKind; rewrite Hty2, Ht, decide_False) Hl).
    unfold localizes. by rewrite Hty2, Ht, Htgt.
Qed.

(** X13. [object.Template.feature.name], read through the proxy of an object
    whose definition has a template: a [feature] that the template does not
    define is read as stored; one that it defines is wrapped (and throws if
    the object does not hold an object for it), and in it exactly the
    properties that the feature definition marks [Localizable] are
    localized.  When two features of the template have the same name, the
    later definition counts. *)
Theorem template_features_are_localized s root p d features tmpl :
  wf s → proxies s !! root = Some p → type (handler p) = ArticyObject →
  definition (handler p) = Some (OfObject d) → Template d = Some features →
  proxyTarget (reflectGet (target p) (StringKey "Template")) = Some tmpl →
  ∃ q s1,
    get root (StringKey "Template") s = Returned (Proxied q) s1
    ∧ ∀ s2 feature, wf s2 → laterStore s1 s2 →
        match last (filter (λ f, TechnicalName f = feature) features) with
        | None =>
            get q (StringKey feature) s2
            = Returned (Plain (reflectGet tmpl (StringKey feature))) s2
        | Some f =>
            match proxyTarget (reflectGet tmpl (StringKey feature)) with
            | None => get q (StringKey feature) s2 = TypeError
            | Some values =>
                ∃ r s3,
                  get q (StringKey feature) s2 = Returned (Proxied r) s3
                  ∧ ∀ s4 l, wf s4 → laterStore s3 s4 →
                      localizations s4 !! localization (handler p) = Some l →
                      ∀ name,
                        get r name s4
                        = Returned
                            (Plain (match name with
                                    | StringKey n =>
                                        if decide (n ∈ Property <$>
                                                     filter (λ pd, Localizable pd = true)
                                                       (feature_Properties f))
                                        then localize l (reflectGet values name)
                                        else reflectGet values name
                                    | SymbolKey _ => reflectGet values name
                                    end)) s4
            end
        end.
Proof.
  intros Hwf Hp Ht Hd Hf Ho.
  destruct (get_sub s root p (StringKey "Template") tmpl ArticyObjectTemplate
              (definition (handler p)) Hwf Hp)
    as (q & s1 & c & Hget & Hwf1 & Hl1 & _ & Hc & Htc & Hty & Hdef & Hloc);
    [by unfold subProxyKind; rewrite Ht|done|].
  exists q, s1. split; [done|]. intros s2 feature Hwf2 Hl2.
  destruct (later_proxy_at _ _ _ _ Hl2 Hc) as (c2 & Hc2 & Htgt & Hty2 & Hdef2 & Hloc2 & _).
  destruct (Hwf2 q c2 Hc2) as ([l2 Hl] & Htab & _).
  assert (localizedProperties (handler c2) !! feature
          = Some <$> last (filter (λ f, TechnicalName f = feature) features)) as Hlook.
  { rewrite Htab, Hdef2, Hdef, Hd. simpl. rewrite Hf. apply features_table. }
  destruct (last (filter _ features)) as [f|] eqn:Hlast.
  - assert (subProxyKind (handler c2) (StringKey feature)
              (reflectGet (target c2) (StringKey feature))
            = Some (ArticyObjectFeature, Some (OfFeature f))) as Hk.
    { unfold subProxyKind. by rewrite Hty2, Hty, Hlook. }
    rewrite <- Htc, <- Htgt.
    destruct (proxyTarget (reflectGet (target c2) (StringKey feature))) as [values|] eqn:Hv.
    + destruct (get_sub s2 q c2 (StringKey feature) values _ _ Hwf2 Hc2 Hk Hv)
        as (r & s3 & cr & Hgetr & Hwf3 & Hl3 & _ & Hcr & Htr & Htyr & Hdefr & Hlocr).
      exists r, s3. split; [done|]. intros s4 l Hwf4 Hl4 Hloc4 name.
      destruct (later_proxy_at _ _ _ _ Hl4 Hcr)
        as (c4 & Hc4 & Htgt4 & Hty4 & Hdef4 & Hloc4' & _).
      destruct (Hwf4 r c4 Hc4) as (_ & Htab4 & _).
      rewrite (get_plain s4 r c4 name l Hwf4 Hc4).
      * unfold localizes. rewrite Hty4, Htyr, Htgt4, Htr.
        destruct name as [n|]; [|done].
        rewrite Htab4, Hdef4, Hdefr. simpl. rewrite localizableProperties_lookup.
        destruct (decide (n ∈ _)) as [Hin|Hnin].
        -- by rewrite bool_decide_true by eauto.
        -- rewrite bool_decide_false; [done|]. by intros [? ?].
      * unfold subProxyKind. by rewrite Hty4, Htyr.
      * congruence.
    + pose proof (get_spec q (StringKey feature) s2 c2 Hwf2 Hc2) as H.
      cbv zeta in H. by rewrite Hk, Hv in H.
  - rewrite (get_plain s2 q c2 (StringKey feature) l2 Hwf2 Hc2).
    + unfold localizes. by rewrite Hty2, Hty, Htgt, Htc.
    + unfold subProxyKind. by rewrite Hty2, Hty, Hlook.
    + done.
Qed.

Lemma readsTo_later self path s last s' :
  wf s → readsTo reflectGet self path s last s' → wf s' ∧ laterStore s s'.
Proof.
  intros Hwf H. induction H as [self s|self prop path s sub s1 last s' Hget _ IH].
  - split; [done|apply laterStore_refl].
  - pose proof (get_keeps_wf self prop s Hwf) as Hk. rewrite Hget in Hk.
    destruct Hk as (Hwf1 & Hl1 & _). destruct (IH Hwf1) as [? ?].
    split; [done|]. by eapply laterStore_trans.
Qed.

(** X14. A definition is localized in depth: along every path of the definition
    on which each property holds an object, the reads through the proxy of
    the definition are each answered with a proxy, and the last of them
    wraps the object at the end of the path; read through it, a string
    that starts with [$] is localized in the language that is active then,
    and any other string is returned as stored. *)
Theorem definition_is_localized_in_depth path : ∀ s root p o,
  wf s → proxies s !! root = Some p → type (handler p) = Definition_ →
  descend reflectGet (target p) path = Some o →
  ∃ q s1,
    readsTo reflectGet root path s q s1
    ∧ ∀ s2 l, wf s2 → laterStore s1 s2 →
        localizations s2 !! localization (handler p) = Some l →
        ∀ prop str, reflectGet o prop = VString str →
          get q prop s2
          = Returned (Plain (if String.prefix "$" str
                             then localize l (VString str) else VString str)) s2.
Proof.
  induction path as [|prop path IH]; intros s root p o Hwf Hp Ht Hpath.
  - simpl in Hpath. injection Hpath as <-.
    exists root, s. split; [constructor|].
    intros s2 l Hwf2 Hl2 Hloc2 prop str Hstr.
    destruct (later_proxy_at _ _ _ _ Hl2 Hp) as (p2 & Hp2 & Htgt & Hty2 & _ & Hloc' & _).
    rewrite (get_plain s2 root p2 prop l Hwf2 Hp2).
    + unfold localizes. by rewrite Hty2, Ht, Htgt, Hstr.
    + unfold subProxyKind. by rewrite Hty2, Ht, Htgt, Hstr.
    + congruence.
  - simpl in Hpath.
    destruct (reflectGet (target p) prop) as [| | | |o'|] eqn:Hv; try done.
    destruct (get_sub s root p prop o' Definition_ None Hwf Hp)
      as (sub & s1 & c & Hget & Hwf1 & Hl1 & _ & Hc & Htc & Hty & _ & Hloc);
      [by unfold subProxyKind; rewrite Ht, Hv|by rewrite Hv|].
    destruct (IH s1 sub c o Hwf1 Hc Hty ltac:(by rewrite Htc)) as (q & s2 & Hreads & Hleaf).
    exists q, s2. split; [by econstructor|].
    intros s3 l Hwf3 Hl3 Hloc3. apply Hleaf; [done|done|congruence].
Qed.

Local Ltac settle :=
  first [ done | by intros [? ?] | by eauto | by intros [|] | by intros (?&?&?&?&_) ].

(** X15. A read through a proxy throws exactly when a property that calls for a
    sub-proxy holds no object: [DisplayNames] of an enum definition,
    [Properties] and [Template] of an object, a feature of the template that
    the definition defines, and, in a definition, a property that is
    [null]. *)
Theorem get_throws_only_without_an_object s self p prop :
  wf s → proxies s !! self = Some p →
  let value := reflectGet (target p) prop in
  get self prop s = TypeError
  ↔ proxyTarget value = None
    ∧ match type (handler p) with
      | EnumDefinition => prop = StringKey "DisplayNames"
      | ArticyObject => prop = StringKey "Properties" ∨ prop = StringKey "Template"
      | ArticyObjectTemplate =>
          ∃ name d features,
            prop = StringKey name ∧ definition (handler p) = Some (OfObject d)
            ∧ Template d = Some features ∧ name ∈ TechnicalName <$> features
      | Definition_ => value = VNull
      | _ => False
      end.
Proof.
  intros Hwf Hp. cbv zeta.
  pose proof (get_spec self prop s p Hwf Hp) as H. cbv zeta in H.
  destruct (Hwf self p Hp) as (_ & Htab & _).
  assert (get self prop s = TypeError
          ↔ proxyTarget (reflectGet (target p) prop) = None
            ∧ is_Some (subProxyKind (handler p) prop (reflectGet (target p) prop))) as ->.
  { destruct (subProxyKind _ _ _) as [[t d]|].
    - destruct (proxyTarget _) as [o|].
      + destruct H as (sub & s' & p' & c & -> & _). split; [done|by intros [? _]].
      + split; [eauto|done].
    - destruct H as (l & _ & ->). split; [done|]. by intros [_ [? ?]]. }
  match goal with
  | |- ?A ∧ ?B ↔ ?A ∧ ?C => assert (A → (B ↔ C)) as Hx; [intros Hnone|tauto]
  end.
  unfold subProxyKind.
  destruct (type (handler p)) eqn:Ht.
  - case_decide; split; settle.
  - split; settle.
  - destruct (reflectGet (target p) prop); simpl in Hnone; split; settle.
  - repeat case_decide; split; settle.
  - split; settle.
  - destruct prop as [name|k]; [|split; settle].
    rewrite Htab. unfold newHandler. simpl.
    destruct (definition (handler p)) as [[d|f]|] eqn:Hd.
    + destruct (Template d) as [features|] eqn:Hf.
      * rewrite features_table.
        destruct (last (filter _ features)) as [f|] eqn:Hlast; simpl.
        -- split; [intros _|eauto]. exists name, d, features. split_and!; try done.
           apply last_Some in Hlast as [l' Hl'].
           assert (f ∈ filter (λ f, TechnicalName f = name) features) as Hin.
           { rewrite Hl'. apply elem_of_app. right. by left. }
           apply list_elem_of_filter in Hin as [<- Hin].
           by apply list_elem_of_fmap_2.
        -- split; [by intros [? ?]|]. intros (n & d' & fs & [= <-] & [= <-] & Hfs & Hin).
           rewrite Hf in Hfs. injection Hfs as <-.
           apply list_elem_of_fmap in Hin as (f & Hn & Hin).
           apply last_None in Hlast.
           assert (f ∈ filter (λ f, TechnicalName f = name) features) as Hx
             by by apply list_elem_of_filter.
           rewrite Hlast in Hx. by apply elem_of_nil in Hx.
      * split.
        -- destruct (Properties d) as [props|]; [|by intros [? ?]].
           rewrite localizableProperties_lookup. case_decide; by intros [? ?].
        -- intros (n & d' & fs & _ & [= <-] & Hfs & _). congruence.
    + split.
      * rewrite localizableProperties_lookup. case_decide; by intros [? ?].
      * by intros (n & d' & fs & _ & ? & _).
    + split; [by intros [? ?]|]. by intros (n & d' & fs & _ & ? & _).
  - split; [by intros [? ?]|done].
Qed.
End ProxyFacts.

(** *** The example store *)

Lemma exampleStore_wf : wellFormed jsonGet exampleStore.
Proof. intros i p H. simpl in H. by rewrite lookup_nil in H. Defined.

Lemma exampleStore_loc : is_Some (Proxy.localizations exampleStore !! 0).
Proof. by eexists. Defined.

Lemma exampleObjectStore_wf : wellFormed jsonGet exampleObjectStore.2.
Proof.
  apply (LocalizeProperties_spec jsonGet jsonHas exampleObject 0
           (Some exampleObjectDefinition) exampleStore exampleStore_wf exampleStore_loc).
Defined.

Lemma exampleEnumStore_wf : wellFormed jsonGet exampleEnumStore.2.
Proof.
  apply (LocalizeDefinition_spec jsonGet jsonHas exampleEnum 0
           exampleStore exampleStore_wf exampleStore_loc).
Defined.

Lemma exampleDefinitionStore_wf : wellFormed jsonGet exampleDefinitionStore.2.
Proof.
  apply (LocalizeDefinition_spec jsonGet jsonHas exampleTypeDefinition 0
           exampleStore exampleStore_wf exampleStore_loc).
Defined.

Lemma store_stays_well_formed_witness :
  wellFormed jsonGet exampleStore
  ∧ wellFormed jsonGet
      (Proxy.LocalizeProperties jsonHas exampleObject 0 (Some exampleObjectDefinition)
         exampleStore).2.
Proof.
  split; [exact exampleStore_wf|].
  exact (proj1 (proj1 (proj2 (store_stays_well_formed jsonGet jsonHas exampleStore
                                exampleStore_wf))
                  exampleObject 0 (Some exampleObjectDefinition) exampleStore_loc)).
Defined.

Section ProxyExamples.
Import Proxy.

Lemma sub_proxy_is_stable_witness :
  ∃ s1,
    Proxy.get jsonGet 0 (StringKey "Properties") exampleObjectStore.2
    = Returned (Proxied 1) s1
    ∧ laterStore s1 s1
    ∧ Proxy.get jsonGet 0 (StringKey "Properties") s1 = Returned (Proxied 1) s1.
Proof.
  eexists. split; [vm_compute; reflexivity|]. split; [apply laterStore_refl|].
  eapply (sub_proxy_is_stable jsonGet 0 (StringKey "Properties") exampleObjectStore.2);
    [vm_compute; reflexivity|apply laterStore_refl].
Defined.

Lemma object_properties_are_localized_witness :
  wellFormed jsonGet exampleObjectStore.2
  ∧ proxies exampleObjectStore.2 !! 0 = Some exampleObjectProxy
  ∧ type (handler exampleObjectProxy) = ArticyObject
  ∧ proxyTarget (jsonGet (target exampleObjectProxy) (StringKey "Properties"))
    = Some exampleProperties
  ∧ ∃ q s1,
      Proxy.get jsonGet 0 (StringKey "Properties") exampleObjectStore.2
      = Returned (Proxied q) s1
      ∧ ∀ s2 l, wellFormed jsonGet s2 → laterStore s1 s2 →
          localizations s2 !! localization (handler exampleObjectProxy) = Some l →
          ∀ name,
            Proxy.get jsonGet q name s2
            = Returned
                (Plain (match name with
                        | StringKey n =>
                            if decide (n ∈ AutoLocalizedProperties)
                            then localize l (jsonGet exampleProperties name)
                            else jsonGet exampleProperties name
                        | SymbolKey _ => jsonGet exampleProperties name
                        end)) s2.
Proof.
  split; [exact exampleObjectStore_wf|].
  split; [reflexivity|]. split; [reflexivity|]. split; [reflexivity|].
  exact (object_properties_are_localized jsonGet exampleObjectStore.2 0
           exampleObjectProxy exampleProperties exampleObjectStore_wf
           eq_refl eq_refl eq_refl).
Defined.

Lemma enum_display_names_are_localized_witness :
  wellFormed jsonGet exampleEnumStore.2
  ∧ proxies exampleEnumStore.2 !! 0 = Some exampleEnumProxy
  ∧ type (handler exampleEnumProxy) = EnumDefinition
  ∧ proxyTarget (jsonGet (target exampleEnumProxy) (StringKey "DisplayNames"))
    = Some exampleDisplayNames
  ∧ ∃ q s1,
      Proxy.get jsonGet 0 (StringKey "DisplayNames") exampleEnumStore.2
      = Returned (Proxied q) s1
      ∧ (∀ s2 l, wellFormed jsonGet s2 → laterStore s1 s2 →
           localizations s2 !! localization (handler exampleEnumProxy) = Some l →
           ∀ key, Proxy.get jsonGet q key s2
                  = Returned (Plain (localize l (jsonGet exampleDisplayNames key))) s2)
      ∧ ∀ s2 prop, wellFormed jsonGet s2 → laterStore exampleEnumStore.2 s2 →
          prop ≠ StringKey "DisplayNames" →
          Proxy.get jsonGet 0 prop s2
          = Returned (Plain (jsonGet (target exampleEnumProxy) prop)) s2.
Proof.
  split; [exact exampleEnumStore_wf|].
  split; [reflexivity|]. split; [reflexivity|]. split; [reflexivity|].
  exact (enum_display_names_are_localized jsonGet exampleEnumStore.2 0
           exampleEnumProxy exampleDisplayNames exampleEnumStore_wf
           eq_refl eq_refl eq_refl).
Defined.

Lemma template_features_are_localized_witness :
  wellFormed jsonGet exampleObjectStore.2
  ∧ proxies exampleObjectStore.2 !! 0 = Some exampleObjectProxy
  ∧ type (handler exampleObjectProxy) = ArticyObject
  ∧ definition (handler exampleObjectProxy) = Some (OfObject exampleObjectDefinition)
  ∧ Template exampleObjectDefinition
    = Some [mkFeatureDefinition "Mood"
              [mkPropertyDefinition "Label" true; mkPropertyDefinition "Level" false]]
  ∧ proxyTarget (jsonGet (target exampleObjectProxy) (StringKey "Template"))
    = Some exampleTemplate
  ∧ ∃ q s1,
      Proxy.get jsonGet 0 (StringKey "Template") exampleObjectStore.2
      = Returned (Proxied q) s1.
Proof.
  split; [exact exampleObjectStore_wf|].
  split; [reflexivity|]. split; [reflexivity|]. split; [reflexivity|].
  split; [reflexivity|]. split; [reflexivity|].
  destruct (template_features_are_localized jsonGet exampleObjectStore.2 0
              exampleObjectProxy exampleObjectDefinition
              [mkFeatureDefinition "Mood"
                 [mkPropertyDefinition "Label" true; mkPropertyDefinition "Level" false]]
              exampleTemplate exampleObjectStore_wf
              eq_refl eq_refl eq_refl eq_refl eq_refl) as (q & s1 & Hget & _).
  by exists q, s1.
Defined.

Lemma definition_is_localized_in_depth_witness :
  wellFormed jsonGet exampleDefinitionStore.2
  ∧ proxies exampleDefinitionStore.2 !! 0 = Some exampleDefinitionProxy
  ∧ type (handler exampleDefinitionProxy) = Definition_
  ∧ descend jsonGet (target exampleDefinitionProxy) [StringKey "Template"]
    = Some exampleDefinitionTemplate
  ∧ ∃ q s1,
      readsTo jsonGet 0 [StringKey "Template"] exampleDefinitionStore.2 q s1
      ∧ ∀ s2 l, wellFormed jsonGet s2 → laterStore s1 s2 →
          localizations s2 !! localization (handler exampleDefinitionProxy) = Some l →
          ∀ prop str, jsonGet exampleDefinitionTemplate prop = VString str →
            Proxy.get jsonGet q prop s2
            = Returned (Plain (if String.prefix "$" str
                               then localize l (VString str) else VString str)) s2.
Proof.
  split; [exact exampleDefinitionStore_wf|].
  split; [reflexivity|]. split; [reflexivity|]. split; [reflexivity|].
  exact (definition_is_localized_in_depth jsonGet [StringKey "Template"]
           exampleDefinitionStore.2 0 exampleDefinitionProxy exampleDefinitionTemplate
           exampleDefinitionStore_wf eq_refl eq_refl eq_refl).
Defined.

Lemma get_throws_only_without_an_object_witness :
  wellFormed jsonGet exampleDefinitionStore.2
  ∧ proxies exampleDefinitionStore.2 !! 0 = Some exampleDefinitionProxy
  ∧ Proxy.get jsonGet 0 (StringKey "Gap") exampleDefinitionStore.2 = TypeError.
Proof.
  split; [exact exampleDefinitionStore_wf|]. split; [reflexivity|].
  apply (get_throws_only_without_an_object jsonGet exampleDefinitionStore.2 0
           exampleDefinitionProxy (StringKey "Gap") exampleDefinitionStore_wf eq_refl).
  split; reflexivity.
Defined.

(** The example object read through its proxy, in English. *)
Example localized_object_read :
  let s0 := exampleObjectStore.2 in
  let s1 := storeAfter s0 (Proxy.get jsonGet 0 (StringKey "Properties") s0) in
  let s2 := storeAfter s1 (Proxy.get jsonGet 0 (StringKey "Template") s1) in
  let s3 := storeAfter s2 (Proxy.get jsonGet 2 (StringKey "Mood") s2) in
  answer (Proxy.get jsonGet 0 (StringKey "Properties") s0) = Some (Proxied 1)
  ∧ answer (Proxy.get jsonGet 1 (StringKey "Text") s1)
    = Some (Plain (VString "Good morning"))
  ∧ answer (Proxy.get jsonGet 1 (StringKey "Speaker") s1) = Some (Plain (VString "Ntt_7"))
  ∧ answer (Proxy.get jsonGet 0 (StringKey "Template") s1) = Some (Proxied 2)
  ∧ answer (Proxy.get jsonGet 2 (StringKey "Mood") s2) = Some (Proxied 3)
  ∧ answer (Proxy.get jsonGet 3 (StringKey "Label") s3) = Some (Plain (VString "cheerful"))
  ∧ answer (Proxy.get jsonGet 3 (StringKey "Level") s3) = Some (Plain (VString "3"))
  ∧ answer (Proxy.get jsonGet 0 (StringKey "Type") s3)
    = Some (Plain (VString "DialogueFragment"))
  ∧ answer (Proxy.get jsonGet 0 (StringKey "Properties") s3) = Some (Proxied 1).
Proof. vm_compute. by split_and!. Qed.
End ProxyExamples.

(** *** Matching braces *)

Lemma braceDepth_app d s1 s2 :
  braceDepth d (s1 ++ s2) = braceDepth d s1 ≫= λ d', braceDepth d' s2.
Proof.
  revert d. induction s1 as [|c s1 IH]; intros d; simpl; [done|].
  destruct (c =? 123)%N; [apply IH|].
  destruct (c =? 125)%N; [|apply IH].
  destruct d; [done|apply IH].
Qed.

Lemma braceDepth_braceFree d s : braceFree s → braceDepth d s = Some d.
Proof.
  induction 1 as [|c s [H1 H2] _ IH]; simpl; [done|].
  apply N.eqb_neq in H1, H2. by rewrite H1, H2.
Qed.

Lemma balanced_braceDepth s : balanced s → ∀ d, braceDepth d s = Some d.
Proof.
  induction 1 as [s Hs|s1 s2 _ IH1 _ IH2|s _ IH]; intros d.
  - by apply braceDepth_braceFree.
  - rewrite braceDepth_app, IH1. simpl. apply IH2.
  - simpl. rewrite braceDepth_app, IH. simpl. done.
Qed.

Lemma balanced_nil : balanced [].
Proof. apply balanced_text. constructor. Qed.

Lemma braceFree_app s1 s2 : braceFree s1 → braceFree s2 → braceFree (s1 ++ s2).
Proof. apply Forall_app_2. Qed.

(** *** Spans *)

Lemma substring_split (s : jsstring) p q r :
  p ≤ q → q ≤ r → r ≤ length s →
  substring s p r = substring s p q ++ substring s q r.
Proof.
  intros Hpq Hqr Hr.
  replace r with (p + (r - p)) at 1 by lia.
  replace q with (p + (q - p)) at 1 by lia.
  replace r with (q + (r - q)) at 2 by lia.
  rewrite !substring_take_drop by lia.
  replace (r - p) with ((q - p) + (r - q)) by lia.
  rewrite take_add. f_equal. rewrite drop_drop. by replace (p + (q - p)) with q by lia.
Qed.

Lemma substring_unit (s : jsstring) p c :
  s !! p = Some c → substring s p (p + 1) = [c].
Proof.
  intros H. pose proof (lookup_lt_Some _ _ _ H).
  rewrite substring_take_drop by lia.
  by rewrite (drop_S _ c) by done.
Qed.

Lemma substring_empty (s : jsstring) p : substring s p p = [].
Proof. unfold substring. cbv zeta. by replace (_ - _) with 0 by lia. Qed.

(** *** What the rules without recursion read *)

Lemma inClass_braceFree parts s :
  123%N ∈ parts → 125%N ∈ parts →
  Forall (λ c, inClass parts true c = true) s → braceFree s.
Proof.
  intros H1 H2 H. eapply Forall_impl; [exact H|]. intros c Hc. cbv beta in Hc.
  rewrite inClass_inverted in Hc. apply bool_decide_eq_true in Hc.
  split; intros ->; done.
Qed.

Lemma whitespace_braceFree s : Forall (λ c, peg_c6 c = true) s → braceFree s.
Proof.
  intros H. eapply Forall_impl; [exact H|]. intros c Hc.
  unfold peg_c6, inClass in Hc. simpl in Hc.
  split; intros ->; done.
Qed.

Lemma classRun_take cls rest l : classRun cls rest = l → take (length l) rest = l.
Proof. intros <-. apply classRun_prefix. Qed.

Lemma plusOf_span parts rest a n :
  123%N ∈ parts → 125%N ∈ parts →
  plusOf (inClass parts true) rest = Some (a, n) → braceFree (take n rest).
Proof.
  intros H1 H2. unfold plusOf.
  destruct (classRun _ rest) as [|c l] eqn:Hrun; [done|]. intros [= <- <-].
  change (braceFree (take (length (c :: l)) rest)).
  rewrite (classRun_take _ _ _ Hrun), <- Hrun.
  eapply inClass_braceFree; [done|done|]. apply classRun_Forall.
Qed.

Lemma multilineTextOf_span rest a n :
  multilineTextOf rest = Some (a, n) → braceFree (take n rest).
Proof.
  unfold multilineTextOf.
  destruct (classRun _ rest) as [|c l] eqn:Hrun; [done|]. intros [= <- <-].
  change (braceFree (take (length (c :: l)) rest)).
  rewrite (classRun_take _ _ _ Hrun), <- Hrun.
  eapply (inClass_braceFree [123; 125; 45]%N); [set_solver|set_solver|].
  apply classRun_Forall.
Qed.

Lemma whitespaceOf_span rest a n :
  whitespaceOf rest = Some (a, n) → braceFree (take n rest).
Proof.
  unfold whitespaceOf. intros [= <- <-]. rewrite classRun_prefix.
  apply whitespace_braceFree, classRun_Forall.
Qed.

Lemma take_braceFree_le (s : jsstring) n m :
  n ≤ m → braceFree (take m s) → braceFree (take n s).
Proof.
  intros Hle H. replace n with (n `min` m) by lia. rewrite <- take_take.
  by apply Forall_take.
Qed.

Lemma newlineOf_span rest a n :
  newlineOf rest = Some (a, n) → braceFree (take n rest).
Proof.
  unfold newlineOf.
  destruct (decide (head rest = Some 13%N)) as [H13|H13]; cbv zeta;
    case_decide as Hnl; intros; simplify_eq.
  - destruct rest as [|c1 [|c2 rest]]; simplify_eq/=. by repeat constructor.
  - destruct rest as [|c1 rest]; simplify_eq/=. by repeat constructor.
Qed.

Lemma charOf_span code rest a n :
  charOf code rest = Some (a, n) → n = 1 ∧ head rest = Some code.
Proof. unfold charOf. case_decide; by intros; simplify_eq. Qed.

Lemma literalOf_span lit rest a n :
  literalOf lit rest = Some (a, n) → take n rest = lit.
Proof. unfold literalOf. case_decide; by intros; simplify_eq. Qed.

Lemma markerOf_span sym lit t rest a n :
  sym ≠ 123%N → sym ≠ 125%N → braceFree lit →
  markerOf sym lit t rest = Some (a, n) → braceFree (take n rest).
Proof.
  intros H1 H2 Hlit. unfold markerOf.
  destruct (charOf sym rest) as [[l m]|] eqn:Hc; simpl.
  - intros [= <- <-]. apply charOf_span in Hc as [-> Hh].
    destruct rest as [|c rest]; simplify_eq/=. by repeat constructor.
  - destruct (literalOf lit rest) as [[l m]|] eqn:Hl; simpl; [|done].
    intros [= <- <-]. apply literalOf_span in Hl. by rewrite Hl.
Qed.

Lemma marker_words_braceFree :
  braceFree peg_c14 ∧ braceFree peg_c19 ∧ braceFree peg_c24 ∧ braceFree peg_c29.
Proof. split_and!; by repeat constructor. Qed.

Lemma typeOf_span rest a n : typeOf rest = Some (a, n) → braceFree (take n rest).
Proof.
  destruct marker_words_braceFree as (B1 & B2 & B3 & B4).
  unfold typeOf, stoppingOf.
  destruct (literalOf peg_c14 rest) as [[l m]|] eqn:H1; simpl.
  { intros [= <- <-]. apply literalOf_span in H1. by rewrite H1. }
  destruct (markerOf 126 _ _ _) as [[]|] eqn:H2.
  { intros [= <- <-]. by eapply markerOf_span in H2. }
  destruct (markerOf 38 _ _ _) as [[]|] eqn:H3.
  { intros [= <- <-]. by eapply markerOf_span in H3. }
  intros H4. by eapply markerOf_span in H4.
Qed.

Lemma conditionOf_span rest a n :
  conditionOf rest = Some (a, n) → braceFree (take n rest).
Proof.
  unfold conditionOf.
  remember (classRun peg_c35 rest) as e eqn:Hrun. symmetry in Hrun.
  destruct (decide (e = [])) as [->|Hne]; [done|].
  assert (∀ X Y : option (ExprEmbed * nat),
            match e with [] => X | _ :: _ => Y end = Y) as -> by by destruct e.
  case_decide as Hc; [|done]. intros [= <- <-].
  remember (classRun peg_c6 (drop (length e + 1) rest)) as ws eqn:Hws. symmetry in Hws.
  rewrite <- Nat.add_assoc, take_add. apply braceFree_app.
  - rewrite (classRun_take _ _ _ Hrun), <- Hrun.
    eapply (inClass_braceFree [10; 124; 58; 123; 125]%N); [set_solver|set_solver|].
    apply classRun_Forall.
  - rewrite take_add. apply braceFree_app.
    + rewrite (take_S_r _ _ 58%N), take_0; [by repeat constructor|].
      by rewrite lookup_drop, Nat.add_0_r.
    + rewrite drop_drop, (classRun_take _ _ _ Hws), <- Hws.
      apply whitespace_braceFree, classRun_Forall.
Qed.

Lemma conditionOrTypeOf_span rest a n :
  conditionOrTypeOf rest = Some (a, n) → braceFree (take n rest).
Proof.
  unfold conditionOrTypeOf.
  destruct (conditionOf rest) as [[c m]|] eqn:H1.
  - intros [= <- <-]. by eapply conditionOf_span.
  - apply typeOf_span.
Qed.


(** *** The rules, with the spans they read *)

Section Spans.
Context {W : Type}.
Variable input : jsstring.
Variable processEmbed : option EmbedType → list Argument → bool → W → PEResult * W.
Implicit Types st : PegState W.

Local Abbreviation E := (callThrow input processEmbed).
Local Abbreviation Bal := (λ (_ : jsstring) (p q : nat), balanced (substring input p q)).

Lemma CallInv_leafStep st st' :
  CallInv input st → leafStep st st' → peg_currPos st' ≤ length input → CallInv input st'.
Proof.
  intros [HI HL] Hstep Hpos. split; [by apply (Inv_leafStep input st)|].
  destruct Hstep as (_ & -> & _). done.
Qed.

Lemma CallInv_cacheStep st st' :
  CallInv input st → cacheStep st st' → CacheInv input st' → CallInv input st'.
Proof.
  intros [HI HL] Hstep Hc. split; [by apply (Inv_cacheStep input st)|].
  destruct Hstep as (_ & _ & _ & _ & _ & _ & ->). done.
Qed.

Lemma wp_setCurrPos_call p (Q : unit → PegState W → Prop) st :
  CallInv input st → p ≤ length input →
  (∀ st', CallInv input st' → peg_currPos st' = p → Q () st') →
  wp E (setCurrPos p) Q st.
Proof.
  intros HI Hp HQ. apply wp_setCurrPos. intros st' Hc Hs Hstep.
  apply HQ; [|done]. apply (CallInv_leafStep st); [done|done|lia].
Qed.

Lemma wp_setSavedPos_call p (Q : unit → PegState W → Prop) st :
  CallInv input st →
  (∀ st', CallInv input st' → peg_currPos st' = peg_currPos st →
          peg_savedPos st' = p → Q () st') →
  wp E (setSavedPos p) Q st.
Proof.
  intros HI HQ. apply wp_setSavedPos. intros st' Hc Hs Hstep.
  apply HQ; [|done|done]. apply (CallInv_leafStep st); [done|done|].
  rewrite Hc. apply HI.
Qed.

Lemma wp_location_call (Q : IFileRange → PegState W → Prop) st :
  CallInv input st →
  (∀ st', CallInv input st' → peg_currPos st' = peg_currPos st →
          peg_savedPos st' = peg_savedPos st →
          Q (mkRange (positionAt input (peg_savedPos st))
               (positionAt input (peg_currPos st))) st') →
  wp E (location input) Q st.
Proof.
  intros HI HQ. apply wp_location; [apply HI|]. intros st' Hstep Hc.
  apply HQ; [by apply (CallInv_cacheStep st)|apply Hstep|apply Hstep].
Qed.

Local Ltac span_back HI :=
  apply wp_bind, wp_setCurrPos_call; [done|apply HI|];
  intros ? ? ?; apply wp_ret; split_and!; [done|lia|done|by intros _ []|done].

(** A rule without recursion, with a property [G] of the text it reads. *)
Lemma leaf_span {A} consuming k (m : M W (option A)) f (G : A → jsstring → Prop) :
  leafSpec input m f → bounded consuming f →
  (∀ rest a n, f rest = Some (a, n) → G a (take n rest)) →
  spanSpec input processEmbed consuming k (λ a p q, G a (substring input p q)) m.
Proof.
  intros Hm Hf HG st HI Hk. eapply wp_mono; [apply Hm|by intros ? ? []|].
  intros v st' (Hstep & -> & Hpos). cbv beta.
  destruct (f (drop (peg_currPos st) input)) as [[a n]|] eqn:Hfr; simpl in *.
  - destruct (Hf _ _ _ Hfr) as [Hn Hc]. rewrite length_drop in Hn.
    assert (peg_currPos st ≤ length input) by apply HI.
    split_and!; [apply (CallInv_leafStep st); [done|done|lia]|lia|done| |].
    + intros Hcons _. specialize (Hc Hcons). lia.
    + intros a' [= <-]. rewrite Hpos, substring_take_drop by lia. by apply HG.
  - rewrite Nat.add_0_r in Hpos.
    assert (peg_currPos st ≤ length input) by apply HI.
    split_and!; [apply (CallInv_leafStep st); [done|done|lia]|lia|done|by intros _ []|done].
Qed.

Lemma char_span code exp k :
  spanSpec input processEmbed true k (λ _ p q, q = p + 1 ∧ input !! p = Some code)
    (matchCharCode (W:=W) input code exp).
Proof.
  intros st HI Hk.
  eapply wp_mono;
    [apply (leaf_span true k _ _ (λ _ s, s = [code]) (matchCharCode_spec input code exp)
              (charOf_bounded code)); [|done|done]
    |by intros|].
  - intros rest a n [-> Hh]%charOf_span. destruct rest; simplify_eq/=. by rewrite take_0.
  - intros v st' (HI' & Hle & Hn & Hc & HG). split_and!; try done.
    intros a ->. specialize (HG a eq_refl). specialize (Hc eq_refl ltac:(eauto)).
    assert (peg_currPos st' ≤ length input) by apply HI'.
    assert (length (substring input (peg_currPos st) (peg_currPos st')) = 1) as Hlen
      by by rewrite HG.
    replace (peg_currPos st') with (peg_currPos st + (peg_currPos st' - peg_currPos st))
      in Hlen, HG by lia.
    rewrite substring_take_drop in Hlen, HG by lia.
    rewrite length_take, length_drop in Hlen.
    assert (peg_currPos st' = peg_currPos st + 1) as Hq by lia.
    split; [done|].
    replace (peg_currPos st' - peg_currPos st) with 1 in HG by lia.
    destruct (drop (peg_currPos st) input) as [|c rest] eqn:Hd; [done|].
    simpl in HG. rewrite take_0 in HG. injection HG as ->.
    rewrite <- (Nat.add_0_r (peg_currPos st)), <- lookup_drop, Hd. done.
Qed.

Lemma text_span {A} consuming k (m : M W (option A)) f :
  leafSpec input m f → bounded consuming f →
  (∀ rest a n, f rest = Some (a, n) → braceFree (take n rest)) →
  spanSpec input processEmbed consuming k (λ _ p q, balanced (substring input p q)) m.
Proof.
  intros Hm Hf HG.
  apply (leaf_span consuming k m f (λ _ s, balanced s)); [done|done|].
  intros rest a n Hr. apply balanced_text. by eapply HG.
Qed.

Lemma balanced_join p q r :
  p ≤ q → q ≤ r → r ≤ length input →
  balanced (substring input p q) → balanced (substring input q r) →
  balanced (substring input p r).
Proof.
  intros ? ? ? H1 H2. rewrite (substring_split input p q r) by done.
  by apply balanced_app.
Qed.

Lemma balanced_here p : balanced (substring input p p).
Proof. rewrite substring_empty. apply balanced_nil. Qed.

(** *** Loops *)

Lemma repeatLoop_span {A} k (item : M W (option A)) Good (P : list A → nat → Prop) :
  spanSpec input processEmbed true k Good item →
  (∀ l v p q, P l p → Good v p q → p < q → q ≤ length input → P (l ++ [v]) q) →
  ∀ n s1 s st,
    CallInv input st → k ≤ peg_currPos st →
    (is_Some s → length input < peg_currPos st + n) →
    match s with
    | Some v => ∃ p, P s1 p ∧ Good v p (peg_currPos st) ∧ p < peg_currPos st
    | None => P s1 (peg_currPos st)
    end →
    wp E (repeatLoop item n s1 s)
      (λ l st',
         CallInv input st' ∧ peg_currPos st ≤ peg_currPos st'
         ∧ P l (peg_currPos st')
         ∧ length s1 + (if s is Some _ then 1 else 0) ≤ length l)
      st.
Proof.
  intros Hitem Hstep n. induction n as [|n IH]; intros s1 s st HI Hk Hn HP.
  - destruct s as [v|]; simpl.
    + destruct HI as ((_ & _ & ?) & _). specialize (Hn ltac:(eauto)). lia.
    + apply wp_ret. split_and!; [done|lia|done|lia].
  - destruct s as [v|]; simpl; [|apply wp_ret; split_and!; [done|lia|done|lia]].
    specialize (Hn ltac:(eauto)).
    destruct HP as (p & HP & HG & Hlt).
    assert (peg_currPos st ≤ length input) by apply HI.
    pose proof (Hstep s1 v p (peg_currPos st) HP HG Hlt ltac:(done)) as HP'.
    apply wp_bind. eapply wp_mono; [by apply Hitem|by intros|].
    intros s' st1 (HI1 & Hle1 & Hn1 & Hc1 & HG1). cbv beta.
    eapply wp_mono; [apply IH; [done|lia| |]|by intros|].
    + intros Hs. specialize (Hc1 eq_refl Hs). lia.
    + destruct s' as [v'|].
      * exists (peg_currPos st). split_and!; [done|by apply HG1|].
        apply Hc1; eauto.
      * by rewrite (Hn1 eq_refl).
    + intros l st2 (? & ? & ? & Hlen). rewrite length_app in Hlen. simpl in Hlen.
      split_and!; [done|lia|done|lia].
Qed.

(** *** The call of [processEmbed] *)

Lemma wp_call_span type args multiline (Q : jsstring → PegState W → Prop) st :
  CallInv input st →
  directiveCall input
    (mkEmbedCall type args multiline (peg_savedPos st) (peg_currPos st)) →
  (∀ s st', CallInv input st' → peg_currPos st' = peg_currPos st → Q s st') →
  wp E (call_processEmbed input processEmbed type args multiline) Q st.
Proof.
  intros HI Hcall HQ. unfold wp, call_processEmbed.
  destruct (processEmbed type args multiline (peg_world st)) as [r w'] eqn:Hrun.
  cbv iota zeta beta.
  set (c := mkEmbedCall _ _ _ _ _) in *.
  set (st1 := mkPegState _ _ _ _ _ _ _ _).
  assert (CallInv input st1) as HI1.
  { destruct HI as [([? ?] & [? ?] & ?) HL]. split; [by split_and!|].
    simpl. apply Forall_app. split; [done|by constructor]. }
  destruct r as [s|description location1|x].
  - by apply HQ.
  - change (wp E (expected input description location1) Q st1).
    unfold expected. apply wp_bind.
    assert (∀ st2, cacheStep st1 st2 →
              wp E (t ← text input;
                    throw (ExpectedError
                             (peg_buildStructuredError [OtherExpectation description]
                                (Some t)
                                (default
                                   (mkRange (positionAt input (call_from c))
                                      (positionAt input (call_to c)))
                                   location1))))
                Q st2) as Hthrow.
    { intros st2 Hstep. apply wp_bind, wp_text. cbv beta.
      unfold wp, throw, callThrow.
      destruct Hstep as (Hc & Hs & _ & _ & Hw & _ & Hlog). rewrite Hlog, Hc, Hs, Hw.
      split; [apply HI1|]. exists c, (peg_world st). simpl. rewrite last_snoc, Hrun.
      split_and!; [done|done|]. by exists description, location1. }
    destruct location1 as [l|].
    + apply wp_ret, Hthrow, cacheStep_refl.
    + apply wp_location; [apply HI1|]. intros st2 Hstep _. by apply Hthrow.
  - unfold callThrow. split; [apply HI1|]. exists c, (peg_world st). simpl.
    by rewrite last_snoc, Hrun.
Qed.

Lemma directive_balanced p q :
  p + 2 ≤ q → q ≤ length input →
  input !! p = Some 123%N → input !! (q - 1) = Some 125%N →
  balanced (substring input (p + 1) (q - 1)) → balanced (substring input p q).
Proof.
  intros ? ? Ho Hc Hb.
  rewrite (substring_split input p (p + 1) q) by lia.
  rewrite (substring_split input (p + 1) (q - 1) q) by lia.
  rewrite (substring_unit input p 123%N) by done.
  replace (substring input (q - 1) q) with [125%N]; [by apply balanced_wrap|].
  rewrite <- (substring_unit input (q - 1) 125%N) by done. f_equal. lia.
Qed.

Lemma optional_balanced {A} (v : option A) p q :
  (v = None → q = p) → (∀ a, v = Some a → balanced (substring input p q)) →
  balanced (substring input p q).
Proof.
  intros Hn Hs. destruct v as [a|]; [by apply (Hs a)|].
  rewrite (Hn eq_refl). apply balanced_here.
Qed.

Variable k : nat.
Variable peg_parseEmbed_rec : M W (option jsstring).
Hypothesis Hrec : spanSpec input processEmbed true k Bal peg_parseEmbed_rec.

Lemma orEmbed_span item :
  spanSpec input processEmbed true k Bal item →
  spanSpec input processEmbed true k Bal (orEmbed peg_parseEmbed_rec item).
Proof using Hrec.
  intros Hitem st HI Hk. unfold orEmbed.
  apply wp_bind. eapply wp_mono; [by apply Hitem|by intros|].
  intros s2 st1 (HI1 & Hle1 & Hn1 & Hc1 & HG1). cbv beta.
  destruct s2 as [v|].
  - apply wp_ret. split_and!; [done|lia|done| |done]. intros. apply Hc1; eauto.
  - specialize (Hn1 eq_refl).
    eapply wp_mono; [apply Hrec; [done|lia]|by intros|].
    intros v st2 (? & ? & Hn2 & Hc2 & HG2). cbv beta. rewrite Hn1 in *.
    split_and!; try done.
Qed.

Lemma sourceLoop_span item s0 s2 st :
  spanSpec input processEmbed true k Bal item →
  CallInv input st → k ≤ peg_currPos st → s0 ≤ peg_currPos st →
  (∀ v, s2 = Some v → balanced (substring input s0 (peg_currPos st)) ∧ s0 < peg_currPos st) →
  (s2 = None → peg_currPos st = s0) →
  wp E (repeatLoop (orEmbed peg_parseEmbed_rec item) (loopFuel input) [] s2)
    (λ _ st', CallInv input st' ∧ peg_currPos st ≤ peg_currPos st'
              ∧ balanced (substring input s0 (peg_currPos st')))
    st.
Proof using Hrec.
  intros Hitem HI Hk Hs0 HSome HNone.
  eapply wp_mono;
    [apply (repeatLoop_span k _ Bal
              (λ _ p, s0 ≤ p ∧ balanced (substring input s0 p))
              (orEmbed_span _ Hitem));
       [|done|done|intros; apply loopFuel_enough; apply HI|]
    |by intros|].
  - intros l v p q [Hp HP] HG Hlt Hq. split; [lia|]. apply (balanced_join s0 p q); [lia|lia|done|done|done].
  - destruct s2 as [v|].
    + destruct (HSome v eq_refl) as [Hb Hlt].
      exists s0. split_and!; [done|apply balanced_here|done|done].
    + rewrite (HNone eq_refl). split; [done|apply balanced_here].
  - intros l st' (? & ? & [? ?] & _). done.
Qed.

Lemma peg_parseSource_span :
  spanSpec input processEmbed false k Bal (peg_parseSource input peg_parseEmbed_rec).
Proof using Hrec.
  intros st HI Hk. unfold peg_parseSource. wp_get.
  pose proof (orEmbed_span _ (text_span true k _ _ (peg_parseText_spec input)
                (plusOf_bounded _)
                (λ rest a n, plusOf_span [123; 125]%N rest a n
                               ltac:(set_solver) ltac:(set_solver)))) as Hitem.
  apply wp_bind. eapply wp_mono; [by apply Hitem|by intros|].
  intros s2 st1 (HI1 & Hle1 & Hn1 & Hc1 & HG1). cbv beta.
  apply wp_bind.
  eapply wp_mono;
    [apply (sourceLoop_span (peg_parseText input) (peg_currPos st) s2 st1);
       [apply (text_span true k _ _ (peg_parseText_spec input) (plusOf_bounded _)
                 (λ rest a n, plusOf_span [123; 125]%N rest a n
                                ltac:(set_solver) ltac:(set_solver)))
       |done|lia|lia| |done]
    |by intros|].
  - intros v ->. split; [by apply (HG1 _ eq_refl)|]. apply Hc1; eauto.
  - intros s1 st2 (HI2 & Hle2 & Hb). cbv beta.
    apply wp_bind, wp_setSavedPos_call; [done|]. intros st3 HI3 Hc3 _.
    apply wp_ret. split_and!; [done|lia|done|done|]. intros a _. by rewrite Hc3.
Qed.

Lemma plusSource_span item :
  spanSpec input processEmbed true k Bal item →
  spanSpec input processEmbed false k Bal
    (s0 ← getCurrPos;
     s2 ← orEmbed peg_parseEmbed_rec item;
     match s2 with
     | Some _ =>
         s1 ← repeatLoop (orEmbed peg_parseEmbed_rec item) (loopFuel input) [] s2;
         setSavedPos s0 ;;
         mret (Some (peg_c0 s1))
     | None => mret None
     end).
Proof using Hrec.
  intros Hi st HI Hk. wp_get.
  apply wp_bind. eapply wp_mono; [by apply (orEmbed_span _ Hi)|by intros|].
  intros s2 st1 (HI1 & Hle1 & Hn1 & Hc1 & HG1). cbv beta.
  destruct s2 as [v|].
  - apply wp_bind.
    eapply wp_mono;
      [apply (sourceLoop_span item (peg_currPos st) (Some v) st1 Hi);
         [done|lia|lia| |done]
      |by intros|].
    + intros v' [= <-]. split; [by apply (HG1 _ eq_refl)|]. apply Hc1; eauto.
    + intros s1 st2 (HI2 & Hle2 & Hb). cbv beta.
      apply wp_bind, wp_setSavedPos_call; [done|]. intros st3 HI3 Hc3 _.
      apply wp_ret. split_and!; [done|lia|done|done|]. intros a _. by rewrite Hc3.
  - apply wp_ret. split_and!; [done|lia|auto|done|done].
Qed.

Lemma peg_parseInlineSource_span :
  spanSpec input processEmbed false k Bal (peg_parseInlineSource input peg_parseEmbed_rec).
Proof using Hrec.
  apply plusSource_span.
  apply (text_span true k _ _ (peg_parseInlineText_spec input) (plusOf_bounded _)).
  intros rest a n. apply (plusOf_span [123; 125; 124; 13; 10]%N); set_solver.
Qed.

Lemma peg_parseInlineMultilineSource_span :
  spanSpec input processEmbed false k Bal (peg_parseInlineMultilineSource input peg_parseEmbed_rec).
Proof using Hrec.
  apply plusSource_span.
  apply (text_span true k _ _ (peg_parseInlineMultilineText_spec input)
           multilineTextOf_bounded).
  apply multilineTextOf_span.
Qed.

(** *** Arguments *)

Local Abbreviation before :=
  (λ a b : Argument, offset (end_ (arg_location a)) < offset (start (arg_location b))).

Lemma argumentAt_start a p q : argumentAt input a p q → offset (start (arg_location a)) = p.
Proof. by intros (-> & _). Qed.

Lemma argumentAt_end a p q : argumentAt input a p q → offset (end_ (arg_location a)) = q.
Proof. by intros (-> & _). Qed.

Lemma argumentsWithin_wider args lo hi lo' hi' :
  lo' ≤ lo → hi ≤ hi' → argumentsWithin input args lo hi → argumentsWithin input args lo' hi'.
Proof.
  intros ? ? (Hne & HF & HS). split_and!; [done| |done].
  eapply Forall_impl; [exact HF|]. intros a (p & q & ? & ? & ?).
  exists p, q. split_and!; [lia|lia|done].
Qed.

Lemma peg_parseArgument_span :
  spanSpec input processEmbed false k (λ a p q, argumentAt input a p q)
    (peg_parseArgument input peg_parseEmbed_rec).
Proof using Hrec.
  intros st HI Hk. unfold peg_parseArgument. wp_get.
  apply wp_bind. eapply wp_mono; [by apply peg_parseInlineSource_span|by intros|].
  intros s1 st1 (HI1 & Hle1 & Hn1 & _ & HG1). cbv beta.
  apply wp_bind, wp_setSavedPos_call; [done|]. intros st2 HI2 Hc2 Hs2.
  apply wp_bind. unfold peg_c38. apply wp_bind.
  apply wp_location_call; [done|]. intros st3 HI3 Hc3 Hs3.
  apply wp_ret, wp_ret.
  split_and!; [done|lia|done|done|].
  intros a [= <-]. unfold argumentAt. simpl. rewrite Hs2, Hc3, Hc2.
  split_and!; [done|lia|].
  destruct s1; [by apply (HG1 _ eq_refl)|rewrite (Hn1 eq_refl); apply balanced_here].
Qed.

Lemma pipeArgument_span :
  spanSpec input processEmbed true k
    (λ x p q, input !! p = Some 124%N ∧ argumentAt input x.2 (p + 1) q)
    (pipeArgument input peg_parseEmbed_rec).
Proof using Hrec.
  intros st HI Hk. unfold pipeArgument. wp_get.
  apply wp_bind. eapply wp_mono; [by apply (char_span 124%N peg_c40 k)|by intros|].
  intros s4 st1 (HI1 & Hle1 & Hn1 & Hc1 & HG1). cbv beta.
  destruct s4 as [bar|]; [|span_back HI].
  destruct (HG1 _ eq_refl) as [Hq1 Hbar].
  apply wp_bind. eapply wp_mono; [apply peg_parseArgument_span; [done|lia]|by intros|].
  intros s5 st2 (HI2 & Hle2 & Hn2 & _ & HG2). cbv beta.
  destruct s5 as [a|]; [|span_back HI].
  apply wp_ret. split_and!; [done|lia|done|intros; lia|].
  intros x [= <-]. simpl. split; [done|]. rewrite <- Hq1. by apply HG2.
Qed.

Lemma bar_balanced p c :
  input !! p = Some c → c ≠ 123%N → c ≠ 125%N → balanced (substring input p (p + 1)).
Proof.
  intros H ? ?. rewrite (substring_unit input p c) by done.
  apply balanced_text. by repeat constructor.
Qed.

Lemma peg_parseArguments_span :
  spanSpec input processEmbed false k
    (λ args p q, argumentsWithin input args p q ∧ balanced (substring input p q))
    (peg_parseArguments input peg_parseEmbed_rec).
Proof using Hrec.
  intros st HI Hk. unfold peg_parseArguments. wp_get.
  apply wp_bind. eapply wp_mono; [by apply peg_parseArgument_span|by intros|].
  intros s1 st1 (HI1 & Hle1 & Hn1 & _ & HG1). cbv beta.
  destruct s1 as [first|]; [|span_back HI].
  specialize (HG1 _ eq_refl).
  apply wp_bind. eapply wp_mono; [apply pipeArgument_span; [done|lia]|by intros|].
  intros s3 st2 (HI2 & Hle2 & Hn2 & Hc2 & HG2). cbv beta.
  apply wp_bind.
  remember (peg_currPos st1) as q1 eqn:Hq1.
  eapply wp_mono;
    [apply (repeatLoop_span k _ _
              (λ l pos,
                 q1 ≤ pos ∧ balanced (substring input q1 pos)
                 ∧ Forall (λ a, ∃ p q, q1 < p ∧ q ≤ pos ∧ argumentAt input a p q)
                     (snd <$> l)
                 ∧ StronglySorted before (snd <$> l))
              pipeArgument_span);
       [|done|lia|intros; apply loopFuel_enough; apply HI2|]
    |by intros|].
  - intros l v p q (Hp & Hb & HF & HS) [Hbar Harg] Hlt Hq.
    pose proof Harg as (_ & Hpq & Hba).
    split_and!.
    + lia.
    + apply (balanced_join q1 p q); [lia|lia|done|done|].
      apply (balanced_join p (p + 1) q); [lia|lia|done| |done].
      by apply (bar_balanced p 124%N).
    + rewrite fmap_app, Forall_app. split.
      * eapply Forall_impl; [exact HF|]. intros a (p' & q' & ? & ? & ?).
        exists p', q'. split_and!; [done|lia|done].
      * constructor; [|constructor]. exists (p + 1), q. split_and!; [lia|lia|done].
    + rewrite fmap_app. apply StronglySorted_app_2; [|done|by repeat constructor].
      intros a b Ha Hb'. apply list_elem_of_singleton in Hb' as ->.
      rewrite Forall_forall in HF. destruct (HF a Ha) as (p' & q' & ? & ? & Ha').
      rewrite (argumentAt_end _ _ _ Ha'), (argumentAt_start _ _ _ Harg). lia.
  - destruct s3 as [v|].
    + exists q1. split; [|split].
      * split_and!; [lia|apply balanced_here|constructor|constructor].
      * by apply HG2.
      * apply Hc2; eauto.
    + rewrite (Hn2 eq_refl). split_and!; [lia|apply balanced_here|constructor|constructor].
  - intros l st3 (HI3 & Hle3 & (Hp & Hb & HF & HS) & _). cbv beta.
    apply wp_bind, wp_setSavedPos_call; [done|]. intros st4 HI4 Hc4 _.
    apply wp_ret. split_and!; [done|lia|done|done|].
    intros args [= <-]. rewrite Hc4. pose proof HG1 as (_ & ? & ?). split.
    + unfold argumentsWithin, peg_c41. split_and!; [done| |].
      * constructor; [exists (peg_currPos st), q1; split_and!; [done|lia|done]|].
        eapply Forall_impl; [exact HF|]. intros a (p' & q' & ? & ? & ?).
        exists p', q'. split_and!; [lia|lia|done].
      * constructor; [done|].
        eapply Forall_impl; [exact HF|]. intros a (p' & q' & ? & ? & Ha').
        rewrite (argumentAt_end _ _ _ HG1), (argumentAt_start _ _ _ Ha'). lia.
    + apply (balanced_join _ q1); [lia|lia|apply HI3|done|done].
Qed.

Lemma peg_parseMultilineArgument_span :
  spanSpec input processEmbed false k (λ a p q, argumentAt input a p q)
    (peg_parseMultilineArgument input peg_parseEmbed_rec).
Proof using Hrec.
  intros st HI Hk. unfold peg_parseMultilineArgument. wp_get.
  apply wp_bind.
  eapply wp_mono;
    [by apply (text_span true k _ _ (peg_parseCondition_spec input) conditionOf_bounded
                 conditionOf_span)
    |by intros|].
  intros s1 st1 (HI1 & Hle1 & Hn1 & _ & HG1). cbv beta.
  apply wp_bind.
  eapply wp_mono; [apply peg_parseInlineMultilineSource_span; [done|lia]|by intros|].
  intros s2 st2 (HI2 & Hle2 & Hn2 & _ & HG2). cbv beta.
  apply wp_bind, wp_setSavedPos_call; [done|]. intros st3 HI3 Hc3 Hs3.
  apply wp_bind. unfold peg_c42. apply wp_bind.
  apply wp_location_call; [done|]. intros st4 HI4 Hc4 Hs4.
  assert (balanced (substring input (peg_currPos st) (peg_currPos st2))) as Hb.
  { apply (balanced_join _ (peg_currPos st1)); [lia|lia|apply HI2| |].
    - destruct s1; [by apply (HG1 _ eq_refl)|rewrite (Hn1 eq_refl); apply balanced_here].
    - destruct s2; [by apply (HG2 _ eq_refl)|rewrite (Hn2 eq_refl); apply balanced_here]. }
  assert (∀ f, wp E (mret (mkArgument f.1.1 f.1.2 f.2
                         (mkRange (positionAt input (peg_savedPos st3))
                            (positionAt input (peg_currPos st3))))
                     ≫= λ s1', mret (Some s1'))
            (λ v st',
               CallInv input st' ∧ peg_currPos st ≤ peg_currPos st'
               ∧ (v = None → peg_currPos st' = peg_currPos st)
               ∧ (false = true → is_Some v → peg_currPos st < peg_currPos st')
               ∧ ∀ a, v = Some a → argumentAt input a (peg_currPos st) (peg_currPos st'))
            st4) as Hend.
  { intros f. apply wp_bind, wp_ret, wp_ret. split_and!; [done|lia|done|done|].
    intros a [= <-]. unfold argumentAt. simpl. rewrite Hs3, Hc4, Hc3.
    split_and!; [done|lia|done]. }
  destruct s1 as [c|].
  - apply (Hend (Some (expr c), Some (default [] s2), text_ c ++ default [] s2)).
  - apply (Hend (None, None, default [] s2)).
Qed.

Lemma dashArgument_span :
  spanSpec input processEmbed true k
    (λ a p q, ∃ s e, p < s ∧ e ≤ q ∧ argumentAt input a s e
                     ∧ balanced (substring input p q))
    (dashArgument input peg_parseEmbed_rec).
Proof using Hrec.
  intros st HI Hk. unfold dashArgument. wp_get.
  apply wp_bind. eapply wp_mono; [by apply (char_span 45%N peg_c44 k)|by intros|].
  intros s4 st1 (HI1 & Hle1 & Hn1 & Hc1 & HG1). cbv beta.
  destruct s4 as [dash|]; [|span_back HI].
  destruct (HG1 _ eq_refl) as [Hq1 Hdash].
  apply wp_bind.
  eapply wp_mono;
    [apply (text_span false k _ _ (peg_parseWhitespace_spec input) whitespaceOf_bounded
              whitespaceOf_span); [done|lia]
    |by intros|].
  intros s5 st2 (HI2 & Hle2 & Hn2 & _ & HG2). cbv beta.
  destruct s5 as [ws|]; [|span_back HI].
  apply wp_bind.
  eapply wp_mono; [apply peg_parseMultilineArgument_span; [done|lia]|by intros|].
  intros s6 st3 (HI3 & Hle3 & Hn3 & _ & HG3). cbv beta.
  destruct s6 as [a|]; [|span_back HI].
  apply wp_bind.
  eapply wp_mono;
    [apply (text_span false k _ _ (peg_parseWhitespace_spec input) whitespaceOf_bounded
              whitespaceOf_span); [done|lia]
    |by intros|].
  intros s7 st4 (HI4 & Hle4 & Hn4 & _ & HG4). cbv beta.
  destruct s7 as [ws'|]; [|span_back HI].
  apply wp_ret. split_and!; [done|lia|done|intros; lia|].
  intros a' [= <-]. exists (peg_currPos st2), (peg_currPos st3).
  pose proof (HG3 _ eq_refl) as Ha. pose proof Ha as (_ & _ & Hb3).
  assert (peg_currPos st4 ≤ length input) by apply HI4.
  split_and!; [lia|lia|done|].
  apply (balanced_join _ (peg_currPos st1)); [lia|lia|done| |].
  { rewrite Hq1. by apply (bar_balanced _ 45%N). }
  apply (balanced_join _ (peg_currPos st2)); [lia|lia|done|by apply (HG2 _ eq_refl)|].
  apply (balanced_join _ (peg_currPos st3)); [lia|lia|done|done|by apply (HG4 _ eq_refl)].
Qed.

Lemma peg_parseMultiLineArguments_span :
  spanSpec input processEmbed true k
    (λ args p q, argumentsWithin input args p q ∧ balanced (substring input p q))
    (peg_parseMultiLineArguments input peg_parseEmbed_rec).
Proof using Hrec.
  intros st HI Hk. unfold peg_parseMultiLineArguments. wp_get.
  apply wp_bind.
  eapply wp_mono;
    [by apply (text_span false k _ _ (peg_parseWhitespace_spec input) whitespaceOf_bounded
                 whitespaceOf_span)
    |by intros|].
  intros s1 st1 (HI1 & Hle1 & Hn1 & _ & HG1). cbv beta.
  destruct s1 as [ws|]; [|span_back HI].
  specialize (HG1 _ eq_refl).
  apply wp_bind. eapply wp_mono; [apply dashArgument_span; [done|lia]|by intros|].
  intros s3 st2 (HI2 & Hle2 & Hn2 & Hc2 & HG2). cbv beta.
  destruct s3 as [v|]; [|span_back HI].
  specialize (HG2 _ eq_refl). specialize (Hc2 eq_refl ltac:(eauto)).
  apply wp_bind.
  remember (peg_currPos st) as p0 eqn:Hp0.
  eapply wp_mono;
    [apply (repeatLoop_span k _ _
              (λ l pos,
                 p0 ≤ pos ∧ balanced (substring input p0 pos)
                 ∧ Forall (λ a, ∃ p q, p0 ≤ p ∧ q ≤ pos ∧ argumentAt input a p q) l
                 ∧ StronglySorted before l)
              dashArgument_span);
       [|done|lia|intros; apply loopFuel_enough; apply HI2|]
    |by intros|].
  - intros l a p q (Hp & Hb & HF & HS) (s & e & Hs & He & Harg & Hba) Hlt Hq.
    split_and!.
    + lia.
    + apply (balanced_join p0 p q); [lia|lia|done|done|done].
    + rewrite Forall_app. split.
      * eapply Forall_impl; [exact HF|]. intros a' (p' & q' & ? & ? & ?).
        exists p', q'. split_and!; [done|lia|done].
      * constructor; [|constructor]. exists s, e. split_and!; [lia|lia|done].
    + apply StronglySorted_app_2; [|done|by repeat constructor].
      intros a' b Ha Hb'. apply list_elem_of_singleton in Hb' as ->.
      rewrite Forall_forall in HF. destruct (HF a' Ha) as (p' & q' & ? & ? & Ha').
      rewrite (argumentAt_end _ _ _ Ha'), (argumentAt_start _ _ _ Harg). lia.
  - exists (peg_currPos st1). split; [|split; [done|lia]].
    split_and!; [lia|done|constructor|constructor].
  - intros l st3 (HI3 & Hle3 & (Hp & Hb & HF & HS) & Hlen). cbv beta.
    apply wp_bind, wp_setSavedPos_call; [done|]. intros st4 HI4 Hc4 _.
    apply wp_ret. split_and!; [done|lia|done|intros; lia|].
    intros args [= <-]. rewrite Hc4. split; [|done].
    split_and!; [intros ->; simpl in Hlen; lia|done|done].
Qed.

End Spans.

(** *** Directives *)

Section Directives.
Context {W : Type}.
Variable input : jsstring.
Variable processEmbed : option EmbedType → list Argument → bool → W → PEResult * W.
Implicit Types st : PegState W.

Local Abbreviation E := (callThrow input processEmbed).
Local Abbreviation Bal := (λ (_ : jsstring) (p q : nat), balanced (substring input p q)).

Local Ltac directive_back HI :=
  apply wp_bind, wp_setCurrPos_call; [done|apply HI|];
  intros ? ? ?; apply wp_ret; split_and!; [done|lia|done|by intros _ []|done].

Variable k : nat.
Variable peg_parseEmbed_rec : M W (option jsstring).
Hypothesis Hrec : spanSpec input processEmbed true (S k) Bal peg_parseEmbed_rec.

Lemma peg_parseInlineEmbed_span :
  spanSpec input processEmbed true k Bal
    (peg_parseInlineEmbed input processEmbed peg_parseEmbed_rec).
Proof using Hrec.
  intros st HI Hk. unfold peg_parseInlineEmbed. wp_get.
  apply wp_bind. eapply wp_mono; [by apply (char_span input processEmbed 123%N peg_c2 k)|by intros|].
  intros s1 st1 (HI1 & Hle1 & Hn1 & Hc1 & HG1). cbv beta.
  destruct s1 as [opening|]; [|directive_back HI].
  destruct (HG1 _ eq_refl) as [Hq1 Hopen].
  apply wp_bind.
  eapply wp_mono;
    [apply (text_span input processEmbed true (S k) _ _ (conditionOrType_spec input)
              conditionOrTypeOf_bounded conditionOrTypeOf_span); [done|lia]
    |by intros|].
  intros s2 st2 (HI2 & Hle2 & Hn2 & _ & HG2). cbv beta.
  apply wp_bind. eapply wp_mono; [apply (peg_parseArguments_span input processEmbed (S k) _ Hrec); [done|lia]|by intros|].
  intros s3 st3 (HI3 & Hle3 & Hn3 & _ & HG3). cbv beta.
  destruct s3 as [args|]; [|directive_back HI].
  destruct (HG3 _ eq_refl) as [Hargs Hb3].
  apply wp_bind. eapply wp_mono; [apply (char_span input processEmbed 125%N peg_c4 (S k)); [done|lia]|by intros|].
  intros s4 st4 (HI4 & Hle4 & Hn4 & Hc4 & HG4). cbv beta.
  destruct s4 as [closing|]; [|directive_back HI].
  destruct (HG4 _ eq_refl) as [Hq4 Hclose].
  assert (peg_currPos st4 ≤ length input) as Hend by apply HI4.
  assert (peg_currPos st4 - 1 = peg_currPos st3) as Hlast by lia.
  assert (balanced (substring input (peg_currPos st + 1) (peg_currPos st4 - 1))) as Hinner.
  { rewrite Hlast, <- Hq1.
    apply (balanced_join input _ (peg_currPos st2)); [lia|lia|lia| |done].
    by apply (optional_balanced input s2). }
  apply wp_bind, wp_setSavedPos_call; [done|]. intros st5 HI5 Hc5 Hs5.
  apply wp_bind, wp_call_span; [done| |].
  - unfold directiveCall. simpl. rewrite Hs5, Hc5.
    split_and!; [lia|done|done|by rewrite Hlast|done|].
    rewrite Hlast.
    apply (argumentsWithin_wider input args (peg_currPos st2) (peg_currPos st3)); [lia|lia|done].
  - intros s st6 HI6 Hc6. apply wp_ret. split_and!; [done|lia|done|intros; lia|].
    intros a _. rewrite Hc6, Hc5.
    apply directive_balanced; [lia|done|done|by rewrite Hlast|done].
Qed.

Lemma peg_parseMutliLineEmbed_span :
  spanSpec input processEmbed true k Bal
    (peg_parseMutliLineEmbed input processEmbed peg_parseEmbed_rec).
Proof using Hrec.
  intros st HI Hk. unfold peg_parseMutliLineEmbed. wp_get.
  apply wp_bind. eapply wp_mono; [by apply (char_span input processEmbed 123%N peg_c2 k)|by intros|].
  intros s1 st1 (HI1 & Hle1 & Hn1 & Hc1 & HG1). cbv beta.
  destruct s1 as [opening|]; [|directive_back HI].
  destruct (HG1 _ eq_refl) as [Hq1 Hopen].
  apply wp_bind.
  eapply wp_mono;
    [apply (text_span input processEmbed true (S k) _ _ (peg_parseType_spec input)
              typeOf_bounded typeOf_span);
       [done|lia]
    |by intros|].
  intros s2 st2 (HI2 & Hle2 & Hn2 & _ & HG2). cbv beta.
  apply wp_bind.
  eapply wp_mono;
    [apply (text_span input processEmbed true (S k) _ _ (peg_parseNewline_spec input)
              newlineOf_bounded newlineOf_span); [done|lia]
    |by intros|].
  intros s3 st3 (HI3 & Hle3 & Hn3 & _ & HG3). cbv beta.
  destruct s3 as [nl|]; [|directive_back HI].
  apply wp_bind.
  eapply wp_mono; [apply (peg_parseMultiLineArguments_span input processEmbed (S k) _ Hrec); [done|lia]
    |by intros|].
  intros s4 st4 (HI4 & Hle4 & Hn4 & _ & HG4). cbv beta.
  destruct s4 as [args|]; [|directive_back HI].
  destruct (HG4 _ eq_refl) as [Hargs Hb4].
  apply wp_bind. eapply wp_mono; [apply (char_span input processEmbed 125%N peg_c4 (S k)); [done|lia]|by intros|].
  intros s5 st5 (HI5 & Hle5 & Hn5 & Hc5 & HG5). cbv beta.
  destruct s5 as [closing|]; [|directive_back HI].
  destruct (HG5 _ eq_refl) as [Hq5 Hclose].
  assert (peg_currPos st5 ≤ length input) as Hend by apply HI5.
  assert (peg_currPos st5 - 1 = peg_currPos st4) as Hlast by lia.
  assert (balanced (substring input (peg_currPos st + 1) (peg_currPos st5 - 1))) as Hinner.
  { rewrite Hlast, <- Hq1.
    apply (balanced_join input _ (peg_currPos st2)); [lia|lia|lia|by apply (optional_balanced input s2)|].
    apply (balanced_join input _ (peg_currPos st3)); [lia|lia|lia|by apply (HG3 _ eq_refl)|done]. }
  apply wp_bind, wp_setSavedPos_call; [done|]. intros st6 HI6 Hc6 Hs6.
  apply wp_bind, wp_call_span; [done| |].
  - unfold directiveCall. simpl. rewrite Hs6, Hc6.
    split_and!; [lia|done|done|by rewrite Hlast|done|].
    rewrite Hlast.
    apply (argumentsWithin_wider input args (peg_currPos st3) (peg_currPos st4)); [lia|lia|done].
  - intros s st7 HI7 Hc7. apply wp_ret. split_and!; [done|lia|done|intros; lia|].
    intros a _. rewrite Hc7, Hc6.
    apply directive_balanced; [lia|done|done|by rewrite Hlast|done].
Qed.

Lemma peg_parseEmbed_body_span :
  spanSpec input processEmbed true k Bal
    (peg_parseEmbed_body input processEmbed peg_parseEmbed_rec).
Proof using Hrec.
  intros st HI Hk. unfold peg_parseEmbed_body.
  apply wp_bind. eapply wp_mono; [by apply peg_parseInlineEmbed_span|by intros|].
  intros s0 st1 (HI1 & Hle1 & Hn1 & Hc1 & HG1). cbv beta.
  destruct s0 as [v|].
  - apply wp_ret. split_and!; [done|lia|done| |done]. intros. apply Hc1; eauto.
  - specialize (Hn1 eq_refl).
    eapply wp_mono; [apply peg_parseMutliLineEmbed_span; [done|lia]|by intros|].
    intros v st2 (? & ? & Hn2 & Hc2 & HG2). cbv beta. rewrite Hn1 in *. done.
Qed.
End Directives.

Section Calls.
Context {W : Type}.
Variable input : jsstring.
Variable processEmbed : option EmbedType → list Argument → bool → W → PEResult * W.
Implicit Types st : PegState W.

Lemma peg_parseEmbed_span depth k :
  length input < k + depth →
  spanSpec input processEmbed true k
    (λ _ p q, balanced (substring input p q))
    (peg_parseEmbed input processEmbed depth).
Proof.
  revert k. induction depth as [|depth IH]; intros k Hd; simpl.
  - intros st ((_ & _ & ?) & _) ?. exfalso. lia.
  - apply peg_parseEmbed_body_span. apply IH. lia.
Qed.

Lemma peg_init_CallInv (options : W) : CallInv input (peg_init options).
Proof. split; [apply peg_init_Inv|constructor]. Qed.

Lemma peg_throwFurthest_calls {A} st (Q : A → PegState W → Prop) :
  CallInv input st → wp (runThrow input processEmbed) (peg_throwFurthest input) Q st.
Proof.
  intros [(Hf & Hc & Hp) HL]. unfold peg_throwFurthest.
  apply wp_bind. unfold getMaxFailPos at 1, wp at 1.
  apply wp_bind. unfold getMaxFailExpected at 1, wp at 1.
  assert (∀ e st', cacheStep st st' →
            wp (runThrow input processEmbed) (throw (ParseFailure e)) Q st') as Hthrow.
  { intros e st' Hstep. unfold wp, throw, runThrow.
    destruct Hstep as (_ & _ & _ & _ & _ & _ & ->). done. }
  apply wp_bind. case_decide.
  - apply wp_computeLocation; [done|]. intros st' Hstep _. by apply Hthrow.
  - apply wp_computeLocation; [done|]. intros st' Hstep _. by apply Hthrow.
Qed.

Lemma peg_finish_calls r st :
  CallInv input st →
  wp (runThrow input processEmbed) (peg_finish input r)
    (λ s st', r = Some s ∧ peg_currPos st' = length input ∧ st' = st) st.
Proof.
  intros HI. unfold peg_finish. wp_get.
  destruct r as [s|]; [|by apply peg_throwFurthest_calls].
  case_decide as Hend; [by apply wp_ret|].
  apply wp_bind. case_decide.
  - apply wp_fail. intros st' Hc Hs Hstep.
    apply peg_throwFurthest_calls. apply (CallInv_leafStep input st); [done|done|].
    rewrite Hc. apply HI.
  - apply wp_ret. by apply peg_throwFurthest_calls.
Qed.

Lemma callThrow_runThrow e st :
  callThrow input processEmbed e st → runThrow input processEmbed e st.
Proof. destruct e; [|done..]. by intros (_ & c & w & _ & _ & []). Qed.

Lemma substring_all (s : jsstring) : substring s 0 (length s) = s.
Proof.
  pose proof (substring_take_drop s 0 (length s) ltac:(lia)) as H.
  rewrite drop_0 in H. change (0 + length s) with (length s) in H.
  by rewrite H, firstn_all.
Qed.

Lemma peg_parse_calls options :
  wp (runThrow input processEmbed)
    (λ _ : PegState W, peg_parse input processEmbed options)
    (λ _ st', Forall (directiveCall input) (peg_embedLog st') ∧ balanced input)
    (peg_init options).
Proof.
  unfold peg_parse.
  change (wp (runThrow input processEmbed)
            (peg_parseSource input (peg_parseEmbed input processEmbed (S (length input)))
             ≫= peg_finish input)
            (λ _ st', Forall (directiveCall input) (peg_embedLog st') ∧ balanced input)
            (peg_init options)).
  apply wp_bind.
  eapply wp_mono;
    [apply (peg_parseSource_span input processEmbed 0
              (peg_parseEmbed input processEmbed (S (length input))));
       [apply peg_parseEmbed_span; lia|apply peg_init_CallInv|simpl; lia]
    |apply callThrow_runThrow|].
  intros r st1 (HI1 & _ & _ & _ & HG). cbv beta.
  eapply wp_mono; [by apply peg_finish_calls|done|].
  intros s st2 (-> & Hend & ->). split; [apply HI1|].
  specialize (HG s eq_refl). simpl in HG. rewrite Hend in HG.
  by rewrite substring_all in HG.
Qed.
End Calls.

(** ** What a parse does with the directives of its source *)

(** X16. A source whose braces do not match is never accepted: whatever
    [processEmbed] does, [peg$parse] ends with an exception. *)
Theorem unmatched_braces_are_rejected {W} (input : jsstring)
    (processEmbed : option EmbedType → list Argument → bool → W → PEResult * W)
    (options : W) :
  bracesMatch input = false →
  ∃ e st, peg_parse input processEmbed options = Throw e st.
Proof.
  intros Hno. pose proof (peg_parse_calls input processEmbed options) as Hrun.
  unfold wp in Hrun.
  destruct (peg_parse input processEmbed options) as [s st|e st|]; [|by eauto|done].
  destruct Hrun as [_ Hb]. apply balanced_braceDepth with (d := 0) in Hb.
  unfold bracesMatch in Hno. by rewrite bool_decide_eq_false in Hno.
Qed.

Lemma unmatched_braces_are_rejected_witness :
  bracesMatch (js "{a|{b}") = false
  ∧ ∃ e st, peg_parse (js "{a|{b}") upToTwo () = Throw e st.
Proof.
  split; [reflexivity|].
  exact (unmatched_braces_are_rejected (js "{a|{b}") upToTwo () eq_refl).
Defined.

(** X17. [peg$parse] always ends, and every call of [processEmbed] it has made
    by then, also in an alternative it abandoned and before an exception, is
    for a directive of the source: the span handed over by [peg$savedPos]
    and [peg$currPos] starts with an opening and ends with a closing brace,
    the braces in between match, and the arguments, at least one, were read
    between the two braces, one after the other, with the locations they
    carry. *)
Theorem processEmbed_is_called_for_directives {W} (input : jsstring)
    (processEmbed : option EmbedType → list Argument → bool → W → PEResult * W)
    (options : W) :
  ∃ st, finalState (peg_parse input processEmbed options) = Some st
        ∧ Forall (directiveCall input) (peg_embedLog st).
Proof.
  pose proof (peg_parse_calls input processEmbed options) as Hrun.
  unfold wp in Hrun.
  destruct (peg_parse input processEmbed options) as [s st|e st|]; [| |done].
  - exists st. split; [done|apply Hrun].
  - exists st. split; [done|]. destruct e; [done|apply Hrun..].
Qed.

(** X18. When [processEmbed] calls the [expected] callback, [peg$parse] ends
    with the [SyntaxError] of the callback, and the call was the last one
    made: the error has the description given as its one expectation, the
    text of the whole directive as what was found, and the location given
    or, without one, the span of the directive. *)
Theorem expected_reports_the_directive {W} (input : jsstring)
    (processEmbed : option EmbedType → list Argument → bool → W → PEResult * W)
    (options : W) (err : SyntaxError) :
  raised (peg_parse input processEmbed options) = Some (ExpectedError err) →
  ∃ st c w description location1,
    finalState (peg_parse input processEmbed options) = Some st
    ∧ last (peg_embedLog st) = Some c
    ∧ directiveCall input c
    ∧ processEmbed (call_type c) (call_args c) (call_multiline c) w
        = (PE_expected description location1, peg_world st)
    ∧ err = mkSyntaxError [OtherExpectation description]
              (Some (substring input (call_from c) (call_to c)))
              (default
                 (mkRange (positionAt input (call_from c)) (positionAt input (call_to c)))
                 location1).
Proof.
  intros Hraised. pose proof (peg_parse_calls input processEmbed options) as Hrun.
  unfold wp in Hrun.
  destruct (peg_parse input processEmbed options) as [s st|e st|]; [done| |done].
  injection Hraised as ->.
  destruct Hrun as (Hall & c & w & Hlast & Hw & description & location1 & Hpe & ->).
  exists st, c, w, description, location1. split_and!; [done|done| | |done].
  - rewrite Forall_forall in Hall. apply Hall. by apply last_Some_elem_of.
  - rewrite Hw, <- Hpe. by destruct (processEmbed _ _ _ _).
Qed.

Lemma expected_reports_the_directive_witness :
  raised (peg_parse (js "a{b|c}") upToTwo ())
    = Some (ExpectedError
              (mkSyntaxError [OtherExpectation (js "one branch")] (Some (js "{b|c}"))
                 (mkRange (mkPos 1 1 2) (mkPos 6 1 7))))
  ∧ ∃ st c w description location1,
      finalState (peg_parse (js "a{b|c}") upToTwo ()) = Some st
      ∧ last (peg_embedLog st) = Some c
      ∧ directiveCall (js "a{b|c}") c
      ∧ upToTwo (call_type c) (call_args c) (call_multiline c) w
          = (PE_expected description location1, peg_world st)
      ∧ mkSyntaxError [OtherExpectation (js "one branch")] (Some (js "{b|c}"))
          (mkRange (mkPos 1 1 2) (mkPos 6 1 7))
        = mkSyntaxError [OtherExpectation description]
            (Some (substring (js "a{b|c}") (call_from c) (call_to c)))
            (default
               (mkRange (positionAt (js "a{b|c}") (call_from c))
                  (positionAt (js "a{b|c}") (call_to c)))
               location1).
Proof.
  assert (raised (peg_parse (js "a{b|c}") upToTwo ())
          = Some (ExpectedError
                    (mkSyntaxError [OtherExpectation (js "one branch")] (Some (js "{b|c}"))
                       (mkRange (mkPos 1 1 2) (mkPos 6 1 7))))) as H
    by (vm_compute; reflexivity).
  split; [exact H|].
  exact (expected_reports_the_directive (js "a{b|c}") upToTwo () _ H).
Defined.

(** X19. When [processEmbed] throws, [peg$parse] ends with that exception, and
    the call was the last one made, for a directive of the source; no rule
    goes on after it. *)
Theorem exception_of_processEmbed_ends_the_parse {W} (input : jsstring)
    (processEmbed : option EmbedType → list Argument → bool → W → PEResult * W)
    (options : W) (x : jsstring) :
  raised (peg_parse input processEmbed options) = Some (Foreign x) →
  ∃ st c w,
    finalState (peg_parse input processEmbed options) = Some st
    ∧ last (peg_embedLog st) = Some c
    ∧ directiveCall input c
    ∧ processEmbed (call_type c) (call_args c) (call_multiline c) w
        = (PE_throw x, peg_world st).
Proof.
  intros Hraised. pose proof (peg_parse_calls input processEmbed options) as Hrun.
  unfold wp in Hrun.
  destruct (peg_parse input processEmbed options) as [s st|e st|]; [done| |done].
  injection Hraised as ->.
  destruct Hrun as (Hall & c & w & Hlast & Hw & Hpe).
  exists st, c, w. split_and!; [done|done| |].
  - rewrite Forall_forall in Hall. apply Hall. by apply last_Some_elem_of.
  - rewrite Hw, <- Hpe. by destruct (processEmbed _ _ _ _).
Qed.

Lemma exception_of_processEmbed_ends_the_parse_witness :
  raised (peg_parse (js "{a|b|c} and {d}") upToTwo ()) = Some (Foreign (js "RangeError"))
  ∧ ∃ st c w,
      finalState (peg_parse (js "{a|b|c} and {d}") upToTwo ()) = Some st
      ∧ last (peg_embedLog st) = Some c
      ∧ directiveCall (js "{a|b|c} and {d}") c
      ∧ upToTwo (call_type c) (call_args c) (call_multiline c) w
          = (PE_throw (js "RangeError"), peg_world st).
Proof.
  assert (raised (peg_parse (js "{a|b|c} and {d}") upToTwo ())
          = Some (Foreign (js "RangeError"))) as H
    by (vm_compute; reflexivity).
  split; [exact H|].
  exact (exception_of_processEmbed_ends_the_parse (js "{a|b|c} and {d}") upToTwo () _ H).
Defined.

(** ** A plain inline directive, step by step *)

Lemma nonEmpty_cases (l : jsstring) :
  (l = [] ∧ nonEmpty l = None) ∨ (l ≠ [] ∧ nonEmpty l = Some l).
Proof. destruct l; [by left|by right]. Qed.

Section PlainSteps.
Context {W : Type}.
Variable input : jsstring.
Variable processEmbed : option EmbedType → list Argument → bool → W → PEResult * W.
Implicit Types st : PegState W.

Lemma leaf_reached {A} (m : M W (option A)) f q w log st :
  leafSpec input m f → reached input q w log st →
  wp noThrow m
    (λ v st', v = fst <$> f (drop q input)
              ∧ reached input (q + default 0 (snd <$> f (drop q input))) w log st') st.
Proof.
  intros Hm (Hc & Hq & Hw & Hlog). eapply wp_mono; [apply Hm|by intros ? ? []|].
  intros v st' ((Hw' & Hl & Hcache & _) & -> & Hp). cbv beta. rewrite Hq in *.
  split; [done|]. unfold reached.
  split_and!; [by eapply CacheInv_same|done|congruence|congruence].
Qed.

Lemma leaf_reached_some {A} (m : M W (option A)) f q w log st a n
    (Q : option A → PegState W → Prop) :
  leafSpec input m f → f (drop q input) = Some (a, n) → reached input q w log st →
  (∀ st', reached input (q + n) w log st' → Q (Some a) st') →
  wp noThrow m Q st.
Proof.
  intros Hm Hf Hst HQ.
  eapply wp_mono; [by apply (leaf_reached m f q w log st)|by intros ? ? []|].
  intros v st' (-> & H). rewrite Hf in *. by apply HQ.
Qed.

Lemma leaf_reached_none {A} (m : M W (option A)) f q w log st
    (Q : option A → PegState W → Prop) :
  leafSpec input m f → f (drop q input) = None → reached input q w log st →
  (∀ st', reached input q w log st' → Q None st') →
  wp noThrow m Q st.
Proof.
  intros Hm Hf Hst HQ.
  eapply wp_mono; [by apply (leaf_reached m f q w log st)|by intros ? ? []|].
  intros v st' (-> & H). rewrite Hf in *. simpl in H. rewrite Nat.add_0_r in H.
  by apply HQ.
Qed.

Lemma setSavedPos_reached p q w log st (Q : unit → PegState W → Prop) :
  reached input q w log st →
  (∀ st', reached input q w log st' → peg_savedPos st' = p → Q () st') →
  wp noThrow (setSavedPos p) Q st.
Proof. intros (?&?&?&?) HQ. apply HQ; [|done]. unfold reached. by split_and!. Qed.

Lemma setCurrPos_reached p q w log st (Q : unit → PegState W → Prop) :
  reached input q w log st → (∀ st', reached input p w log st' → Q () st') →
  wp noThrow (setCurrPos p) Q st.
Proof. intros (?&?&?&?) HQ. apply HQ. unfold reached. by split_and!. Qed.

Lemma location_reached q w log st (Q : IFileRange → PegState W → Prop) :
  reached input q w log st →
  (∀ st', reached input q w log st' →
          Q (mkRange (positionAt input (peg_savedPos st)) (positionAt input q)) st') →
  wp noThrow (location input) Q st.
Proof.
  intros (Hc & Hq & Hw & Hl) HQ. apply wp_location; [done|].
  intros st' (Hp & _ & _ & _ & Hw' & _ & Hlog) Hc'. rewrite Hq. apply HQ.
  unfold reached. split_and!; [done|congruence|congruence|congruence].
Qed.

Lemma embed_reached_no_brace depth q w log st :
  input !! q ≠ Some 123%N → reached input q w log st →
  wp noThrow (peg_parseEmbed input processEmbed (S depth))
    (λ v st', v = None ∧ reached input q w log st') st.
Proof.
  intros Hb (Hc & Hq & Hw & Hl).
  eapply wp_mono; [apply peg_parseEmbed_no_brace|by intros ? ? []|].
  - by rewrite head_drop, Hq.
  - intros v st' (-> & (Hw' & Hl' & Hc' & _) & Hp). split; [done|].
    unfold reached. split_and!; [by eapply CacheInv_same|congruence|congruence|congruence].
Qed.

(** *** One branch *)

Lemma plainBranch_class b : plainBranch b → Forall (λ c, peg_c49 c = true) b.
Proof.
  intros H. eapply Forall_impl; [exact H|]. intros c Hc. unfold peg_c49.
  rewrite inClass_inverted. by apply bool_decide_eq_true.
Qed.

Lemma classRun_app_stop cls (l : jsstring) c tail :
  Forall (λ c, cls c = true) l → cls c = false → classRun cls (l ++ c :: tail) = l.
Proof.
  intros Hl Hc. induction Hl as [|x l Hx _ IH]; simpl; [by rewrite Hc|].
  by rewrite Hx, IH.
Qed.

Lemma separator_cases (sep : N) : sep ∈ [124; 125]%N → sep = 124%N ∨ sep = 125%N.
Proof. rewrite !elem_of_cons, elem_of_nil. tauto. Qed.

Lemma stop_cases (sep : N) :
  sep ∈ [124; 125; 13; 10]%N → sep = 124%N ∨ sep = 125%N ∨ sep = 13%N ∨ sep = 10%N.
Proof. rewrite !elem_of_cons, elem_of_nil. tauto. Qed.

Lemma separator_stop (sep : N) : sep ∈ [124; 125]%N → sep ∈ [124; 125; 13; 10]%N.
Proof. rewrite !elem_of_cons, !elem_of_nil. tauto. Qed.

Lemma inlineTextOf_branch b sep tail :
  plainBranch b → sep ∈ [124; 125; 13; 10]%N →
  inlineTextOf (b ++ sep :: tail) = (λ l, (l, length l)) <$> nonEmpty b.
Proof.
  intros Hb Hsep. unfold inlineTextOf, plusOf.
  rewrite classRun_app_stop; [done|by apply plainBranch_class|].
  unfold peg_c49. rewrite inClass_inverted. apply bool_decide_eq_false.
  intros Hn. apply Hn.
  apply stop_cases in Hsep as [-> | [-> | [-> | ->]]]; by apply (bool_decide_unpack _).
Qed.

(** An argument that is a plain branch, up to the pipe, the brace or the
    line break [sep] that follows it. *)
Lemma argument_reached depth q w log b sep tail st :
  drop q input = b ++ sep :: tail → plainBranch b → sep ∈ [124; 125; 13; 10]%N →
  reached input q w log st →
  wp noThrow (peg_parseArgument input (peg_parseEmbed input processEmbed (S depth)))
    (λ v st',
       v = Some (mkArgument None None b
                   (mkRange (positionAt input q) (positionAt input (q + length b))))
       ∧ reached input (q + length b) w log st') st.
Proof.
  intros Hdrop Hb Hsep Hst.
  assert (drop (q + length b) input = sep :: tail) as Hnext.
  { by rewrite <- drop_drop, Hdrop, drop_app_length. }
  assert (input !! (q + length b) = Some sep) as Hat.
  { rewrite <- (Nat.add_0_r (q + length b)), <- lookup_drop, Hnext. done. }
  assert (sep ≠ 123%N) as Hnob
    by (by apply stop_cases in Hsep as [-> | [-> | [-> | ->]]]).
  assert (inlineTextOf (sep :: tail) = None) as Hnotext
    by exact (inlineTextOf_branch [] sep tail ltac:(constructor) Hsep).
  pose proof (inlineTextOf_branch b sep tail Hb Hsep) as Htext.
  unfold peg_parseArgument. wp_get.
  apply wp_bind. unfold peg_parseInlineSource at 1. wp_get.
  apply wp_bind. unfold orEmbed at 1. apply wp_bind.
  destruct Hst as (Hc0 & Hq0 & Hw0 & Hl0). rewrite Hq0.
  assert (reached input q w log st) as Hst by done.
  destruct b as [|c b].
  - (* the empty branch: [InlineSource] fails *)
    simpl in Hdrop, Htext. rewrite Nat.add_0_r in Hnext, Hat.
    apply (leaf_reached_none _ _ q w log st _ (peg_parseInlineText_spec (W:=W) input));
      [by rewrite Hdrop|done|].
    intros st1 H1. cbv beta iota.
    eapply wp_mono; [apply (embed_reached_no_brace depth q w log st1); [|done]|by intros ? ? []|].
    { rewrite Hat. congruence. }
    intros v st2 (-> & H2). cbv beta iota. apply wp_ret.
    apply wp_bind. eapply setSavedPos_reached; [done|]. intros st3 H3 Hs3.
    apply wp_bind. unfold peg_c38. apply wp_bind.
    eapply location_reached; [done|]. intros st4 H4. rewrite Hs3.
    apply wp_ret, wp_ret. by rewrite Nat.add_0_r.
  - (* some text, and then the separator *)
    apply (leaf_reached_some _ _ q w log st (c :: b) (length (c :: b)) _
             (peg_parseInlineText_spec (W:=W) input));
      [by rewrite Hdrop, Htext|done|].
    intros st1 H1. cbv beta iota. apply wp_ret.
    apply wp_bind. unfold loopFuel. cbn [repeatLoop].
    apply wp_bind. unfold orEmbed at 1. apply wp_bind.
    apply (leaf_reached_none _ _ (q + length (c :: b)) w log st1 _
             (peg_parseInlineText_spec (W:=W) input));
      [by rewrite Hnext|done|].
    intros st2 H2. cbv beta iota.
    eapply wp_mono;
      [apply (embed_reached_no_brace depth (q + length (c :: b)) w log st2); [|done]
      |by intros ? ? []|].
    { rewrite Hat. congruence. }
    intros v st3 (-> & H3). cbv beta iota. apply loop_ends.
    apply wp_bind. eapply setSavedPos_reached; [done|]. intros st4 H4 _. apply wp_ret.
    apply wp_bind. eapply setSavedPos_reached; [done|]. intros st5 H5 Hs5.
    apply wp_bind. unfold peg_c38. apply wp_bind.
    eapply location_reached; [done|]. intros st6 H6. rewrite Hs5.
    apply wp_ret, wp_ret. split; [|done]. simpl. unfold peg_c0. simpl.
    by rewrite app_nil_r.
Qed.

(** *** The further branches *)

Lemma next_separator (rest : list jsstring) (post : jsstring) :
  ∃ sep tail,
    concat ((λ b, 124%N :: b) <$> rest) ++ 125%N :: post = sep :: tail
    ∧ sep ∈ [124; 125]%N.
Proof.
  destruct rest as [|b rest]; simpl.
  - exists 125%N, post. split; [done|]. rewrite !elem_of_cons. tauto.
  - eexists 124%N, _. split; [done|]. rewrite !elem_of_cons. tauto.
Qed.

Lemma length_pipes (l : list jsstring) :
  length l ≤ length (concat ((λ b, 124%N :: b) <$> l)).
Proof.
  induction l as [|b l IH]; [done|].
  rewrite fmap_cons, concat_cons, length_app. cbn [length]. lia.
Qed.

Lemma lookup_of_drop q c (tail : jsstring) : drop q input = c :: tail → input !! q = Some c.
Proof. intros H. by rewrite <- (Nat.add_0_r q), <- lookup_drop, H. Qed.

Lemma drop_next q c (tail : jsstring) : drop q input = c :: tail → drop (q + 1) input = tail.
Proof. intros H. by rewrite <- drop_drop, H. Qed.

Lemma pipes_reached depth (post : jsstring)
    (Q : list (jsstring * Argument) → PegState W → Prop) :
  ∀ rest n acc q w log st,
    length rest ≤ n →
    drop q input = concat ((λ b, 124%N :: b) <$> rest) ++ 125%N :: post →
    Forall plainBranch rest →
    reached input q w log st →
    (∀ st', reached input (q + length (concat ((λ b, 124%N :: b) <$> rest))) w log st' →
            Q (acc ++ ((λ a, ([124%N], a)) <$> branchArguments input (q + 1) rest)) st') →
    wp noThrow (pipeArgument input (peg_parseEmbed input processEmbed (S depth)))
      (λ s3 st1,
         wp noThrow
           (repeatLoop (pipeArgument input (peg_parseEmbed input processEmbed (S depth)))
              n acc s3) Q st1) st.
Proof.
  intros rest. induction rest as [|b rest IH]; intros n acc q w log st Hn Hdrop Hplain Hst HQ.
  - simpl in Hdrop. unfold pipeArgument at 1. wp_get.
    destruct Hst as (Hc0 & Hq0 & Hw0 & Hl0). rewrite Hq0.
    assert (reached input q w log st) as Hst by done.
    apply wp_bind.
    apply (leaf_reached_none _ _ q w log st _ (matchCharCode_spec (W:=W) input 124%N peg_c40));
      [by rewrite Hdrop|done|].
    intros st1 H1. cbv beta iota.
    apply wp_bind. eapply setCurrPos_reached; [done|]. intros st2 H2. apply wp_ret.
    apply loop_ends. simpl in HQ. rewrite app_nil_r, Nat.add_0_r in HQ. by apply HQ.
  - assert (drop q input
            = 124%N :: b ++ concat ((λ b, 124%N :: b) <$> rest) ++ 125%N :: post) as Hq.
    { rewrite Hdrop. simpl. by rewrite <- app_assoc. }
    clear Hdrop. rename Hq into Hdrop.
    destruct n as [|n]; [simpl in Hn; lia|]. simpl in Hn.
    apply Forall_cons in Hplain as [Hb Hplain].
    destruct (next_separator rest post) as (sep & tail & Hnext & Hsep).
    rewrite Hnext in Hdrop.
    unfold pipeArgument at 1. wp_get.
    destruct Hst as (Hc0 & Hq0 & Hw0 & Hl0). rewrite Hq0.
    assert (reached input q w log st) as Hst by done.
    apply wp_bind.
    apply (leaf_reached_some _ _ q w log st [124%N] 1 _
             (matchCharCode_spec (W:=W) input 124%N peg_c40));
      [by rewrite Hdrop|done|].
    intros st1 H1. cbv beta iota.
    apply wp_bind.
    eapply wp_mono;
      [apply (argument_reached depth (q + 1) w log b sep tail st1);
         [by apply (drop_next q 124%N)|done|by apply separator_stop|done]
      |by intros ? ? []|].
    intros v st2 (-> & H2). cbv beta iota. apply wp_ret.
    cbn [repeatLoop]. apply wp_bind.
    apply (IH n _ (q + 1 + length b) w log st2); [lia| |done|done|].
    + rewrite Hnext. rewrite <- drop_drop, (drop_next q 124%N _ Hdrop).
      by rewrite drop_app_length.
    + intros st3 H3.
      assert (q + length (concat ((λ b, 124%N :: b) <$> (b :: rest)))
              = q + 1 + length b + length (concat ((λ b, 124%N :: b) <$> rest))) as Heq.
      { rewrite fmap_cons. simpl. rewrite length_app. lia. }
      specialize (HQ st3). rewrite Heq in HQ. specialize (HQ H3).
      rewrite <- app_assoc. exact HQ.
Qed.

(** *** No condition, no type *)

Lemma literalOf_unmarked lit first sep (tail : jsstring) :
  58%N ∉ first → 58%N ∈ lit → sep ∉ lit → literalOf lit (first ++ sep :: tail) = None.
Proof.
  intros Hno Hin Hsep. unfold literalOf. rewrite decide_False; [done|]. intros Heq.
  destruct (decide (length lit ≤ length first)) as [Hle|Hgt].
  - rewrite take_app_le in Heq by done. apply Hno.
    rewrite <- Heq in Hin. apply list_elem_of_lookup in Hin as [i Hi].
    apply lookup_take_Some in Hi as [Hi _]. by apply list_elem_of_lookup_2 in Hi.
  - apply Hsep. apply (list_elem_of_lookup_2 _ (length first)).
    rewrite <- Heq. rewrite lookup_take_lt by lia.
    by rewrite lookup_app_r, Nat.sub_diag by lia.
Qed.

Lemma head_branch first sep (tail : jsstring) :
  head (first ++ sep :: tail) = Some (default sep (head first)).
Proof. by destruct first. Qed.

Lemma conditionOrTypeOf_unmarked first sep tail :
  plainBranch first → unmarked first → sep ∈ [124; 125]%N →
  conditionOrTypeOf (first ++ sep :: tail) = None.
Proof.
  intros Hplain [Hcolon Hhead] Hsep.
  assert (sep = 124%N ∨ sep = 125%N) as Hcases by by apply separator_cases.
  assert (classRun peg_c35 (first ++ sep :: tail) = first) as Hrun.
  { apply classRun_app_stop.
    - unfold plainBranch in Hplain. rewrite Forall_forall in Hplain.
      apply Forall_forall. intros c Hc.
      unfold peg_c35. rewrite inClass_inverted. apply bool_decide_eq_true.
      specialize (Hplain c Hc). intros Hin.
      rewrite !elem_of_cons, elem_of_nil in Hin.
      assert (c ≠ 58%N) by (by intros ->).
      apply Hplain. rewrite !elem_of_cons. tauto.
    - unfold peg_c35. rewrite inClass_inverted. apply bool_decide_eq_false.
      intros Hn. apply Hn. rewrite !elem_of_cons. destruct Hcases as [-> | ->]; tauto. }
  assert (conditionOf (first ++ sep :: tail) = None) as Hcond.
  { unfold conditionOf. rewrite Hrun. destruct first as [|c first]; [done|].
    rewrite decide_False; [done|].
    rewrite lookup_app_r, Nat.sub_diag by lia. simpl.
    destruct Hcases as [-> | ->]; congruence. }
  assert (∀ sym, Some sym ∈ [Some 126%N; Some 38%N; Some 33%N] →
            charOf sym (first ++ sep :: tail) = None) as Hsym.
  { intros sym Hin. unfold charOf. rewrite decide_False; [done|].
    rewrite head_branch. intros [= Heq]. destruct first as [|c first]; simpl in *.
    - subst sym. rewrite !elem_of_cons, elem_of_nil in Hin.
      destruct Hcases as [-> | ->]; by destruct Hin as [?|[?|[?|[]]]].
    - by subst c. }
  assert (∀ lit, lit ∈ [peg_c14; peg_c19; peg_c24; peg_c29] →
            literalOf lit (first ++ sep :: tail) = None) as Hlit.
  { intros lit Hin. apply literalOf_unmarked; [done| |].
    - rewrite !elem_of_cons, elem_of_nil in Hin.
      destruct Hin as [->|[->|[->|[->|[]]]]]; by apply (bool_decide_unpack _).
    - rewrite !elem_of_cons, elem_of_nil in Hin.
      destruct Hin as [->|[->|[->|[->|[]]]]]; destruct Hcases as [-> | ->];
        by apply (bool_decide_unpack _). }
  unfold conditionOrTypeOf. rewrite Hcond.
  unfold typeOf, stoppingOf, markerOf.
  rewrite !Hsym by (rewrite !elem_of_cons; tauto).
  rewrite !Hlit by (rewrite !elem_of_cons; tauto). done.
Qed.

(** *** The call, and the directive *)

Lemma call_reached type args multiline q w w' log r st
    (Q : jsstring → PegState W → Prop) :
  reached input q w log st →
  processEmbed type args multiline w = (PE_return r, w') →
  (∀ st', reached input q w'
            (log ++ [mkEmbedCall type args multiline (peg_savedPos st) q]) st' →
          Q r st') →
  wp noThrow (call_processEmbed input processEmbed type args multiline) Q st.
Proof.
  intros (Hc & Hq & Hw & Hl) Hrun HQ. unfold wp, call_processEmbed.
  rewrite Hw, Hrun. cbv iota zeta beta. apply HQ. unfold reached. simpl.
  by rewrite Hq, Hl.
Qed.

Lemma map_snd_pair {A B} (x : A) (l : list B) : (snd <$> ((λ a, (x, a)) <$> l)) = l.
Proof. induction l as [|b l IH]; simpl; [done|]. by f_equal. Qed.

Lemma inline_reached depth k w w' log first others (post : jsstring) r st :
  drop k input = inlineDirective first others ++ post →
  Forall plainBranch (first :: others) → unmarked first →
  processEmbed None (branchArguments input (k + 1) (first :: others)) false w
    = (PE_return r, w') →
  reached input k w log st →
  wp noThrow (peg_parseEmbed input processEmbed (S (S depth)))
    (λ v st',
       v = Some r
       ∧ reached input (k + length (inlineDirective first others)) w'
           (log ++ [mkEmbedCall None (branchArguments input (k + 1) (first :: others))
                      false k (k + length (inlineDirective first others))]) st') st.
Proof.
  intros Hdrop Hplain Hunmarked Hrun Hst.
  apply Forall_cons in Hplain as [Hfirst Hothers].
  set (others' := concat ((λ b, 124%N :: b) <$> others)) in *.
  assert (drop k input = 123%N :: first ++ others' ++ 125%N :: post) as Hk.
  { rewrite Hdrop. unfold inlineDirective. fold others'. simpl.
    by rewrite <- !app_assoc. }
  destruct (next_separator others post) as (sep & tail & Hnext & Hsep).
  fold others' in Hnext.
  assert (drop (k + 1) input = first ++ sep :: tail) as Hk1.
  { rewrite (drop_next k _ _ Hk). by rewrite Hnext. }
  assert (drop (k + 1 + length first) input = others' ++ 125%N :: post) as Hk2.
  { rewrite <- drop_drop, Hk1, drop_app_length. done. }
  assert (drop (k + 1 + length first + length others') input = 125%N :: post) as Hk3.
  { rewrite <- drop_drop, Hk2, drop_app_length. done. }
  assert (length others ≤ length input) as Hfuel.
  { pose proof (f_equal length Hk2) as Hlen. rewrite length_drop, length_app in Hlen.
    pose proof (length_pipes others). fold others' in H. lia. }
  assert (length (inlineDirective first others) = 1 + length first + length others' + 1)
    as Hlength.
  { unfold inlineDirective. fold others'. simpl. rewrite !length_app. simpl. lia. }
  change (peg_parseEmbed input processEmbed (S (S depth)))
    with (peg_parseEmbed_body input processEmbed
            (peg_parseEmbed input processEmbed (S depth))).
  unfold peg_parseEmbed_body. apply wp_bind.
  unfold peg_parseInlineEmbed at 1. wp_get.
  destruct Hst as (Hc0 & Hq0 & Hw0 & Hl0). rewrite Hq0.
  assert (reached input k w log st) as Hst by done.
  (* the opening brace *)
  apply wp_bind.
  apply (leaf_reached_some _ _ k w log st [123%N] 1 _
           (matchCharCode_spec (W:=W) input 123%N peg_c2));
    [by rewrite Hk|done|].
  intros st1 H1. cbv beta iota.
  (* no condition, no type *)
  apply wp_bind.
  apply (leaf_reached_none _ _ (k + 1) w log st1 _ (conditionOrType_spec (W:=W) input));
    [rewrite Hk1; by apply conditionOrTypeOf_unmarked|done|].
  intros st2 H2. cbv beta iota.
  (* the branches *)
  apply wp_bind. unfold peg_parseArguments at 1. wp_get.
  destruct H2 as (Hc2 & Hq2 & Hw2 & Hl2). rewrite Hq2.
  assert (reached input (k + 1) w log st2) as H2 by done.
  apply wp_bind.
  eapply wp_mono;
    [apply (argument_reached depth (k + 1) w log first sep tail st2);
       [done|done|by apply separator_stop|done]
    |by intros ? ? []|].
  intros v st3 (-> & H3). cbv beta iota.
  apply wp_bind.
  eapply wp_mono;
    [apply (pipes_reached depth post
              (λ l st',
                 l = (λ a, ([124%N], a)) <$> branchArguments input (k + 1 + length first + 1) others
                 ∧ reached input (k + 1 + length first + length others') w log st')
              others (loopFuel input) [] (k + 1 + length first) w log st3);
       [unfold loopFuel; lia|done|done|done|by intros st' H']
    |by intros ? ? []|].
  intros s3 st4 Hloop. cbv beta. apply wp_bind.
  eapply wp_mono; [exact Hloop|by intros ? ? []|].
  intros s2 st5 (-> & H5). cbv beta.
  apply wp_bind. eapply setSavedPos_reached; [done|]. intros st6 H6 _. apply wp_ret.
  cbv beta iota. unfold peg_c41. rewrite map_snd_pair.
  (* the closing brace *)
  apply wp_bind.
  apply (leaf_reached_some _ _ (k + 1 + length first + length others') w log st6 [125%N] 1 _
           (matchCharCode_spec (W:=W) input 125%N peg_c4));
    [by rewrite Hk3|done|].
  intros st7 H7. cbv beta iota.
  apply wp_bind. eapply setSavedPos_reached; [done|]. intros st8 H8 Hs8.
  apply wp_bind.
  change (mkArgument None None first
            (mkRange (positionAt input (k + 1)) (positionAt input (k + 1 + length first)))
          :: branchArguments input (k + 1 + length first + 1) others)
    with (branchArguments input (k + 1) (first :: others)).
  eapply call_reached; [done|done|]. intros st9 H9. rewrite Hs8 in H9.
  apply wp_ret, wp_ret. split; [done|].
  by replace (k + length (inlineDirective first others))
    with (k + 1 + length first + length others' + 1) by lia.
Qed.
Lemma loop_step {A} (it : M W (option A)) n acc v st (Q : list A → PegState W → Prop) :
  1 ≤ n →
  wp noThrow it (λ s st', wp noThrow (repeatLoop it (n - 1) (acc ++ [v]) s) Q st') st →
  wp noThrow (repeatLoop it n acc (Some v)) Q st.
Proof.
  intros Hn H. destruct n as [|n]; [lia|]. cbn [repeatLoop].
  replace (S n - 1) with n in H by lia. by apply wp_bind.
Qed.

(** *** A multi-line directive: the attempt as an inline directive *)

Lemma literalOf_head lit c (tail : jsstring) :
  lit ≠ [] → head lit ≠ Some c → literalOf lit (c :: tail) = None.
Proof.
  intros Hne Hhead. unfold literalOf. rewrite decide_False; [done|].
  destruct lit as [|x lit]; [done|]. simpl. intros [= -> _]. done.
Qed.

Lemma conditionOrTypeOf_line_feed (tail : jsstring) :
  conditionOrTypeOf (10%N :: tail) = None.
Proof.
  unfold conditionOrTypeOf.
  assert (conditionOf (10%N :: tail) = None) as -> by done.
  unfold typeOf, stoppingOf, markerOf.
  rewrite !(charOf_miss _ (10%N :: tail) 10%N) by done.
  rewrite !literalOf_head by done. done.
Qed.

Lemma inline_attempt_reached depth k w log (tail : jsstring) st :
  drop k input = 123%N :: 10%N :: tail →
  reached input k w log st →
  wp noThrow
    (peg_parseInlineEmbed input processEmbed (peg_parseEmbed input processEmbed (S depth)))
    (λ v st', v = None ∧ reached input k w log st') st.
Proof.
  intros Hk Hst.
  assert (drop (k + 1) input = 10%N :: tail) as Hk1 by by apply (drop_next k 123%N).
  unfold peg_parseInlineEmbed. wp_get.
  destruct Hst as (Hc0 & Hq0 & Hw0 & Hl0). rewrite Hq0.
  assert (reached input k w log st) as Hst by done.
  apply wp_bind.
  apply (leaf_reached_some _ _ k w log st [123%N] 1 _
           (matchCharCode_spec (W:=W) input 123%N peg_c2));
    [by rewrite Hk|done|].
  intros st1 H1. cbv beta iota.
  apply wp_bind.
  apply (leaf_reached_none _ _ (k + 1) w log st1 _ (conditionOrType_spec (W:=W) input));
    [rewrite Hk1; apply conditionOrTypeOf_line_feed|done|].
  intros st2 H2. cbv beta iota.
  apply wp_bind. unfold peg_parseArguments at 1. wp_get.
  apply wp_bind.
  eapply wp_mono;
    [apply (argument_reached depth (k + 1) w log [] 10%N tail st2);
       [done|constructor|rewrite !elem_of_cons; tauto|done]
    |by intros ? ? []|].
  intros v st3 (-> & H3). cbv beta iota.
  simpl length in H3. rewrite Nat.add_0_r in H3.
  apply wp_bind. unfold pipeArgument at 1. wp_get.
  destruct H3 as (Hc3 & Hq3 & Hw3 & Hl3). rewrite Hq3.
  assert (reached input (k + 1) w log st3) as H3 by done.
  apply wp_bind.
  apply (leaf_reached_none _ _ (k + 1) w log st3 _
           (matchCharCode_spec (W:=W) input 124%N peg_c40));
    [by rewrite Hk1|done|].
  intros st4 H4. cbv beta iota.
  apply wp_bind. eapply setCurrPos_reached; [done|]. intros st5 H5. apply wp_ret.
  apply wp_bind, loop_ends.
  apply wp_bind. eapply setSavedPos_reached; [done|]. intros st6 H6 _. apply wp_ret.
  cbv beta iota.
  apply wp_bind.
  apply (leaf_reached_none _ _ (k + 1) w log st6 _
           (matchCharCode_spec (W:=W) input 125%N peg_c4));
    [by rewrite Hk1|done|].
  intros st7 H7. cbv beta iota.
  apply wp_bind. eapply setCurrPos_reached; [done|]. intros st8 H8. by apply wp_ret.
Qed.

(** *** The branches of a multi-line directive *)

Lemma classRun_app_rest cls (l : jsstring) c tail :
  cls c = false → classRun cls (l ++ c :: tail) = classRun cls l.
Proof.
  intros Hc. induction l as [|x l IH]; simpl; [by rewrite Hc|].
  destruct (cls x); [by rewrite IH|done].
Qed.

Lemma conditionOf_no_colon (l post : jsstring) :
  58%N ∉ l → conditionOf (l ++ 125%N :: post) = None.
Proof.
  intros Hno. unfold conditionOf.
  rewrite (classRun_app_rest peg_c35 l 125%N post) by done.
  pose proof (classRun_length peg_c35 l) as Hle.
  remember (classRun peg_c35 l) as e eqn:He.
  destruct e as [|c e]; [done|]. cbv zeta. rewrite decide_False; [done|].
  intros Hat. destruct (decide (length (c :: e) < length l)) as [Hlt|Hge].
  - rewrite lookup_app_l in Hat by lia. apply Hno. by eapply list_elem_of_lookup_2.
  - rewrite lookup_app_r in Hat by lia.
    replace (length (c :: e) - length l) with 0 in Hat by lia. done.
Qed.

Lemma peg_c6_trimmable c : peg_c6 c = true → isTrimmable c = true.
Proof.
  unfold peg_c6, inClass. simpl.
  destruct (N.eqb_spec c 32) as [->|]; [done|].
  destruct (N.eqb_spec c 9) as [->|]; [done|].
  destruct (N.eqb_spec c 10) as [->|]; [done|].
  destruct (N.eqb_spec c 13) as [->|]; done.
Qed.

Lemma trim_lead (b : jsstring) : trim (drop (length (classRun peg_c6 b)) b) = trim b.
Proof.
  unfold trim. f_equal. induction b as [|c b IH]; [done|]. simpl.
  destruct (peg_c6 c) eqn:Hc; [|done]. simpl. by rewrite IH, (peg_c6_trimmable c Hc).
Qed.

Lemma next_dash (rest : list jsstring) (post : jsstring) :
  ∃ sep tail,
    concat ((λ b, 45%N :: b) <$> rest) ++ 125%N :: post = sep :: tail
    ∧ (sep = 45%N ∨ sep = 125%N).
Proof.
  destruct rest as [|b rest]; simpl.
  - exists 125%N, post. split; [done|by right].
  - eexists 45%N, _. split; [done|by left].
Qed.

Lemma plainLines_concat (rest : list jsstring) :
  Forall plainLines rest → 58%N ∉ concat ((λ b, 45%N :: b) <$> rest).
Proof.
  induction 1 as [|b rest Hb _ IH]; [apply not_elem_of_nil|].
  rewrite fmap_cons, concat_cons, <- app_comm_cons.
  rewrite not_elem_of_cons, not_elem_of_app. split_and!; [done| |done].
  intros Hin. unfold plainLines in Hb. rewrite Forall_forall in Hb.
  apply (Hb _ Hin). rewrite !elem_of_cons. tauto.
Qed.

Lemma length_dashes (l : list jsstring) :
  length l ≤ length (concat ((λ b, 45%N :: b) <$> l)).
Proof.
  induction l as [|b l IH]; [done|].
  rewrite fmap_cons, concat_cons, length_app. cbn [length]. lia.
Qed.

(** One branch, from its dash to the next dash or the closing brace. *)
Lemma dash_reached depth q w log b (others : list jsstring) (post : jsstring) st :
  drop q input = 45%N :: b ++ concat ((λ b, 45%N :: b) <$> others) ++ 125%N :: post →
  plainLines b → Forall plainLines others →
  reached input q w log st →
  wp noThrow (dashArgument input (peg_parseEmbed input processEmbed (S depth)))
    (λ v st',
       v = Some (mkArgument None None (trim b)
                   (mkRange (positionAt input (q + 1 + length (classRun peg_c6 b)))
                      (positionAt input (q + 1 + length b))))
       ∧ reached input (q + 1 + length b) w log st') st.
Proof.
  intros Hdrop Hb Hothers Hst.
  set (lead := classRun peg_c6 b).
  set (text := drop (length lead) b).
  set (rest := concat ((λ b, 45%N :: b) <$> others)) in *.
  destruct (next_dash others post) as (sep & tail & Hnext & Hsep). fold rest in Hnext.
  assert (length lead ≤ length b) as Hlead by apply classRun_length.
  assert (b = lead ++ text) as Hsplit.
  { unfold text, lead. by rewrite <- (classRun_prefix peg_c6 b) at 1; rewrite take_drop. }
  assert (length b = length lead + length text) as Hlen.
  { rewrite Hsplit at 1. by rewrite length_app. }
  assert (peg_c6 sep = false ∧ peg_c46 sep = false ∧ sep ≠ 123%N) as (Hws & Hstop & Hnob).
  { by destruct Hsep as [-> | ->]. }
  assert (drop (q + 1) input = b ++ sep :: tail) as Hq1.
  { rewrite (drop_next q _ _ Hdrop). by rewrite Hnext. }
  assert (drop (q + 1 + length lead) input = text ++ sep :: tail) as Hq2.
  { rewrite <- drop_drop, Hq1. rewrite Hsplit at 1.
    by rewrite <- app_assoc, drop_app_length. }
  assert (drop (q + 1 + length b) input = sep :: tail) as Hq3.
  { by rewrite <- drop_drop, Hq1, drop_app_length. }
  assert (input !! (q + 1 + length b) = Some sep) as Hat by by apply (lookup_of_drop _ _ tail).
  assert (Forall (λ c, peg_c46 c = true) text) as Htext.
  { unfold text. apply Forall_drop. eapply Forall_impl; [exact Hb|]. intros c Hc.
    unfold peg_c46. rewrite inClass_inverted. apply bool_decide_eq_true.
    intros Hin. apply Hc. rewrite !elem_of_cons in Hin. rewrite !elem_of_cons. tauto. }
  assert (conditionOf (text ++ sep :: tail) = None) as Hcond.
  { rewrite <- Hnext, app_assoc. apply conditionOf_no_colon.
    rewrite not_elem_of_app. split; [|by apply plainLines_concat].
    intros Hin. unfold plainLines in Hb. rewrite Forall_forall in Hb.
    apply (Hb 58%N); [|rewrite !elem_of_cons; tauto].
    unfold text in Hin. by apply subseteq_drop in Hin. }
  assert (multilineTextOf (text ++ sep :: tail)
          = (λ l, (trim l, length l)) <$> nonEmpty text) as Hmulti.
  { unfold multilineTextOf. by rewrite classRun_app_stop. }
  assert (multilineTextOf (sep :: tail) = None) as Hnomulti.
  { unfold multilineTextOf. by rewrite (classRun_head_fail _ _ sep). }
  unfold dashArgument. wp_get.
  destruct Hst as (Hc0 & Hq0 & Hw0 & Hl0). rewrite Hq0.
  assert (reached input q w log st) as Hst by done.
  (* the dash *)
  apply wp_bind.
  apply (leaf_reached_some _ _ q w log st [45%N] 1 _
           (matchCharCode_spec (W:=W) input 45%N peg_c44));
    [by rewrite Hdrop|done|].
  intros st1 H1. cbv beta iota.
  (* the leading white space *)
  apply wp_bind.
  apply (leaf_reached_some _ _ (q + 1) w log st1 () (length lead) _
           (peg_parseWhitespace_spec (W:=W) input));
    [|done|].
  { rewrite Hq1. unfold whitespaceOf. by rewrite classRun_app_rest. }
  intros st2 H2. cbv beta iota.
  (* the argument: no condition *)
  apply wp_bind. unfold peg_parseMultilineArgument at 1. wp_get.
  destruct H2 as (Hc2 & Hq2' & Hw2 & Hl2). rewrite Hq2'.
  assert (reached input (q + 1 + length lead) w log st2) as H2 by done.
  apply wp_bind.
  apply (leaf_reached_none _ _ (q + 1 + length lead) w log st2 _
           (peg_parseCondition_spec (W:=W) input));
    [by rewrite Hq2|done|].
  intros st3 H3. cbv beta iota.
  (* its text *)
  assert (wp noThrow
            (peg_parseInlineMultilineSource input
               (peg_parseEmbed input processEmbed (S depth)))
            (λ v st', default [] v = trim b
                      ∧ reached input (q + 1 + length b) w log st') st3) as Hsource.
  { unfold peg_parseInlineMultilineSource. wp_get.
    apply wp_bind. unfold orEmbed at 1. apply wp_bind.
    destruct (nonEmpty_cases text) as [[Hnil Hne]|[Hnil Hne]].
    - assert (length text = 0) as Ht0 by by rewrite Hnil.
      apply (leaf_reached_none _ _ (q + 1 + length lead) w log st3 _
               (peg_parseInlineMultilineText_spec (W:=W) input));
        [by rewrite Hq2, Hmulti, Hne|done|].
      intros st4 H4. cbv beta iota.
      eapply wp_mono;
        [apply (embed_reached_no_brace depth (q + 1 + length lead) w log st4); [|done]
        |by intros ? ? []|].
      { replace (q + 1 + length lead) with (q + 1 + length b) by lia.
        rewrite Hat. congruence. }
      intros v st5 (-> & H5). cbv beta iota. apply wp_ret. split.
      + simpl. rewrite <- (trim_lead b). fold lead text. by rewrite Hnil.
      + by replace (q + 1 + length b) with (q + 1 + length lead) by lia.
    - apply (leaf_reached_some _ _ (q + 1 + length lead) w log st3 (trim text)
               (length text) _ (peg_parseInlineMultilineText_spec (W:=W) input));
        [by rewrite Hq2, Hmulti, Hne|done|].
      intros st4 H4. cbv beta iota. apply wp_ret.
      replace (q + 1 + length lead + length text) with (q + 1 + length b) in H4 by lia.
      apply wp_bind. unfold loopFuel. cbn [repeatLoop].
      apply wp_bind. unfold orEmbed at 1. apply wp_bind.
      apply (leaf_reached_none _ _ (q + 1 + length b) w log st4 _
               (peg_parseInlineMultilineText_spec (W:=W) input));
        [by rewrite Hq3|done|].
      intros st5 H5. cbv beta iota.
      eapply wp_mono;
        [apply (embed_reached_no_brace depth (q + 1 + length b) w log st5); [|done]
        |by intros ? ? []|].
      { rewrite Hat. congruence. }
      intros v st6 (-> & H6). cbv beta iota. apply loop_ends.
      apply wp_bind. eapply setSavedPos_reached; [done|]. intros st7 H7 _. apply wp_ret.
      split; [|done]. simpl. unfold peg_c0. simpl. rewrite app_nil_r.
      rewrite <- (trim_lead b). done. }
  apply wp_bind. eapply wp_mono; [exact Hsource|by intros ? ? []|].
  intros s2 st4 (Hvalue & H4). cbv beta.
  apply wp_bind. eapply setSavedPos_reached; [done|]. intros st5 H5 Hs5.
  apply wp_bind. unfold peg_c42. apply wp_bind.
  eapply location_reached; [done|]. intros st6 H6. rewrite Hs5, Hvalue.
  apply wp_ret, wp_ret. cbv beta iota.
  (* no white space is left *)
  apply wp_bind.
  apply (leaf_reached_some _ _ (q + 1 + length b) w log st6 () 0 _
           (peg_parseWhitespace_spec (W:=W) input));
    [|done|].
  { rewrite Hq3. unfold whitespaceOf. by rewrite (classRun_head_fail _ _ sep). }
  intros st7 H7. cbv beta iota. rewrite Nat.add_0_r in H7. by apply wp_ret.
Qed.

Lemma dashes_reached depth (post : jsstring) (Q : list Argument → PegState W → Prop) :
  ∀ rest n acc q w log st,
    length rest ≤ n →
    drop q input = concat ((λ b, 45%N :: b) <$> rest) ++ 125%N :: post →
    Forall plainLines rest →
    reached input q w log st →
    (∀ st', reached input (q + length (concat ((λ b, 45%N :: b) <$> rest))) w log st' →
            Q (acc ++ lineArguments input q rest) st') →
    wp noThrow (dashArgument input (peg_parseEmbed input processEmbed (S depth)))
      (λ s3 st1,
         wp noThrow
           (repeatLoop (dashArgument input (peg_parseEmbed input processEmbed (S depth)))
              n acc s3) Q st1) st.
Proof.
  intros rest. induction rest as [|b rest IH]; intros n acc q w log st Hn Hdrop Hplain Hst HQ.
  - simpl in Hdrop. unfold dashArgument at 1. wp_get.
    destruct Hst as (Hc0 & Hq0 & Hw0 & Hl0). rewrite Hq0.
    assert (reached input q w log st) as Hst by done.
    apply wp_bind.
    apply (leaf_reached_none _ _ q w log st _ (matchCharCode_spec (W:=W) input 45%N peg_c44));
      [by rewrite Hdrop|done|].
    intros st1 H1. cbv beta iota.
    apply wp_bind. eapply setCurrPos_reached; [done|]. intros st2 H2. apply wp_ret.
    apply loop_ends. simpl in HQ. rewrite app_nil_r, Nat.add_0_r in HQ. by apply HQ.
  - assert (drop q input
            = 45%N :: b ++ concat ((λ b, 45%N :: b) <$> rest) ++ 125%N :: post) as Hq.
    { rewrite Hdrop. simpl. by rewrite <- app_assoc. }
    destruct n as [|n]; [simpl in Hn; lia|]. simpl in Hn.
    apply Forall_cons in Hplain as [Hb Hplain].
    eapply wp_mono;
      [by apply (dash_reached depth q w log b rest post st)|by intros ? ? []|].
    intros v st2 (-> & H2). cbv beta.
    cbn [repeatLoop]. apply wp_bind.
    apply (IH n _ (q + 1 + length b) w log st2); [lia| |done|done|].
    + rewrite <- drop_drop, (drop_next q 45%N _ Hq). by rewrite drop_app_length.
    + intros st3 H3.
      assert (q + length (concat ((λ b, 45%N :: b) <$> (b :: rest)))
              = q + 1 + length b + length (concat ((λ b, 45%N :: b) <$> rest))) as Heq.
      { rewrite fmap_cons. simpl. rewrite length_app. lia. }
      specialize (HQ st3). rewrite Heq in HQ. specialize (HQ H3).
      rewrite <- app_assoc. exact HQ.
Qed.

(** *** The multi-line directive *)

Lemma multiline_reached depth k w w' log indent first others (post : jsstring) r st :
  drop k input = multilineDirective indent (first :: others) ++ post →
  Forall (λ c, peg_c6 c = true) indent →
  Forall plainLines (first :: others) →
  processEmbed None (lineArguments input (k + 2 + length indent) (first :: others)) true w
    = (PE_return r, w') →
  reached input k w log st →
  wp noThrow (peg_parseEmbed input processEmbed (S (S depth)))
    (λ v st',
       v = Some r
       ∧ reached input (k + length (multilineDirective indent (first :: others))) w'
           (log ++ [mkEmbedCall None
                      (lineArguments input (k + 2 + length indent) (first :: others))
                      true k (k + length (multilineDirective indent (first :: others)))])
           st') st.
Proof.
  intros Hdrop Hindent Hplain Hrun Hst.
  apply Forall_cons in Hplain as [Hfirst Hothers].
  set (others' := concat ((λ b, 45%N :: b) <$> others)) in *.
  assert (drop k input
          = 123%N :: 10%N :: indent ++ 45%N :: first ++ others' ++ 125%N :: post) as Hk.
  { rewrite Hdrop. unfold multilineDirective. rewrite fmap_cons, concat_cons.
    fold others'. simpl. rewrite <- !app_assoc, <- app_comm_cons.
    by rewrite <- !app_assoc. }
  assert (drop (k + 1) input = 10%N :: indent ++ 45%N :: first ++ others' ++ 125%N :: post)
    as Hk1 by by apply (drop_next k 123%N).
  assert (drop (k + 2) input = indent ++ 45%N :: first ++ others' ++ 125%N :: post) as Hk2.
  { replace (k + 2) with (k + 1 + 1) by lia. by apply (drop_next (k + 1) 10%N). }
  assert (drop (k + 2 + length indent) input = 45%N :: first ++ others' ++ 125%N :: post)
    as Hk3.
  { by rewrite <- drop_drop, Hk2, drop_app_length. }
  assert (drop (k + 2 + length indent + 1 + length first) input = others' ++ 125%N :: post)
    as Hk4.
  { rewrite <- drop_drop, (drop_next _ _ _ Hk3). by rewrite drop_app_length. }
  assert (drop (k + 2 + length indent + 1 + length first + length others') input
          = 125%N :: post) as Hk5.
  { by rewrite <- drop_drop, Hk4, drop_app_length. }
  assert (length others ≤ length input) as Hfuel.
  { pose proof (f_equal length Hk4) as Hlen. rewrite length_drop, length_app in Hlen.
    pose proof (length_dashes others) as H. fold others' in H. lia. }
  assert (length (multilineDirective indent (first :: others))
          = 2 + length indent + 1 + length first + length others' + 1) as Hlength.
  { unfold multilineDirective. rewrite fmap_cons, concat_cons. fold others'.
    simpl. rewrite !length_app. simpl. rewrite !length_app. simpl. lia. }
  change (peg_parseEmbed input processEmbed (S (S depth)))
    with (peg_parseEmbed_body input processEmbed
            (peg_parseEmbed input processEmbed (S depth))).
  unfold peg_parseEmbed_body. apply wp_bind.
  eapply wp_mono;
    [by apply (inline_attempt_reached depth k w log _ st Hk)|by intros ? ? []|].
  intros s0 st0 (-> & H0). cbv beta iota.
  unfold peg_parseMutliLineEmbed. wp_get.
  destruct H0 as (Hc0 & Hq0 & Hw0 & Hl0). rewrite Hq0.
  assert (reached input k w log st0) as H0 by done.
  (* the opening brace, no type, the line feed *)
  apply wp_bind.
  apply (leaf_reached_some _ _ k w log st0 [123%N] 1 _
           (matchCharCode_spec (W:=W) input 123%N peg_c2));
    [by rewrite Hk|done|].
  intros st1 H1. cbv beta iota.
  apply wp_bind.
  apply (leaf_reached_none _ _ (k + 1) w log st1 _ (peg_parseType_spec (W:=W) input));
    [|done|].
  { rewrite Hk1. unfold typeOf, stoppingOf, markerOf.
    rewrite !(charOf_miss _ _ 10%N) by done. by rewrite !literalOf_head. }
  intros st2 H2. cbv beta iota.
  apply wp_bind.
  apply (leaf_reached_some _ _ (k + 1) w log st2 () 1 _ (peg_parseNewline_spec (W:=W) input));
    [by rewrite Hk1|done|].
  intros st3 H3. cbv beta iota.
  replace (k + 1 + 1) with (k + 2) in H3 by lia.
  (* the branches *)
  apply wp_bind. unfold peg_parseMultiLineArguments at 1. wp_get.
  destruct H3 as (Hc3 & Hq3 & Hw3 & Hl3). rewrite Hq3.
  assert (reached input (k + 2) w log st3) as H3 by done.
  apply wp_bind.
  apply (leaf_reached_some _ _ (k + 2) w log st3 () (length indent) _
           (peg_parseWhitespace_spec (W:=W) input));
    [|done|].
  { rewrite Hk2. unfold whitespaceOf. by rewrite classRun_app_stop. }
  intros st4 H4. cbv beta iota.
  apply wp_bind.
  eapply wp_mono;
    [by apply (dash_reached depth (k + 2 + length indent) w log first others post st4)
    |by intros ? ? []|].
  intros s3 st5 (-> & H5). cbv beta iota.
  apply wp_bind. apply loop_step; [unfold loopFuel; lia|].
  eapply wp_mono;
    [apply (dashes_reached depth post
              (λ l st',
                 l = lineArguments input (k + 2 + length indent) (first :: others)
                 ∧ reached input (k + 2 + length indent + 1 + length first + length others')
                     w log st')
              others (loopFuel input - 1)
              ([] ++ [mkArgument None None (trim first)
                        (mkRange
                           (positionAt input
                              (k + 2 + length indent + 1 + length (classRun peg_c6 first)))
                           (positionAt input (k + 2 + length indent + 1 + length first)))])
              (k + 2 + length indent + 1 + length first) w log st5);
       [unfold loopFuel; lia|done|done|done|by intros st' H']
    |by intros ? ? []|].
  intros s st6 Hloop. cbv beta.
  eapply wp_mono; [exact Hloop|by intros ? ? []|].
  intros s2 st7 (-> & H7). cbv beta.
  apply wp_bind. eapply setSavedPos_reached; [done|]. intros st8 H8 _. apply wp_ret.
  cbv beta iota.
  (* the closing brace *)
  apply wp_bind.
  apply (leaf_reached_some _ _ (k + 2 + length indent + 1 + length first + length others')
           w log st8 [125%N] 1 _ (matchCharCode_spec (W:=W) input 125%N peg_c4));
    [by rewrite Hk5|done|].
  intros st9 H9. cbv beta iota.
  apply wp_bind. eapply setSavedPos_reached; [done|]. intros st10 H10 Hs10.
  apply wp_bind.
  eapply call_reached; [done|done|]. intros st11 H11. rewrite Hs10 in H11.
  apply wp_ret. split; [done|].
  by replace (k + length (multilineDirective indent (first :: others)))
    with (k + 2 + length indent + 1 + length first + length others' + 1) by lia.
Qed.
End PlainSteps.


(** *** The text around a directive *)

Lemma head_cons_inv (l : jsstring) c : head l = Some c → ∃ t, l = c :: t.
Proof. destruct l as [|x t]; [done|]. intros [= ->]. by exists t. Qed.

Section AroundDirective.
Context {W : Type}.
Variable processEmbed : option EmbedType → list Argument → bool → W → PEResult * W.
Variables (pre post directive : jsstring).
Implicit Types st : PegState W.

Local Abbreviation input := (pre ++ directive ++ post).
Local Abbreviation item :=
  (orEmbed (peg_parseEmbed input processEmbed (S (length input))) (peg_parseText input)).

Hypothesis Hpre : braceFree pre.
Hypothesis Hpost : braceFree post.
Hypothesis Hopen : head directive = Some 123%N.
Variables (w w' : W) (r : jsstring) (call : EmbedCall).
Hypothesis Hembed : ∀ log st,
  reached input (length pre) w log st →
  wp noThrow (peg_parseEmbed input processEmbed (S (length input)))
    (λ s st', s = Some r
              ∧ reached input (length pre + length directive) w' (log ++ [call]) st') st.

Lemma textOf_before :
  textOf (pre ++ directive ++ post) = (λ l, (l, length l)) <$> nonEmpty pre.
Proof using Hpre Hopen.
  destruct (head_cons_inv _ _ Hopen) as [t Ht]. rewrite Ht, <- app_comm_cons.
  unfold textOf, plusOf. rewrite classRun_app_stop; [done| |done].
  eapply Forall_impl; [exact Hpre|]. intros c [H1 H2]. unfold peg_c51, inClass. simpl.
  destruct (N.eqb_spec c 123), (N.eqb_spec c 125); done.
Qed.

Lemma textOf_directive : textOf (directive ++ post) = None.
Proof using Hopen. destruct (head_cons_inv _ _ Hopen) as [t Ht]. by rewrite Ht. Qed.

Lemma textOf_after : textOf post = (λ l, (l, length l)) <$> nonEmpty post.
Proof using Hpost. unfold textOf, plusOf. by rewrite braceFree_run. Qed.

Lemma input_length : length input = length pre + length directive + length post.
Proof. rewrite !length_app. lia. Qed.

Lemma directive_length : 1 ≤ length directive.
Proof using Hopen. destruct (head_cons_inv _ _ Hopen) as [t Ht]. rewrite Ht. simpl. lia. Qed.

Lemma drop_directive : drop (length pre) input = directive ++ post.
Proof. by rewrite drop_app_length. Qed.

Lemma drop_post : drop (length pre + length directive) input = post.
Proof. by rewrite <- drop_drop, drop_directive, drop_app_length. Qed.

Lemma leafStep_reached q q' (u : W) log st st' :
  reached input q u log st → leafStep st st' → peg_currPos st' = q' →
  reached input q' u log st'.
Proof.
  intros (Hc & Hq & Hw & Hl) (Hw' & Hl' & Hc' & _) Hp. unfold reached.
  split_and!; [by eapply CacheInv_same|done|congruence|congruence].
Qed.

(** At the directive: no text, and the directive itself. *)
Lemma directive_item log st :
  reached input (length pre) w log st →
  wp noThrow item
    (λ s st', s = Some r
              ∧ reached input (length pre + length directive) w' (log ++ [call]) st') st.
Proof using Hopen Hembed.
  intros Hst. unfold orEmbed. apply wp_bind.
  apply (leaf_reached_none input _ _ (length pre) w log st _
           (peg_parseText_spec (W:=W) input)); [|done|].
  { rewrite drop_directive. apply textOf_directive. }
  intros st1 H1. cbv beta iota. by apply Hembed.
Qed.

(** After the directive: the rest of the text, if any, and the end. *)
Lemma after_directive n acc log st (Q : list jsstring → PegState W → Prop) :
  1 ≤ n →
  reached input (length pre + length directive) w' log st →
  (∀ st', reached input (length input) w' log st' →
          Q (acc ++ option_list (nonEmpty post)) st') →
  wp noThrow item (λ s st1, wp noThrow (repeatLoop item n acc s) Q st1) st.
Proof using Hpost.
  intros Hn Hst HQ. pose proof input_length as Hlen.
  destruct (nonEmpty_cases post) as [[Hnil Hne]|[Hnil Hne]].
  - assert (length post = 0) as H0 by by rewrite Hnil.
    eapply wp_mono;
      [apply (orEmbed_text_at_end processEmbed input st); destruct Hst as (_ & -> & _); lia
      |by intros ? ? []|].
    intros s st1 (-> & Hstep & Hp). cbv beta. apply loop_ends.
    rewrite Hne in HQ. change (option_list None) with (@nil jsstring) in HQ.
    rewrite app_nil_r in HQ.
    apply HQ. eapply leafStep_reached; [exact Hst|done|done].
  - unfold orEmbed at 1. apply wp_bind.
    apply (leaf_reached_some input _ _ (length pre + length directive) w' log st post
             (length post) _ (peg_parseText_spec (W:=W) input)); [|done|].
    { by rewrite drop_post, textOf_after, Hne. }
    intros st1 H1. cbv beta iota. apply wp_ret.
    apply loop_step; [done|].
    eapply wp_mono;
      [apply (orEmbed_text_at_end processEmbed input st1); destruct H1 as (_ & -> & _); lia
      |by intros ? ? []|].
    intros s st2 (-> & Hstep & Hp). cbv beta. apply loop_ends.
    rewrite Hne in HQ. apply HQ. eapply leafStep_reached; [exact H1|done|done].
Qed.

Lemma around_directive_parses :
  wp noThrow (λ _ : PegState W, peg_parse input processEmbed w)
    (λ s st', s = pre ++ r ++ post ∧ peg_world st' = w' ∧ peg_embedLog st' = [call])
    (peg_init w).
Proof using Hpre Hpost Hopen Hembed.
  pose proof input_length as Hlen. pose proof directive_length as Hd.
  unfold peg_parse.
  change (wp noThrow
            (peg_parseSource input (peg_parseEmbed input processEmbed (S (length input)))
             ≫= peg_finish input)
            (λ s st', s = pre ++ r ++ post ∧ peg_world st' = w' ∧ peg_embedLog st' = [call])
            (peg_init w)).
  assert (reached input 0 w [] (peg_init w)) as H0.
  { split_and!; [apply (peg_init_Inv input w)|done|done|done]. }
  assert (∀ s1 st,
            concat s1 = pre ++ r ++ post →
            reached input (length input) w' [call] st →
            wp noThrow
              (setSavedPos 0 ≫= λ _ : (), mret (Some (peg_c0 s1)))
              (λ v st1,
                 wp noThrow (peg_finish input v)
                   (λ s st', s = pre ++ r ++ post ∧ peg_world st' = w'
                             ∧ peg_embedLog st' = [call]) st1) st) as Hend.
  { intros s1 st Hs1 Hst.
    apply wp_bind. eapply setSavedPos_reached; [done|]. intros st1 (_ & Hq1 & Hw1 & Hl1) _.
    apply wp_ret. unfold peg_finish. wp_get. rewrite decide_True by done.
    apply wp_ret. by rewrite <- Hs1. }
  apply wp_bind. unfold peg_parseSource. wp_get. simpl peg_currPos.
  apply wp_bind.
  destruct (nonEmpty_cases pre) as [[Hnil Hne]|[Hnil Hne]].
  - (* the source starts with the directive *)
    assert (length pre = 0) as Hp0 by by rewrite Hnil.
    eapply wp_mono; [apply (directive_item [] (peg_init w)); by rewrite Hp0|by intros ? ? []|].
    intros s2 st1 (-> & H1). cbv beta. apply wp_bind.
    apply loop_step; [unfold loopFuel; lia|].
    eapply after_directive; [unfold loopFuel; lia|exact H1|].
    intros st2 H2. apply Hend; [|done].
    rewrite Hnil. simpl.
    destruct (nonEmpty_cases post) as [[Hq ->]|[Hq ->]]; simpl.
    + by rewrite Hq, !app_nil_r.
    + by rewrite app_nil_r.
  - (* text, and then the directive *)
    unfold orEmbed at 1. apply wp_bind.
    apply (leaf_reached_some input _ _ 0 w [] (peg_init w) pre (length pre) _
             (peg_parseText_spec (W:=W) input)); [|done|].
    { by rewrite drop_0, textOf_before, Hne. }
    intros st1 H1. cbv beta iota. apply wp_ret. apply wp_bind.
    apply loop_step; [unfold loopFuel; lia|].
    eapply wp_mono; [by apply (directive_item [] st1)|by intros ? ? []|].
    intros s2 st2 (-> & H2). cbv beta.
    assert (1 ≤ length pre) by (destruct pre; [done|simpl; lia]).
    apply loop_step; [unfold loopFuel; lia|].
    eapply after_directive; [unfold loopFuel; lia|exact H2|].
    intros st3 H3. apply Hend; [|done].
    destruct (nonEmpty_cases post) as [[Hq ->]|[Hq ->]]; simpl.
    + by rewrite Hq, !app_nil_r.
    + by rewrite !app_nil_r.
Qed.
End AroundDirective.

(** X20. A source that is plain text around one inline directive with plain
    branches and no type: [processEmbed] is called once, without type, not
    as multi-line, with one argument for each branch, in order, each with
    the text of its branch and the span it was read from; the span of the
    call is the directive with its braces; and what the call returns takes
    the place of the directive in the text. *)
Theorem plain_inline_directive_is_resolved {W}
    (processEmbed : option EmbedType → list Argument → bool → W → PEResult * W)
    (options : W) (pre post first : jsstring) (others : list jsstring)
    (r : jsstring) (w' : W) :
  let input := pre ++ inlineDirective first others ++ post in
  let args := branchArguments input (length pre + 1) (first :: others) in
  braceFree pre → braceFree post →
  Forall plainBranch (first :: others) → unmarked first →
  processEmbed None args false options = (PE_return r, w') →
  ∃ st, peg_parse input processEmbed options = Ok (pre ++ r ++ post) st
        ∧ peg_world st = w'
        ∧ peg_embedLog st
          = [mkEmbedCall None args false (length pre)
               (length pre + length (inlineDirective first others))].
Proof.
  intros input args Hpre Hpost Hplain Hunmarked Hrun.
  assert (1 ≤ length input) as Hlen.
  { unfold input, inlineDirective. rewrite !length_app. simpl. lia. }
  assert (∀ log st,
            reached input (length pre) options log st →
            wp noThrow (peg_parseEmbed input processEmbed (S (length input)))
              (λ s st',
                 s = Some r
                 ∧ reached input (length pre + length (inlineDirective first others)) w'
                     (log ++ [mkEmbedCall None args false (length pre)
                                (length pre + length (inlineDirective first others))]) st')
              st) as Hembed.
  { intros log st Hst. replace (S (length input)) with (S (S (length input - 1))) by lia.
    apply (inline_reached input processEmbed (length input - 1) (length pre) options w' log
             first others post r st); [apply drop_directive|done|done|done|done]. }
  destruct (wp_strict_run _ _ _
              (around_directive_parses processEmbed pre post (inlineDirective first others)
                 Hpre Hpost eq_refl options w' r _ Hembed))
    as (s & st & Hparse & -> & Hw & Hlog).
  by exists st.
Qed.

Lemma plain_inline_directive_is_resolved_witness :
  braceFree (js "Dear ") ∧ braceFree (js "!")
  ∧ Forall plainBranch [js "sir"; js "madam"] ∧ unmarked (js "sir")
  ∧ lastBranch None
      (branchArguments (js "Dear " ++ inlineDirective (js "sir") [js "madam"] ++ js "!")
         (length (js "Dear ") + 1) [js "sir"; js "madam"])
      false ()
    = (PE_return (js "madam"), ())
  ∧ ∃ st,
      peg_parse (js "Dear " ++ inlineDirective (js "sir") [js "madam"] ++ js "!")
        lastBranch ()
      = Ok (js "Dear " ++ js "madam" ++ js "!") st
      ∧ peg_world st = ()
      ∧ peg_embedLog st
        = [mkEmbedCall None
             (branchArguments
                (js "Dear " ++ inlineDirective (js "sir") [js "madam"] ++ js "!")
                (length (js "Dear ") + 1) [js "sir"; js "madam"])
             false (length (js "Dear "))
             (length (js "Dear ") + length (inlineDirective (js "sir") [js "madam"]))].
Proof.
  assert (braceFree (js "Dear ")) as H1
    by (unfold braceFree; apply (bool_decide_unpack _); vm_compute; reflexivity).
  assert (braceFree (js "!")) as H2
    by (unfold braceFree; apply (bool_decide_unpack _); vm_compute; reflexivity).
  assert (Forall plainBranch [js "sir"; js "madam"]) as H3
    by (unfold plainBranch; apply (bool_decide_unpack _); vm_compute; reflexivity).
  assert (unmarked (js "sir")) as H4
    by (unfold unmarked; apply (bool_decide_unpack _); vm_compute; reflexivity).
  split_and!; [exact H1|exact H2|exact H3|exact H4|reflexivity|].
  exact (plain_inline_directive_is_resolved lastBranch () (js "Dear ") (js "!") (js "sir")
           [js "madam"] (js "madam") () H1 H2 H3 H4 eq_refl).
Defined.

(** X21. A source that is plain text around one multi-line directive without
    type, whose branches have no condition: the attempt to read it as an
    inline directive is given up without a call, and then [processEmbed] is
    called once, without type, as multi-line, with one argument for each
    branch, in order, each with the trimmed text of its branch and the span
    from the end of the white space after the dash to the next dash or the
    closing brace; and what the call returns takes the place of the
    directive in the text. *)
Theorem plain_multiline_directive_is_resolved {W}
    (processEmbed : option EmbedType → list Argument → bool → W → PEResult * W)
    (options : W) (pre post indent first : jsstring) (others : list jsstring)
    (r : jsstring) (w' : W) :
  let input := pre ++ multilineDirective indent (first :: others) ++ post in
  let args := lineArguments input (length pre + 2 + length indent) (first :: others) in
  braceFree pre → braceFree post → blank indent →
  Forall plainLines (first :: others) →
  processEmbed None args true options = (PE_return r, w') →
  ∃ st, peg_parse input processEmbed options = Ok (pre ++ r ++ post) st
        ∧ peg_world st = w'
        ∧ peg_embedLog st
          = [mkEmbedCall None args true (length pre)
               (length pre + length (multilineDirective indent (first :: others)))].
Proof.
  intros input args Hpre Hpost Hindent Hplain Hrun.
  assert (1 ≤ length input) as Hlen.
  { unfold input, multilineDirective. rewrite !length_app. simpl. lia. }
  assert (Forall (λ c, peg_c6 c = true) indent) as Hblank.
  { eapply Forall_impl; [exact Hindent|]. intros c Hc. unfold peg_c6, inClass.
    rewrite existsb_elem_of. by apply bool_decide_eq_true. }
  assert (∀ log st,
            reached input (length pre) options log st →
            wp noThrow (peg_parseEmbed input processEmbed (S (length input)))
              (λ s st',
                 s = Some r
                 ∧ reached input
                     (length pre + length (multilineDirective indent (first :: others))) w'
                     (log ++ [mkEmbedCall None args true (length pre)
                                (length pre
                                 + length (multilineDirective indent (first :: others)))])
                     st')
              st) as Hembed.
  { intros log st Hst. replace (S (length input)) with (S (S (length input - 1))) by lia.
    apply (multiline_reached input processEmbed (length input - 1) (length pre) options w'
             log indent first others post r st);
      [apply drop_directive|done|done|done|done]. }
  destruct (wp_strict_run _ _ _
              (around_directive_parses processEmbed pre post
                 (multilineDirective indent (first :: others))
                 Hpre Hpost eq_refl options w' r _ Hembed))
    as (s & st & Hparse & -> & Hw & Hlog).
  by exists st.
Qed.

Lemma plain_multiline_directive_is_resolved_witness :
  braceFree (js "Say ") ∧ braceFree (js ".") ∧ blank (js "  ")
  ∧ Forall plainLines [js " hello" ++ [10%N] ++ js "  "; js " good day" ++ [10%N]]
  ∧ lastBranch None
      (lineArguments
         (js "Say "
          ++ multilineDirective (js "  ")
               [js " hello" ++ [10%N] ++ js "  "; js " good day" ++ [10%N]]
          ++ js ".")
         (length (js "Say ") + 2 + length (js "  "))
         [js " hello" ++ [10%N] ++ js "  "; js " good day" ++ [10%N]])
      true ()
    = (PE_return (js "good day"), ())
  ∧ ∃ st,
      peg_parse
        (js "Say "
         ++ multilineDirective (js "  ")
              [js " hello" ++ [10%N] ++ js "  "; js " good day" ++ [10%N]]
         ++ js ".")
        lastBranch ()
      = Ok (js "Say " ++ js "good day" ++ js ".") st
      ∧ peg_world st = ()
      ∧ peg_embedLog st
        = [mkEmbedCall None
             (lineArguments
                (js "Say "
                 ++ multilineDirective (js "  ")
                      [js " hello" ++ [10%N] ++ js "  "; js " good day" ++ [10%N]]
                 ++ js ".")
                (length (js "Say ") + 2 + length (js "  "))
                [js " hello" ++ [10%N] ++ js "  "; js " good day" ++ [10%N]])
             true (length (js "Say "))
             (length (js "Say ")
              + length (multilineDirective (js "  ")
                          [js " hello" ++ [10%N] ++ js "  "; js " good day" ++ [10%N]]))].
Proof.
  assert (braceFree (js "Say ")) as H1
    by (unfold braceFree; apply (bool_decide_unpack _); vm_compute; reflexivity).
  assert (braceFree (js ".")) as H2
    by (unfold braceFree; apply (bool_decide_unpack _); vm_compute; reflexivity).
  assert (blank (js "  ")) as H3
    by (unfold blank; apply (bool_decide_unpack _); vm_compute; reflexivity).
  assert (Forall plainLines [js " hello" ++ [10%N] ++ js "  "; js " good day" ++ [10%N]])
    as H4
    by (unfold plainLines; apply (bool_decide_unpack _); vm_compute; reflexivity).
  split_and!; [exact H1|exact H2|exact H3|exact H4|reflexivity|].
  exact (plain_multiline_directive_is_resolved lastBranch () (js "Say ") (js ".") (js "  ")
           (js " hello" ++ [10%N] ++ js "  ") [js " good day" ++ [10%N]] (js "good day") ()
           H1 H2 H3 H4 eq_refl).
Defined.

(** ** Nesting and the call stack *)

Section OnStack.
Context {W : Type}.
Variable processEmbed : option EmbedType → list Argument → bool → W → PEResult * W.
Implicit Types st : PegState W.

Lemma exhausts_bind {A B} (m : M W A) (k : A → M W B) Q st :
  exhausts m (λ a st', exhausts (k a) Q st') st → exhausts (m ≫= k) Q st.
Proof. unfold exhausts, mbind, M_bind. by destruct (m st). Qed.

Lemma exhausts_wp {A} (m : M W A) Q st : wp noThrow m Q st → exhausts m Q st.
Proof. unfold exhausts, wp. by destruct (m st). Qed.

Lemma exhausts_ret {A} (a : A) (Q : A → PegState W → Prop) st :
  Q a st → exhausts (mret a) Q st.
Proof. done. Qed.

Lemma exhausts_mono {A} (m : M W A) (Q Q' : A → PegState W → Prop) st :
  exhausts m Q st → (∀ a st', Q a st' → Q' a st') → exhausts m Q' st.
Proof. unfold exhausts. destruct (m st); auto. Qed.

Lemma exhausts_run {A} (m : M W A) st :
  exhausts m (λ _ _, False) st → m st = OutOfFuel.
Proof. unfold exhausts. by destruct (m st). Qed.

Local Ltac ex_get := apply exhausts_bind, exhausts_wp, wp_getCurrPos; cbv beta.

Variable n : nat.

(** With a directive open at [k] and room for no more activations than
    there are directives still to open, the call stack is used up before any
    directive is closed. *)
Lemma embed_exhausts j : ∀ k d c st,
  k + j = n → 1 ≤ j → d ≤ j → atPos (nest n) k c st →
  exhausts (peg_parseEmbed (nest n) processEmbed d) (λ _ _, False) st.
Proof.
  induction j as [|j IH]; intros k d c st Hk Hj Hd Hst; [lia|].
  destruct d as [|d]; [exact I|].
  change (peg_parseEmbed (nest n) processEmbed (S d))
    with (peg_parseEmbed_body (nest n) processEmbed
            (peg_parseEmbed (nest n) processEmbed d)).
  assert (head (drop k (nest n)) = Some 123%N) as Hopen.
  { rewrite head_drop. apply nest_open. lia. }
  assert (conditionOrTypeOf (drop (k + 1) (nest n)) = None) as Htype.
  { destruct (decide (j = 0)) as [->|Hj0].
    - replace (k + 1) with n by lia.
      destruct (nest_drop_text n) as [T ->]; [lia|]. reflexivity.
    - rewrite nest_drop_open by lia. reflexivity. }
  unfold peg_parseEmbed_body. apply exhausts_bind.
  unfold peg_parseInlineEmbed at 1. ex_get.
  apply exhausts_bind, exhausts_wp.
  apply (leaf_at_some (nest n) _ _ k c st _ _ _
           (matchCharCode_spec (W:=W) (nest n) 123%N peg_c2) (charOf_hit _ _ Hopen) Hst).
  intros st1 H1. cbv beta iota.
  apply exhausts_bind, exhausts_wp.
  apply (leaf_at_none (nest n) _ _ (k + 1) c st1 _
           (conditionOrType_spec (W:=W) (nest n)) Htype H1).
  intros st2 H2. cbv beta iota.
  apply exhausts_bind. unfold peg_parseArguments at 1. ex_get.
  apply exhausts_bind. unfold peg_parseArgument at 1. ex_get.
  apply exhausts_bind. unfold peg_parseInlineSource at 1. ex_get.
  apply exhausts_bind. unfold orEmbed at 1. apply exhausts_bind, exhausts_wp.
  destruct (decide (j = 0)) as [->|Hj0].
  - (* the innermost directive: its text, and then no room for the next rule *)
    assert (d = 0) as -> by lia.
    assert (drop (k + 1) (nest n) = 97%N :: drop (k + 1 + 1) (nest n)) as Hdrop.
    { replace (k + 1 + 1) with (S (k + 1)) by lia. apply drop_S.
      replace (k + 1) with n by lia. apply nest_text. }
    assert (head (drop (k + 1 + 1) (nest n)) = Some 125%N) as Hclose.
    { rewrite head_drop. apply nest_close; lia. }
    apply (leaf_at_some (nest n) _ _ (k + 1) c st2 [97%N] 1 _
             (peg_parseInlineText_spec (W:=W) (nest n))); [|done|].
    { rewrite Hdrop. unfold inlineTextOf, plusOf. cbn [classRun].
      change (peg_c49 97%N) with true. cbv iota.
      by rewrite (classRun_head_fail _ _ 125%N Hclose). }
    intros st3 H3. cbv beta iota. apply exhausts_ret.
    apply exhausts_bind. unfold loopFuel. cbn [repeatLoop].
    apply exhausts_bind. unfold orEmbed at 1. apply exhausts_bind, exhausts_wp.
    apply (leaf_at_none (nest n) _ _ (k + 1 + 1) c st3 _
             (peg_parseInlineText_spec (W:=W) (nest n))); [|done|].
    { unfold inlineTextOf, plusOf. by rewrite (classRun_head_fail _ _ 125%N Hclose). }
    intros st4 H4. cbv beta iota. exact I.
  - (* a directive that starts with a directive *)
    apply (leaf_at_none (nest n) _ _ (k + 1) c st2 _
             (peg_parseInlineText_spec (W:=W) (nest n))); [|done|].
    { rewrite nest_drop_open by lia. reflexivity. }
    intros st3 H3. cbv beta iota.
    eapply exhausts_mono; [apply (IH (k + 1) d c st3); [lia|lia|lia|done]|done].
Qed.

(** The whole run, when the nesting does not fit. *)
Lemma nest_exhausts stack options :
  stack ≤ n → peg_parseOnStack (nest n) processEmbed stack options = OutOfFuel.
Proof.
  intros Hs. unfold peg_parseOnStack.
  change ((peg_parseSource (nest n) (peg_parseEmbed (nest n) processEmbed stack)
           ≫= peg_finish (nest n)) (peg_init options) = OutOfFuel).
  apply exhausts_run, exhausts_bind.
  assert (atPos (nest n) 0 0 (peg_init options)) as H0.
  { split_and!; [apply (peg_init_Inv (nest n) options)|done|done]. }
  unfold peg_parseSource. ex_get.
  apply exhausts_bind. unfold orEmbed at 1. apply exhausts_bind, exhausts_wp.
  destruct (decide (n = 0)) as [Hn|Hn].
  - assert (stack = 0) as -> by lia.
    apply (leaf_at_some (nest n) _ _ 0 0 _ [97%N] 1 _
             (peg_parseText_spec (W:=W) (nest n))); [by rewrite Hn|done|].
    intros st1 H1. cbv beta iota. apply exhausts_ret.
    apply exhausts_bind. unfold loopFuel. cbn [repeatLoop].
    apply exhausts_bind. unfold orEmbed at 1. apply exhausts_bind, exhausts_wp.
    apply (leaf_at_none (nest n) _ _ (0 + 1) 0 st1 _
             (peg_parseText_spec (W:=W) (nest n))); [by rewrite Hn|done|].
    intros st2 H2. cbv beta iota. exact I.
  - apply (leaf_at_none (nest n) _ _ 0 0 _ _ (peg_parseText_spec (W:=W) (nest n)));
      [|done|].
    { rewrite nest_drop_open by lia. reflexivity. }
    intros st1 H1. cbv beta iota.
    eapply exhausts_mono; [apply (embed_exhausts n 0 stack 0 st1); [lia|lia|lia|done]|done].
Qed.

(** The whole run, when the nesting fits. *)
Lemma nest_parses_on_stack d options :
  alwaysReturns processEmbed → n ≤ d →
  wp noThrow (λ _ : PegState W, peg_parseOnStack (nest n) processEmbed (S d) options)
    (λ _ st', length (peg_embedLog st') = n) (peg_init options).
Proof.
  intros Hreturns Hd. unfold peg_parseOnStack.
  change (wp noThrow
            (peg_parseSource (nest n) (peg_parseEmbed (nest n) processEmbed (S d))
             ≫= peg_finish (nest n))
            (λ _ st', length (peg_embedLog st') = n) (peg_init options)).
  assert (atPos (nest n) 0 0 (peg_init options)) as H0.
  { split_and!; [apply (peg_init_Inv (nest n) options)|done|done]. }
  pose proof (nest_length n) as Hlen.
  assert (∀ st,
            atPos (nest n) (2 * n + 1) n st →
            wp noThrow
              (orEmbed (peg_parseEmbed (nest n) processEmbed (S d))
                 (peg_parseText (nest n)))
              (λ v st', v = None ∧ atPos (nest n) (2 * n + 1) n st') st) as Hend.
  { intros st Hst. unfold orEmbed. apply wp_bind.
    apply (leaf_at_none (nest n) _ _ (2 * n + 1) n st _
             (peg_parseText_spec (W:=W) (nest n))); [|done|].
    { by rewrite drop_ge by lia. }
    intros st1 H1. cbv beta iota.
    apply embed_atPos_no_brace; [|done].
    rewrite lookup_ge_None_2 by lia. done. }
  assert (∀ s2 st,
            atPos (nest n) (2 * n + 1) n st →
            wp noThrow
              (repeatLoop
                 (orEmbed (peg_parseEmbed (nest n) processEmbed (S d))
                    (peg_parseText (nest n)))
                 (loopFuel (nest n)) [] (Some s2)
               ≫= λ s1, setSavedPos 0 ≫= λ _ : (), mret (Some (peg_c0 s1)))
              (λ v st1,
                 wp noThrow (peg_finish (nest n) v)
                   (λ _ st', length (peg_embedLog st') = n) st1) st) as Hloop.
  { intros s2 st Hst. apply wp_bind. unfold loopFuel. cbn [repeatLoop]. apply wp_bind.
    eapply wp_mono; [by apply Hend|by intros ? ? []|].
    intros s3 st3 (-> & H3). cbv beta iota. apply loop_ends.
    apply wp_bind. eapply setSavedPos_atPos; [done|]. intros st4 (_ & Hp4 & Hl4).
    apply wp_ret. unfold peg_finish. wp_get. rewrite decide_True by lia.
    by apply wp_ret. }
  apply wp_bind. unfold peg_parseSource. wp_get.
  apply wp_bind. unfold orEmbed at 1. apply wp_bind.
  destruct (decide (n = 0)) as [Hn|Hn].
  - apply (leaf_at_some (nest n) _ _ 0 0 _ [97%N] 1 _
             (peg_parseText_spec (W:=W) (nest n))); [by rewrite Hn|done|].
    intros st1 H1. cbv beta iota. apply wp_ret.
    apply Hloop. by rewrite Hn in *.
  - apply (leaf_at_none (nest n) _ _ 0 0 _ _ (peg_parseText_spec (W:=W) (nest n)));
      [|done|].
    { rewrite nest_drop_open by lia. reflexivity. }
    intros st1 H1. cbv beta iota.
    eapply wp_mono;
      [apply (nest_levels processEmbed Hreturns n n 0 d 0 st1); [lia|lia|lia|done]
      |by intros ? ? []|].
    intros s2 st2 ([v ->] & H2). cbv beta iota.
    apply Hloop. by replace (2 * n + 1 - 0) with (2 * n + 1) in H2 by lia.
Qed.
End OnStack.

(** C8 counterexample.  Nothing in the parser counts the nesting depth or
    answers it with a [SyntaxError]: on a call stack with room for 5000
    activations of [peg$parseEmbed], 1000 directives nested in each other
    are parsed to the end, with a call of [processEmbed] for each, and 5000
    directives nested in each other end the run by using up the call stack,
    the very crash the requirement rules out. *)
Lemma deep_nesting_exhausts_the_call_stack :
  (∃ s st, peg_parseOnStack (nest 1000) firstBranch 5000 () = Ok s st
           ∧ length (peg_embedLog st) = 1000)
  ∧ peg_parseOnStack (nest 5000) firstBranch 5000 () = OutOfFuel.
Proof.
  split.
  - destruct (wp_strict_run _ _ _
                (nest_parses_on_stack firstBranch 1000 4999 () firstBranch_returns
                   ltac:(lia)))
      as (s & st & Hrun & Hlen).
    eauto.
  - apply nest_exhausts. lia.
Qed.

(** C8 as the parser has it.  [peg$parse] has no maximum nesting depth of
    its own, for no options: the rules recurse on the call stack, and the
    call stack alone limits the nesting.  On a call stack with room for
    [stack] activations of [peg$parseEmbed] inside each other, and with a
    [processEmbed] that returns, the source of [n] inline directives nested
    in each other is parsed to the end, with one call of [processEmbed] for
    each level, when [n < stack]; when [stack ≤ n] the run uses up the call
    stack: it ends with the error of the engine, not with a
    [SyntaxError]. *)
Theorem nesting_is_limited_by_the_call_stack_only {W}
    (processEmbed : option EmbedType → list Argument → bool → W → PEResult * W)
    (options : W) (stack n : nat) :
  alwaysReturns processEmbed →
  (n < stack →
   ∃ s st, peg_parseOnStack (nest n) processEmbed stack options = Ok s st
           ∧ length (peg_embedLog st) = n)
  ∧ (stack ≤ n → peg_parseOnStack (nest n) processEmbed stack options = OutOfFuel).
Proof.
  intros Hreturns. split.
  - intros Hn. destruct stack as [|d]; [lia|].
    destruct (wp_strict_run _ _ _
                (nest_parses_on_stack processEmbed n d options Hreturns ltac:(lia)))
      as (s & st & Hrun & Hlen).
    eauto.
  - apply nest_exhausts.
Qed.

Lemma nesting_is_limited_by_the_call_stack_only_witness :
  alwaysReturns firstBranch
  ∧ (∃ s st, peg_parseOnStack (nest 3) firstBranch 4 () = Ok s st
             ∧ length (peg_embedLog st) = 3)
  ∧ peg_parseOnStack (nest 3) firstBranch 3 () = OutOfFuel.
Proof.
  split; [exact firstBranch_returns|]. split.
  - exact (proj1 (nesting_is_limited_by_the_call_stack_only firstBranch () 4 3
                    firstBranch_returns) ltac:(lia)).
  - exact (proj2 (nesting_is_limited_by_the_call_stack_only firstBranch () 3 3
                    firstBranch_returns) ltac:(lia)).
Defined.

(** ** Text fragments and trimming *)

Lemma readsRun_plus {W} post cls excluded input (m : M W (option jsstring)) st :
  leafSpec input m (λ rest, (λ l, (post l, length l)) <$> nonEmpty (classRun cls rest)) →
  (∀ c, cls c = bool_decide (c ∉ excluded)) →
  readsRun post excluded input st (m st).
Proof.
  intros H Hcls. destruct (wp_strict_run _ _ _ (H st)) as (v & st' & Hrun & _ & -> & Hp).
  unfold readsRun, runExcluding. cbv zeta.
  rewrite <- (classRun_ext _ _ _ Hcls).
  exists st'. rewrite Hrun, Hp.
  by destruct (classRun cls (drop (peg_currPos st) input)).
Qed.

Lemma trimStart_split s :
  ∃ lead, s = lead ++ trimStart s
          ∧ Forall (λ c, isTrimmable c = true) lead
          ∧ ∀ c, head (trimStart s) = Some c → isTrimmable c = false.
Proof.
  induction s as [|x s (lead & Hs & Hlead & Hhead)]; simpl.
  - exists []. split_and!; [done|constructor|done].
  - destruct (isTrimmable x) eqn:Hx.
    + exists (x :: lead). split_and!; [by rewrite Hs at 1|by constructor|done].
    + exists []. split_and!; [done|constructor|]. by intros c [= <-].
Qed.

Lemma last_rev_head (l : jsstring) : last (rev l) = head l.
Proof. destruct l as [|x l]; [done|]. simpl. by rewrite last_snoc. Qed.

Lemma trim_trimmedFrom s : trimmedFrom s (trim s).
Proof.
  unfold trim, trimEnd.
  destruct (trimStart_split s) as (lead & Hs & Hlead & Hhead).
  destruct (trimStart_split (rev (trimStart s))) as (back & Hr & Hback & Hlast).
  set (t := trimStart (rev (trimStart s))) in *.
  assert (trimStart s = rev t ++ rev back) as Hmid.
  { by rewrite <- rev_app_distr, <- Hr, rev_involutive. }
  split_and!.
  - exists lead, (rev back). split_and!; [by rewrite <- Hmid| done |by apply Forall_rev].
  - intros c Hc. apply Hhead. rewrite Hmid.
    destruct (rev t); [done|]. done.
  - intros c Hc. apply Hlast. by rewrite <- last_rev_head.
Qed.

Lemma lastBranch_returns : alwaysReturns lastBranch.
Proof. intros t a m w. eexists _, _. reflexivity. Defined.

Lemma full_branchArguments input p branches :
  arg_full <$> branchArguments input p branches = branches.
Proof.
  revert p. induction branches as [|b l IH]; intros p; simpl; [done|]. by rewrite IH.
Qed.

Lemma full_lineArguments input p branches :
  arg_full <$> lineArguments input p branches = trim <$> branches.
Proof.
  revert p. induction branches as [|b l IH]; intros p; simpl; [done|]. by rewrite IH.
Qed.

Section FragmentsInDirectives.
Context {W : Type}.
Variable processEmbed : option EmbedType → list Argument → bool → W → PEResult * W.
Hypothesis Hreturns : alwaysReturns processEmbed.
Variables (options : W) (pre post : jsstring).
Hypothesis Hpre : braceFree pre.
Hypothesis Hpost : braceFree post.

Lemma inline_branches_as_written first others :
  Forall plainBranch (first :: others) → unmarked first →
  ∃ st c r w',
    peg_parse (pre ++ inlineDirective first others ++ post) processEmbed options
      = Ok (pre ++ r ++ post) st
    ∧ peg_embedLog st = [c]
    ∧ call_multiline c = false
    ∧ arg_full <$> call_args c = first :: others
    ∧ processEmbed (call_type c) (call_args c) false options = (PE_return r, w').
Proof using Hreturns Hpre Hpost.
  intros Hplain Hunmarked.
  set (input := pre ++ inlineDirective first others ++ post).
  set (args := branchArguments input (length pre + 1) (first :: others)).
  destruct (Hreturns None args false options) as (r & w' & Hrun).
  assert (1 ≤ length input) as Hlen.
  { unfold input, inlineDirective. rewrite !length_app. simpl. lia. }
  assert (∀ log st,
            reached input (length pre) options log st →
            wp noThrow (peg_parseEmbed input processEmbed (S (length input)))
              (λ s st',
                 s = Some r
                 ∧ reached input (length pre + length (inlineDirective first others)) w'
                     (log ++ [mkEmbedCall None args false (length pre)
                                (length pre + length (inlineDirective first others))]) st')
              st) as Hembed.
  { intros log st Hst. replace (S (length input)) with (S (S (length input - 1))) by lia.
    apply (inline_reached input processEmbed (length input - 1) (length pre) options w' log
             first others post r st); [apply drop_directive|done|done|done|done]. }
  destruct (wp_strict_run _ _ _
              (around_directive_parses processEmbed pre post (inlineDirective first others)
                 Hpre Hpost eq_refl options w' r _ Hembed))
    as (s & st & Hparse & -> & Hw & Hlog).
  eexists st, _, r, w'. split_and!; [done|exact Hlog|done| |done].
  apply full_branchArguments.
Qed.

Lemma multiline_branches_trimmed indent first others :
  blank indent → Forall plainLines (first :: others) →
  ∃ st c r w',
    peg_parse (pre ++ multilineDirective indent (first :: others) ++ post) processEmbed
      options
      = Ok (pre ++ r ++ post) st
    ∧ peg_embedLog st = [c]
    ∧ call_multiline c = true
    ∧ arg_full <$> call_args c = trim <$> (first :: others)
    ∧ processEmbed (call_type c) (call_args c) true options = (PE_return r, w').
Proof using Hreturns Hpre Hpost.
  intros Hindent Hplain.
  set (input := pre ++ multilineDirective indent (first :: others) ++ post).
  set (args := lineArguments input (length pre + 2 + length indent) (first :: others)).
  destruct (Hreturns None args true options) as (r & w' & Hrun).
  assert (1 ≤ length input) as Hlen.
  { unfold input, multilineDirective. rewrite !length_app. simpl. lia. }
  assert (Forall (λ c, peg_c6 c = true) indent) as Hblank.
  { eapply Forall_impl; [exact Hindent|]. intros c Hc. unfold peg_c6, inClass.
    rewrite existsb_elem_of. by apply bool_decide_eq_true. }
  assert (∀ log st,
            reached input (length pre) options log st →
            wp noThrow (peg_parseEmbed input processEmbed (S (length input)))
              (λ s st',
                 s = Some r
                 ∧ reached input
                     (length pre + length (multilineDirective indent (first :: others))) w'
                     (log ++ [mkEmbedCall None args true (length pre)
                                (length pre
                                 + length (multilineDirective indent (first :: others)))])
                     st')
              st) as Hembed.
  { intros log st Hst. replace (S (length input)) with (S (S (length input - 1))) by lia.
    apply (multiline_reached input processEmbed (length input - 1) (length pre) options w'
             log indent first others post r st);
      [apply drop_directive|done|done|done|done]. }
  destruct (wp_strict_run _ _ _
              (around_directive_parses processEmbed pre post
                 (multilineDirective indent (first :: others))
                 Hpre Hpost eq_refl options w' r _ Hembed))
    as (s & st & Hparse & -> & Hw & Hlog).
  eexists st, _, r, w'. split_and!; [done|exact Hlog|done| |done].
  apply full_lineArguments.
Qed.
End FragmentsInDirectives.

(** C6.  A text fragment of multi-line branch content is the longest run of
    code units other than the braces and the dash, with [trim] applied; an
    inline text fragment is the longest run other than the braces, the pipe
    and the line breaks, and a top-level text fragment the longest run other
    than the braces, both as they are; each rule moves behind its run and
    fails only when the run is empty.  [trim] takes the white space off the
    two ends of the fragment and nothing else.  And so the texts reach
    [processEmbed] and the result: the arguments of a multi-line directive
    carry the trimmed texts of its branches, the arguments of an inline
    directive the texts of its branches as written, and the text around the
    directive is in the result as written. *)
Theorem multiline_text_is_trimmed_other_text_is_not :
  (∀ W (input : jsstring) (st : PegState W),
     readsRun trim [123; 125; 45]%N input st (peg_parseInlineMultilineText input st)
     ∧ readsRun id [123; 125; 124; 13; 10]%N input st (peg_parseInlineText input st)
     ∧ readsRun id [123; 125]%N input st (peg_parseText input st))
  ∧ (∀ s, trimmedFrom s (trim s))
  ∧ (∀ W (processEmbed : option EmbedType → list Argument → bool → W → PEResult * W)
       (options : W) (pre post indent first : jsstring) (others : list jsstring),
       alwaysReturns processEmbed →
       braceFree pre → braceFree post → blank indent →
       Forall plainLines (first :: others) →
       ∃ st c r w',
         peg_parse (pre ++ multilineDirective indent (first :: others) ++ post)
           processEmbed options
           = Ok (pre ++ r ++ post) st
         ∧ peg_embedLog st = [c]
         ∧ call_multiline c = true
         ∧ arg_full <$> call_args c = trim <$> (first :: others)
         ∧ processEmbed (call_type c) (call_args c) true options = (PE_return r, w'))
  ∧ (∀ W (processEmbed : option EmbedType → list Argument → bool → W → PEResult * W)
       (options : W) (pre post first : jsstring) (others : list jsstring),
       alwaysReturns processEmbed →
       braceFree pre → braceFree post →
       Forall plainBranch (first :: others) → unmarked first →
       ∃ st c r w',
         peg_parse (pre ++ inlineDirective first others ++ post) processEmbed options
           = Ok (pre ++ r ++ post) st
         ∧ peg_embedLog st = [c]
         ∧ call_multiline c = false
         ∧ arg_full <$> call_args c = first :: others
         ∧ processEmbed (call_type c) (call_args c) false options = (PE_return r, w')).
Proof.
  split_and!.
  - intros W input st. split_and!.
    + apply (readsRun_plus trim peg_c46); [apply peg_parseInlineMultilineText_spec|].
      apply inClass_inverted.
    + apply (readsRun_plus id peg_c49); [apply peg_parseInlineText_spec|].
      apply inClass_inverted.
    + apply (readsRun_plus id peg_c51); [apply peg_parseText_spec|].
      apply inClass_inverted.
  - apply trim_trimmedFrom.
  - intros W processEmbed options pre post indent first others Hret Hpre Hpost Hind Hplain.
    by apply multiline_branches_trimmed.
  - intros W processEmbed options pre post first others Hret Hpre Hpost Hplain Hun.
    by apply inline_branches_as_written.
Qed.

Lemma multiline_text_is_trimmed_other_text_is_not_witness :
  alwaysReturns lastBranch
  ∧ braceFree (js " Say ") ∧ braceFree (js " . ") ∧ blank (js "  ")
  ∧ Forall plainLines [js " hello" ++ [10%N] ++ js "  "; js " good day" ++ [10%N]]
  ∧ Forall plainBranch [js " sir "; js " madam "] ∧ unmarked (js " sir ")
  ∧ (∃ st c r w',
       peg_parse
         (js " Say "
          ++ multilineDirective (js "  ")
               [js " hello" ++ [10%N] ++ js "  "; js " good day" ++ [10%N]]
          ++ js " . ")
         lastBranch ()
         = Ok (js " Say " ++ r ++ js " . ") st
       ∧ peg_embedLog st = [c]
       ∧ call_multiline c = true
       ∧ arg_full <$> call_args c
         = trim <$> [js " hello" ++ [10%N] ++ js "  "; js " good day" ++ [10%N]]
       ∧ lastBranch (call_type c) (call_args c) true () = (PE_return r, w'))
  ∧ (∃ st c r w',
       peg_parse (js " Say " ++ inlineDirective (js " sir ") [js " madam "] ++ js " . ")
         lastBranch ()
         = Ok (js " Say " ++ r ++ js " . ") st
       ∧ peg_embedLog st = [c]
       ∧ call_multiline c = false
       ∧ arg_full <$> call_args c = [js " sir "; js " madam "]
       ∧ lastBranch (call_type c) (call_args c) false () = (PE_return r, w')).
Proof.
  assert (braceFree (js " Say ")) as H1
    by (unfold braceFree; apply (bool_decide_unpack _); vm_compute; reflexivity).
  assert (braceFree (js " . ")) as H2
    by (unfold braceFree; apply (bool_decide_unpack _); vm_compute; reflexivity).
  assert (blank (js "  ")) as H3
    by (unfold blank; apply (bool_decide_unpack _); vm_compute; reflexivity).
  assert (Forall plainLines [js " hello" ++ [10%N] ++ js "  "; js " good day" ++ [10%N]])
    as H4
    by (unfold plainLines; apply (bool_decide_unpack _); vm_compute; reflexivity).
  assert (Forall plainBranch [js " sir "; js " madam "]) as H5
    by (unfold plainBranch; apply (bool_decide_unpack _); vm_compute; reflexivity).
  assert (unmarked (js " sir ")) as H6
    by (unfold unmarked; apply (bool_decide_unpack _); vm_compute; reflexivity).
  split_and!; [exact lastBranch_returns|exact H1|exact H2|exact H3|exact H4|exact H5
              |exact H6| |].
  - exact (proj1 (proj2 (proj2 multiline_text_is_trimmed_other_text_is_not))
             unit lastBranch () (js " Say ") (js " . ") (js "  ")
             (js " hello" ++ [10%N] ++ js "  ") [js " good day" ++ [10%N]]
             lastBranch_returns H1 H2 H3 H4).
  - exact (proj2 (proj2 (proj2 multiline_text_is_trimmed_other_text_is_not))
             unit lastBranch () (js " Say ") (js " . ") (js " sir ") [js " madam "]
             lastBranch_returns H1 H2 H5 H6).
Defined.
